(** * Outbound data plane of wireguard-go: a shallow embedding

    The development follows [send.go] (work elements, the drop-oldest
    queues, the handshake trigger, the TUN reader, the nonce sequencer, the
    encryption workers and the sequential sender) and the Linux bind
    ([send4], [send6]); then the TUN device of the tests, the sockets of
    the bind, [receive4] and [receive6], the listener for route changes and
    [UAPIOpen].  Bytes and machine integers are [Z] with their
    ranges written out; Go slices of the element buffer are views
    (offset, length) into a [list Z]. *)

From stdpp Require Import base list gmap strings.
From Stdlib Require Import ZArith Lia.

Local Open Scope Z_scope.
#[local] Set Warnings "-clear-no-such-hyp".

(** ** Little-endian byte order ([encoding/binary]) *)

Module Wire.

(** [byte(v)] : conversion of an unsigned integer to [uint8]. *)
Definition byte_of (v : Z) : Z := Z.land v 255.

(** [binary.LittleEndian.PutUint32(b, v)] writes
    [byte(v), byte(v >> 8), byte(v >> 16), byte(v >> 24)]. *)
Definition PutUint32 (v : Z) : list Z :=
  [ byte_of v; byte_of (Z.shiftr v 8);
    byte_of (Z.shiftr v 16); byte_of (Z.shiftr v 24) ].

(** [binary.LittleEndian.PutUint64(b, v)]. *)
Definition PutUint64 (v : Z) : list Z :=
  [ byte_of v; byte_of (Z.shiftr v 8);
    byte_of (Z.shiftr v 16); byte_of (Z.shiftr v 24);
    byte_of (Z.shiftr v 32); byte_of (Z.shiftr v 40);
    byte_of (Z.shiftr v 48); byte_of (Z.shiftr v 56) ].

(** The reference reading of "[n] bytes, little endian": digit [i] of [v]
    in base 256, least significant first. *)
Fixpoint le_digits (n : nat) (v : Z) : list Z :=
  match n with
  | O => []
  | S n' => (v mod 256) :: le_digits n' (v / 256)
  end.

(** The number a little-endian byte string stands for. *)
Fixpoint le_value (bs : list Z) : Z :=
  match bs with
  | [] => 0
  | b :: bs' => b + 256 * le_value bs'
  end.

(** Writing [bs] into [buf] from index [off] on (a [copy] into a slice of
    the buffer that is long enough). *)
Fixpoint write_at (off : nat) (bs : list Z) (buf : list Z) : list Z :=
  match bs with
  | [] => buf
  | b :: bs' => write_at (S off) bs' (<[off := b]> buf)
  end.

(** [buf[off : off+len]]. *)
Definition subslice (off len : nat) (buf : list Z) : list Z :=
  take len (drop off buf).

End Wire.


(** ** Work elements, key pairs and constants ([send.go]) *)

Module Send.
Import Wire.

(** What the fragment takes from the rest of the repository and from its
    libraries: the AEAD of a key pair ([keyPair.send.Seal], whose result for
    a nonce, a plaintext and associated data is the ciphertext followed by
    the tag), the queue capacities, the sizes and the rekey constants of
    [constants.go], and the routing table. *)
Class Constants := {
  Key : Type;
  Seal : Key -> list Z -> list Z -> list Z -> list Z;
  MaxMessageSize : nat;
  MaxContentSize : Z;
  MessageKeepaliveSize : Z;
  QueueNonceSize : nat;
  QueueOutboundSize : nat;
  QueueEncryptionSize : nat;
  RekeyAfterMessages : Z;
  RejectAfterMessages : Z;
  RekeyAfterTime : Z;
  RejectAfterTime : Z;
  RekeyTimeout : Z;
  LookupIPv4 : list Z -> option nat;
  LookupIPv6 : list Z -> option nat;
}.

(** Modelled from the spec: the transport message type of
    [noise-protocol.go], "type:u32 LE = 4". *)
Definition MessageTransportType : Z := 4.

(** Modelled from the spec: the size of the transport header of
    [noise-protocol.go], "the pre-reserved 16-byte prefix". *)
Definition MessageTransportHeaderSize : nat := 16.

(** Modelled from the spec: [PaddingMultiple] of [constants.go], 16. *)
Definition PaddingMultiple : Z := 16.

(** [chacha20poly1305.NonceSize]. *)
Definition NonceSize : nat := 12.

(** A Go slice as the element uses it: [nil], a view
    [buffer[off : off+len]] whose capacity reaches the end of the buffer, or
    an array of its own that [append] or [Seal] allocated when the capacity
    of the buffer ran out. *)
Inductive Slice :=
| SliceNil
| SliceBuf (off len : nat)
| SliceNew (data : list Z).

Definition slice_len (s : Slice) : nat :=
  match s with
  | SliceNil => O
  | SliceBuf _ n => n
  | SliceNew d => length d
  end.

Definition slice_bytes (buf : list Z) (s : Slice) : list Z :=
  match s with
  | SliceNil => []
  | SliceBuf o n => subslice o n buf
  | SliceNew d => d
  end.

(** Instrumentation, never read by the code: where a work element is on
    its way through the pipeline. *)
Inductive Stage :=
| Fresh
| Pending (p : nat)
| InNonce
| InSeq
| Assigned
| InEnc
| InWork (w : nat)
| Finished.

(** Between the nonce assignment and the end of the encryption. *)
Definition stage_live (s : Stage) : bool :=
  match s with
  | Assigned | InEnc | InWork _ => true
  | _ => false
  end.

(** [type QueueOutboundElement struct].  [mutex] is [true] when locked;
    [keyPair] and [peer] are pointers (identifiers in the heaps of the
    device).  The last four fields are instrumentation: the number of
    [mutex.Unlock()] calls, the number of [PutMessageBuffer] calls on the
    buffer, the stage, and the peer on whose nonce queue the element was
    sent. *)
Record QueueOutboundElement := mkElem {
  dropped : bool;
  mutex : bool;
  buffer : list Z;
  packet : Slice;
  nonce : Z;
  keyPair : option nat;
  peer : option nat;
  unlocks : nat;
  returned : nat;
  stage : Stage;
  owner : option nat;
}.

Definition set_dropped (b : bool) (E : QueueOutboundElement) :=
  mkElem b (mutex E) (buffer E) (packet E) (nonce E) (keyPair E) (peer E)
         (unlocks E) (returned E) (stage E) (owner E).
Definition Lock (E : QueueOutboundElement) :=
  mkElem (dropped E) true (buffer E) (packet E) (nonce E) (keyPair E) (peer E)
         (unlocks E) (returned E) (stage E) (owner E).
Definition Unlock (E : QueueOutboundElement) :=
  mkElem (dropped E) false (buffer E) (packet E) (nonce E) (keyPair E) (peer E)
         (S (unlocks E)) (returned E) (stage E) (owner E).
Definition set_data (buf : list Z) (pkt : Slice) (E : QueueOutboundElement) :=
  mkElem (dropped E) (mutex E) buf pkt (nonce E) (keyPair E) (peer E)
         (unlocks E) (returned E) (stage E) (owner E).
Definition set_nonce (n : Z) (E : QueueOutboundElement) :=
  mkElem (dropped E) (mutex E) (buffer E) (packet E) n (keyPair E) (peer E)
         (unlocks E) (returned E) (stage E) (owner E).
Definition set_keyPair (k : option nat) (E : QueueOutboundElement) :=
  mkElem (dropped E) (mutex E) (buffer E) (packet E) (nonce E) k (peer E)
         (unlocks E) (returned E) (stage E) (owner E).
Definition set_peer (p : option nat) (E : QueueOutboundElement) :=
  mkElem (dropped E) (mutex E) (buffer E) (packet E) (nonce E) (keyPair E) p
         (unlocks E) (returned E) (stage E) (owner E).
Definition PutMessageBuffer (E : QueueOutboundElement) :=
  mkElem (dropped E) (mutex E) (buffer E) (packet E) (nonce E) (keyPair E) (peer E)
         (unlocks E) (S (returned E)) (stage E) (owner E).
Definition set_stage (s : Stage) (E : QueueOutboundElement) :=
  mkElem (dropped E) (mutex E) (buffer E) (packet E) (nonce E) (keyPair E) (peer E)
         (unlocks E) (returned E) s (owner E).
Definition set_owner (p : nat) (E : QueueOutboundElement) :=
  mkElem (dropped E) (mutex E) (buffer E) (packet E) (nonce E) (keyPair E) (peer E)
         (unlocks E) (returned E) (stage E) (Some p).

(** [elem.Drop()] and [elem.IsDropped()]. *)
Definition Drop (E : QueueOutboundElement) := set_dropped true E.
Definition IsDropped (E : QueueOutboundElement) : bool := dropped E.

(** [device.NewOutboundElement()]: the flag cleared, a buffer from the pool
    (its contents are whatever the pool hands out), the other fields zero. *)
Definition NewOutboundElement (buf : list Z) : QueueOutboundElement :=
  mkElem false false buf SliceNil 0 None None O O Fresh None.

(** The fields of [Keypair] the fragment reads; [sendNonce] is a [uint64],
    [remoteIndex] a [uint32], [created] a time in nanoseconds. *)
Record Keypair `{Constants} := mkKeypair {
  sendNonce : Z;
  created : Z;
  isInitiator : bool;
  remoteIndex : Z;
  send : Key;
}.

Definition set_sendNonce `{Constants} (n : Z) (K : Keypair) : Keypair :=
  mkKeypair _ n (created K) (isInitiator K) (remoteIndex K) (send K).

(** ** The body of [RoutineEncryption] on one element *)

Section Encryption.
Context `{Constants}.

(** [append(s, b)] for a slice of the element. *)
Definition append_byte (buf : list Z) (s : Slice) (b : Z) : list Z * Slice :=
  match s with
  | SliceNil => (buf, SliceNew [b])
  | SliceBuf o n =>
      if decide (o + n < length buf)%nat
      then (<[(o + n)%nat := b]> buf, SliceBuf o (S n))
      else (buf, SliceNew (subslice o n buf ++ [b]))
  | SliceNew d => (buf, SliceNew (d ++ [b]))
  end.

(** The loop
    [for i := 0; i < PaddingMultiple-rem && len(elem.packet) < mtu; i++],
    by the number [todo] of values of [i] left. *)
Fixpoint pad_loop (todo : nat) (mtu : Z) (buf : list Z) (s : Slice)
  : list Z * Slice :=
  match todo with
  | O => (buf, s)
  | S todo' =>
      if decide (Z.of_nat (slice_len s) < mtu)
      then let '(buf', s') := append_byte buf s 0 in pad_loop todo' mtu buf' s'
      else (buf, s)
  end.

(** "pad content to multiple of 16". *)
Definition pad_packet (mtu : Z) (buf : list Z) (s : Slice) : list Z * Slice :=
  let rem := Z.of_nat (slice_len s) mod PaddingMultiple in
  if decide (rem > 0)
  then pad_loop (Z.to_nat (PaddingMultiple - rem)) mtu buf s
  else (buf, s).

(** [Seal(header, ...)] appends its output [ct] to [header], the first
    [MessageTransportHeaderSize] bytes of the buffer: in place when the
    buffer is large enough, in a new array otherwise. *)
Definition seal_append (buf : list Z) (ct : list Z) : list Z * Slice :=
  if decide (MessageTransportHeaderSize + length ct <= length buf)%nat
  then (write_at MessageTransportHeaderSize ct buf,
        SliceBuf 0 (MessageTransportHeaderSize + length ct))
  else (buf, SliceNew (take MessageTransportHeaderSize buf ++ ct)).

(** One element that is not dropped: header, padding, nonce, [Seal],
    [Unlock].  [wnonce] is the worker's [var nonce [NonceSize]byte], which
    lives across the iterations of the loop; [K] is [*elem.keyPair]. *)
Definition encrypt_element (mtu : Z) (K : Keypair) (wnonce : list Z)
    (E : QueueOutboundElement) : list Z * QueueOutboundElement :=
  let buf1 := write_at 0 (PutUint32 MessageTransportType) (buffer E) in
  let buf2 := write_at 4 (PutUint32 (remoteIndex K)) buf1 in
  let buf3 := write_at 8 (PutUint64 (nonce E)) buf2 in
  let '(buf4, pkt) := pad_packet mtu buf3 (packet E) in
  let wnonce' := write_at 4 (PutUint64 (nonce E)) wnonce in
  let ct := Seal (send K) wnonce' (slice_bytes buf4 pkt) [] in
  let '(buf5, pkt') := seal_append buf4 ct in
  (wnonce', Unlock (set_data buf5 pkt' E)).

(** The packet view the TUN reader and [SendKeepalive] leave in an element:
    [nil] or [buffer[MessageTransportHeaderSize : ... + size]]. *)
Definition packet_ok (E : QueueOutboundElement) : Prop :=
  (MessageTransportHeaderSize <= length (buffer E))%nat /\
  match packet E with
  | SliceNil => True
  | SliceBuf o n => o = MessageTransportHeaderSize /\ (o + n <= length (buffer E))%nat
  | SliceNew _ => False
  end.

End Encryption.

(** ** Handshake initiation and the rekey trigger *)

(** [time.Duration] is an [int64] of nanoseconds; [t.Sub(u)] saturates. *)
Definition minDuration : Z := - 2 ^ 63.
Definition maxDuration : Z := 2 ^ 63 - 1.
Definition time_Sub (t u : Z) : Z := Z.max minDuration (Z.min maxDuration (t - u)).

(** The timer callbacks of [timers.go] that the fragment calls; the model
    records the calls. *)
Inductive TimerEvent :=
| AnyAuthenticatedPacketTraversal
| HandshakeInitiated
| DataSent.

(** [peer.timers], with the record of what the peer did: [hsCalls] holds the
    [isRetry] argument of every call of [SendHandshakeInitiation],
    [initiationsSent] every initiation packet handed to [SendBuffer], and
    [timerEvents] the timer callbacks; all three newest first. *)
Record Timers := mkTimers {
  handshakeAttempts : Z;
  lastSentHandshake : Z;
  hsCalls : list bool;
  initiationsSent : list (list Z);
  timerEvents : list TimerEvent;
}.

(** What one call of [SendHandshakeInitiation] gets from outside: the two
    readings of [time.Now()], the result of [CreateMessageInitiation]
    (the marshalled message, or an error), [peer.mac.AddMacs] and the
    result of [SendBuffer] ([None] is the [nil] error). *)
Record HsEnv := mkHsEnv {
  now_check : Z;
  now_stamp : Z;
  create : list Z + nat;
  AddMacs : list Z -> list Z;
  send_result : option nat;
}.

Section Handshake.
Context `{Constants}.

(** [func (peer *Peer) SendHandshakeInitiation(isRetry bool) error]. *)
Definition SendHandshakeInitiation (isRetry : bool) (env : HsEnv) (T : Timers)
  : Timers * option nat :=
  let attempts := if isRetry then handshakeAttempts T else 0 in
  let calls := isRetry :: hsCalls T in
  if decide (time_Sub (now_check env) (lastSentHandshake T) < RekeyTimeout)
  then (mkTimers attempts (lastSentHandshake T) calls (initiationsSent T)
                 (timerEvents T), None)
  else
    match create env with
    | inr err =>
        (mkTimers attempts (now_stamp env) calls (initiationsSent T)
                  (timerEvents T), Some err)
    | inl msg =>
        let packet := AddMacs env msg in
        (mkTimers attempts (now_stamp env) calls (packet :: initiationsSent T)
                  (HandshakeInitiated :: AnyAuthenticatedPacketTraversal
                     :: timerEvents T),
         send_result env)
    end.

(** [func (peer *Peer) keepKeyFreshSending()]; [kp] is
    [peer.keyPairs.Current()] and [now] the reading of [time.Now()]. *)
Definition keepKeyFreshSending (kp : option Keypair) (now : Z) (env : HsEnv)
    (T : Timers) : Timers :=
  match kp with
  | None => T
  | Some K =>
      let nonce := sendNonce K in
      if bool_decide (nonce > RekeyAfterMessages)
         || (isInitiator K && bool_decide (time_Sub now (created K) > RekeyAfterTime))
      then (SendHandshakeInitiation false env T).1
      else T
  end.

End Handshake.

(** ** Peers and the device *)

(** Where a producer stands in the loop of [addToOutboundQueue] or
    [addToEncryptionQueue]: at the outer [select] (send, or [default]), or
    at the inner one (take the oldest element out, or [default]). *)
Inductive PushPC := AtPush | AtEvict.

(** Program points of [RoutineNonce]: at [NextPacket]; in the key loop with
    the element just received; waiting in the second [select] of the key
    loop; draining the queue after [flushNonceQueue]; in
    [addToEncryptionQueue]; in [addToOutboundQueue]; returned. *)
Inductive SeqPC :=
| SeqNext
| SeqKey (e : nat)
| SeqAwait (e : nat)
| SeqFlush
| SeqEnc (e : nat) (pc : PushPC)
| SeqOut (e : nat) (pc : PushPC)
| SeqStopped.

(** Program points of [RoutineSequentialSender]: at the [select]; at
    [elem.mutex.Lock()]; returned. *)
Inductive SndPC :=
| SndNext
| SndLatch (e : nat)
| SndStopped.

(** Program points of [RoutineReadFromTUN]: before the first
    [NewOutboundElement]; at [Read] with the element in hand; in
    [addToOutboundQueue(peer.queue.nonce, elem)]; returned. *)
Inductive TunPC :=
| TunStart
| TunRead (e : nat)
| TunAdd (p e : nat) (pc : PushPC)
| TunClosed.

(** The fields of [Peer] the fragment uses.  The channels
    [signals.newKeypairArrived] and [signals.flushNonceQueue] hold at most
    one pending signal; [routines_stop] tells that [routines.stop] is
    closed.  [nonceLog] (every element sent on [queue.nonce], with [true]
    for those of the TUN reader and [false] for keepalives) and [sendLog]
    (every element given to [SendBuffer] by the sender, with [true] when it
    returned [nil]) are instrumentation, oldest first. *)
Record Peer := mkPeer {
  isRunning : bool;
  keyPairs_current : option nat;
  queue_nonce : list nat;
  queue_outbound : list nat;
  packetInNonceQueueIsAwaitingKey : bool;
  signals_newKeypairArrived : bool;
  signals_flushNonceQueue : bool;
  routines_stop : bool;
  timers : Timers;
  stats_txBytes : Z;
  seq_pc : SeqPC;
  snd_pc : SndPC;
  nonceLog : list (nat * bool);
  sendLog : list (nat * bool);
}.

Definition set_isRunning v (P : Peer) :=
  mkPeer v (keyPairs_current P) (queue_nonce P) (queue_outbound P)
    (packetInNonceQueueIsAwaitingKey P) (signals_newKeypairArrived P)
    (signals_flushNonceQueue P) (routines_stop P) (timers P) (stats_txBytes P)
    (seq_pc P) (snd_pc P) (nonceLog P) (sendLog P).
Definition set_current v (P : Peer) :=
  mkPeer (isRunning P) v (queue_nonce P) (queue_outbound P)
    (packetInNonceQueueIsAwaitingKey P) (signals_newKeypairArrived P)
    (signals_flushNonceQueue P) (routines_stop P) (timers P) (stats_txBytes P)
    (seq_pc P) (snd_pc P) (nonceLog P) (sendLog P).
Definition set_queue_nonce v (P : Peer) :=
  mkPeer (isRunning P) (keyPairs_current P) v (queue_outbound P)
    (packetInNonceQueueIsAwaitingKey P) (signals_newKeypairArrived P)
    (signals_flushNonceQueue P) (routines_stop P) (timers P) (stats_txBytes P)
    (seq_pc P) (snd_pc P) (nonceLog P) (sendLog P).
Definition set_queue_outbound v (P : Peer) :=
  mkPeer (isRunning P) (keyPairs_current P) (queue_nonce P) v
    (packetInNonceQueueIsAwaitingKey P) (signals_newKeypairArrived P)
    (signals_flushNonceQueue P) (routines_stop P) (timers P) (stats_txBytes P)
    (seq_pc P) (snd_pc P) (nonceLog P) (sendLog P).
Definition set_awaitingKey v (P : Peer) :=
  mkPeer (isRunning P) (keyPairs_current P) (queue_nonce P) (queue_outbound P)
    v (signals_newKeypairArrived P)
    (signals_flushNonceQueue P) (routines_stop P) (timers P) (stats_txBytes P)
    (seq_pc P) (snd_pc P) (nonceLog P) (sendLog P).
Definition set_newKeypairArrived v (P : Peer) :=
  mkPeer (isRunning P) (keyPairs_current P) (queue_nonce P) (queue_outbound P)
    (packetInNonceQueueIsAwaitingKey P) v
    (signals_flushNonceQueue P) (routines_stop P) (timers P) (stats_txBytes P)
    (seq_pc P) (snd_pc P) (nonceLog P) (sendLog P).
Definition set_flushNonceQueue v (P : Peer) :=
  mkPeer (isRunning P) (keyPairs_current P) (queue_nonce P) (queue_outbound P)
    (packetInNonceQueueIsAwaitingKey P) (signals_newKeypairArrived P)
    v (routines_stop P) (timers P) (stats_txBytes P)
    (seq_pc P) (snd_pc P) (nonceLog P) (sendLog P).
Definition set_stop v (P : Peer) :=
  mkPeer (isRunning P) (keyPairs_current P) (queue_nonce P) (queue_outbound P)
    (packetInNonceQueueIsAwaitingKey P) (signals_newKeypairArrived P)
    (signals_flushNonceQueue P) v (timers P) (stats_txBytes P)
    (seq_pc P) (snd_pc P) (nonceLog P) (sendLog P).
Definition set_timers v (P : Peer) :=
  mkPeer (isRunning P) (keyPairs_current P) (queue_nonce P) (queue_outbound P)
    (packetInNonceQueueIsAwaitingKey P) (signals_newKeypairArrived P)
    (signals_flushNonceQueue P) (routines_stop P) v (stats_txBytes P)
    (seq_pc P) (snd_pc P) (nonceLog P) (sendLog P).
Definition set_txBytes v (P : Peer) :=
  mkPeer (isRunning P) (keyPairs_current P) (queue_nonce P) (queue_outbound P)
    (packetInNonceQueueIsAwaitingKey P) (signals_newKeypairArrived P)
    (signals_flushNonceQueue P) (routines_stop P) (timers P) v
    (seq_pc P) (snd_pc P) (nonceLog P) (sendLog P).
Definition set_seq_pc v (P : Peer) :=
  mkPeer (isRunning P) (keyPairs_current P) (queue_nonce P) (queue_outbound P)
    (packetInNonceQueueIsAwaitingKey P) (signals_newKeypairArrived P)
    (signals_flushNonceQueue P) (routines_stop P) (timers P) (stats_txBytes P)
    v (snd_pc P) (nonceLog P) (sendLog P).
Definition set_snd_pc v (P : Peer) :=
  mkPeer (isRunning P) (keyPairs_current P) (queue_nonce P) (queue_outbound P)
    (packetInNonceQueueIsAwaitingKey P) (signals_newKeypairArrived P)
    (signals_flushNonceQueue P) (routines_stop P) (timers P) (stats_txBytes P)
    (seq_pc P) v (nonceLog P) (sendLog P).
Definition set_nonceLog v (P : Peer) :=
  mkPeer (isRunning P) (keyPairs_current P) (queue_nonce P) (queue_outbound P)
    (packetInNonceQueueIsAwaitingKey P) (signals_newKeypairArrived P)
    (signals_flushNonceQueue P) (routines_stop P) (timers P) (stats_txBytes P)
    (seq_pc P) (snd_pc P) v (sendLog P).
Definition set_sendLog v (P : Peer) :=
  mkPeer (isRunning P) (keyPairs_current P) (queue_nonce P) (queue_outbound P)
    (packetInNonceQueueIsAwaitingKey P) (signals_newKeypairArrived P)
    (signals_flushNonceQueue P) (routines_stop P) (timers P) (stats_txBytes P)
    (seq_pc P) (snd_pc P) (nonceLog P) v.

(** A peer as the control plane creates and starts it. *)
Definition new_peer : Peer :=
  mkPeer true None [] [] false false false false (mkTimers 0 0 [] [] [])
         0 SeqNext SndNext [] [].

(** An encryption worker: its nonce array and the element it works on. *)
Record Worker := mkWorker {
  w_nonce : list Z;
  w_elem : option nat;
}.

Section Device.
Context `{Constants}.

(** The device: the heaps of peers, work elements, key pairs and workers,
    the shared encryption queue, the TUN reader, the MTU
    ([device.tun.mtu]) and the calls of [SendKeepalive] that have made
    their element and not yet tried to send it (peer, element).  [sealed]
    is instrumentation: the key pair and the nonce of every call of [Seal],
    newest first. *)
Record Device := mkDevice {
  peers : gmap nat Peer;
  elems : gmap nat QueueOutboundElement;
  keypairs : gmap nat Keypair;
  workers : gmap nat Worker;
  queue_encryption : list nat;
  tun : TunPC;
  tun_mtu : Z;
  keepalives : gset (nat * nat);
  sealed : list (nat * Z);
}.

Definition set_peers v (d : Device) :=
  mkDevice v (elems d) (keypairs d) (workers d) (queue_encryption d) (tun d) (tun_mtu d) (keepalives d) (sealed d).
Definition set_elems v (d : Device) :=
  mkDevice (peers d) v (keypairs d) (workers d) (queue_encryption d) (tun d) (tun_mtu d) (keepalives d) (sealed d).
Definition set_keypairs v (d : Device) :=
  mkDevice (peers d) (elems d) v (workers d) (queue_encryption d) (tun d) (tun_mtu d) (keepalives d) (sealed d).
Definition set_workers v (d : Device) :=
  mkDevice (peers d) (elems d) (keypairs d) v (queue_encryption d) (tun d) (tun_mtu d) (keepalives d) (sealed d).
Definition set_queue_encryption v (d : Device) :=
  mkDevice (peers d) (elems d) (keypairs d) (workers d) v (tun d) (tun_mtu d) (keepalives d) (sealed d).
Definition set_tun v (d : Device) :=
  mkDevice (peers d) (elems d) (keypairs d) (workers d) (queue_encryption d) v (tun_mtu d) (keepalives d) (sealed d).
Definition set_tun_mtu v (d : Device) :=
  mkDevice (peers d) (elems d) (keypairs d) (workers d) (queue_encryption d) (tun d) v (keepalives d) (sealed d).
Definition set_keepalives v (d : Device) :=
  mkDevice (peers d) (elems d) (keypairs d) (workers d) (queue_encryption d) (tun d) (tun_mtu d) v (sealed d).
Definition set_sealed v (d : Device) :=
  mkDevice (peers d) (elems d) (keypairs d) (workers d) (queue_encryption d) (tun d) (tun_mtu d) (keepalives d) v.

Definition put_peer (p : nat) (P : Peer) (d : Device) : Device :=
  set_peers (<[p := P]> (peers d)) d.
Definition put_elem (e : nat) (E : QueueOutboundElement) (d : Device) : Device :=
  set_elems (<[e := E]> (elems d)) d.

Definition initial_device (mtu : Z) : Device :=
  mkDevice ∅ ∅ ∅ ∅ [] TunStart mtu ∅ [].

End Device.

(** ** The TUN reader and [SendKeepalive] *)

(** [ipv4.Version], [ipv4.HeaderLen], [ipv6.Version], [ipv6.HeaderLen]
    ([golang.org/x/net]) and [net.IPv4len], [net.IPv6len]. *)
Definition ipv4_Version : Z := 4.
Definition ipv4_HeaderLen : nat := 20.
Definition ipv6_Version : Z := 6.
Definition ipv6_HeaderLen : nat := 40.
Definition IPv4len : nat := 4.
Definition IPv6len : nat := 16.

(** Modelled from the spec: [IPv4offsetDst] and [IPv6offsetDst] of [ip.go],
    "extract dst at fixed offset 16" and "at fixed offset 24". *)
Definition IPv4offsetDst : nat := 16.
Definition IPv6offsetDst : nat := 24.

Section Tun.
Context `{Constants}.

(** "lookup peer": the [switch elem.packet[0] >> 4] of
    [RoutineReadFromTUN].  [None] is both a [continue] inside the switch and
    a [nil] peer after it: the loop goes on with the same element. *)
Definition lookup_peer (pkt : list Z) : option nat :=
  match pkt with
  | [] => None
  | b0 :: _ =>
      let version := Z.shiftr b0 4 in
      if decide (version = ipv4_Version) then
        if decide (length pkt < ipv4_HeaderLen)%nat then None
        else LookupIPv4 (subslice IPv4offsetDst IPv4len pkt)
      else if decide (version = ipv6_Version) then
        if decide (length pkt < ipv6_HeaderLen)%nat then None
        else LookupIPv6 (subslice IPv6offsetDst IPv6len pkt)
      else None
  end.

(** The first [NewOutboundElement] of the routine; [e] is the address of
    the new element and [buf] the buffer the pool hands out. *)
Definition tun_begin (e : nat) (buf : list Z) (d : Device) : option Device :=
  match tun d with
  | TunStart =>
      if decide (elems d !! e = None /\ length buf = MaxMessageSize)
      then Some (set_tun (TunRead e) (put_elem e (NewOutboundElement buf) d))
      else None
  | _ => None
  end.

(** One iteration of the loop up to [addToOutboundQueue], for a [Read] that
    returns the packet [pkt] (copied into the buffer behind the header). *)
Definition tun_read (pkt : list Z) (env : HsEnv) (d : Device) : option Device :=
  match tun d with
  | TunRead e =>
      E ← elems d !! e;
      let offset := MessageTransportHeaderSize in
      let buf := write_at offset pkt (buffer E) in
      let size := length pkt in
      if decide (Z.of_nat size = 0 \/ Z.of_nat size > MaxContentSize)
      then Some (put_elem e (set_data buf (packet E) E) d)
      else if decide (offset + size <= length buf)%nat then
        let E1 := set_data buf (SliceBuf offset size) E in
        let d1 := put_elem e E1 d in
        match lookup_peer (slice_bytes buf (packet E1)) with
        | None => Some d1
        | Some p =>
            P ← peers d !! p;
            if isRunning P then
              let P1 :=
                if packetInNonceQueueIsAwaitingKey P
                then set_timers (SendHandshakeInitiation false env (timers P)).1 P
                else P in
              Some (set_tun (TunAdd p e AtPush) (put_peer p P1 d1))
            else Some d1
        end
      else None
  | _ => None
  end.

(** A [Read] that fails: [device.Close()] and return. *)
Definition tun_read_error (d : Device) : option Device :=
  match tun d with
  | TunRead _ => Some (set_tun TunClosed d)
  | _ => None
  end.

(** One [select] of [addToOutboundQueue(peer.queue.nonce, elem)]; after the
    send, [elem = device.NewOutboundElement()] with the new address [e']
    and buffer [buf']. *)
Definition tun_add (e' : nat) (buf' : list Z) (d : Device) : option Device :=
  match tun d with
  | TunAdd p e AtPush =>
      P ← peers d !! p;
      E ← elems d !! e;
      if decide (length (queue_nonce P) < QueueNonceSize)%nat then
        if decide (elems d !! e' = None /\ length buf' = MaxMessageSize) then
          let P1 := set_nonceLog (nonceLog P ++ [(e, true)])
                      (set_queue_nonce (queue_nonce P ++ [e]) P) in
          Some (set_tun (TunRead e')
                  (put_elem e' (NewOutboundElement buf')
                     (put_elem e (set_owner p (set_stage InNonce E))
                        (put_peer p P1 d))))
        else None
      else Some (set_tun (TunAdd p e AtEvict) d)
  | TunAdd p e AtEvict =>
      P ← peers d !! p;
      match queue_nonce P with
      | old :: q =>
          O ← elems d !! old;
          Some (set_tun (TunAdd p e AtPush)
                  (put_elem old (set_stage Finished (Drop O))
                     (put_peer p (set_queue_nonce q P) d)))
      | [] => Some (set_tun (TunAdd p e AtPush) d)
      end
  | _ => None
  end.

(** [SendKeepalive] up to its [select]: the test of the queue and the new
    element with [elem.packet = nil]. *)
Definition keepalive_make (p e : nat) (buf : list Z) (d : Device) : option Device :=
  P ← peers d !! p;
  if decide (length (queue_nonce P) <> O \/ packetInNonceQueueIsAwaitingKey P = true)
  then Some d
  else if decide (elems d !! e = None /\ length buf = MaxMessageSize)
  then Some (set_keepalives ({[ (p, e) ]} ∪ keepalives d)
               (put_elem e (set_stage (Pending p)
                              (set_data buf SliceNil (NewOutboundElement buf))) d))
  else None.

(** The [select] of [SendKeepalive]: send on the nonce queue, or give up. *)
Definition keepalive_send (p e : nat) (d : Device) : option Device :=
  if decide ((p, e) ∈ keepalives d) then
    P ← peers d !! p;
    E ← elems d !! e;
    let d1 := set_keepalives (keepalives d ∖ {[ (p, e) ]}) d in
    if decide (length (queue_nonce P) < QueueNonceSize)%nat then
      let P1 := set_nonceLog (nonceLog P ++ [(e, false)])
                  (set_queue_nonce (queue_nonce P ++ [e]) P) in
      Some (put_elem e (set_owner p (set_stage InNonce E)) (put_peer p P1 d1))
    else Some (put_elem e (set_stage Finished E) d1)
  else None.

End Tun.

(** ** The nonce sequencer, [RoutineNonce] *)

(** The case a [select] with several ready cases takes. *)
Inductive Choice := ChStop | ChRecv | ChNewKey | ChFlush.

Section Sequencer.
Context `{Constants}.

(** The test of the key loop: a key pair whose send nonce and age are below
    the reject limits. *)
Definition usable (K : Keypair) (now : Z) : bool :=
  bool_decide (sendNonce K < RejectAfterMessages)
  && bool_decide (time_Sub now (created K) < RejectAfterTime).

(** [atomic.AddUint64(&keyPair.sendNonce, 1) - 1]: the new counter and the
    nonce of the element, both [uint64]. *)
Definition AddUint64 (v delta : Z) : Z := (v + delta) mod 2 ^ 64.
Definition fetch_nonce (K : Keypair) : Keypair * Z :=
  let new := AddUint64 (sendNonce K) 1 in
  (set_sendNonce new K, (new - 1) mod 2 ^ 64).

(** The sequencer goes back to [NextPacket], where it first clears
    [packetInNonceQueueIsAwaitingKey]. *)
Definition to_NextPacket (P : Peer) : Peer :=
  set_seq_pc SeqNext (set_awaitingKey false P).

(** "populate work element", after the fetch: the element [e] of peer [p]
    got the nonce [n] under the key pair [k].  Past the reject limit the
    sequencer goes to the next packet; otherwise it fills the element in,
    locks its mutex and turns to the two queues. *)
Definition seq_submit (p e : nat) (E : QueueOutboundElement) (k : nat) (n : Z)
    (P : Peer) (d : Device) : option Device :=
  let E1 := set_nonce n (set_peer (Some p) E) in
  if decide (n >= RejectAfterMessages) then
    Some (put_elem e (set_stage Finished E1) (put_peer p (to_NextPacket P) d))
  else if mutex E1 then None
  else
    let E2 := Lock (set_dropped false (set_keyPair (Some k) E1)) in
    Some (put_elem e (set_stage Assigned E2)
            (put_peer p (set_seq_pc (SeqEnc e AtPush) (set_awaitingKey false P)) d)).

(** One step of the sequencer of peer [p]: [ch] is the case taken where a
    [select] blocks, [now] the reading of [time.Now()] in the key loop. *)
Definition seq_step (p : nat) (ch : Choice) (now : Z) (env : HsEnv)
    (d : Device) : option Device :=
  P ← peers d !! p;
  match seq_pc P with
  | SeqNext =>
      match ch with
      | ChStop =>
          if routines_stop P
          then Some (put_peer p (set_seq_pc SeqStopped (set_awaitingKey false P)) d)
          else None
      | ChRecv =>
          match queue_nonce P with
          | e :: q =>
              E ← elems d !! e;
              Some (put_elem e (set_stage InSeq E)
                      (put_peer p (set_seq_pc (SeqKey e) (set_queue_nonce q P)) d))
          | [] => None
          end
      | _ => None
      end
  | SeqKey e =>
      E ← elems d !! e;
      let current := k ← keyPairs_current P; K ← keypairs d !! k; Some (k, K) in
      match current with
      | Some (k, K) =>
          if usable K now then
            let '(K', n) := fetch_nonce K in
            seq_submit p e E k n P (set_keypairs (<[k := K']> (keypairs d)) d)
          else
            let T := (SendHandshakeInitiation false env (timers P)).1 in
            Some (put_peer p (set_seq_pc (SeqAwait e)
                                (set_timers T
                                   (set_newKeypairArrived false
                                      (set_awaitingKey true P)))) d)
      | None =>
          let T := (SendHandshakeInitiation false env (timers P)).1 in
          Some (put_peer p (set_seq_pc (SeqAwait e)
                              (set_timers T
                                 (set_newKeypairArrived false
                                    (set_awaitingKey true P)))) d)
      end
  | SeqAwait e =>
      match ch with
      | ChNewKey =>
          if signals_newKeypairArrived P
          then Some (put_peer p (set_seq_pc (SeqKey e)
                                   (set_newKeypairArrived false P)) d)
          else None
      | ChFlush =>
          E ← elems d !! e;
          if signals_flushNonceQueue P
          then Some (put_elem e (set_stage Finished E)
                       (put_peer p (set_seq_pc SeqFlush
                                      (set_flushNonceQueue false P)) d))
          else None
      | ChStop =>
          if routines_stop P
          then Some (put_peer p (set_seq_pc SeqStopped (set_awaitingKey false P)) d)
          else None
      | ChRecv => None
      end
  | SeqFlush =>
      match queue_nonce P with
      | old :: q =>
          O ← elems d !! old;
          Some (put_elem old (set_stage Finished O)
                  (put_peer p (set_queue_nonce q P) d))
      | [] => Some (put_peer p (to_NextPacket P) d)
      end
  | SeqEnc e AtPush =>
      E ← elems d !! e;
      if decide (length (queue_encryption d) < QueueEncryptionSize)%nat
      then Some (set_queue_encryption (queue_encryption d ++ [e])
                   (put_elem e (set_stage InEnc E)
                      (put_peer p (set_seq_pc (SeqOut e AtPush) P) d)))
      else Some (put_peer p (set_seq_pc (SeqEnc e AtEvict) P) d)
  | SeqEnc e AtEvict =>
      match queue_encryption d with
      | old :: q =>
          O ← elems d !! old;
          if mutex O
          then Some (set_queue_encryption q
                       (put_elem old (set_stage Finished (Unlock (Drop O)))
                          (put_peer p (set_seq_pc (SeqEnc e AtPush) P) d)))
          else None
      | [] => Some (put_peer p (set_seq_pc (SeqEnc e AtPush) P) d)
      end
  | SeqOut e AtPush =>
      if decide (length (queue_outbound P) < QueueOutboundSize)%nat
      then Some (put_peer p (to_NextPacket
                               (set_queue_outbound (queue_outbound P ++ [e]) P)) d)
      else Some (put_peer p (set_seq_pc (SeqOut e AtEvict) P) d)
  | SeqOut e AtEvict =>
      match queue_outbound P with
      | old :: q =>
          O ← elems d !! old;
          Some (put_elem old (Drop O)
                  (put_peer p (set_seq_pc (SeqOut e AtPush)
                                 (set_queue_outbound q P)) d))
      | [] => Some (put_peer p (set_seq_pc (SeqOut e AtPush) P) d)
      end
  | SeqStopped => None
  end.

End Sequencer.

(** ** The encryption workers, the sequential sender and the machine *)

Section Machine.
Context `{Constants}.

(** A worker receives from the encryption queue and tests [IsDropped]. *)
Definition worker_pop (w : nat) (d : Device) : option Device :=
  W ← workers d !! w;
  match w_elem W, queue_encryption d with
  | None, e :: q =>
      E ← elems d !! e;
      if IsDropped E
      then Some (set_queue_encryption q (put_elem e (set_stage Finished E) d))
      else Some (set_workers (<[w := mkWorker (w_nonce W) (Some e)]> (workers d))
                   (set_queue_encryption q (put_elem e (set_stage (InWork w) E) d)))
  | _, _ => None
  end.

(** The worker writes the header, pads, seals and unlocks. *)
Definition worker_seal (w : nat) (d : Device) : option Device :=
  W ← workers d !! w;
  e ← w_elem W;
  E ← elems d !! e;
  k ← keyPair E;
  K ← keypairs d !! k;
  if mutex E then
    let '(wn, E') := encrypt_element (tun_mtu d) K (w_nonce W) E in
    Some (set_sealed ((k, nonce E) :: sealed d)
            (set_workers (<[w := mkWorker wn None]> (workers d))
               (put_elem e (set_stage Finished E') d)))
  else None.

(** What follows a [SendBuffer] that returned [nil]: the byte counter, the
    timers and [keepKeyFreshSending]. *)
Definition after_send (len : nat) (kp : option Keypair) (now : Z) (env : HsEnv)
    (P : Peer) : Peer :=
  let T := timers P in
  let T1 := mkTimers (handshakeAttempts T) (lastSentHandshake T) (hsCalls T)
              (initiationsSent T)
              (if decide (Z.of_nat len <> MessageKeepaliveSize)
               then DataSent :: AnyAuthenticatedPacketTraversal :: timerEvents T
               else AnyAuthenticatedPacketTraversal :: timerEvents T) in
  set_timers (keepKeyFreshSending kp now env T1)
    (set_txBytes (AddUint64 (stats_txBytes P) (Z.of_nat len)) P).

(** One step of the sender of peer [p]; [res] is the result of
    [peer.SendBuffer(elem.packet)], [None] for [nil]. *)
Definition snd_step (p : nat) (ch : Choice) (res : option nat) (now : Z)
    (env : HsEnv) (d : Device) : option Device :=
  P ← peers d !! p;
  match snd_pc P with
  | SndNext =>
      match ch with
      | ChStop =>
          if routines_stop P
          then Some (put_peer p (set_snd_pc SndStopped P) d)
          else None
      | ChRecv =>
          match queue_outbound P with
          | e :: q =>
              Some (put_peer p (set_snd_pc (SndLatch e) (set_queue_outbound q P)) d)
          | [] => None
          end
      | _ => None
      end
  | SndLatch e =>
      E ← elems d !! e;
      if mutex E then None
      else
        let E1 := Lock E in
        if IsDropped E1
        then Some (put_elem e E1 (put_peer p (set_snd_pc SndNext P) d))
        else
          let len := slice_len (packet E1) in
          let E2 := PutMessageBuffer E1 in
          match res with
          | Some _ =>
              Some (put_elem e E2
                      (put_peer p (set_sendLog (sendLog P ++ [(e, false)])
                                     (set_snd_pc SndNext P)) d))
          | None =>
              let kp := k ← keyPairs_current P; keypairs d !! k in
              Some (put_elem e E2
                      (put_peer p (after_send len kp now env
                                     (set_sendLog (sendLog P ++ [(e, true)])
                                        (set_snd_pc SndNext P))) d))
          end
  | SndStopped => None
  end.

(** What the rest of the program does to the fragment: it creates peers and
    workers, installs or removes the current key pair of a peer (the
    handshake, the timers), signals [flushNonceQueue], stops a peer, and
    changes the MTU. *)
Definition env_new_peer (p : nat) (d : Device) : option Device :=
  match peers d !! p with
  | None => Some (put_peer p new_peer d)
  | Some _ => None
  end.

Definition env_spawn_worker (w : nat) (d : Device) : option Device :=
  match workers d !! w with
  | None => Some (set_workers (<[w := mkWorker (replicate NonceSize 0) None]>
                                 (workers d)) d)
  | Some _ => None
  end.

Definition env_new_keypair (p k : nat) (K : Keypair) (d : Device) : option Device :=
  P ← peers d !! p;
  if decide (keypairs d !! k = None /\ 0 <= sendNonce K < 2 ^ 64)
  then Some (set_keypairs (<[k := K]> (keypairs d))
               (put_peer p (set_newKeypairArrived true (set_current (Some k) P)) d))
  else None.

Definition env_clear_keypair (p : nat) (d : Device) : option Device :=
  P ← peers d !! p;
  Some (put_peer p (set_current None P) d).

(** [peer.FlushNonceQueue()]. *)
Definition FlushNonceQueue (p : nat) (d : Device) : option Device :=
  P ← peers d !! p;
  Some (put_peer p (set_flushNonceQueue true P) d).

Definition env_stop (p : nat) (d : Device) : option Device :=
  P ← peers d !! p;
  Some (put_peer p (set_stop true (set_isRunning false P)) d).

Inductive Label :=
| LNewPeer (p : nat)
| LSpawnWorker (w : nat)
| LNewKeypair (p k : nat) (K : Keypair)
| LClearKeypair (p : nat)
| LFlush (p : nat)
| LStop (p : nat)
| LSetMTU (mtu : Z)
| LTunBegin (e : nat) (buf : list Z)
| LTunRead (pkt : list Z) (env : HsEnv)
| LTunReadError
| LTunAdd (e : nat) (buf : list Z)
| LKeepaliveMake (p e : nat) (buf : list Z)
| LKeepaliveSend (p e : nat)
| LSeq (p : nat) (ch : Choice) (now : Z) (env : HsEnv)
| LWorkerPop (w : nat)
| LWorkerSeal (w : nat)
| LSender (p : nat) (ch : Choice) (res : option nat) (now : Z) (env : HsEnv).

(** One atomic step of one goroutine, or of the environment. *)
Definition step (l : Label) (d : Device) : option Device :=
  match l with
  | LNewPeer p => env_new_peer p d
  | LSpawnWorker w => env_spawn_worker w d
  | LNewKeypair p k K => env_new_keypair p k K d
  | LClearKeypair p => env_clear_keypair p d
  | LFlush p => FlushNonceQueue p d
  | LStop p => env_stop p d
  | LSetMTU mtu => Some (set_tun_mtu mtu d)
  | LTunBegin e buf => tun_begin e buf d
  | LTunRead pkt env => tun_read pkt env d
  | LTunReadError => tun_read_error d
  | LTunAdd e buf => tun_add e buf d
  | LKeepaliveMake p e buf => keepalive_make p e buf d
  | LKeepaliveSend p e => keepalive_send p e d
  | LSeq p ch now env => seq_step p ch now env d
  | LWorkerPop w => worker_pop w d
  | LWorkerSeal w => worker_seal w d
  | LSender p ch res now env => snd_step p ch res now env d
  end.

(** Running a schedule from a state. *)
Fixpoint run (ls : list Label) (d : Device) : option Device :=
  match ls with
  | [] => Some d
  | l :: ls' => d' ← step l d; run ls' d'
  end.

(** The states the device reaches from its start. *)
Inductive reachable : Device -> Prop :=
| reachable_init mtu : reachable (initial_device mtu)
| reachable_step l d d' : reachable d -> step l d = Some d' -> reachable d'.

(** The elements a peer's sequencer and sender hold. *)
Definition seq_held (P : Peer) : list nat :=
  match seq_pc P with
  | SeqKey e | SeqAwait e | SeqEnc e _ | SeqOut e _ => [e]
  | _ => []
  end.

Definition snd_held (P : Peer) : list nat :=
  match snd_pc P with
  | SndLatch e => [e]
  | _ => []
  end.

(** The elements of a peer from the oldest to the newest: those given to
    [SendBuffer], the one the sender holds, the outbound queue, the one the
    sequencer holds, the nonce queue. *)
Definition chain (P : Peer) : list nat :=
  (sendLog P).*1 ++ snd_held P ++ queue_outbound P ++ seq_held P ++ queue_nonce P.

(** The packets read from TUN for a peer, in the order of the reads, and
    the elements whose datagram went out, in the order of the sends. *)
Definition tun_packets (P : Peer) : list nat := (filter (fun x => x.2 = true) (nonceLog P)).*1.
Definition sent_packets (P : Peer) : list nat := (filter (fun x => x.2 = true) (sendLog P)).*1.

End Machine.

(** ** A small configuration to run the definitions on *)

(** A stand-in for the AEAD: the plaintext with every byte flipped, then a
    16-byte tag made of the low byte of the nonce. *)
Definition sample_Seal (_ : unit) (n pt aad : list Z) : list Z :=
  map (fun b => Z.lxor b 255) pt ++ replicate 16 (default 0 (n !! 4%nat)).

Definition sample_constants : Constants := {|
  Key := unit;
  Seal := sample_Seal;
  MaxMessageSize := 96;
  MaxContentSize := 64;
  MessageKeepaliveSize := 32;
  QueueNonceSize := 2;
  QueueOutboundSize := 1;
  QueueEncryptionSize := 2;
  RekeyAfterMessages := 8;
  RejectAfterMessages := 16;
  RekeyAfterTime := 120;
  RejectAfterTime := 180;
  RekeyTimeout := 5;
  LookupIPv4 := fun dst => if decide (dst = [10; 0; 0; 2]) then Some 0%nat else None;
  LookupIPv6 := fun _ => None;
|}.

(** An IPv4 packet of 20 bytes for 10.0.0.2, a buffer as the pool hands it
    out, and answers of the world around [SendHandshakeInitiation]. *)
Definition sample_packet : list Z :=
  [69; 0; 0; 20; 0; 0; 0; 0; 64; 17; 0; 0; 10; 0; 0; 1; 10; 0; 0; 2].
Definition sample_buffer : list Z := replicate 96 0.
Definition sample_env : HsEnv := mkHsEnv 1 1 (inl [1]) (fun m => m) None.
Definition sample_keypair : @Keypair sample_constants :=
  @mkKeypair sample_constants 0 0 true 7 tt.

(** Two packets for peer 0, which has a key pair: the sequencer hands the
    first to the encryption queue and to the outbound queue (of capacity
    1), then the second, which evicts the first from the outbound queue.
    The first is then the oldest element of the encryption queue. *)
Definition schedule_outbound_eviction : list (@Label sample_constants) :=
  [ LNewPeer 0; LSpawnWorker 0; LNewKeypair 0 0 sample_keypair;
    LTunBegin 0 sample_buffer;
    LTunRead sample_packet sample_env; LTunAdd 1 sample_buffer;
    LTunRead sample_packet sample_env; LTunAdd 2 sample_buffer;
    LSeq 0 ChRecv 1 sample_env; LSeq 0 ChRecv 1 sample_env;
    LSeq 0 ChRecv 1 sample_env; LSeq 0 ChRecv 1 sample_env;
    LSeq 0 ChRecv 1 sample_env; LSeq 0 ChRecv 1 sample_env;
    LSeq 0 ChRecv 1 sample_env; LSeq 0 ChRecv 1 sample_env;
    LSeq 0 ChRecv 1 sample_env; LSeq 0 ChRecv 1 sample_env ].

Definition seq_steps (n : nat) : list (@Label sample_constants) :=
  replicate n (LSeq 0 ChRecv 1 sample_env).
Definition sender_step : @Label sample_constants :=
  LSender 0 ChRecv None 1 sample_env.

(** Three packets for peer 0.  The sender receives the first from the
    outbound queue and waits for its mutex; the third finds the encryption
    queue (of capacity 2) full, so the sequencer evicts the first, which it
    drops and unlocks.  The sender is then at [elem.mutex.Lock()] with the
    first. *)
Definition schedule_encryption_eviction : list (@Label sample_constants) :=
  [ LNewPeer 0; LNewKeypair 0 0 sample_keypair; LTunBegin 0 sample_buffer;
    LTunRead sample_packet sample_env; LTunAdd 1 sample_buffer ]
  ++ seq_steps 4 ++ [ sender_step ]
  ++ [ LTunRead sample_packet sample_env; LTunAdd 2 sample_buffer ]
  ++ seq_steps 4
  ++ [ LTunRead sample_packet sample_env; LTunAdd 3 sample_buffer ]
  ++ seq_steps 8.

(** Two packets for peer 0, which has no key pair; the sequencer waits with
    the first, [FlushNonceQueue] is called, and the sequencer takes the
    signal.  The second packet is then the oldest of the nonce queue. *)
Definition schedule_flush : list (@Label sample_constants) :=
  [ LNewPeer 0; LTunBegin 0 sample_buffer;
    LTunRead sample_packet sample_env; LTunAdd 1 sample_buffer;
    LTunRead sample_packet sample_env; LTunAdd 2 sample_buffer ]
  ++ seq_steps 2
  ++ [ LFlush 0; LSeq 0 ChFlush 1 sample_env ].

(** Two packets for peer 0, each sequenced, sealed by the worker and sent
    before the next. *)
Definition schedule_two_sent : list (@Label sample_constants) :=
  [ LNewPeer 0; LSpawnWorker 0; LNewKeypair 0 0 sample_keypair;
    LTunBegin 0 sample_buffer;
    LTunRead sample_packet sample_env; LTunAdd 1 sample_buffer;
    LTunRead sample_packet sample_env; LTunAdd 2 sample_buffer ]
  ++ seq_steps 4 ++ [ LWorkerPop 0; LWorkerSeal 0; sender_step; sender_step ]
  ++ seq_steps 4 ++ [ LWorkerPop 0; LWorkerSeal 0; sender_step; sender_step ].
(** ** Predicates of the properties *)

Section Properties.
Context `{Constants}.

(** A packet view that lies behind the header, or is detached. *)
Definition slice_ok (buf : list Z) (s : Slice) : Prop :=
  match s with
  | SliceBuf o n => (MessageTransportHeaderSize <= o)%nat /\ (o + n <= length buf)%nat
  | _ => True
  end.

(** The worker's nonce array between two iterations. *)
Definition worker_nonce_ok (wn : list Z) : Prop :=
  length wn = NonceSize /\ take 4 wn = [0; 0; 0; 0].

(** The number of zero bytes the padding appends to [L] bytes. *)
Definition pad_count (mtu : Z) (L : nat) : nat :=
  if decide (Z.of_nat L mod 16 = 0) then O
  else Z.to_nat (Z.min (16 - Z.of_nat L mod 16) (Z.max 0 (mtu - Z.of_nat L))).

(** A call of [SendHandshakeInitiation(false)] was made between [T] and [T']. *)
Definition triggered (T T' : Timers) : Prop := hsCalls T' = false :: hsCalls T.

(** The element the sequencer holds before the nonce assignment, and after
    it while it is not yet on the encryption queue. *)
Definition seq_early (P : Peer) : list nat :=
  match seq_pc P with
  | SeqKey e | SeqAwait e => [e]
  | _ => []
  end.

Definition seq_assigned (P : Peer) : list nat :=
  match seq_pc P with
  | SeqEnc e _ => [e]
  | _ => []
  end.

(** The elements of a peer that were not given to [SendBuffer]. *)
Definition unsent (P : Peer) : list nat :=
  snd_held P ++ queue_outbound P ++ seq_held P ++ queue_nonce P.

(** What a peer knows of its elements in the heap [h]. *)
Definition elem_of_peer (h : gmap nat QueueOutboundElement) (p : nat) (P : Peer)
    (e : nat) : Prop :=
  exists E, h !! e = Some E /\ owner E = Some p
    /\ (e ∈ queue_nonce P -> stage E = InNonce)
    /\ (e ∈ seq_early P -> stage E = InSeq)
    /\ (e ∈ seq_assigned P -> stage E = Assigned)
    /\ (e ∈ unsent P -> returned E = O).

Definition peer_ok (h : gmap nat QueueOutboundElement) (p : nat) (P : Peer) : Prop :=
  NoDup (nonceLog P).*1
  /\ chain P `sublist_of` (nonceLog P).*1
  /\ forall e, e ∈ (nonceLog P).*1 -> elem_of_peer h p P e.

(** The stages in which the sequencer has not yet handed the element on. *)
Definition early (s : Stage) : bool :=
  match s with
  | Fresh | Pending _ | InNonce | InSeq | Assigned => true
  | _ => false
  end.

Definition elem_ok (E : QueueOutboundElement) : Prop :=
  (unlocks E <= 1)%nat /\ (returned E <= 1)%nat
  /\ (stage E <> Finished -> unlocks E = O)
  /\ (stage_live (stage E) = true -> mutex E = true)
  /\ (owner E = None -> returned E = O)
  /\ (stage E = Fresh \/ (exists p, stage E = Pending p) -> owner E = None).

Definition stage_at (h : gmap nat QueueOutboundElement) (e : nat) (s : Stage) : Prop :=
  exists E, h !! e = Some E /\ stage E = s.

Definition tun_ok (h : gmap nat QueueOutboundElement) (t : TunPC) : Prop :=
  match t with
  | TunRead e | TunAdd _ e _ => stage_at h e Fresh
  | _ => True
  end.

Definition ka_ok (h : gmap nat QueueOutboundElement) (ka : gset (nat * nat)) : Prop :=
  forall p e, (p, e) ∈ ka -> stage_at h e (Pending p).

Definition enc_ok (h : gmap nat QueueOutboundElement) (q : list nat) : Prop :=
  NoDup q /\ forall e, e ∈ q -> stage_at h e InEnc.

Definition work_ok (h : gmap nat QueueOutboundElement) (ws : gmap nat Worker) : Prop :=
  forall w W e, ws !! w = Some W -> w_elem W = Some e -> stage_at h e (InWork w).

(** The structural invariant. *)
Record Inv (d : Device) : Prop := mkInv {
  inv_peers : map_Forall (peer_ok (elems d)) (peers d);
  inv_elems : map_Forall (fun _ E => elem_ok E) (elems d);
  inv_tun : tun_ok (elems d) (tun d);
  inv_ka : ka_ok (elems d) (keepalives d);
  inv_enc : enc_ok (elems d) (queue_encryption d);
  inv_work : work_ok (elems d) (workers d);
}.

(** The four lists of a peer through which it looks at its elements. *)
Definition lists_within (P' P : Peer) (e0 : nat) : Prop :=
  (e0 ∈ queue_nonce P' -> e0 ∈ queue_nonce P)
  /\ (e0 ∈ seq_early P' -> e0 ∈ seq_early P)
  /\ (e0 ∈ seq_assigned P' -> e0 ∈ seq_assigned P)
  /\ (e0 ∈ unsent P' -> e0 ∈ unsent P).

(** The nonce [n] was handed out under the key pair [k]. *)
Definition key_ok (ks : gmap nat Keypair) (k : nat) (n : Z) : Prop :=
  exists K, ks !! k = Some K /\ 0 <= n < sendNonce K /\ n < RejectAfterMessages.

(** An element between its nonce assignment and its encryption carries a
    nonce that was handed out and not yet used by [Seal]. *)
Definition elem_key_ok (ks : gmap nat Keypair) (sl : list (nat * Z))
    (E : QueueOutboundElement) : Prop :=
  stage_live (stage E) = true ->
  exists k, keyPair E = Some k /\ key_ok ks k (nonce E) /\ (k, nonce E) ∉ sl.

Record NonceInv' (h : gmap nat QueueOutboundElement) (ks : gmap nat Keypair)
    (sl : list (nat * Z)) : Prop := mkNonceInv {
  ninv_elems : map_Forall (fun _ E => elem_key_ok ks sl E) h;
  ninv_uniq : forall e1 e2 E1 E2,
    h !! e1 = Some E1 -> h !! e2 = Some E2 ->
    stage_live (stage E1) = true -> stage_live (stage E2) = true ->
    keyPair E1 = keyPair E2 -> nonce E1 = nonce E2 -> e1 = e2;
  ninv_nodup : NoDup sl;
  ninv_sealed : forall k n, (k, n) ∈ sl -> key_ok ks k n;
  ninv_range : map_Forall (fun _ K => 0 <= sendNonce K < 2 ^ 64) ks;
}.

Definition NonceInv (d : Device) : Prop :=
  NonceInv' (elems d) (keypairs d) (sealed d).

(** The version nibble and the length of a packet that is too short for
    the header of its IP version. *)
Definition short_header (pkt : list Z) : Prop :=
  exists b0 rest, pkt = b0 :: rest
    /\ ((Z.shiftr b0 4 = 4 /\ (length pkt < 20)%nat)
        \/ (Z.shiftr b0 4 = 6 /\ (length pkt < 40)%nat)).

End Properties.

(** [x] comes before [y] in [l]. *)
Definition before {A} (x y : A) (l : list A) : Prop :=
  exists l1 l2 l3, l = l1 ++ x :: l2 ++ y :: l3.

(** Reading an element of a state that a schedule leads to. *)
Definition after (s : list (@Label sample_constants)) (e : nat)
  : option (Device * QueueOutboundElement) :=
  d ← @run sample_constants s (@initial_device sample_constants 64);
  E ← elems d !! e;
  Some (d, E).

(** ** Further invariants of the elements, the workers and the queues *)

Section MoreProperties.
Context `{Constants}.

(** The stages before the nonce assignment. *)
Definition unassigned (s : Stage) : bool :=
  match s with
  | Fresh | Pending _ | InNonce | InSeq => true
  | _ => false
  end.

(** An element whose mutex was never unlocked has the packet view the TUN
    reader or [SendKeepalive] gave it, and before the sequencer locks the
    mutex nobody has. *)
Definition elem_ready (E : QueueOutboundElement) : Prop :=
  (unlocks E = O -> packet_ok E)
  /\ (unassigned (stage E) = true -> mutex E = false).

(** The channels hold no more than their capacity. *)
Definition peer_bounded (P : Peer) : Prop :=
  (length (queue_nonce P) <= QueueNonceSize)%nat
  /\ (length (queue_outbound P) <= QueueOutboundSize)%nat.

Record Ready (d : Device) : Prop := mkReady {
  ready_elems : map_Forall (fun _ E => elem_ready E) (elems d);
  ready_workers : map_Forall (fun _ W => worker_nonce_ok (w_nonce W)) (workers d);
  ready_peers : map_Forall (fun _ P => peer_bounded P) (peers d);
  ready_encryption : (length (queue_encryption d) <= QueueEncryptionSize)%nat;
}.

End MoreProperties.

Section LateProperties.
Context `{Constants}.

(** The element the sequencer holds in [addToOutboundQueue]. *)
Definition seq_out (P : Peer) : list nat :=
  match seq_pc P with
  | SeqOut e _ => [e]
  | _ => []
  end.

(** The elements of a peer that its sender holds or will receive. *)
Definition late_part (P : Peer) : list nat :=
  snd_held P ++ queue_outbound P ++ seq_out P.

(** [Seal] was called for the element, under its key pair and nonce. *)
Definition was_sealed (sl : list (nat * Z)) (E : QueueOutboundElement) : Prop :=
  exists k, keyPair E = Some k /\ (k, nonce E) ∈ sl.

(** An element on the way to the sender went on the encryption queue, and
    when it is finished it was dropped, or sealed and unlocked by a
    worker. *)
Definition late_ok (sl : list (nat * Z)) (E : QueueOutboundElement) : Prop :=
  early (stage E) = false
  /\ (stage E = Finished ->
      dropped E = true \/ (was_sealed sl E /\ unlocks E = 1%nat)).

(** An element that was given to [SendBuffer]. *)
Definition sent_ok (sl : list (nat * Z)) (E : QueueOutboundElement) : Prop :=
  stage E = Finished /\ was_sealed sl E /\ unlocks E = 1%nat
  /\ returned E = 1%nat /\ mutex E = true.

Record Late (d : Device) : Prop := mkLate {
  late_elems : forall p P e, peers d !! p = Some P -> e ∈ late_part P ->
    exists E, elems d !! e = Some E /\ late_ok (sealed d) E;
  late_sent : forall p P e, peers d !! p = Some P -> e ∈ (sendLog P).*1 ->
    exists E, elems d !! e = Some E /\ sent_ok (sealed d) E;
}.

End LateProperties.

Section HandshakeSequences.
Context `{Constants}.

(** A sequence of calls of [SendHandshakeInitiation] on one peer, each with
    its argument and what it gets from outside; the result is the timers
    after the last call. *)
Definition handshake_calls (calls : list (bool * HsEnv)) (T : Timers) : Timers :=
  fold_left (fun T c => (SendHandshakeInitiation c.1 c.2 T).1) calls T.

End HandshakeSequences.

Section ByteCount.
Context `{Constants}.

(** The length of the packet of the element at [e], and the bytes of the
    datagrams in a record of sends that [SendBuffer] accepted. *)
Definition packet_len (h : gmap nat QueueOutboundElement) (e : nat) : Z :=
  from_option (fun E => Z.of_nat (slice_len (packet E))) 0 (h !! e).

Definition sent_total (h : gmap nat QueueOutboundElement) (log : list (nat * bool)) : Z :=
  foldr (fun (x : nat * bool) acc => (if x.2 then packet_len h x.1 else 0) + acc) 0 log.

(** [stats.txBytes] of every peer is the number of bytes of the datagrams
    it has sent, as a [uint64]. *)
Record Counted (d : Device) : Prop := mkCounted {
  counted_bytes : forall p P, peers d !! p = Some P ->
    stats_txBytes P = sent_total (elems d) (sendLog P) mod 2 ^ 64;
  counted_heap : forall p P e, peers d !! p = Some P -> e ∈ (sendLog P).*1 ->
    is_Some (elems d !! e);
}.

End ByteCount.

(** Further schedules: the sequencer of peer 0 has received the first
    packet and stands before the key test; the worker has received the
    first packet from the encryption queue. *)
Definition schedule_at_key : list (@Label sample_constants) :=
  [ LNewPeer 0; LSpawnWorker 0; LNewKeypair 0 0 sample_keypair;
    LTunBegin 0 sample_buffer;
    LTunRead sample_packet sample_env; LTunAdd 1 sample_buffer ]
  ++ seq_steps 1.

Definition schedule_at_work : list (@Label sample_constants) :=
  schedule_at_key ++ seq_steps 3 ++ [ LWorkerPop 0 ].

(** The sequencer of peer 0 stands in [addToOutboundQueue] with the second
    packet, the first filling the outbound queue; and in
    [addToEncryptionQueue] with the third packet, the first two filling the
    encryption queue. *)
Definition schedule_outbound_full : list (@Label sample_constants) :=
  take 15 schedule_outbound_eviction.
Definition schedule_encryption_full : list (@Label sample_constants) :=
  take 20 schedule_encryption_eviction.

(** Two packets for peer 0, which has no key pair; the sequencer waits with
    the first and [FlushNonceQueue] is called. *)
Definition schedule_flush_pending : list (@Label sample_constants) :=
  take 9 schedule_flush.

(** Peer 0 is there and the TUN reader has its first element. *)
Definition schedule_tun_ready : list (@Label sample_constants) :=
  [ LNewPeer 0; LTunBegin 0 sample_buffer ].

(** The first [Read] of the TUN reader fails. *)
Definition schedule_tun_closed : list (@Label sample_constants) :=
  schedule_tun_ready ++ [ LTunReadError ].


End Send.

(** ** The Linux bind: sending with a sticky source ([send4], [send6]) *)

Module Bind.
Import Wire.

(** Constants of [golang.org/x/sys/unix] on linux/amd64. *)
Definition EINVAL : Z := 22.
Definition IPPROTO_IP : Z := 0.
Definition IP_PKTINFO : Z := 8.
Definition IPPROTO_IPV6 : Z := 41.
Definition IPV6_PKTINFO : Z := 50.
Definition SizeofCmsghdr : Z := 16.
Definition SizeofInet4Pktinfo : Z := 12.
Definition SizeofInet6Pktinfo : Z := 20.

(** [NativeEndpoint]: the destination as the fields of the socket address
    ([Port], [Addr], and [ZoneId] for IPv6), and [src], the 16 bytes that
    [src4()] reads as an [IPv4Source] (address in bytes 0 to 3, [ifindex]
    as an [int32] in bytes 4 to 7) and [src6()] as an [IPv6Source]. *)
Record NativeEndpoint := mkEndpoint {
  dst_Port : Z;
  dst_Addr : list Z;
  dst_ZoneId : Z;
  src : list Z;
  isV6 : bool;
}.

(** [int32] from four bytes in memory order (little endian). *)
Definition int32_of (bs : list Z) : Z :=
  let v := le_value bs in
  if decide (v < 2 ^ 31) then v else v - 2 ^ 32.

Definition src4_src (e : NativeEndpoint) : list Z := subslice 0 4 (src e).
Definition src4_ifindex (e : NativeEndpoint) : Z := int32_of (subslice 4 4 (src e)).
Definition src6_src (e : NativeEndpoint) : list Z := subslice 0 16 (src e).

(** [func (end *NativeEndpoint) ClearSrc()]. *)
Definition ClearSrc (e : NativeEndpoint) : NativeEndpoint :=
  mkEndpoint (dst_Port e) (dst_Addr e) (dst_ZoneId e)
             (map (fun _ => 0) (src e)) (isV6 e).

(** The control message of [send4] and [send6]: the header and the packet
    info ([Spec_dst] or [Addr], and [Ifindex]). *)
Record Cmsg := mkCmsg {
  Level : Z;
  Type_ : Z;
  Len : Z;
  pktinfo_Addr : list Z;
  pktinfo_Ifindex : Z;
}.

(** One call of [unix.SendmsgN]. *)
Record Call := mkCall {
  call_sock : Z;
  call_buff : list Z;
  call_cmsg : Cmsg;
  call_to : Z * list Z * Z;
}.

(** The kernel: its answer to a call ([None] for no error, or an [errno])
    may depend on the calls made before.  The state of a computation is the
    list of the calls made so far. *)
Definition Kernel := list Call -> Call -> option Z.

Definition M (A : Type) : Type := list Call -> list Call * A.
Definition ret {A} (a : A) : M A := fun tr => (tr, a).
Definition bind {A B} (m : M A) (f : A -> M B) : M B :=
  fun tr => let '(tr', a) := m tr in f a tr'.

Notation "'call' x := m 'in' k" := (bind m (fun x => k))
  (at level 10, x name, m at level 100, k at level 200).

Definition SendmsgN (kernel : Kernel) (sock : Z) (buff : list Z) (cmsg : Cmsg)
    (to : Z * list Z * Z) : M (option Z) :=
  fun tr => let c := mkCall sock buff cmsg to in (tr ++ [c], kernel tr c).

Section Send.
Variable kernel : Kernel.

(** [func send4(sock int, end *NativeEndpoint, buff []byte) error]; the
    endpoint comes back with the error since [send4] may clear its source. *)
Definition send4 (sock : Z) (e : NativeEndpoint) (buff : list Z)
  : M (NativeEndpoint * option Z) :=
  let cmsg := mkCmsg IPPROTO_IP IP_PKTINFO (SizeofInet4Pktinfo + SizeofCmsghdr)
                (src4_src e) (src4_ifindex e) in
  let to := (dst_Port e, dst_Addr e, 0) in
  call err := SendmsgN kernel sock buff cmsg to in
  match err with
  | None => ret (e, None)
  | Some errno =>
      if decide (errno = EINVAL) then
        let e' := ClearSrc e in
        let cmsg' := mkCmsg (Level cmsg) (Type_ cmsg) (Len cmsg) [0; 0; 0; 0] 0 in
        call err' := SendmsgN kernel sock buff cmsg' to in
        ret (e', err')
      else ret (e, Some errno)
  end.

(** [func send6(sock int, end *NativeEndpoint, buff []byte) error]. *)
Definition send6 (sock : Z) (e : NativeEndpoint) (buff : list Z)
  : M (NativeEndpoint * option Z) :=
  let addr := src6_src e in
  let ifindex := if decide (addr = replicate 16 0) then 0 else dst_ZoneId e in
  let cmsg := mkCmsg IPPROTO_IPV6 IPV6_PKTINFO (SizeofInet6Pktinfo + SizeofCmsghdr)
                addr ifindex in
  let to := (dst_Port e, dst_Addr e, dst_ZoneId e) in
  call err := SendmsgN kernel sock buff cmsg to in
  match err with
  | None => ret (e, None)
  | Some errno =>
      if decide (errno = EINVAL) then
        let e' := ClearSrc e in
        let cmsg' := mkCmsg (Level cmsg) (Type_ cmsg) (Len cmsg) (replicate 16 0) 0 in
        call err' := SendmsgN kernel sock buff cmsg' to in
        ret (e', err')
      else ret (e, Some errno)
  end.

(** [func (bind *NativeBind) Send(buff []byte, end Endpoint) error]. *)
Definition Send (sock4 sock6 : Z) (buff : list Z) (e : NativeEndpoint)
  : M (NativeEndpoint * option Z) :=
  if negb (isV6 e) then send4 sock4 e buff else send6 sock6 e buff.

End Send.

(** A kernel that refuses a control message with a source (any non-zero
    byte in the packet info) with [EINVAL], and a cached endpoint. *)
Definition sample_kernel : Kernel :=
  fun _ c => if decide (pktinfo_Addr (call_cmsg c) = [0; 0; 0; 0]) then None else Some EINVAL.
Definition sample_endpoint : NativeEndpoint :=
  mkEndpoint 51820 [192; 0; 2; 1] 0 [10; 0; 0; 9; 3; 0; 0; 0; 0; 0; 0; 0; 0; 0; 0; 0] false.

(** The control message is the empty packet info of its family. *)
Definition empty_pktinfo (c : Cmsg) : Prop :=
  Forall (fun b => b = 0) (pktinfo_Addr c) /\ pktinfo_Ifindex c = 0.

(** The first call of [Send], with the cached source, and the call of the
    retry. *)
Definition first_call (sock4 sock6 : Z) (buff : list Z) (e : NativeEndpoint) : Call :=
  if isV6 e then
    mkCall sock6 buff
      (mkCmsg IPPROTO_IPV6 IPV6_PKTINFO (SizeofInet6Pktinfo + SizeofCmsghdr) (src6_src e)
         (if decide (src6_src e = replicate 16 0) then 0 else dst_ZoneId e))
      (dst_Port e, dst_Addr e, dst_ZoneId e)
  else
    mkCall sock4 buff
      (mkCmsg IPPROTO_IP IP_PKTINFO (SizeofInet4Pktinfo + SizeofCmsghdr) (src4_src e)
         (src4_ifindex e))
      (dst_Port e, dst_Addr e, 0).

Definition retry_call (sock4 sock6 : Z) (buff : list Z) (e : NativeEndpoint) : Call :=
  let c1 := first_call sock4 sock6 buff e in
  mkCall (call_sock c1) buff
    (mkCmsg (Level (call_cmsg c1)) (Type_ (call_cmsg c1)) (Len (call_cmsg c1))
       (replicate (if isV6 e then 16%nat else 4%nat) 0) 0)
    (call_to c1).

End Bind.

(** ** The TUN device of the tests ([helper_test.go]) *)

Module Dummy.
Import Wire.

(** What a call does: it returns, it blocks on the channel, or it panics
    on a slice expression. *)
Inductive Outcome (A : Type) :=
| Returns (a : A)
| Blocks
| Panics.
Arguments Returns {A} a.
Arguments Blocks {A}.
Arguments Panics {A}.

(** [type DummyTUN struct]: the name (a Go string, as its bytes), the MTU
    and the channel [packets] with what it holds, oldest first.  [events]
    is never made and is left out.  A packet on the channel is the slice
    that [Write] was given: the model holds its bytes at the time of the
    call. *)
Record DummyTUN := mkDummy {
  name : list Z;
  mtu : Z;
  packets : list (list Z);
}.

(** The capacity of [make(chan []byte, 100)]. *)
Definition packets_capacity : nat := 100.

(** [func CreateDummyTUN(name string) (TUNDevice, error)]: the argument is
    not stored. *)
Definition CreateDummyTUN (_ : list Z) : DummyTUN := mkDummy [] 0 [].

(** [func (tun *DummyTUN) Name() string] and [MTU() (int, error)]. *)
Definition Name (tun : DummyTUN) : list Z := name tun.
Definition MTU (tun : DummyTUN) : Z := mtu tun.

(** [d[offset:]] is in range. *)
Definition offset_ok (d : list Z) (offset : Z) : Prop :=
  0 <= offset <= Z.of_nat (length d).

(** [func (tun *DummyTUN) Write(d []byte, offset int) (int, error)]: the
    result is the [int]; the error is always [nil]. *)
Definition Write (d : list Z) (offset : Z) (tun : DummyTUN) : Outcome (Z * DummyTUN) :=
  if decide (offset_ok d offset) then
    if decide (length (packets tun) < packets_capacity)%nat
    then Returns (Z.of_nat (length d),
                  mkDummy (name tun) (mtu tun)
                          (packets tun ++ [drop (Z.to_nat offset) d]))
    else Blocks
  else Panics.

(** [func (tun *DummyTUN) Read(d []byte, offset int) (int, error)]: the
    result is the [int] and the contents of [d] after the [copy], which
    stops at the end of [d]. *)
Definition Read (d : list Z) (offset : Z) (tun : DummyTUN)
  : Outcome (Z * list Z * DummyTUN) :=
  match packets tun with
  | [] => Blocks
  | t :: q =>
      if decide (offset_ok d offset)
      then Returns (Z.of_nat (length t), write_at (Z.to_nat offset) t d,
                    mkDummy (name tun) (mtu tun) q)
      else Panics
  end.

(** A sequence of writes, and a sequence of reads with what they
    returned. *)
Fixpoint write_all (ws : list (list Z * Z)) (tun : DummyTUN) : Outcome DummyTUN :=
  match ws with
  | [] => Returns tun
  | (d, offset) :: ws' =>
      match Write d offset tun with
      | Returns (_, tun') => write_all ws' tun'
      | Blocks => Blocks
      | Panics => Panics
      end
  end.

Fixpoint read_all (rs : list (list Z * Z)) (tun : DummyTUN)
  : Outcome (list (Z * list Z) * DummyTUN) :=
  match rs with
  | [] => Returns ([], tun)
  | (d, offset) :: rs' =>
      match Read d offset tun with
      | Returns (n, d', tun') =>
          match read_all rs' tun' with
          | Returns (res, tun'') => Returns ((n, d') :: res, tun'')
          | Blocks => Blocks
          | Panics => Panics
          end
      | Blocks => Blocks
      | Panics => Panics
      end
  end.

End Dummy.

(** ** The Linux bind: making, marking and closing the sockets *)

Module Sockets.
Import Wire.

(** Constants of [golang.org/x/sys/unix] on linux/amd64. *)
Definition AF_INET : Z := 2.
Definition AF_INET6 : Z := 10.
Definition AF_NETLINK : Z := 16.
Definition SOCK_DGRAM : Z := 2.
Definition SOCK_RAW : Z := 3.
Definition NETLINK_ROUTE : Z := 0.
Definition RTNLGRP_IPV4_ROUTE : Z := 7.
Definition SOL_SOCKET : Z := 1.
Definition SO_REUSEADDR : Z := 2.
Definition SO_MARK : Z := 36.
Definition IPPROTO_IP : Z := 0.
Definition IP_PKTINFO : Z := 8.
Definition IPPROTO_IPV6 : Z := 41.
Definition IPV6_RECVPKTINFO : Z := 49.
Definition IPV6_V6ONLY : Z := 26.
Definition SHUT_RD : Z := 0.

(** The system calls of this part of the bind, with their arguments; for
    [unix.Bind] the fields of the socket address that the code sets. *)
Inductive Syscall :=
| SysSocket (domain typ proto : Z)
| SysSetsockoptInt (fd level opt value : Z)
| SysBindInet4 (fd port : Z)
| SysBindInet6 (fd port : Z)
| SysBindNetlink (fd family groups : Z)
| SysShutdown (fd how : Z)
| SysClose (fd : Z).

(** What a call returns: a value (the descriptor, for [unix.Socket]) and
    an error, [None] for [nil]. *)
Record Res := mkRes {
  val : Z;
  err : option Z;
}.

(** The kernel answers a call in the light of the calls made before. *)
Definition Event : Type := Syscall * Res.
Definition Kernel := list Event -> Syscall -> Res.

Definition M (A : Type) : Type := list Event -> list Event * A.
Definition ret {A} (a : A) : M A := fun tr => (tr, a).
Definition bind {A B} (m : M A) (f : A -> M B) : M B :=
  fun tr => let '(tr', a) := m tr in f a tr'.

Notation "'let*' x := m 'in' k" := (bind m (fun x => k))
  (at level 10, x name, m at level 100, k at level 200).

(** [type NativeBind struct]; [lastEndpoint] is a pointer. *)
Record NativeBind := mkBind {
  sock4 : Z;
  sock6 : Z;
  netlinkSock : Z;
  lastEndpoint : option nat;
  lastMark : Z;
}.

(** The conversions [int(port)] and [uint16(addr.Port)]. *)
Definition uint16 (v : Z) : Z := v mod 2 ^ 16.

Section Calls.
Variable kernel : Kernel.

Definition sys (c : Syscall) : M Res :=
  fun tr => let r := kernel tr c in (tr ++ [(c, r)], r).

(** [func createNetlinkRouteSocket() (int, error)]. *)
Definition createNetlinkRouteSocket : M (Z * option Z) :=
  let* s := sys (SysSocket AF_NETLINK SOCK_RAW NETLINK_ROUTE) in
  match err s with
  | Some e => ret (-1, Some e)
  | None =>
      let sock := val s in
      let* b := sys (SysBindNetlink sock AF_NETLINK
                       (Z.shiftl 1 (RTNLGRP_IPV4_ROUTE - 1))) in
      match err b with
      | Some e => let* _ := sys (SysClose sock) in ret (-1, Some e)
      | None => ret (sock, None)
      end
  end.

(** [func create4(port uint16) (int, uint16, error)]. *)
Definition create4 (port : Z) : M (Z * Z * option Z) :=
  let* s := sys (SysSocket AF_INET SOCK_DGRAM 0) in
  match err s with
  | Some e => ret (-1, 0, Some e)
  | None =>
      let fd := val s in
      let addr_Port := port in
      let* e := (let* o1 := sys (SysSetsockoptInt fd SOL_SOCKET SO_REUSEADDR 1) in
                 match err o1 with
                 | Some e => ret (Some e)
                 | None =>
                     let* o2 := sys (SysSetsockoptInt fd IPPROTO_IP IP_PKTINFO 1) in
                     match err o2 with
                     | Some e => ret (Some e)
                     | None =>
                         let* b := sys (SysBindInet4 fd addr_Port) in ret (err b)
                     end
                 end) in
      match e with
      | Some e => let* _ := sys (SysClose fd) in ret (-1, 0, Some e)
      | None => ret (fd, uint16 addr_Port, None)
      end
  end.

(** [func create6(port uint16) (int, uint16, error)]. *)
Definition create6 (port : Z) : M (Z * Z * option Z) :=
  let* s := sys (SysSocket AF_INET6 SOCK_DGRAM 0) in
  match err s with
  | Some e => ret (-1, 0, Some e)
  | None =>
      let fd := val s in
      let addr_Port := port in
      let* e := (let* o1 := sys (SysSetsockoptInt fd SOL_SOCKET SO_REUSEADDR 1) in
                 match err o1 with
                 | Some e => ret (Some e)
                 | None =>
                     let* o2 := sys (SysSetsockoptInt fd IPPROTO_IPV6 IPV6_RECVPKTINFO 1) in
                     match err o2 with
                     | Some e => ret (Some e)
                     | None =>
                         let* o3 := sys (SysSetsockoptInt fd IPPROTO_IPV6 IPV6_V6ONLY 1) in
                         match err o3 with
                         | Some e => ret (Some e)
                         | None =>
                             let* b := sys (SysBindInet6 fd addr_Port) in ret (err b)
                         end
                     end
                 end) in
      match e with
      | Some e => let* _ := sys (SysClose fd) in ret (-1, 0, Some e)
      | None => ret (fd, uint16 addr_Port, None)
      end
  end.

(** [func CreateBind(port uint16)], which returns the bind, the port and
    an error.  The goroutine [routineRouteListener] that it starts makes
    its own calls, which are not in this trace. *)
Definition CreateBind (port : Z) : M (option NativeBind * Z * option Z) :=
  let* n := createNetlinkRouteSocket in
  match n.2 with
  | Some e => ret (None, 0, Some e)
  | None =>
      let nl := n.1 in
      let* r6 := create6 port in
      let '(s6, port6, err6) := r6 in
      match err6 with
      | Some e => let* _ := sys (SysClose nl) in ret (None, port6, Some e)
      | None =>
          let* r4 := create4 port6 in
          let '(s4, port4, err4) := r4 in
          match err4 with
          | Some e =>
              let* _ := sys (SysClose nl) in
              let* _ := sys (SysClose s6) in
              ret (Some (mkBind s4 s6 nl None 0), port4, Some e)
          | None => ret (Some (mkBind s4 s6 nl None 0), port4, None)
          end
      end
  end.

(** [func (bind *NativeBind) SetMark(value uint32) error]. *)
Definition SetMark (value : Z) (b : NativeBind) : M (NativeBind * option Z) :=
  let* o6 := sys (SysSetsockoptInt (sock6 b) SOL_SOCKET SO_MARK value) in
  match err o6 with
  | Some e => ret (b, Some e)
  | None =>
      let* o4 := sys (SysSetsockoptInt (sock4 b) SOL_SOCKET SO_MARK value) in
      match err o4 with
      | Some e => ret (b, Some e)
      | None =>
          ret (mkBind (sock4 b) (sock6 b) (netlinkSock b) (lastEndpoint b) value, None)
      end
  end.

(** [func closeUnblock(fd int) error]. *)
Definition closeUnblock (fd : Z) : M (option Z) :=
  let* _ := sys (SysShutdown fd SHUT_RD) in
  let* c := sys (SysClose fd) in
  ret (err c).

(** [func (bind *NativeBind) Close() error]. *)
Definition Close (b : NativeBind) : M (option Z) :=
  let* err1 := closeUnblock (sock6 b) in
  let* err2 := closeUnblock (sock4 b) in
  let* err3 := closeUnblock (netlinkSock b) in
  match err1 with
  | Some e => ret (Some e)
  | None =>
      match err2 with
      | Some e => ret (Some e)
      | None => ret err3
      end
  end.

End Calls.

(** The descriptors that [unix.Socket] handed out in a trace, and those
    that were given to [unix.Close]. *)
Definition opened (tr : list Event) : list Z :=
  omap (fun ev => match ev with
                  | (SysSocket _ _ _, r) =>
                      match err r with Some _ => None | None => Some (val r) end
                  | _ => None
                  end) tr.

Definition closed (tr : list Event) : list Z :=
  omap (fun ev => match ev with
                  | (SysClose fd, _) => Some fd
                  | _ => None
                  end) tr.

(** A kernel that hands out the descriptors 3, 4, 5, ... and lets every
    call succeed but the binding of an IPv4 socket. *)
Definition sample_kernel : Kernel :=
  fun tr c =>
    match c with
    | SysSocket _ _ _ => mkRes (3 + Z.of_nat (length (opened tr))) None
    | SysBindInet4 _ _ => mkRes 0 (Some 98)
    | _ => mkRes 0 None
    end.

End Sockets.

(** ** The Linux bind: receiving into an endpoint ([receive4], [receive6]) *)

Module Receive.
Import Wire Bind.

(** The sender as [unix.Recvmsg] returns it: a [*unix.SockaddrInet4], a
    [*unix.SockaddrInet6], or anything else ([nil] included). *)
Inductive Sockaddr :=
| SockaddrInet4 (Port : Z) (Addr : list Z)
| SockaddrInet6 (Port ZoneId : Z) (Addr : list Z)
| SockaddrOther.

(** What one call of [unix.Recvmsg] leaves behind: the size of the
    datagram, the sender, the error, and the control message [cmsg] the
    kernel wrote into (all zero when it wrote nothing); of the packet info
    the fields the code reads, [Spec_dst] or [Addr], and [Ifindex]. *)
Record Recvmsg := mkRecvmsg {
  recv_size : Z;
  recv_from : Sockaddr;
  recv_cmsg : Cmsg;
  recv_err : option Z;
}.

(** An [int32] in memory: four bytes, little endian, two's complement. *)
Definition int32_bytes (v : Z) : list Z := le_digits 4 v.

(** [var end NativeEndpoint]: every byte zero; its destination read
    through [dst4()] and through [dst6()]. *)
Definition zero_endpoint4 : NativeEndpoint :=
  mkEndpoint 0 (replicate 4 0) 0 (replicate 16 0) false.
Definition zero_endpoint6 : NativeEndpoint :=
  mkEndpoint 0 (replicate 16 0) 0 (replicate 16 0) false.

(** [func receive4(sock int, buff []byte, end *NativeEndpoint) (int, error)],
    given what [unix.Recvmsg] answered.  The destination is written through
    [dst4()], the source through [src4()]: [src] in bytes 0 to 3 and
    [ifindex] in bytes 4 to 7. *)
Definition receive4 (r : Recvmsg) (e : NativeEndpoint) : NativeEndpoint * Z * option Z :=
  match recv_err r with
  | Some errno => (e, 0, Some errno)
  | None =>
      let e1 := mkEndpoint (dst_Port e) (dst_Addr e) (dst_ZoneId e) (src e) false in
      let e2 := match recv_from r with
                | SockaddrInet4 port addr =>
                    mkEndpoint port addr (dst_ZoneId e1) (src e1) (isV6 e1)
                | _ => e1
                end in
      let cmsg := recv_cmsg r in
      let e3 := if bool_decide (Level cmsg = IPPROTO_IP)
                   && bool_decide (Type_ cmsg = IP_PKTINFO)
                   && bool_decide (Len cmsg >= SizeofInet4Pktinfo)
                then
                  let s1 := write_at 0 (pktinfo_Addr cmsg) (src e2) in
                  let s2 := write_at 4 (int32_bytes (pktinfo_Ifindex cmsg)) s1 in
                  mkEndpoint (dst_Port e2) (dst_Addr e2) (dst_ZoneId e2) s2 (isV6 e2)
                else e2 in
      (e3, recv_size r, None)
  end.

(** [func receive6(sock int, buff []byte, end *NativeEndpoint) (int, error)]:
    the interface of the packet info goes to the zone of the destination. *)
Definition receive6 (r : Recvmsg) (e : NativeEndpoint) : NativeEndpoint * Z * option Z :=
  match recv_err r with
  | Some errno => (e, 0, Some errno)
  | None =>
      let e1 := mkEndpoint (dst_Port e) (dst_Addr e) (dst_ZoneId e) (src e) true in
      let e2 := match recv_from r with
                | SockaddrInet6 port zone addr =>
                    mkEndpoint port addr zone (src e1) (isV6 e1)
                | _ => e1
                end in
      let cmsg := recv_cmsg r in
      let e3 := if bool_decide (Level cmsg = IPPROTO_IPV6)
                   && bool_decide (Type_ cmsg = IPV6_PKTINFO)
                   && bool_decide (Len cmsg >= SizeofInet6Pktinfo)
                then
                  mkEndpoint (dst_Port e2) (dst_Addr e2) (pktinfo_Ifindex cmsg)
                    (write_at 0 (pktinfo_Addr cmsg) (src e2)) (isV6 e2)
                else e2 in
      (e3, recv_size r, None)
  end.

(** [func (bind *NativeBind) ReceiveIPv4(buff []byte) (int, Endpoint, error)]
    and [ReceiveIPv6]: a new endpoint each time.  The result is the size,
    the endpoint and the error; [ReceiveIPv4] also leaves the endpoint in
    [bind.lastEndpoint]. *)
Definition ReceiveIPv4 (r : Recvmsg) : Z * NativeEndpoint * option Z :=
  let '(e, n, err) := receive4 r zero_endpoint4 in (n, e, err).
Definition ReceiveIPv6 (r : Recvmsg) : Z * NativeEndpoint * option Z :=
  let '(e, n, err) := receive6 r zero_endpoint6 in (n, e, err).

(** A datagram from 192.0.2.1:51820 that came in on interface 3 for
    10.0.0.9, and one from [2001:db8::1]:51820 on interface 2. *)
Definition sample_recv4 : Recvmsg :=
  mkRecvmsg 148 (SockaddrInet4 51820 [192; 0; 2; 1])
    (mkCmsg IPPROTO_IP IP_PKTINFO 28 [10; 0; 0; 9] 3) None.
Definition sample_addr6 : list Z :=
  [32; 1; 13; 184; 0; 0; 0; 0; 0; 0; 0; 0; 0; 0; 0; 1].
Definition sample_local6 : list Z :=
  [32; 1; 13; 184; 0; 0; 0; 0; 0; 0; 0; 0; 0; 0; 0; 2].
Definition sample_recv6 : Recvmsg :=
  mkRecvmsg 148 (SockaddrInet6 51820 0 sample_addr6)
    (mkCmsg IPPROTO_IPV6 IPV6_PKTINFO 36 sample_local6 2) None.

End Receive.

(** ** The Linux bind: the listener for route changes ([routineRouteListener]) *)

Module Route.
Import Wire Bind.

(** Constants of [golang.org/x/sys/unix] on linux/amd64. *)
Definition AF_INET : Z := 2.
Definition SizeofNlMsghdr : Z := 16.
Definition SizeofRtMsg : Z := 12.
Definition SizeofRtAttr : Z := 4.
Definition RTM_NEWROUTE : Z := 24.
Definition RTM_DELROUTE : Z := 25.
Definition RTM_GETROUTE : Z := 26.
Definition NLM_F_REQUEST : Z := 1.
Definition RTA_DST : Z := 1.
Definition RTA_SRC : Z := 2.
Definition RTA_OIF : Z := 4.

(** The structs of netlink as they lie in memory: [unix.NlMsghdr]
    ([Len uint32], [Type] and [Flags uint16], [Seq] and [Pid uint32]),
    [unix.RtMsg] (eight [uint8] and [Flags uint32]) and [unix.RtAttr]
    ([Len] and [Type uint16]). *)
Definition NlMsghdr (Len Type_ Flags Seq Pid : Z) : list Z :=
  le_digits 4 Len ++ le_digits 2 Type_ ++ le_digits 2 Flags
  ++ le_digits 4 Seq ++ le_digits 4 Pid.
Definition RtMsg (Family Dst_len Src_len Tos Table Protocol Scope Type_ Flags : Z)
  : list Z :=
  [Family; Dst_len; Src_len; Tos; Table; Protocol; Scope; Type_] ++ le_digits 4 Flags.
Definition RtAttr (Len Type_ : Z) : list Z := le_digits 2 Len ++ le_digits 2 Type_.

(** The conversion [uint32(x)] of an [int32]. *)
Definition uint32 (v : Z) : Z := v mod 2 ^ 32.

(** What the listener works on: the endpoint behind [bind.lastEndpoint]
    ([None] for [nil]), [bind.lastMark], and what it has written to the
    netlink socket.  Nothing else touches them while it handles a
    buffer. *)
Record Listener := mkListener {
  last : option NativeEndpoint;
  lastMark : Z;
  written : list (list Z);
}.

(** The request for the route to the last endpoint: the struct [nlmsg],
    [hdr.Len] set to its size, as [unix.Write] sends it. *)
Definition nlmsg (e : NativeEndpoint) (mark : Z) : list Z :=
  NlMsghdr 52 RTM_GETROUTE NLM_F_REQUEST 255 0
  ++ RtMsg AF_INET 32 32 0 0 0 0 0 0
  ++ RtAttr 8 RTA_DST ++ dst_Addr e
  ++ RtAttr 8 RTA_SRC ++ src4_src e
  ++ RtAttr 8 16 ++ le_digits 4 (uint32 mark).

(** The loop over the attributes of a reply, [for { ... attr =
    attr[attrhdr.Len:] }], on the endpoint behind [bind.lastEndpoint];
    [None] when the fuel runs out. *)
Fixpoint attr_loop (fuel : nat) (attr : list Z) (e : NativeEndpoint)
  : option NativeEndpoint :=
  match fuel with
  | O => None
  | S fuel' =>
      if decide (Z.of_nat (length attr) < SizeofRtAttr) then Some e
      else
        let attrhdr_Len := le_value (subslice 0 2 attr) in
        let attrhdr_Type := le_value (subslice 2 2 attr) in
        if decide (attrhdr_Len < SizeofRtAttr \/ Z.of_nat (length attr) < attrhdr_Len)
        then Some e
        else
          let e' :=
            if decide (attrhdr_Type = RTA_OIF /\ attrhdr_Len = SizeofRtAttr + 4) then
              let ifidx := le_value (subslice 4 4 attr) in
              if decide (uint32 (src4_ifindex e) <> ifidx) then ClearSrc e else e
            else e in
          attr_loop fuel' (drop (Z.to_nat attrhdr_Len) attr) e'
  end.

(** The loop ends within [length attr] turns, each dropping four bytes or
    more (see [attr_loop_total]). *)
Definition attr_walk (attr : list Z) (e : NativeEndpoint) : NativeEndpoint :=
  default e (attr_loop (S (length attr)) attr e).

(** The body of [switch hdr.Type] for one message at the head of
    [remain]. *)
Definition handle (remain : list Z) (st : Listener) : Listener :=
  let hdr_Len := le_value (subslice 0 4 remain) in
  let hdr_Type := le_value (subslice 4 2 remain) in
  let hdr_Seq := le_value (subslice 8 4 remain) in
  if decide (hdr_Type = RTM_NEWROUTE \/ hdr_Type = RTM_DELROUTE) then
    match last st with
    | None => st
    | Some e =>
        if isV6 e || bool_decide (src4_ifindex e = 0) then st
        else if decide (hdr_Seq = 255) then
          if decide (Z.of_nat (length remain) < hdr_Len) then st
          else if decide (hdr_Len > SizeofNlMsghdr + SizeofRtMsg) then
            let attr := drop (Z.to_nat (SizeofNlMsghdr + SizeofRtMsg)) remain in
            mkListener (Some (attr_walk attr e)) (lastMark st) (written st)
          else st
        else
          mkListener (last st) (lastMark st) (written st ++ [nlmsg e (lastMark st)])
    end
  else st.

(** How far a loop got: it ended, or it was still turning when the fuel
    ran out; either way with the state it had reached. *)
Inductive Run :=
| Done (st : Listener)
| Turning (st : Listener).

Definition state_of (r : Run) : Listener :=
  match r with Done st | Turning st => st end.

(** The loop over the messages of one buffer, [for remain := msg[:msgn];
    len(remain) >= unix.SizeofNlMsghdr; { ... remain = remain[hdr.Len:] }]. *)
Fixpoint msg_loop (fuel : nat) (remain : list Z) (st : Listener) : Run :=
  match fuel with
  | O => Turning st
  | S fuel' =>
      if decide (Z.of_nat (length remain) >= SizeofNlMsghdr) then
        let hdr_Len := le_value (subslice 0 4 remain) in
        if decide (hdr_Len > Z.of_nat (length remain)) then Done st
        else msg_loop fuel' (drop (Z.to_nat hdr_Len) remain) (handle remain st)
      else Done st
  end.

(** [func (bind *NativeBind) routineRouteListener()]: one buffer after the
    other, [msgs] being what the calls of [unix.Recvmsg] left in
    [msg[:msgn]] before the call that failed, on which it returns. *)
Fixpoint routineRouteListener (fuel : nat) (msgs : list (list Z)) (st : Listener) : Run :=
  match msgs with
  | [] => Done st
  | msg :: msgs' =>
      match msg_loop fuel msg st with
      | Done st' => routineRouteListener fuel msgs' st'
      | Turning st' => Turning st'
      end
  end.

(** Attributes one after the other, each with its header, as netlink lays
    them out when no padding is needed; a reply of the kernel with them; a
    message of the kernel with any body; and whether an attribute names
    another interface than [ifindex]. *)
Definition attribute (a : Z * list Z) : list Z :=
  RtAttr (SizeofRtAttr + Z.of_nat (length a.2)) a.1 ++ a.2.
Definition attributes (attrs : list (Z * list Z)) : list Z :=
  concat (map attribute attrs).
Definition reply (typ pid : Z) (rtmsg : list Z) (attrs : list (Z * list Z)) : list Z :=
  NlMsghdr (SizeofNlMsghdr + SizeofRtMsg + Z.of_nat (length (attributes attrs)))
           typ 0 255 pid
  ++ rtmsg ++ attributes attrs.
Definition notice (typ flags seq pid : Z) (body : list Z) : list Z :=
  NlMsghdr (SizeofNlMsghdr + Z.of_nat (length body)) typ flags seq pid ++ body.
Definition other_interface (ifindex : Z) (a : Z * list Z) : bool :=
  bool_decide (a.1 = RTA_OIF) && bool_decide (length a.2 = 4%nat)
  && negb (bool_decide (le_value a.2 = uint32 ifindex)).

(** The endpoint is as it was, or as it was but for a cleared source. *)
Definition kept (e e' : NativeEndpoint) : Prop := e' = e \/ e' = ClearSrc e.

(** What the listener may have done between two of its states: the mark
    is the same; without an endpoint, with one of IPv6 or with one that
    has no interface cached, nothing at all; otherwise the endpoint is as
    it was or has just lost its source, and what was written is so many
    requests for the route to it. *)
Definition follows (st st' : Listener) : Prop :=
  lastMark st' = lastMark st
  /\ match last st with
     | None => st' = st
     | Some e =>
         (isV6 e = true \/ src4_ifindex e = 0 -> st' = st)
         /\ kept e (default e (last st')) /\ is_Some (last st')
         /\ exists n, written st' = written st ++ replicate n (nlmsg e (lastMark st))
     end.

(** A change of route (a message of the kernel to the group), and the
    replies to the request: the route leaves by interface 3, or by 5. *)
Definition sample_rtmsg : list Z := RtMsg AF_INET 32 32 0 254 0 0 1 0.
Definition sample_change : list Z := notice RTM_NEWROUTE 0 0 0 sample_rtmsg.
Definition sample_reply (oif : Z) : list Z :=
  reply RTM_NEWROUTE 0 sample_rtmsg
    [(RTA_DST, [192; 0; 2; 1]); (RTA_OIF, le_digits 4 oif); (RTA_SRC, [10; 0; 0; 9])].
Definition sample_listener : Listener :=
  mkListener (Some sample_endpoint) 0 [].

End Route.

(** ** The socket of the configuration protocol ([UAPIOpen]) *)

Module Uapi.

Definition socketDirectory : string := "/var/run/wireguard".
Definition EEXIST : Z := 17.
Definition ENOTEMPTY : Z := 39.

(** An error: one of the operating system, by its number, or one made
    with [errors.New]. *)
Inductive Error :=
| Errno (e : Z)
| ErrorString (s : string).

(** [os.IsExist] on Linux. *)
Definition IsExist (err : Error) : bool :=
  match err with
  | Errno e => bool_decide (e = EEXIST \/ e = ENOTEMPTY)
  | ErrorString _ => false
  end.

(** The calls [UAPIOpen] makes, with their arguments; an address is the
    path it was resolved from, a listener the handle [net.ListenUnix]
    gave. *)
Inductive Call :=
| MkdirAll (path : string) (perm : Z)
| ResolveUnixAddr (network path : string)
| ListenUnix (network addr : string)
| Dial (network path : string)
| Remove (path : string)
| File (listener : Z).

Record Res := mkRes {
  val : Z;
  err : option Error;
}.

(** The system answers a call in the light of the calls made before. *)
Definition Event : Type := Call * Res.
Definition System := list Event -> Call -> Res.

Definition M (A : Type) : Type := list Event -> list Event * A.
Definition ret {A} (a : A) : M A := fun tr => (tr, a).
Definition bind {A B} (m : M A) (f : A -> M B) : M B :=
  fun tr => let '(tr', a) := m tr in f a tr'.

Notation "'let*' x := m 'in' k" := (bind m (fun x => k))
  (at level 10, x name, m at level 100, k at level 200).

Section Calls.
Variable system : System.
(** [path.Join]. *)
Variable Join : string -> string -> string.

Definition sys (c : Call) : M Res :=
  fun tr => let r := system tr c in (tr ++ [(c, r)], r).

(** [path.Join(socketDirectory, fmt.Sprintf(socketName, name))]. *)
Definition socketPath (name : string) : string :=
  Join socketDirectory (name +:+ ".sock").

(** The function literal of [UAPIOpen] that listens, at the second
    attempt if the socket was there but nobody answered on it. *)
Definition listen (name : string) : M (Z * option Error) :=
  let* l := sys (ListenUnix "unix" (socketPath name)) in
  match err l with
  | None => ret (val l, None)
  | Some _ =>
      let* d := sys (Dial "unix" (socketPath name)) in
      match err d with
      | None => ret (0, Some (ErrorString "unix socket in use"))
      | Some _ =>
          let* r := sys (Remove (socketPath name)) in
          match err r with
          | Some e => ret (0, Some e)
          | None =>
              let* l2 := sys (ListenUnix "unix" (socketPath name)) in
              ret (val l2, err l2)
          end
      end
  end.

(** [func UAPIOpen(name string)]: the file, by its handle, and the
    error. *)
Definition UAPIOpen (name : string) : M (option Z * option Error) :=
  let* m := sys (MkdirAll socketDirectory 384) in
  if match err m with Some e => negb (IsExist e) | None => false end
  then ret (None, err m)
  else
    let* a := sys (ResolveUnixAddr "unix" (socketPath name)) in
    match err a with
    | Some e => ret (None, Some e)
    | None =>
        let* l := listen name in
        match l.2 with
        | Some e => ret (None, Some e)
        | None =>
            let* f := sys (File l.1) in
            match err f with
            | Some e => ret (None, Some e)
            | None => ret (Some (val f), None)
            end
        end
    end.

End Calls.

(** What a trace removed, and the answers it got when it listened and
    when it dialled. *)
Definition removed (tr : list Event) : list string :=
  omap (fun ev => match ev with (Remove p, _) => Some p | _ => None end) tr.
Definition listened (tr : list Event) : list (string * Res) :=
  omap (fun ev => match ev with (ListenUnix _ a, r) => Some (a, r) | _ => None end) tr.
Definition dialled (tr : list Event) : list (string * option Error) :=
  omap (fun ev => match ev with (Dial _ p, r) => Some (p, err r) | _ => None end) tr.

(** A system on which the socket is there and a running process answers
    on it, and one on which the socket is left over from a process that
    is gone. *)
Definition sample_live : System :=
  fun tr c =>
    match c with
    | ListenUnix _ _ => mkRes 0 (Some (Errno 98))
    | _ => mkRes 0 None
    end.
Definition sample_stale : System :=
  fun tr c =>
    match c with
    | ListenUnix _ _ =>
        if decide (removed tr = []) then mkRes 0 (Some (Errno 98)) else mkRes 7 None
    | Dial _ _ => mkRes 0 (Some (Errno 111))
    | File _ => mkRes 8 None
    | _ => mkRes 0 None
    end.
Definition sample_join (dir file : string) : string := dir +:+ "/" +:+ file.

End Uapi.
(** ** Lemmas on the byte encodings *)

Module WireFacts.
Import Wire.

Lemma byte_of_mod v : byte_of v = v mod 256.
Proof. unfold byte_of. change 255 with (Z.ones 8). now rewrite Z.land_ones by lia. Qed.

Lemma shiftr_div v k : 0 <= k -> Z.shiftr v k = v / 2 ^ k.
Proof. intros. now rewrite Z.shiftr_div_pow2. Qed.

Lemma PutUint32_le v : PutUint32 v = le_digits 4 v.
Proof.
  unfold PutUint32. cbn [le_digits].
  rewrite !byte_of_mod, !shiftr_div by lia.
  rewrite !Z.div_div by lia. reflexivity.
Qed.

Lemma PutUint64_le v : PutUint64 v = le_digits 8 v.
Proof.
  unfold PutUint64. cbn [le_digits].
  rewrite !byte_of_mod, !shiftr_div by lia.
  rewrite !Z.div_div by lia. reflexivity.
Qed.

Lemma le_digits_length n v : length (le_digits n v) = n.
Proof. revert v. induction n as [|n IH]; intros v; cbn; [reflexivity|]. now rewrite IH. Qed.

Lemma le_value_digits n v : le_value (le_digits n v) = v mod 256 ^ Z.of_nat n.
Proof.
  revert v. induction n as [|n IH]; intros v.
  - cbn. now rewrite Z.mod_1_r.
  - cbn [le_digits le_value]. rewrite IH.
    rewrite Nat2Z.inj_succ, Z.pow_succ_r by lia.
    rewrite Z.rem_mul_r by lia. lia.
Qed.

Lemma le_digits_byte n v b : b ∈ le_digits n v -> 0 <= b < 256.
Proof.
  revert v. induction n as [|n IH]; intros v; cbn.
  - intros H. inversion H.
  - intros H. apply elem_of_cons in H as [->|H]; [|eauto].
    apply Z.mod_pos_bound. lia.
Qed.

Lemma write_at_length bs : forall off buf, length (write_at off bs buf) = length buf.
Proof.
  induction bs as [|b bs IH]; intros off buf; cbn; [reflexivity|].
  now rewrite IH, length_insert.
Qed.

Lemma write_at_spec bs : forall off buf,
  (off + length bs <= length buf)%nat ->
  write_at off bs buf = take off buf ++ bs ++ drop (off + length bs) buf.
Proof.
  induction bs as [|b bs IH]; intros off buf Hlen.
  - cbn. rewrite Nat.add_0_r. now rewrite take_drop.
  - cbn [write_at length] in *. rewrite IH by (rewrite length_insert; lia).
    rewrite drop_insert_lt by lia.
    replace (S off + length bs)%nat with (off + S (length bs))%nat by lia.
    rewrite (take_S_r (<[off:=b]> buf) off b).
    + rewrite take_insert_ge by lia. now rewrite <- app_assoc.
    + apply list_lookup_insert_eq. lia.
Qed.

Lemma subslice_write_at off bs buf :
  (off + length bs <= length buf)%nat ->
  subslice off (length bs) (write_at off bs buf) = bs.
Proof.
  intros H. unfold subslice. rewrite write_at_spec by assumption.
  rewrite drop_app_length' by (rewrite length_take; lia).
  now rewrite take_app_length.
Qed.

End WireFacts.

(** ** The encryption worker: wire format and padding *)

Module EncryptFacts.
Import Wire WireFacts Send.

Section Encryption.
Context `{Constants}.

Lemma packet_ok_slice_ok E : packet_ok E -> slice_ok (buffer E) (packet E).
Proof.
  intros [Hh Hp]. unfold slice_ok. destruct (packet E); try exact I.
  destruct Hp as [-> Hp]. split; [lia | exact Hp].
Qed.

Lemma subslice_length o n buf :
  (o + n <= length buf)%nat -> length (subslice o n buf) = n.
Proof. intros. unfold subslice. rewrite length_take, length_drop. lia. Qed.

Lemma slice_bytes_length buf s :
  slice_ok buf s -> length (slice_bytes buf s) = slice_len s.
Proof.
  destruct s as [|o n|d]; cbn; try reflexivity.
  intros [_ Hn]. now apply subslice_length.
Qed.

Lemma subslice_insert_ge o n i b buf :
  (o + n <= i)%nat -> subslice o n (<[i := b]> buf) = subslice o n buf.
Proof.
  intros Hi. unfold subslice.
  destruct (decide (i < o)%nat) as [Hlt|Hge]; [lia|].
  rewrite drop_insert_ge by lia. apply take_insert_ge. lia.
Qed.

Lemma subslice_snoc o n b buf :
  (o + n < length buf)%nat ->
  subslice o (S n) (<[(o + n)%nat := b]> buf) = subslice o n buf ++ [b].
Proof.
  intros Hlt. unfold subslice.
  rewrite drop_insert_ge by lia.
  replace (o + n - o)%nat with n by lia.
  rewrite (take_S_r _ n b).
  - now rewrite take_insert_ge by lia.
  - apply list_lookup_insert_eq. rewrite length_drop. lia.
Qed.

Lemma subslice_write_before off bs o n buf :
  (off + length bs <= o)%nat ->
  subslice o n (write_at off bs buf) = subslice o n buf.
Proof.
  revert off buf. induction bs as [|b bs IH]; intros off buf Hle; cbn; [reflexivity|].
  cbn in Hle. rewrite IH by lia.
  unfold subslice. now rewrite drop_insert_lt by lia.
Qed.

Lemma append_byte_spec buf s b :
  slice_ok buf s ->
  slice_bytes (append_byte buf s b).1 (append_byte buf s b).2 = slice_bytes buf s ++ [b]
  /\ slice_ok (append_byte buf s b).1 (append_byte buf s b).2
  /\ take MessageTransportHeaderSize (append_byte buf s b).1
     = take MessageTransportHeaderSize buf
  /\ length (append_byte buf s b).1 = length buf.
Proof.
  destruct s as [|o n|d]; cbn; intros Hok; try (repeat split; reflexivity).
  destruct Hok as [Ho Hn]. case_decide as Hroom; cbn.
  - repeat split.
    + now apply subslice_snoc.
    + exact Ho.
    + rewrite length_insert. lia.
    + apply take_insert_ge. unfold MessageTransportHeaderSize in *. lia.
    + apply length_insert.
  - repeat split; reflexivity.
Qed.

Lemma pad_loop_spec todo : forall mtu buf s,
  slice_ok buf s ->
  exists k : nat,
    Z.of_nat k = Z.min (Z.of_nat todo) (Z.max 0 (mtu - Z.of_nat (slice_len s)))
    /\ slice_bytes (pad_loop todo mtu buf s).1 (pad_loop todo mtu buf s).2
       = slice_bytes buf s ++ replicate k 0
    /\ slice_ok (pad_loop todo mtu buf s).1 (pad_loop todo mtu buf s).2
    /\ take MessageTransportHeaderSize (pad_loop todo mtu buf s).1
       = take MessageTransportHeaderSize buf
    /\ length (pad_loop todo mtu buf s).1 = length buf.
Proof.
  induction todo as [|todo IH]; intros mtu buf s Hok; cbn [pad_loop].
  - exists O. cbn. rewrite app_nil_r. repeat split; try assumption. lia.
  - case_decide as Hlt.
    + destruct (append_byte_spec buf s 0 Hok) as (Hb & Hok' & Ht & Hl).
      destruct (append_byte buf s 0) as [buf' s'] eqn:Ha. cbn [fst snd] in *.
      destruct (IH mtu buf' s' Hok') as (k & Hk & Hb' & Hok'' & Ht' & Hl').
      assert (Hlen : slice_len s' = S (slice_len s)).
      { rewrite <- (slice_bytes_length buf' s' Hok'), Hb, length_app.
        rewrite (slice_bytes_length buf s Hok). cbn. lia. }
      exists (S k). repeat split.
      * rewrite Hlen in Hk. lia.
      * rewrite Hb', Hb, <- app_assoc. reflexivity.
      * exact Hok''.
      * congruence.
      * congruence.
    + exists O. cbn. rewrite app_nil_r. repeat split; try assumption. lia.
Qed.

Lemma pad_packet_spec mtu buf s :
  slice_ok buf s ->
  exists k : nat,
    slice_bytes (pad_packet mtu buf s).1 (pad_packet mtu buf s).2
      = slice_bytes buf s ++ replicate k 0
    /\ slice_len (pad_packet mtu buf s).2 = (slice_len s + k)%nat
    /\ slice_ok (pad_packet mtu buf s).1 (pad_packet mtu buf s).2
    /\ take MessageTransportHeaderSize (pad_packet mtu buf s).1
       = take MessageTransportHeaderSize buf
    /\ length (pad_packet mtu buf s).1 = length buf
    /\ (Z.of_nat (slice_len s) mod 16 = 0 -> k = O)
    /\ (Z.of_nat (slice_len s) mod 16 <> 0 ->
        Z.of_nat k = Z.min (16 - Z.of_nat (slice_len s) mod 16)
                           (Z.max 0 (mtu - Z.of_nat (slice_len s)))).
Proof.
  intros Hok. unfold pad_packet, PaddingMultiple.
  pose proof (Z.mod_pos_bound (Z.of_nat (slice_len s)) 16 ltac:(lia)) as Hrem.
  case_decide as Hpos.
  - destruct (pad_loop_spec (Z.to_nat (16 - Z.of_nat (slice_len s) mod 16))
                mtu buf s Hok) as (k & Hk & Hb & Hok' & Ht & Hl).
    exists k. repeat split; try assumption.
    + rewrite <- (slice_bytes_length _ _ Hok'), Hb, length_app, length_replicate.
      now rewrite (slice_bytes_length _ _ Hok).
    + lia.
    + intros _. rewrite Hk. rewrite Z2Nat.id by lia. reflexivity.
  - exists O. cbn. rewrite app_nil_r. repeat split; try assumption; lia.
Qed.

(** C4 (as amended).  The padding step appends only zero bytes and never
    shortens the plaintext; when the plaintext length [L] is at most the MTU
    read by the worker, the padded length [L'] is a multiple of 16 or equal
    to the MTU, and is at most the MTU; when [L] exceeds the MTU nothing is
    appended. *)
Theorem pad_packet_length mtu buf s :
  slice_ok buf s ->
  let L := Z.of_nat (slice_len s) in
  let L' := Z.of_nat (slice_len (pad_packet mtu buf s).2) in
  (exists k : nat,
     slice_bytes (pad_packet mtu buf s).1 (pad_packet mtu buf s).2
       = slice_bytes buf s ++ replicate k 0
     /\ L' = L + Z.of_nat k)
  /\ L' >= L
  /\ (L <= mtu -> (L' mod 16 = 0 \/ L' = mtu) /\ L' <= mtu)
  /\ (mtu < L -> L' = L).
Proof.
  intros Hok L L'.
  destruct (pad_packet_spec mtu buf s Hok) as (k & Hb & Hlen & _ & _ & _ & Hz & Hnz).
  subst L L'. rewrite Hlen. set (L := Z.of_nat (slice_len s)) in *.
  pose proof (Z.mod_pos_bound L 16 ltac:(lia)) as Hrem.
  pose proof (Z.div_mod L 16 ltac:(lia)) as Hdm.
  split; [exists k; split; [exact Hb | lia] |].
  split; [lia |].
  destruct (decide (L mod 16 = 0)) as [H0|Hn0].
  - rewrite (Hz H0). split; intros Hle.
    + split; [left | lia].
      replace (Z.of_nat (slice_len s + 0)) with L by (subst L; lia). exact H0.
    + lia.
  - specialize (Hnz Hn0). split; intros Hle.
    + rewrite Nat2Z.inj_add. fold L.
      destruct (decide (16 - L mod 16 <= mtu - L)) as [Hfull|Hcut].
      * split; [left | lia].
        replace (L + Z.of_nat k) with ((L / 16 + 1) * 16) by lia.
        apply Z.mod_mul. lia.
      * split; [right | ]; lia.
    + lia.
Qed.

(** C4, the claim as stated fails: a plaintext of 20 bytes with an MTU of 8
    (the MTU is only consulted by the padding loop; the TUN reader bounds
    the size by [MaxContentSize] alone) stays 20 bytes long, which is
    neither a multiple of 16 nor at most the MTU. *)
Lemma pad_packet_over_mtu :
  let L' := Z.of_nat (slice_len (pad_packet 8 (replicate 64 7) (SliceBuf 16 20)).2) in
  slice_ok (replicate 64 7) (SliceBuf 16 20)
  /\ ~ (L' >= 20 /\ (L' mod 16 = 0 \/ L' = 8) /\ L' <= 8).
Proof.
  split; [vm_compute; lia |].
  vm_compute. intros (_ & _ & Hle). apply Hle. reflexivity.
Qed.

Lemma pad_packet_length_witness :
  let L' := Z.of_nat (slice_len (pad_packet 40 (replicate 64 7) (SliceBuf 16 20)).2) in
  L' >= 20 /\ (20 <= 40 -> (L' mod 16 = 0 \/ L' = 40) /\ L' <= 40).
Proof.
  assert (Hok : slice_ok (replicate 64 7) (SliceBuf 16 20)).
  { vm_compute. lia. }
  destruct (pad_packet_length 40 (replicate 64 7) (SliceBuf 16 20) Hok)
    as (_ & Hge & Hle & _).
  split; [exact Hge | exact Hle].
Defined.

Lemma write_at_app a : forall b off buf,
  write_at off (a ++ b) buf = write_at (off + length a) b (write_at off a buf).
Proof.
  induction a as [|x a IH]; intros b off buf; cbn.
  - now rewrite Nat.add_0_r.
  - rewrite IH. f_equal. lia.
Qed.

Lemma header_written a b c buf :
  length a = 4%nat -> length b = 4%nat -> length c = 8%nat ->
  (16 <= length buf)%nat ->
  take 16 (write_at 8 c (write_at 4 b (write_at 0 a buf))) = a ++ b ++ c.
Proof.
  intros Ha Hb Hc Hlen.
  replace 8%nat with (0 + length (a ++ b))%nat by (rewrite length_app; lia).
  replace 4%nat with (0 + length a)%nat at 1 by lia.
  rewrite <- !write_at_app.
  rewrite write_at_spec by (rewrite !length_app; cbn; lia).
  change (take 0 buf) with (@nil Z). cbn [app].
  rewrite <- (app_assoc a b c).
  apply take_app_length'. rewrite !length_app. lia.
Qed.

Lemma seal_append_bytes buf ct :
  (MessageTransportHeaderSize <= length buf)%nat ->
  slice_bytes (seal_append buf ct).1 (seal_append buf ct).2
    = take MessageTransportHeaderSize buf ++ ct.
Proof.
  intros Hlen. unfold seal_append. case_decide as Hroom; cbn; [|reflexivity].
  unfold subslice. rewrite drop_0, write_at_spec by exact Hroom.
  rewrite app_assoc. apply take_app_length'.
  rewrite length_app, length_take. unfold MessageTransportHeaderSize in *. lia.
Qed.

(** C3.  For an element as the TUN reader or [SendKeepalive] made it, the
    worker leaves in [elem.packet] the 16-byte header (type 4, the remote
    index and the nonce, each little endian) followed by the output of
    [Seal] for the 12-byte nonce "four zero bytes, then the element nonce
    little endian", the zero-padded plaintext and no associated data; the
    nonce array keeps its first four bytes zero for the next element, and
    the latch is released. *)
Theorem encrypt_element_datagram mtu (K : Keypair) wn E :
  packet_ok E -> worker_nonce_ok wn ->
  let wn' := (encrypt_element mtu K wn E).1 in
  let E' := (encrypt_element mtu K wn E).2 in
  let padded := slice_bytes (buffer E) (packet E)
                ++ replicate (pad_count mtu (slice_len (packet E))) 0 in
  wn' = [0; 0; 0; 0] ++ le_digits 8 (nonce E)
  /\ slice_bytes (buffer E') (packet E')
     = [4; 0; 0; 0] ++ le_digits 4 (remoteIndex K) ++ le_digits 8 (nonce E)
       ++ Seal (send K) wn' padded []
  /\ worker_nonce_ok wn'
  /\ mutex E' = false.
Proof.
  intros Hpk [Hwl Hwz] wn' E' padded.
  pose proof (packet_ok_slice_ok E Hpk) as Hok. destruct Hpk as [Hhdr _].
  assert (Hwn : wn' = [0; 0; 0; 0] ++ le_digits 8 (nonce E)).
  { subst wn'. unfold encrypt_element.
    destruct (pad_packet _ _ _) as [b4 p4]. destruct (seal_append _ _) as [b5 p5].
    cbn [fst]. rewrite write_at_spec by (cbn; unfold NonceSize in Hwl; lia).
    rewrite Hwz, PutUint64_le. cbn [length le_digits].
    rewrite drop_ge by (unfold NonceSize in Hwl; lia). now rewrite app_nil_r. }
  set (buf3 := write_at 8 (PutUint64 (nonce E))
                 (write_at 4 (PutUint32 (remoteIndex K))
                    (write_at 0 (PutUint32 MessageTransportType) (buffer E)))).
  assert (Hl3 : length buf3 = length (buffer E)).
  { subst buf3. now rewrite !write_at_length. }
  assert (Hok3 : slice_ok buf3 (packet E)).
  { unfold slice_ok in *. destruct (packet E); try exact I. now rewrite Hl3. }
  assert (Hb3 : slice_bytes buf3 (packet E) = slice_bytes (buffer E) (packet E)).
  { destruct (packet E) as [|o n|d]; cbn [slice_bytes]; try reflexivity.
    destruct Hok as [Ho _]. unfold MessageTransportHeaderSize in Ho.
    unfold buf3. do 3 (rewrite subslice_write_before by (cbn; lia)). reflexivity. }
  assert (Hh3 : take MessageTransportHeaderSize buf3
                = [4; 0; 0; 0] ++ le_digits 4 (remoteIndex K) ++ le_digits 8 (nonce E)).
  { subst buf3. unfold MessageTransportHeaderSize in *.
    rewrite header_written; [|reflexivity..|exact Hhdr].
    now rewrite !PutUint32_le, PutUint64_le. }
  destruct (pad_packet_spec mtu buf3 (packet E) Hok3)
    as (k & Hpb & _ & _ & Hpt & Hpl & Hz & Hnz).
  assert (Hk : k = pad_count mtu (slice_len (packet E))).
  { unfold pad_count. case_decide as Hm; [now apply Hz | ].
    rewrite <- (Hnz Hm). now rewrite Nat2Z.id. }
  subst wn' E'. unfold encrypt_element in *. fold buf3 in Hwn |- *.
  destruct (pad_packet mtu buf3 (packet E)) as [b4 p4]. cbn [fst snd] in *.
  pose proof (seal_append_bytes b4
    (Seal (send K) (write_at 4 (PutUint64 (nonce E)) wn) (slice_bytes b4 p4) [])
    ltac:(lia)) as Hsa.
  destruct (seal_append b4 _) as [b5 p5]. cbn [fst snd] in *.
  split; [exact Hwn|]. split; [|split].
  - cbn. rewrite Hsa, Hpt, Hh3, Hpb, Hb3, Hk. subst padded.
    now rewrite <- !app_assoc.
  - rewrite Hwn. split; reflexivity.
  - reflexivity.
Qed.

End Encryption.

Lemma encrypt_element_datagram_witness :
  let E := set_data (replicate 96 9) (SliceBuf 16 3) (NewOutboundElement []) in
  let K := @mkKeypair sample_constants 5 0 true 258 tt in
  slice_bytes (buffer (@encrypt_element sample_constants 64 K (replicate 12 0) E).2)
              (packet (@encrypt_element sample_constants 64 K (replicate 12 0) E).2)
  = [4; 0; 0; 0] ++ [2; 1; 0; 0] ++ [0; 0; 0; 0; 0; 0; 0; 0]
    ++ replicate 3 246 ++ replicate 13 255 ++ replicate 16 0.
Proof.
  intros E K.
  assert (Hpk : packet_ok E) by (vm_compute; lia).
  assert (Hwn : worker_nonce_ok (replicate 12 0)) by (split; reflexivity).
  destruct (@encrypt_element_datagram sample_constants 64 K (replicate 12 0) E Hpk Hwn)
    as (_ & Hd & _).
  rewrite Hd. reflexivity.
Defined.

End EncryptFacts.

(** ** The handshake trigger *)

Module HandshakeFacts.
Import Send.

Section Handshake.
Context `{Constants}.

Lemma SendHandshakeInitiation_calls isRetry env T :
  hsCalls (SendHandshakeInitiation isRetry env T).1 = isRetry :: hsCalls T.
Proof.
  unfold SendHandshakeInitiation. case_decide; [reflexivity|].
  destruct (create env); reflexivity.
Qed.

(** C5 (as amended).  [keepKeyFreshSending] calls
    [SendHandshakeInitiation(false)] exactly when there is a current key
    pair and either its send nonce exceeds [RekeyAfterMessages] (whichever
    side initiated) or it is initiator-side and older than
    [RekeyAfterTime]; otherwise it changes nothing. *)
Theorem keepKeyFreshSending_trigger (kp : option Keypair) now env T :
  (triggered T (keepKeyFreshSending kp now env T) <->
     exists K, kp = Some K /\
       (sendNonce K > RekeyAfterMessages \/
        (isInitiator K = true /\ time_Sub now (created K) > RekeyAfterTime)))
  /\ (~ triggered T (keepKeyFreshSending kp now env T) ->
      keepKeyFreshSending kp now env T = T).
Proof.
  assert (Hno : ~ triggered T T).
  { unfold triggered. intros Heq.
    apply (f_equal length) in Heq. cbn in Heq. lia. }
  unfold keepKeyFreshSending. destruct kp as [K|].
  - destruct (bool_decide (sendNonce K > RekeyAfterMessages)) eqn:Hn; cbn [orb].
    + apply bool_decide_eq_true in Hn. split.
      * split; [intros _; exists K; auto |].
        intros _. apply SendHandshakeInitiation_calls.
      * intros Hnt. exfalso. apply Hnt. apply SendHandshakeInitiation_calls.
    + apply bool_decide_eq_false in Hn.
      destruct (isInitiator K) eqn:Hi; cbn [andb].
      * destruct (bool_decide (time_Sub now (created K) > RekeyAfterTime)) eqn:Ha.
        -- apply bool_decide_eq_true in Ha. split.
           ++ split; [intros _; exists K; auto |].
              intros _. apply SendHandshakeInitiation_calls.
           ++ intros Hnt. exfalso. apply Hnt. apply SendHandshakeInitiation_calls.
        -- apply bool_decide_eq_false in Ha. split; [|reflexivity].
           split; [intros Ht; destruct (Hno Ht) |].
           intros (K' & HK & [Hc | [_ Hc]]); inversion HK; subst K'; contradiction.
      * split; [|reflexivity].
        split; [intros Ht; destruct (Hno Ht) |].
        intros (K' & HK & [Hc | [Hc _]]); inversion HK; subst K';
          [contradiction | congruence].
  - split; [|reflexivity].
    split; [intros Ht; destruct (Hno Ht) |].
    intros (K' & Hc & _). discriminate Hc.
Qed.

(** C8.  A call made less than [RekeyTimeout] after [lastSentHandshake]
    sends nothing, leaves [lastSentHandshake] alone and returns [nil]; so of
    two calls in a row the second sends nothing when it comes less than
    [RekeyTimeout] after the stamp the first left, the two together send at
    most one initiation, and both can only send when the second comes at
    least [RekeyTimeout] after the first one's stamp. *)
Theorem SendHandshakeInitiation_rate_limit r1 r2 env1 env2 T :
  let T1 := (SendHandshakeInitiation r1 env1 T).1 in
  let T2 := (SendHandshakeInitiation r2 env2 T1).1 in
  time_Sub (now_check env2) (lastSentHandshake T1) < RekeyTimeout ->
  initiationsSent T2 = initiationsSent T1
  /\ (SendHandshakeInitiation r2 env2 T1).2 = None
  /\ lastSentHandshake T2 = lastSentHandshake T1
  /\ (length (initiationsSent T2) <= S (length (initiationsSent T)))%nat.
Proof.
  intros T1 T2 Hlt. subst T2.
  assert (Hone : (length (initiationsSent T1) <= S (length (initiationsSent T)))%nat).
  { subst T1. unfold SendHandshakeInitiation. case_decide; cbn; [lia|].
    destruct (create env1); cbn; lia. }
  unfold SendHandshakeInitiation at 1 2 3 4.
  destruct (decide (time_Sub (now_check env2) (lastSentHandshake T1) < RekeyTimeout))
    as [_|Hge]; [|contradiction].
  cbn. repeat split; try reflexivity. exact Hone.
Qed.

End Handshake.

(** C5, the claim as stated fails: with a responder-side key pair whose
    send nonce is past [RekeyAfterMessages] the function does call
    [SendHandshakeInitiation(false)]. *)
Lemma keepKeyFreshSending_responder :
  let K := @mkKeypair sample_constants 9 0 false 1 tt in
  let env := mkHsEnv 100 100 (inl [1]) (fun m => m) None in
  let T := mkTimers 3 0 [] [] [] in
  isInitiator K = false
  /\ triggered T (@keepKeyFreshSending sample_constants (Some K) 100 env T)
  /\ initiationsSent (@keepKeyFreshSending sample_constants (Some K) 100 env T) = [[1]].
Proof. vm_compute. repeat split. Qed.

Lemma SendHandshakeInitiation_rate_limit_witness :
  let env1 := mkHsEnv 100 101 (inl [1]) (fun m => m) None in
  let env2 := mkHsEnv 103 103 (inl [2]) (fun m => m) None in
  let T := mkTimers 0 0 [] [] [] in
  let T1 := (@SendHandshakeInitiation sample_constants false env1 T).1 in
  let T2 := (@SendHandshakeInitiation sample_constants false env2 T1).1 in
  initiationsSent T2 = [[1]].
Proof.
  intros env1 env2 T T1 T2.
  assert (Hlt : time_Sub (now_check env2) (lastSentHandshake T1)
                < @RekeyTimeout sample_constants) by (vm_compute; reflexivity).
  destruct (@SendHandshakeInitiation_rate_limit sample_constants
              false false env1 env2 T Hlt) as (Heq & _).
  fold T1 in Heq. fold T2 in Heq. rewrite Heq. reflexivity.
Defined.

End HandshakeFacts.

(** ** Invariants of the pipeline *)

Module PipelineFacts.
Import Wire Send.

Section Pipeline.
Context `{Constants}.

(** *** Frame lemmas: a change of one element of the heap *)

Lemma stage_at_insert_ne h e E' e0 s :
  e0 <> e -> stage_at h e0 s -> stage_at (<[e := E']> h) e0 s.
Proof.
  intros Hne (E & Hl & Hs). exists E. split; [|exact Hs].
  now rewrite lookup_insert_ne by congruence.
Qed.

Lemma stage_at_insert_other h e E' e0 s :
  (forall E, h !! e = Some E -> stage E <> s) ->
  stage_at h e0 s -> stage_at (<[e := E']> h) e0 s.
Proof.
  intros Hno Hat. apply stage_at_insert_ne; [|exact Hat].
  intros ->. destruct Hat as (E & Hl & Hs). exact (Hno E Hl Hs).
Qed.

Lemma stage_at_insert_same h e E E' e0 s :
  h !! e = Some E -> stage E' = stage E ->
  stage_at h e0 s -> stage_at (<[e := E']> h) e0 s.
Proof.
  intros Hl Hst (E0 & Hl0 & Hs0). destruct (decide (e0 = e)) as [->|Hne].
  - exists E'. rewrite lookup_insert_eq. split; [reflexivity|]. congruence.
  - exists E0. now rewrite lookup_insert_ne by congruence.
Qed.

Lemma stage_at_fun h e s s' : stage_at h e s -> stage_at h e s' -> s = s'.
Proof. intros (E & Hl & Hs) (E' & Hl' & Hs'). congruence. Qed.

Lemma tun_ok_insert_other h e E' t :
  (forall E, h !! e = Some E -> stage E <> Fresh) ->
  tun_ok h t -> tun_ok (<[e := E']> h) t.
Proof. intros Hno. destruct t; cbn; auto using stage_at_insert_other. Qed.

Lemma tun_ok_insert_same h e E E' t :
  h !! e = Some E -> stage E' = stage E ->
  tun_ok h t -> tun_ok (<[e := E']> h) t.
Proof. intros Hl Hs. destruct t; cbn; eauto using stage_at_insert_same. Qed.

Lemma ka_ok_insert_other h e E' ka :
  (forall E, h !! e = Some E -> forall p, stage E <> Pending p) ->
  ka_ok h ka -> ka_ok (<[e := E']> h) ka.
Proof.
  intros Hno Hka p e0 Hin. apply stage_at_insert_other; [|now apply Hka].
  intros E Hl. now apply Hno.
Qed.

Lemma ka_ok_insert_same h e E E' ka :
  h !! e = Some E -> stage E' = stage E ->
  ka_ok h ka -> ka_ok (<[e := E']> h) ka.
Proof. intros Hl Hs Hka p e0 Hin. eapply stage_at_insert_same; eauto. Qed.

Lemma enc_ok_insert_other h e E' q :
  (forall E, h !! e = Some E -> stage E <> InEnc) ->
  enc_ok h q -> enc_ok (<[e := E']> h) q.
Proof.
  intros Hno [Hnd Hq]. split; [exact Hnd|].
  intros e0 Hin. apply stage_at_insert_other; auto.
Qed.

Lemma enc_ok_insert_same h e E E' q :
  h !! e = Some E -> stage E' = stage E ->
  enc_ok h q -> enc_ok (<[e := E']> h) q.
Proof.
  intros Hl Hs [Hnd Hq]. split; [exact Hnd|].
  intros e0 Hin. eapply stage_at_insert_same; eauto.
Qed.

Lemma work_ok_insert_other h e E' ws :
  (forall E, h !! e = Some E -> forall w, stage E <> InWork w) ->
  work_ok h ws -> work_ok (<[e := E']> h) ws.
Proof.
  intros Hno Hw w W e0 HW He. apply stage_at_insert_other; [|eapply Hw; eauto].
  intros E Hl. now apply Hno.
Qed.

Lemma work_ok_insert_same h e E E' ws :
  h !! e = Some E -> stage E' = stage E ->
  work_ok h ws -> work_ok (<[e := E']> h) ws.
Proof. intros Hl Hs Hw w W e0 HW He. eapply stage_at_insert_same; eauto. Qed.

(** A peer is not concerned by an element of another owner, nor by a new
    element. *)
Lemma peer_ok_insert_other h e E' p P :
  (forall E, h !! e = Some E -> owner E <> Some p) ->
  peer_ok h p P -> peer_ok (<[e := E']> h) p P.
Proof.
  intros Hno (Hnd & Hsub & Hel). split; [exact Hnd|]. split; [exact Hsub|].
  intros e0 Hin. destruct (Hel e0 Hin) as (E0 & Hl0 & Ho0 & Hrest).
  exists E0. split; [|auto].
  rewrite lookup_insert_ne; [exact Hl0|].
  intros ->. exact (Hno E0 Hl0 Ho0).
Qed.

(** Nor by a change that keeps the owner and the buffer count and either
    keeps the stage or starts from a stage past the sequencer. *)
Lemma peer_ok_insert_late h e E E' p P :
  h !! e = Some E -> owner E' = owner E -> returned E' = returned E ->
  (stage E' = stage E \/ early (stage E) = false) ->
  peer_ok h p P -> peer_ok (<[e := E']> h) p P.
Proof.
  intros Hl Ho Hr Hs (Hnd & Hsub & Hel). split; [exact Hnd|]. split; [exact Hsub|].
  intros e0 Hin. destruct (Hel e0 Hin) as (E0 & Hl0 & Ho0 & Hq & Hse & Hsa & Hu).
  destruct (decide (e0 = e)) as [->|Hne].
  - assert (E0 = E) by congruence. subst E0.
    exists E'. rewrite lookup_insert_eq. split; [reflexivity|].
    split; [congruence|].
    destruct Hs as [Hs|Hs].
    + rewrite Hs, Hr. repeat split; assumption.
    + rewrite Hr. split; [|split; [|split]]; try assumption.
      * intros Hi. rewrite (Hq Hi) in Hs. discriminate.
      * intros Hi. rewrite (Hse Hi) in Hs. discriminate.
      * intros Hi. rewrite (Hsa Hi) in Hs. discriminate.
  - exists E0. rewrite lookup_insert_ne by congruence.
    repeat split; assumption.
Qed.

Lemma peer_ok_NoDup_chain h p P : peer_ok h p P -> NoDup (chain P).
Proof. intros (Hnd & Hsub & _). eapply sublist_NoDup; eauto. Qed.

Lemma peer_ok_chain_log h p P e : peer_ok h p P -> e ∈ chain P -> e ∈ (nonceLog P).*1.
Proof. intros (_ & Hsub & _) Hin. eapply sublist_subseteq; eauto. Qed.

Lemma peer_ok_elem h p P e :
  peer_ok h p P -> e ∈ chain P -> elem_of_peer h p P e.
Proof. intros Hok Hin. destruct Hok as (Hnd & Hsub & Hel). apply Hel. eapply sublist_subseteq; eauto. Qed.

Lemma NoDup_mid {A} (l1 : list A) x l2 : NoDup (l1 ++ x :: l2) -> x ∉ l1 ++ l2.
Proof.
  intros Hnd. apply NoDup_app in Hnd as (_ & Hdis & Hnd).
  apply NoDup_cons in Hnd as [Hx _]. intros Hin.
  apply elem_of_app in Hin as [Hin|Hin]; [|contradiction].
  apply (Hdis x Hin). left.
Qed.

(** *** Changes of a peer *)

Lemma peer_ok_same h p P P' :
  queue_nonce P' = queue_nonce P -> queue_outbound P' = queue_outbound P ->
  seq_pc P' = seq_pc P -> snd_pc P' = snd_pc P ->
  nonceLog P' = nonceLog P -> sendLog P' = sendLog P ->
  peer_ok h p P -> peer_ok h p P'.
Proof.
  intros H1 H2 H3 H4 H5 H6 Hp.
  unfold peer_ok, elem_of_peer, chain, unsent, seq_held,
    snd_held, seq_early, seq_assigned in *.
  rewrite H1, H2, H3, H4, H5, H6. exact Hp.
Qed.

(** The peer drops or moves elements, the heap stays. *)
Lemma peer_ok_move h p P P' :
  peer_ok h p P ->
  nonceLog P' = nonceLog P -> chain P' `sublist_of` chain P ->
  (forall e0, lists_within P' P e0) ->
  peer_ok h p P'.
Proof.
  intros (Hnd & Hsub & Hel) Hlog Hch Hin. unfold peer_ok. rewrite Hlog.
  split; [exact Hnd|]. split; [etrans; eauto|].
  intros e0 He0. destruct (Hel e0 He0) as (E0 & Hl0 & Ho0 & Hq & Hse & Hsa & Hu).
  destruct (Hin e0) as (I1 & I2 & I3 & I4).
  exists E0. repeat split; auto.
Qed.

(** The peer drops or moves elements and its element [x] changes. *)
Lemma peer_ok_change h p P P' x X' :
  peer_ok h p P ->
  owner X' = Some p ->
  nonceLog P' = nonceLog P -> chain P' `sublist_of` chain P ->
  (forall e0, e0 <> x -> lists_within P' P e0) ->
  (x ∈ queue_nonce P' -> stage X' = InNonce) ->
  (x ∈ seq_early P' -> stage X' = InSeq) ->
  (x ∈ seq_assigned P' -> stage X' = Assigned) ->
  (x ∈ unsent P' -> returned X' = O) ->
  peer_ok (<[x := X']> h) p P'.
Proof.
  intros (Hnd & Hsub & Hel) Ho Hlog Hch Hin X1 X2 X3 X4. unfold peer_ok. rewrite Hlog.
  split; [exact Hnd|]. split; [etrans; eauto|].
  intros e0 He0. destruct (decide (e0 = x)) as [->|Hne].
  - exists X'. rewrite lookup_insert_eq. repeat split; auto.
  - destruct (Hel e0 He0) as (E0 & Hl0 & Ho0 & Hq & Hse & Hsa & Hu).
    destruct (Hin e0 Hne) as (I1 & I2 & I3 & I4).
    exists E0. rewrite lookup_insert_ne by congruence. repeat split; auto.
Qed.

(** The element [x], new to the peer, is sent on its nonce queue. *)
Lemma peer_ok_push h p P x X X' src :
  peer_ok h p P ->
  h !! x = Some X -> owner X = None ->
  owner X' = Some p -> stage X' = InNonce -> returned X' = O ->
  peer_ok (<[x := X']> h) p
    (set_nonceLog (nonceLog P ++ [(x, src)]) (set_queue_nonce (queue_nonce P ++ [x]) P)).
Proof.
  intros Hp HX Hno Ho Hs Hr.
  assert (Hfresh : x ∉ (nonceLog P).*1).
  { intros Hin. destruct Hp as (_ & _ & Hel).
    destruct (Hel x Hin) as (E0 & Hl0 & Ho0 & _). congruence. }
  assert (Hnc : x ∉ chain P).
  { intros Hin. apply Hfresh. eapply peer_ok_chain_log; eauto. }
  destruct Hp as (Hnd & Hsub & Hel).
  unfold peer_ok. cbn [nonceLog set_nonceLog set_queue_nonce].
  rewrite fmap_app. cbn [fmap list_fmap fst].
  split; [|split].
  - apply NoDup_app. split; [exact Hnd|]. split; [|apply NoDup_singleton].
    intros y Hy Hy'. apply list_elem_of_singleton in Hy'. subst y. contradiction.
  - unfold chain in *. cbn.
    replace ((sendLog P).*1 ++ snd_held P ++ queue_outbound P ++ seq_held P
             ++ queue_nonce P ++ [x])
      with (((sendLog P).*1 ++ snd_held P ++ queue_outbound P ++ seq_held P
             ++ queue_nonce P) ++ [x])
      by (now rewrite <- !app_assoc).
    apply sublist_app; [exact Hsub | reflexivity].
  - assert (Hparts : (x ∉ queue_nonce P) /\ (x ∉ seq_early P)
                     /\ (x ∉ seq_assigned P) /\ (x ∉ unsent P)).
    { unfold chain, unsent, seq_held, seq_early, seq_assigned in *.
      destruct (seq_pc P); set_solver. }
    destruct Hparts as (N1 & N2 & N3 & N4).
    intros e0 He0. apply elem_of_app in He0.
    destruct (decide (e0 = x)) as [->|Hne].
    + exists X'. rewrite lookup_insert_eq.
      unfold elem_of_peer, unsent, seq_early, seq_assigned, seq_held, snd_held in *.
      cbn in *. repeat split; auto; intros; try contradiction.
    + destruct He0 as [He0|He0]; [|apply list_elem_of_singleton in He0; contradiction].
      destruct (Hel e0 He0) as (E0 & Hl0 & Ho0 & Hq & Hse & Hsa & Hu).
      exists E0. rewrite lookup_insert_ne by congruence.
      unfold unsent, seq_early, seq_assigned, seq_held, snd_held in *. cbn in *.
      repeat split; auto.
      * intros Hi. apply Hq. set_solver.
      * intros Hi. apply Hu. rewrite !app_assoc in Hi.
        apply elem_of_app in Hi as [Hi|Hi]; [|set_solver].
        now rewrite !app_assoc.
Qed.

End Pipeline.
End PipelineFacts.

(** ** Every step keeps the structural invariant *)

Module PipelineSteps.
Import Wire Send PipelineFacts.

Section Steps.
Context `{Constants}.

Lemma peers_update (h h' : gmap nat QueueOutboundElement) (ps : gmap nat Peer) p P' :
  (forall q Q, q <> p -> ps !! q = Some Q -> peer_ok h q Q -> peer_ok h' q Q) ->
  map_Forall (peer_ok h) ps -> peer_ok h' p P' ->
  map_Forall (peer_ok h') (<[p := P']> ps).
Proof.
  intros Hother Hall Hp q Q Hq.
  apply lookup_insert_Some in Hq as [[<- <-]|[Hne Hq]]; [exact Hp|].
  apply Hother; [congruence | exact Hq | exact (Hall q Q Hq)].
Qed.

Lemma peers_frame (h h' : gmap nat QueueOutboundElement) (ps : gmap nat Peer) :
  (forall q Q, ps !! q = Some Q -> peer_ok h q Q -> peer_ok h' q Q) ->
  map_Forall (peer_ok h) ps -> map_Forall (peer_ok h') ps.
Proof. intros Hf Hall q Q Hq. apply Hf; [exact Hq | exact (Hall q Q Hq)]. Qed.

Lemma elems_update (h : gmap nat QueueOutboundElement) e E' :
  map_Forall (fun _ E => elem_ok E) h -> elem_ok E' ->
  map_Forall (fun _ E => elem_ok E) (<[e := E']> h).
Proof. intros Hall HE. apply map_Forall_insert_2; assumption. Qed.

Lemma elem_ok_new buf : elem_ok (NewOutboundElement buf).
Proof.
  unfold elem_ok. cbn. repeat split; auto.
Qed.

(** A new element concerns nobody. *)
Lemma Inv_alloc d e E' :
  Inv d -> elems d !! e = None -> elem_ok E' ->
  Inv (put_elem e E' d).
Proof.
  intros [Hp He Ht Hk Hq Hw] Hnew HE'. constructor; cbn.
  - eapply peers_frame; [|exact Hp]. intros q Q _.
    apply peer_ok_insert_other. intros E HE. congruence.
  - now apply elems_update.
  - apply tun_ok_insert_other; [|exact Ht]. intros E HE. congruence.
  - apply ka_ok_insert_other; [|exact Hk]. intros E HE. congruence.
  - apply enc_ok_insert_other; [|exact Hq]. intros E HE. congruence.
  - apply work_ok_insert_other; [|exact Hw]. intros E HE. congruence.
Qed.

(** A change of an element that keeps its stage, owner and counters. *)
Lemma Inv_touch d e E E' :
  Inv d -> elems d !! e = Some E ->
  stage E' = stage E -> owner E' = owner E -> returned E' = returned E ->
  elem_ok E' ->
  Inv (put_elem e E' d).
Proof.
  intros [Hp He Ht Hk Hq Hw] HE Hs Ho Hr HE'. constructor; cbn.
  - eapply peers_frame; [|exact Hp]. intros q Q _.
    eapply peer_ok_insert_late; eauto.
  - now apply elems_update.
  - eapply tun_ok_insert_same; eauto.
  - eapply ka_ok_insert_same; eauto.
  - eapply enc_ok_insert_same; eauto.
  - eapply work_ok_insert_same; eauto.
Qed.

(** A change of a peer that keeps its queues, program points and logs. *)
Lemma Inv_peer_same d p P P' :
  Inv d -> peers d !! p = Some P ->
  queue_nonce P' = queue_nonce P -> queue_outbound P' = queue_outbound P ->
  seq_pc P' = seq_pc P -> snd_pc P' = snd_pc P ->
  nonceLog P' = nonceLog P -> sendLog P' = sendLog P ->
  Inv (put_peer p P' d).
Proof.
  intros [Hp He Ht Hk Hq Hw] HP H1 H2 H3 H4 H5 H6. constructor; cbn; try assumption.
  eapply peers_update; [| exact Hp |]; [auto|].
  specialize (Hp p P HP). unfold peer_ok, elem_of_peer, chain, unsent, seq_held,
    snd_held, seq_early, seq_assigned in *.
  rewrite H1, H2, H3, H4, H5, H6. exact Hp.
Qed.

Lemma env_new_peer_Inv p d d' : Inv d -> env_new_peer p d = Some d' -> Inv d'.
Proof.
  intros HI Hs. unfold env_new_peer in Hs.
  destruct (peers d !! p) eqn:Hp; [discriminate|]. injection Hs as <-.
  destruct HI as [Hps He Ht Hk Hq Hw]. constructor; cbn; try assumption.
  apply map_Forall_insert_2; [|exact Hps].
  split; [constructor|]. split; [constructor|].
  intros e Hin. cbn in Hin. inversion Hin.
Qed.

Lemma env_spawn_worker_Inv w d d' : Inv d -> env_spawn_worker w d = Some d' -> Inv d'.
Proof.
  intros HI Hs. unfold env_spawn_worker in Hs.
  destruct (workers d !! w) eqn:Hw0; [discriminate|]. injection Hs as <-.
  destruct HI as [Hps He Ht Hk Hq Hw]. constructor; cbn; try assumption.
  intros w' W e HW Hel. apply lookup_insert_Some in HW as [[<- <-]|[Hne HW]].
  - discriminate Hel.
  - eapply Hw; eauto.
Qed.

Lemma env_new_keypair_Inv p k K d d' :
  Inv d -> env_new_keypair p k K d = Some d' -> Inv d'.
Proof.
  intros HI Hs. unfold env_new_keypair in Hs.
  destruct (peers d !! p) as [P|] eqn:HP; [|discriminate]. cbn in Hs.
  case_decide; [|discriminate]. injection Hs as <-.
  pose proof (Inv_peer_same d p P
    (set_newKeypairArrived true (set_current (Some k) P)) HI HP
    eq_refl eq_refl eq_refl eq_refl eq_refl eq_refl) as [Hps He Ht Hk Hq Hw].
  constructor; assumption.
Qed.

Lemma env_clear_keypair_Inv p d d' :
  Inv d -> env_clear_keypair p d = Some d' -> Inv d'.
Proof.
  intros HI Hs. unfold env_clear_keypair in Hs.
  destruct (peers d !! p) as [P|] eqn:HP; [|discriminate]. injection Hs as <-.
  now apply (Inv_peer_same d p P).
Qed.

Lemma FlushNonceQueue_Inv p d d' : Inv d -> FlushNonceQueue p d = Some d' -> Inv d'.
Proof.
  intros HI Hs. unfold FlushNonceQueue in Hs.
  destruct (peers d !! p) as [P|] eqn:HP; [|discriminate]. injection Hs as <-.
  now apply (Inv_peer_same d p P).
Qed.

Lemma env_stop_Inv p d d' : Inv d -> env_stop p d = Some d' -> Inv d'.
Proof.
  intros HI Hs. unfold env_stop in Hs.
  destruct (peers d !! p) as [P|] eqn:HP; [|discriminate]. injection Hs as <-.
  now apply (Inv_peer_same d p P).
Qed.

Lemma Inv_set_tun d t : Inv d -> tun_ok (elems d) t -> Inv (set_tun t d).
Proof. intros [Hps He Ht Hk Hq Hw] Ht'. constructor; assumption. Qed.

Lemma Inv_set_tun_mtu d m : Inv d -> Inv (set_tun_mtu m d).
Proof. intros [Hps He Ht Hk Hq Hw]. constructor; assumption. Qed.

Lemma stage_at_insert_eq (h : gmap nat QueueOutboundElement) e E :
  stage_at (<[e := E]> h) e (stage E).
Proof. exists E. now rewrite lookup_insert_eq. Qed.

Lemma tun_begin_Inv e buf d d' : Inv d -> tun_begin e buf d = Some d' -> Inv d'.
Proof.
  intros HI Hs. unfold tun_begin in Hs.
  destruct (tun d) eqn:Ht; try discriminate.
  case_decide as Hg; [|discriminate]. destruct Hg as [Hnew _]. injection Hs as <-.
  apply Inv_set_tun; [apply Inv_alloc; auto using elem_ok_new|].
  cbn. apply (stage_at_insert_eq _ e (NewOutboundElement buf)).
Qed.

Lemma elem_ok_set_data buf pkt E : elem_ok E -> elem_ok (set_data buf pkt E).
Proof. intros HE. exact HE. Qed.

Lemma tun_read_Inv pkt env d d' : Inv d -> tun_read pkt env d = Some d' -> Inv d'.
Proof.
  intros HI Hs. unfold tun_read in Hs.
  destruct (tun d) as [|e| |] eqn:Ht; try discriminate.
  destruct (elems d !! e) as [E|] eqn:HE; [|discriminate]. cbn in Hs.
  assert (HEok : elem_ok E) by exact (inv_elems d HI e E HE).
  case_decide as Hsz.
  { injection Hs as <-. eapply Inv_touch; eauto. }
  case_decide as Hfit; [|discriminate].
  set (E1 := set_data (write_at MessageTransportHeaderSize pkt (buffer E))
               (SliceBuf MessageTransportHeaderSize (length pkt)) E) in *.
  assert (HI1 : Inv (put_elem e E1 d)) by (eapply Inv_touch; eauto).
  destruct (lookup_peer _) as [p|]; [|injection Hs as <-; exact HI1].
  destruct (peers d !! p) as [P|] eqn:HP; [|discriminate]. cbn in Hs.
  destruct (isRunning P); [|injection Hs as <-; exact HI1].
  injection Hs as <-.
  apply Inv_set_tun.
  - apply (Inv_peer_same (put_elem e E1 d) p P); auto;
      destruct (packetInNonceQueueIsAwaitingKey P); reflexivity.
  - cbn. pose proof (inv_tun d HI) as Ht'. rewrite Ht in Ht'. cbn in Ht'.
    destruct Ht' as (E0 & HE0 & Hst). assert (E0 = E) by congruence. subst E0.
    exists E1. rewrite lookup_insert_eq. split; [reflexivity | exact Hst].
Qed.

Lemma tun_read_error_Inv d d' : Inv d -> tun_read_error d = Some d' -> Inv d'.
Proof.
  intros HI Hs. unfold tun_read_error in Hs.
  destruct (tun d); try discriminate. injection Hs as <-.
  apply Inv_set_tun; [exact HI | exact I].
Qed.

Lemma elem_ok_fresh E :
  elem_ok E -> stage E = Fresh \/ (exists p, stage E = Pending p) ->
  owner E = None /\ returned E = O /\ unlocks E = O.
Proof.
  intros (_ & _ & Hu & _ & Hr & Hf) Hst. pose proof (Hf Hst) as Ho.
  repeat split; auto. apply Hu. destruct Hst as [->|[p ->]]; discriminate.
Qed.

(** Sending a new element [e] of stage [s] on the nonce queue of [p]. *)
Lemma Inv_push_nonce d p P e E src t :
  Inv d -> peers d !! p = Some P -> elems d !! e = Some E ->
  stage E = Fresh \/ (exists p, stage E = Pending p) ->
  tun_ok (<[e := set_owner p (set_stage InNonce E)]> (elems d)) t ->
  forall ka,
  ka_ok (<[e := set_owner p (set_stage InNonce E)]> (elems d)) ka ->
  Inv (set_keepalives ka (set_tun t
         (put_elem e (set_owner p (set_stage InNonce E))
            (put_peer p (set_nonceLog (nonceLog P ++ [(e, src)])
                           (set_queue_nonce (queue_nonce P ++ [e]) P)) d)))).
Proof.
  intros [Hps He Htun Hk Hq Hw] HP HE Hst Ht' ka Hk'.
  pose proof (He e E HE) as HEok.
  destruct (elem_ok_fresh E HEok Hst) as (Hown & Hret & Hunl).
  constructor; cbn.
  - eapply peers_update; [| exact Hps |].
    + intros q Q Hne HQ. apply peer_ok_insert_other. intros E0 HE0. congruence.
    + eapply peer_ok_push; eauto.
  - apply elems_update; [exact He|].
    destruct HEok as (H1 & H2 & H3 & H4 & H5 & H6).
    unfold elem_ok. cbn. repeat split; auto; try discriminate.
    intros [Hc|[p0 Hc]]; discriminate.
  - exact Ht'.
  - exact Hk'.
  - apply enc_ok_insert_other; [|exact Hq]. intros E0 HE0.
    assert (E0 = E) by congruence. subst E0.
    destruct Hst as [->|[p0 ->]]; discriminate.
  - apply work_ok_insert_other; [|exact Hw]. intros E0 HE0 w.
    assert (E0 = E) by congruence. subst E0.
    destruct Hst as [->|[p0 ->]]; discriminate.
Qed.

(** Taking the oldest element of the nonce queue out and finishing it. *)
Lemma peer_ok_drop_nonce h p P old q O' :
  peer_ok h p P -> queue_nonce P = old :: q ->
  owner O' = Some p -> stage O' = Finished ->
  peer_ok (<[old := O']> h) p (set_queue_nonce q P).
Proof.
  intros Hp Hq Ho Hs.
  pose proof (peer_ok_NoDup_chain h p P Hp) as Hnd.
  assert (Hch : chain P = ((sendLog P).*1 ++ snd_held P ++ queue_outbound P
                           ++ seq_held P) ++ old :: q).
  { unfold chain. rewrite Hq. now rewrite <- !app_assoc. }
  rewrite Hch in Hnd. apply NoDup_app in Hnd as (_ & Hdis & Hndq).
  apply NoDup_cons in Hndq as [Hnq _].
  assert (Hnpre : old ∉ (sendLog P).*1 ++ snd_held P ++ queue_outbound P ++ seq_held P).
  { intros Hin. apply (Hdis old Hin). left. }
  eapply peer_ok_change; eauto.
  - rewrite Hch. unfold chain. cbn. rewrite <- !app_assoc.
    repeat apply sublist_app; try reflexivity. now apply sublist_cons.
  - intros e0 Hne. unfold lists_within, unsent, seq_early, seq_assigned, seq_held,
      snd_held. cbn. rewrite Hq. repeat split; auto; set_solver.
  - cbn. intros Hin. contradiction.
  - cbn. unfold seq_early, seq_held in *. cbn.
    destruct (seq_pc P); set_solver.
  - cbn. unfold seq_assigned, seq_held in *. cbn.
    destruct (seq_pc P); set_solver.
  - unfold unsent. cbn. intros Hin. exfalso. set_solver.
Qed.

Lemma elem_ok_finish E E' :
  elem_ok E -> stage E' = Finished ->
  unlocks E' = unlocks E -> returned E' = returned E -> owner E' = owner E ->
  elem_ok E'.
Proof.
  intros (H1 & H2 & H3 & H4 & H5 & H6) Hs Hu Hr Ho.
  unfold elem_ok. rewrite Hs, Hu, Hr, Ho. cbn.
  repeat split; auto; try discriminate; try contradiction.
  intros [Hc|[p0 Hc]]; discriminate.
Qed.

Lemma tun_add_Inv e' buf' d d' : Inv d -> tun_add e' buf' d = Some d' -> Inv d'.
Proof.
  intros HI Hs. unfold tun_add in Hs.
  destruct (tun d) as [| |p e pc|] eqn:Ht; try discriminate.
  pose proof (inv_tun d HI) as Hte. rewrite Ht in Hte. cbn in Hte.
  destruct Hte as (E & HE & HstE).
  destruct (peers d !! p) as [P|] eqn:HP; [|destruct pc; discriminate].
  destruct pc; cbn in Hs.
  - rewrite HE in Hs. cbn in Hs. case_decide as Hroom.
    + case_decide as Hg; [|discriminate]. destruct Hg as [Hnew _]. injection Hs as <-.
      assert (Hne : e' <> e) by congruence.
      pose proof (Inv_push_nonce d p P e E true TunClosed HI HP HE (or_introl HstE) I
                    (keepalives d)) as HI2.
      match goal with
      | |- Inv (set_tun _ (put_elem _ _ ?d2)) =>
          change (Inv (set_tun (TunRead e')
                         (put_elem e' (NewOutboundElement buf') (set_tun TunClosed d2))))
      end.
      apply (Inv_set_tun _ (TunRead e')).
      * refine (Inv_alloc _ e' _ (HI2 _) _ (elem_ok_new buf')).
        -- apply ka_ok_insert_other; [|exact (inv_ka d HI)].
           intros E0 HE0 p0. assert (E0 = E) by congruence. subst E0. congruence.
        -- cbn. rewrite lookup_insert_ne by congruence. exact Hnew.
      * cbn. apply (stage_at_insert_eq _ e' (NewOutboundElement buf')).
    + injection Hs as <-. apply Inv_set_tun; [exact HI|]. cbn. exists E. auto.
  - destruct (queue_nonce P) as [|old q] eqn:Hq.
    + injection Hs as <-. apply Inv_set_tun; [exact HI|]. cbn. exists E. auto.
    + destruct (elems d !! old) as [O|] eqn:HO; [|discriminate]. cbn in Hs.
      injection Hs as <-.
      destruct HI as [Hps He Htun Hk Hqe Hw].
      pose proof (Hps p P HP) as HPok.
      assert (Hold : elem_of_peer (elems d) p P old).
      { eapply peer_ok_elem; eauto. unfold chain. rewrite Hq. set_solver. }
      destruct Hold as (O0 & HO0 & Hown & Hst & _).
      assert (O0 = O) by congruence. subst O0.
      assert (HstO : stage O = InNonce) by (apply Hst; rewrite Hq; left).
      constructor; cbn.
      * eapply peers_update; [| exact Hps |].
        -- intros q0 Q Hne HQ. apply peer_ok_insert_other. intros E0 HE0. congruence.
        -- eapply peer_ok_drop_nonce; eauto.
      * apply elems_update; [exact He|].
        eapply elem_ok_finish; [exact (He old O HO) | reflexivity ..].
      * apply stage_at_insert_other; [|exists E; auto]. intros E0 HE0. congruence.
      * apply ka_ok_insert_other; [|exact Hk]. intros E0 HE0 p0. congruence.
      * apply enc_ok_insert_other; [|exact Hqe]. intros E0 HE0. congruence.
      * apply work_ok_insert_other; [|exact Hw]. intros E0 HE0 w. congruence.
Qed.

Lemma Inv_set_keepalives d ka : Inv d -> ka_ok (elems d) ka -> Inv (set_keepalives ka d).
Proof. intros [Hps He Ht Hk Hq Hw] Hk'. constructor; assumption. Qed.

Lemma keepalive_make_Inv p e buf d d' :
  Inv d -> keepalive_make p e buf d = Some d' -> Inv d'.
Proof.
  intros HI Hs. unfold keepalive_make in Hs.
  destruct (peers d !! p) as [P|] eqn:HP; [|discriminate]. cbn in Hs.
  case_decide as Hbusy; [injection Hs as <-; exact HI|].
  case_decide as Hg; [|discriminate]. destruct Hg as [Hnew _]. injection Hs as <-.
  set (E' := set_stage (Pending p) (set_data buf SliceNil (NewOutboundElement buf))).
  apply Inv_set_keepalives.
  - apply Inv_alloc; [exact HI | exact Hnew |].
    unfold elem_ok. cbn. repeat split; auto; discriminate.
  - cbn. intros p0 e0 Hin. apply elem_of_union in Hin as [Hin|Hin].
    + apply elem_of_singleton in Hin. injection Hin as -> ->.
      apply (stage_at_insert_eq _ e E').
    + apply stage_at_insert_other; [|exact (inv_ka d HI p0 e0 Hin)].
      intros E0 HE0. congruence.
Qed.

Lemma keepalive_send_Inv p e d d' :
  Inv d -> keepalive_send p e d = Some d' -> Inv d'.
Proof.
  intros HI Hs. unfold keepalive_send in Hs.
  case_decide as Hin; [|discriminate].
  destruct (peers d !! p) as [P|] eqn:HP; [|discriminate]. cbn in Hs.
  destruct (elems d !! e) as [E|] eqn:HE; [|discriminate]. cbn in Hs.
  destruct (inv_ka d HI p e Hin) as (E0 & HE0 & HstE).
  assert (E0 = E) by congruence. subst E0. clear HE0.
  assert (Hka : forall E', ka_ok (<[e := E']> (elems d)) (keepalives d ∖ {[(p, e)]})).
  { intros E' p0 e0 Hin0. apply elem_of_difference in Hin0 as [Hin0 Hne].
    pose proof (inv_ka d HI p0 e0 Hin0) as Hat.
    apply stage_at_insert_ne; [|exact Hat].
    intros ->. assert (Pending p0 = Pending p) as [= ->]
      by (eapply stage_at_fun; [exact Hat | exists E; auto]).
    apply Hne. now apply elem_of_singleton. }
  assert (Htun : forall E', tun_ok (<[e := E']> (elems d)) (tun d)).
  { intros E'. apply tun_ok_insert_other; [|exact (inv_tun d HI)].
    intros E0 HE0. congruence. }
  case_decide as Hroom; injection Hs as <-.
  - exact (Inv_push_nonce d p P e E false (tun d) HI HP HE
             (or_intror (ex_intro _ p HstE)) (Htun _) _ (Hka _)).
  - destruct HI as [Hps He Ht Hk Hq Hw].
    pose proof (He e E HE) as HEok.
    destruct (elem_ok_fresh E HEok (or_intror (ex_intro _ p HstE))) as (Hown & _).
    constructor; cbn.
    + eapply peers_frame; [|exact Hps]. intros q Q _.
      apply peer_ok_insert_other. intros E0 HE0. congruence.
    + apply elems_update; [exact He|].
      eapply elem_ok_finish; [exact HEok | reflexivity ..].
    + apply Htun.
    + apply Hka.
    + apply enc_ok_insert_other; [|exact Hq]. intros E0 HE0. congruence.
    + apply work_ok_insert_other; [|exact Hw]. intros E0 HE0 w. congruence.
Qed.

End Steps.
End PipelineSteps.

(** ** The steps of the sequencer, the workers and the sender *)

Module PipelineSteps2.
Import Wire Send PipelineFacts PipelineSteps.

Section Steps.
Context `{Constants}.

Ltac unfold_lists :=
  unfold lists_within, chain, unsent, seq_early, seq_assigned, seq_held, snd_held in *;
  cbn [seq_pc snd_pc queue_nonce queue_outbound nonceLog sendLog
       set_seq_pc set_snd_pc set_queue_nonce set_queue_outbound set_awaitingKey
       set_timers set_newKeypairArrived set_flushNonceQueue set_sendLog set_txBytes
       to_NextPacket] in *;
  repeat match goal with
         | Hpc : seq_pc ?P = _ |- _ => rewrite Hpc in *; clear Hpc
         | Hpc : snd_pc ?P = _ |- _ => rewrite Hpc in *; clear Hpc
         | Hq : queue_nonce ?P = _ |- _ => rewrite Hq in *; clear Hq
         | Hq : queue_outbound ?P = _ |- _ => rewrite Hq in *; clear Hq
         end.

Ltac solve_sublist :=
  rewrite ?fmap_app; cbn [fmap list_fmap fst]; rewrite <- ?app_assoc; cbn [app];
  repeat first
    [ reflexivity
    | apply sublist_cons; reflexivity
    | apply sublist_app; [reflexivity|] ].

Ltac nodup_at Hnd l1 x l2 :=
  match type of Hnd with
  | NoDup ?L =>
      replace L with (l1 ++ x :: l2) in Hnd
        by (cbn; rewrite <- ?app_assoc; cbn; reflexivity);
      apply NoDup_mid in Hnd
  end.

Lemma Inv_set_keypairs d ks : Inv d -> Inv (set_keypairs ks d).
Proof. intros [Hps He Ht Hk Hq Hw]. constructor; assumption. Qed.

Lemma Inv_set_sealed d sl : Inv d -> Inv (set_sealed sl d).
Proof. intros [Hps He Ht Hk Hq Hw]. constructor; assumption. Qed.

Lemma Inv_peer_move d p P P' :
  Inv d -> peers d !! p = Some P ->
  nonceLog P' = nonceLog P -> chain P' `sublist_of` chain P ->
  (forall e0, lists_within P' P e0) ->
  Inv (put_peer p P' d).
Proof.
  intros [Hps He Ht Hk Hq Hw] HP Hlog Hch Hin. constructor; cbn; try assumption.
  eapply peers_update; [| exact Hps |]; [auto|].
  eapply peer_ok_move; eauto.
Qed.

Lemma owned_not_fresh E p :
  elem_ok E -> owner E = Some p ->
  stage E <> Fresh /\ forall p0, stage E <> Pending p0.
Proof.
  intros (_ & _ & _ & _ & _ & Hf) Ho. split.
  - intros Hc. rewrite Hf in Ho by auto. discriminate.
  - intros p0 Hc. rewrite Hf in Ho by eauto. discriminate.
Qed.

(** The sequencer of [p] changes [p] and an element of [p] that it has not
    yet handed on; [enc'] is the encryption queue after the step. *)
Lemma Inv_own_early d p P P' x X X' enc' :
  Inv d -> peers d !! p = Some P -> elems d !! x = Some X ->
  owner X = Some p -> early (stage X) = true ->
  peer_ok (<[x := X']> (elems d)) p P' -> elem_ok X' ->
  enc_ok (<[x := X']> (elems d)) enc' ->
  Inv (set_queue_encryption enc' (put_elem x X' (put_peer p P' d))).
Proof.
  intros [Hps He Ht Hk Hq Hw] HP HX Ho Hearly HP' HX' Henc.
  destruct (owned_not_fresh X p (He x X HX) Ho) as [Hnf Hnp].
  constructor; cbn.
  - eapply peers_update; [| exact Hps | exact HP'].
    intros q Q Hne HQ. apply peer_ok_insert_other. intros E0 HE0. congruence.
  - now apply elems_update.
  - apply tun_ok_insert_other; [|exact Ht]. intros E0 HE0. congruence.
  - apply ka_ok_insert_other; [|exact Hk]. intros E0 HE0. assert (E0 = X) by congruence.
    subst E0. exact Hnp.
  - exact Henc.
  - apply work_ok_insert_other; [|exact Hw]. intros E0 HE0 w Hc.
    assert (E0 = X) by congruence. subst E0. rewrite Hc in Hearly. discriminate.
Qed.

Lemma enc_ok_early (h : gmap nat QueueOutboundElement) x X X' q :
  h !! x = Some X -> early (stage X) = true ->
  enc_ok h q -> enc_ok (<[x := X']> h) q.
Proof.
  intros HX Hearly. apply enc_ok_insert_other. intros E0 HE0 Hc.
  assert (E0 = X) by congruence. subst E0. rewrite Hc in Hearly. discriminate.
Qed.

(** An element past the sequencer changes and keeps its owner and its
    buffer count; [enc'] and [ws'] are the encryption queue and the workers
    after the step. *)
Lemma Inv_late d x X X' enc' ws' :
  Inv d -> elems d !! x = Some X -> early (stage X) = false ->
  owner X' = owner X -> returned X' = returned X -> elem_ok X' ->
  enc_ok (<[x := X']> (elems d)) enc' ->
  work_ok (<[x := X']> (elems d)) ws' ->
  Inv (set_workers ws' (set_queue_encryption enc' (put_elem x X' d))).
Proof.
  intros [Hps He Ht Hk Hq Hw] HX Hlate Ho Hr HX' Henc Hwork.
  constructor; cbn.
  - eapply peers_frame; [|exact Hps]. intros q Q _.
    eapply peer_ok_insert_late; eauto.
  - now apply elems_update.
  - apply tun_ok_insert_other; [|exact Ht]. intros E0 HE0 Hc.
    assert (E0 = X) by congruence. subst E0. rewrite Hc in Hlate. discriminate.
  - apply ka_ok_insert_other; [|exact Hk]. intros E0 HE0 p0 Hc.
    assert (E0 = X) by congruence. subst E0. rewrite Hc in Hlate. discriminate.
  - exact Henc.
  - exact Hwork.
Qed.

Lemma peer_elem d p P e :
  Inv d -> peers d !! p = Some P -> e ∈ chain P ->
  exists E, elems d !! e = Some E /\ owner E = Some p /\ elem_ok E
    /\ elem_of_peer (elems d) p P e.
Proof.
  intros HI HP Hin.
  pose proof (peer_ok_elem _ _ _ e (inv_peers d HI p P HP) Hin) as Hel.
  destruct Hel as (E & HE & Ho & Hrest).
  exists E. split; [exact HE|]. split; [exact Ho|].
  split; [exact (inv_elems d HI e E HE)|].
  exists E. auto.
Qed.

Lemma seq_step_Next p ch now env d d' P :
  Inv d -> peers d !! p = Some P -> seq_pc P = SeqNext ->
  seq_step p ch now env d = Some d' -> Inv d'.
Proof.
  intros HI HP Hpc Hs. unfold seq_step in Hs. rewrite HP in Hs. cbn in Hs.
  rewrite Hpc in Hs. destruct ch; try discriminate.
  - destruct (routines_stop P); [|discriminate]. injection Hs as <-.
    apply (Inv_peer_move d p P); auto.
    + unfold_lists. reflexivity.
    + intros e0. unfold_lists. auto.
  - destruct (queue_nonce P) as [|e q] eqn:Hq; [discriminate|].
    destruct (peer_elem d p P e HI HP) as (E & HE & Ho & HEok & Hel).
    { unfold_lists. set_solver. }
    rewrite HE in Hs. cbn in Hs. injection Hs as <-.
    destruct Hel as (E0 & HE0 & _ & Hst & _ & _ & Hret).
    assert (E0 = E) by congruence. subst E0.
    assert (HstE : stage E = InNonce) by (apply Hst; rewrite Hq; left).
    pose proof (peer_ok_NoDup_chain _ _ _ (inv_peers d HI p P HP)) as Hnd.
    assert (Hnq : e ∉ q).
    { unfold_lists.
      nodup_at Hnd ((sendLog P).*1 ++ snd_held P ++ queue_outbound P) e q.
      set_solver. }
    apply (Inv_own_early d p P _ e E _ (queue_encryption d)); auto.
    + now rewrite HstE.
    + apply (peer_ok_change _ p P _ e _ (inv_peers d HI p P HP)).
      * exact Ho.
      * reflexivity.
      * unfold_lists. reflexivity.
      * intros e0 Hne. unfold_lists. repeat split; auto; set_solver.
      * cbn. intros Hc. contradiction.
      * reflexivity.
      * unfold_lists. intros Hc. set_solver.
      * cbn. intros _. apply Hret. unfold_lists. set_solver.
    + destruct HEok as (H1 & H2 & H3 & H4 & H5 & H6). unfold elem_ok. cbn.
      rewrite HstE in *. repeat split; auto; try discriminate.
      intros [Hc|[p0 Hc]]; discriminate.
    + eapply enc_ok_early; [exact HE | now rewrite HstE | exact (inv_enc d HI)].
Qed.

(** What the invariant tells of the element the sequencer holds before the
    nonce assignment. *)
Lemma seq_early_elem d p P e :
  Inv d -> peers d !! p = Some P -> seq_early P = [e] ->
  exists E, elems d !! e = Some E /\ owner E = Some p /\ elem_ok E
    /\ stage E = InSeq /\ returned E = O /\ e ∉ queue_nonce P.
Proof.
  intros HI HP Hearly.
  assert (Hheld : seq_held P = [e]).
  { unfold seq_early, seq_held in *. destruct (seq_pc P); try discriminate; exact Hearly. }
  destruct (peer_elem d p P e HI HP) as (E & HE & Ho & HEok & Hel).
  { unfold chain. rewrite Hheld. set_solver. }
  destruct Hel as (E0 & HE0 & _ & _ & Hst & _ & Hret).
  assert (E0 = E) by congruence. subst E0.
  exists E. split; [exact HE|]. split; [exact Ho|]. split; [exact HEok|].
  split; [|split].
  - apply Hst. rewrite Hearly. left.
  - apply Hret. unfold unsent. rewrite Hheld. set_solver.
  - pose proof (peer_ok_NoDup_chain _ _ _ (inv_peers d HI p P HP)) as Hnd.
    unfold chain in Hnd. rewrite Hheld in Hnd.
    nodup_at Hnd ((sendLog P).*1 ++ snd_held P ++ queue_outbound P) e (queue_nonce P).
    set_solver.
Qed.

Lemma seq_step_Key p ch now env d d' P e :
  Inv d -> peers d !! p = Some P -> seq_pc P = SeqKey e ->
  seq_step p ch now env d = Some d' -> Inv d'.
Proof.
  intros HI HP Hpc Hs. unfold seq_step in Hs. rewrite HP in Hs. cbn in Hs.
  rewrite Hpc in Hs.
  destruct (seq_early_elem d p P e HI HP) as (E & HE & Ho & HEok & HstE & Hret & Hnq).
  { unfold seq_early. now rewrite Hpc. }
  rewrite HE in Hs. cbn in Hs.
  assert (Hwait : forall P', queue_nonce P' = queue_nonce P ->
            queue_outbound P' = queue_outbound P -> seq_pc P' = SeqAwait e ->
            snd_pc P' = snd_pc P -> nonceLog P' = nonceLog P ->
            sendLog P' = sendLog P -> Inv (put_peer p P' d)).
  { intros P' H1 H2 H3 H4 H5 H6. apply (Inv_peer_move d p P); auto.
    - unfold chain, seq_held, snd_held. rewrite H1, H2, H3, H4, H6, Hpc. reflexivity.
    - intros e0. unfold lists_within, unsent, seq_early, seq_assigned, seq_held, snd_held.
      rewrite H1, H2, H3, H4, Hpc. auto. }
  destruct (keyPairs_current P ≫= _) as [[k K]|] eqn:Hcur;
    [|injection Hs as <-; now apply Hwait].
  destruct (usable K now); [|injection Hs as <-; now apply Hwait].
  unfold seq_submit in Hs. cbn in Hs.
  pose proof (inv_peers d HI p P HP) as HPok.
  case_decide as Hrej.
  - injection Hs as <-.
    apply (Inv_own_early _ p P _ e E _ (queue_encryption d)
             (Inv_set_keypairs d _ HI) HP HE Ho).
    + now rewrite HstE.
    + apply (peer_ok_change _ p P _ e _ HPok).
      * exact Ho.
      * reflexivity.
      * unfold_lists. solve_sublist.
      * intros e0 Hne. unfold_lists. repeat split; auto; set_solver.
      * cbn. intros Hc. contradiction.
      * unfold_lists. intros Hc. set_solver.
      * unfold_lists. intros Hc. set_solver.
      * intros _. exact Hret.
    + eapply elem_ok_finish; [exact HEok | reflexivity ..].
    + eapply enc_ok_early; [exact HE | now rewrite HstE | exact (inv_enc d HI)].
  - cbn in Hs. destruct (mutex E) eqn:Hmx; [discriminate|]. injection Hs as <-.
    apply (Inv_own_early _ p P _ e E _ (queue_encryption d)
             (Inv_set_keypairs d _ HI) HP HE Ho).
    + now rewrite HstE.
    + apply (peer_ok_change _ p P _ e _ HPok).
      * exact Ho.
      * reflexivity.
      * unfold_lists. reflexivity.
      * intros e0 Hne. unfold_lists. repeat split; auto; set_solver.
      * cbn. intros Hc. contradiction.
      * unfold_lists. intros Hc. set_solver.
      * reflexivity.
      * intros _. exact Hret.
    + destruct HEok as (H1 & H2 & H3 & H4 & H5 & H6). unfold elem_ok. cbn.
      rewrite HstE in *. repeat split; auto; try discriminate.
      intros [Hc|[p0 Hc]]; discriminate.
    + eapply enc_ok_early; [exact HE | now rewrite HstE | exact (inv_enc d HI)].
Qed.

Lemma seq_step_Await p ch now env d d' P e :
  Inv d -> peers d !! p = Some P -> seq_pc P = SeqAwait e ->
  seq_step p ch now env d = Some d' -> Inv d'.
Proof.
  intros HI HP Hpc Hs. unfold seq_step in Hs. rewrite HP in Hs. cbn in Hs.
  rewrite Hpc in Hs.
  destruct (seq_early_elem d p P e HI HP) as (E & HE & Ho & HEok & HstE & Hret & Hnq).
  { unfold seq_early. now rewrite Hpc. }
  pose proof (inv_peers d HI p P HP) as HPok.
  destruct ch.
  - destruct (routines_stop P); [|discriminate]. injection Hs as <-.
    apply (Inv_peer_move d p P); auto.
    + unfold_lists. solve_sublist.
    + intros e0. unfold_lists. repeat split; auto; set_solver.
  - discriminate.
  - destruct (signals_newKeypairArrived P); [|discriminate]. injection Hs as <-.
    apply (Inv_peer_move d p P); auto.
    + unfold_lists. reflexivity.
    + intros e0. unfold_lists. auto.
  - rewrite HE in Hs. cbn in Hs.
    destruct (signals_flushNonceQueue P); [|discriminate]. injection Hs as <-.
    apply (Inv_own_early _ p P _ e E _ (queue_encryption d) HI HP HE Ho).
    + now rewrite HstE.
    + apply (peer_ok_change _ p P _ e _ HPok).
      * exact Ho.
      * reflexivity.
      * unfold_lists. solve_sublist.
      * intros e0 Hne. unfold_lists. repeat split; auto; set_solver.
      * cbn. intros Hc. contradiction.
      * unfold_lists. intros Hc. set_solver.
      * unfold_lists. intros Hc. set_solver.
      * intros _. exact Hret.
    + eapply elem_ok_finish; [exact HEok | reflexivity ..].
    + eapply enc_ok_early; [exact HE | now rewrite HstE | exact (inv_enc d HI)].
Qed.

Lemma seq_step_Flush p ch now env d d' P :
  Inv d -> peers d !! p = Some P -> seq_pc P = SeqFlush ->
  seq_step p ch now env d = Some d' -> Inv d'.
Proof.
  intros HI HP Hpc Hs. unfold seq_step in Hs. rewrite HP in Hs. cbn in Hs.
  rewrite Hpc in Hs.
  pose proof (inv_peers d HI p P HP) as HPok.
  destruct (queue_nonce P) as [|old q] eqn:Hq.
  - injection Hs as <-. apply (Inv_peer_move d p P); auto.
    + unfold_lists. reflexivity.
    + intros e0. unfold_lists. auto.
  - destruct (peer_elem d p P old HI HP) as (O & HO & Ho & HOok & Hel).
    { unfold chain. rewrite Hq. set_solver. }
    rewrite HO in Hs. cbn in Hs. injection Hs as <-.
    destruct Hel as (O0 & HO0 & _ & Hst & _).
    assert (O0 = O) by congruence. subst O0.
    assert (HstO : stage O = InNonce) by (apply Hst; rewrite Hq; left).
    apply (Inv_own_early _ p P _ old O _ (queue_encryption d) HI HP HO Ho).
    + now rewrite HstO.
    + eapply peer_ok_drop_nonce; eauto.
    + eapply elem_ok_finish; [exact HOok | reflexivity ..].
    + eapply enc_ok_early; [exact HO | now rewrite HstO | exact (inv_enc d HI)].
Qed.

Lemma seq_assigned_elem d p P e :
  Inv d -> peers d !! p = Some P -> seq_assigned P = [e] ->
  exists E, elems d !! e = Some E /\ owner E = Some p /\ elem_ok E
    /\ stage E = Assigned /\ returned E = O /\ e ∉ queue_nonce P.
Proof.
  intros HI HP Hasg.
  assert (Hheld : seq_held P = [e]).
  { unfold seq_assigned, seq_held in *. destruct (seq_pc P); try discriminate; exact Hasg. }
  destruct (peer_elem d p P e HI HP) as (E & HE & Ho & HEok & Hel).
  { unfold chain. rewrite Hheld. set_solver. }
  destruct Hel as (E0 & HE0 & _ & _ & _ & Hst & Hret).
  assert (E0 = E) by congruence. subst E0.
  exists E. split; [exact HE|]. split; [exact Ho|]. split; [exact HEok|].
  split; [|split].
  - apply Hst. rewrite Hasg. left.
  - apply Hret. unfold unsent. rewrite Hheld. set_solver.
  - pose proof (peer_ok_NoDup_chain _ _ _ (inv_peers d HI p P HP)) as Hnd.
    unfold chain in Hnd. rewrite Hheld in Hnd.
    nodup_at Hnd ((sendLog P).*1 ++ snd_held P ++ queue_outbound P) e (queue_nonce P).
    set_solver.
Qed.

Lemma enc_ok_tail (h : gmap nat QueueOutboundElement) old O' q :
  enc_ok h (old :: q) -> enc_ok (<[old := O']> h) q.
Proof.
  intros [Hnd Hq]. apply NoDup_cons in Hnd as [Hnin Hnd]. split; [exact Hnd|].
  intros e0 Hin. apply stage_at_insert_ne; [set_solver|]. apply Hq. now right.
Qed.

Lemma seq_step_Enc p ch now env d d' P e pc :
  Inv d -> peers d !! p = Some P -> seq_pc P = SeqEnc e pc ->
  seq_step p ch now env d = Some d' -> Inv d'.
Proof.
  intros HI HP Hpc Hs. unfold seq_step in Hs. rewrite HP in Hs. cbn in Hs.
  rewrite Hpc in Hs.
  destruct (seq_assigned_elem d p P e HI HP) as (E & HE & Ho & HEok & HstE & Hret & Hnq).
  { unfold seq_assigned. now rewrite Hpc. }
  pose proof (inv_peers d HI p P HP) as HPok.
  assert (Hpcmove : forall pc', Inv (put_peer p (set_seq_pc (SeqEnc e pc') P) d)).
  { intros pc'. apply (Inv_peer_move d p P); auto.
    - unfold_lists. reflexivity.
    - intros e0. unfold_lists. auto. }
  destruct pc.
  - rewrite HE in Hs. cbn in Hs. case_decide as Hroom; injection Hs as <-; [|apply Hpcmove].
    apply (Inv_own_early _ p P _ e E _ _ HI HP HE Ho).
    + now rewrite HstE.
    + apply (peer_ok_change _ p P _ e _ HPok).
      * exact Ho.
      * reflexivity.
      * unfold_lists. reflexivity.
      * intros e0 Hne. unfold_lists. repeat split; auto; set_solver.
      * cbn. intros Hc. contradiction.
      * unfold_lists. intros Hc. set_solver.
      * unfold_lists. intros Hc. set_solver.
      * intros _. exact Hret.
    + destruct HEok as (H1 & H2 & H3 & H4 & H5 & H6). unfold elem_ok. cbn.
      rewrite HstE in *. repeat split; auto; try discriminate.
      intros [Hc|[p0 Hc]]; discriminate.
    + destruct (inv_enc d HI) as [Hnd Hq]. split.
      * apply NoDup_app. split; [exact Hnd|]. split; [|apply NoDup_singleton].
        intros y Hy Hy'. apply list_elem_of_singleton in Hy'. subst y.
        destruct (Hq e Hy) as (E0 & HE0 & Hc). congruence.
      * intros e0 Hin. apply elem_of_app in Hin as [Hin|Hin].
        -- apply stage_at_insert_other; [|now apply Hq]. intros E0 HE0. congruence.
        -- apply list_elem_of_singleton in Hin. subst e0.
           apply (stage_at_insert_eq _ e (set_stage InEnc E)).
  - destruct (queue_encryption d) as [|old q] eqn:Hq; [injection Hs as <-; apply Hpcmove|].
    pose proof (inv_enc d HI) as Henc. rewrite Hq in Henc.
    destruct (proj2 Henc old ltac:(left)) as (O & HO & HstO).
    rewrite HO in Hs. cbn in Hs. destruct (mutex O); [|discriminate]. injection Hs as <-.
    pose proof (inv_elems d HI old O HO) as (H1 & H2 & H3 & H4 & H5 & H6).
    refine (Inv_late _ old O _ q (workers d) (Hpcmove AtPush) HO _ _ _ _ _ _);
      try reflexivity.
    + now rewrite HstO.
    + unfold elem_ok. cbn. rewrite H3 by congruence.
      repeat split; auto; try discriminate; try contradiction.
      intros [Hc|[p0 Hc]]; discriminate.
    + cbn. now apply enc_ok_tail.
    + cbn. apply work_ok_insert_other; [|exact (inv_work d HI)].
      intros E0 HE0 w. congruence.
Qed.

Lemma seq_step_Out p ch now env d d' P e pc :
  Inv d -> peers d !! p = Some P -> seq_pc P = SeqOut e pc ->
  seq_step p ch now env d = Some d' -> Inv d'.
Proof.
  intros HI HP Hpc Hs. unfold seq_step in Hs. rewrite HP in Hs. cbn in Hs.
  rewrite Hpc in Hs.
  assert (Hpcmove : forall pc', Inv (put_peer p (set_seq_pc (SeqOut e pc') P) d)).
  { intros pc'. apply (Inv_peer_move d p P); auto.
    - unfold_lists. reflexivity.
    - intros e0. unfold_lists. auto. }
  destruct pc.
  - case_decide as Hroom; injection Hs as <-; [|apply Hpcmove].
    apply (Inv_peer_move d p P); auto.
    + unfold_lists. solve_sublist.
    + intros e0. unfold_lists. repeat split; auto; set_solver.
  - destruct (queue_outbound P) as [|old q] eqn:Hq; [injection Hs as <-; apply Hpcmove|].
    destruct (elems d !! old) as [O|] eqn:HO; [|discriminate]. cbn in Hs.
    injection Hs as <-.
    assert (HI1 : Inv (put_peer p (set_seq_pc (SeqOut e AtPush) (set_queue_outbound q P)) d)).
    { apply (Inv_peer_move d p P); auto.
      - unfold_lists. solve_sublist.
      - intros e0. unfold_lists. repeat split; auto; set_solver. }
    apply (Inv_touch _ old O _ HI1 HO); try reflexivity.
    exact (inv_elems d HI old O HO).
Qed.

Lemma seq_step_Inv p ch now env d d' : Inv d -> seq_step p ch now env d = Some d' -> Inv d'.
Proof.
  intros HI Hs.
  destruct (peers d !! p) as [P|] eqn:HP;
    [|unfold seq_step in Hs; rewrite HP in Hs; discriminate].
  destruct (seq_pc P) eqn:Hpc.
  - eapply seq_step_Next; eauto.
  - eapply seq_step_Key; eauto.
  - eapply seq_step_Await; eauto.
  - eapply seq_step_Flush; eauto.
  - eapply seq_step_Enc; eauto.
  - eapply seq_step_Out; eauto.
  - unfold seq_step in Hs. rewrite HP in Hs. cbn in Hs. rewrite Hpc in Hs. discriminate.
Qed.

Lemma worker_pop_Inv w d d' : Inv d -> worker_pop w d = Some d' -> Inv d'.
Proof.
  intros HI Hs. unfold worker_pop in Hs.
  destruct (workers d !! w) as [W|] eqn:HW; [|discriminate]. cbn in Hs.
  destruct (w_elem W) eqn:Hhold; [discriminate|].
  destruct (queue_encryption d) as [|e q] eqn:Hq; [discriminate|].
  pose proof (inv_enc d HI) as Henc. rewrite Hq in Henc.
  destruct (proj2 Henc e ltac:(left)) as (E & HE & HstE).
  rewrite HE in Hs. cbn in Hs.
  pose proof (inv_elems d HI e E HE) as HEok.
  destruct (IsDropped E); injection Hs as <-.
  - refine (Inv_late _ e E _ q (workers d) HI HE _ _ _ _ _ _); try reflexivity.
    + now rewrite HstE.
    + eapply elem_ok_finish; [exact HEok | reflexivity ..].
    + now apply enc_ok_tail.
    + apply work_ok_insert_other; [|exact (inv_work d HI)].
      intros E0 HE0 w0. congruence.
  - refine (Inv_late _ e E _ q _ HI HE _ _ _ _ _ _); try reflexivity.
    + now rewrite HstE.
    + destruct HEok as (H1 & H2 & H3 & H4 & H5 & H6). unfold elem_ok. cbn.
      rewrite HstE in *. repeat split; auto; try discriminate.
      intros [Hc|[p0 Hc]]; discriminate.
    + now apply enc_ok_tail.
    + intros w0 W0 e0 HW0 Hel.
      apply lookup_insert_Some in HW0 as [[<- <-]|[Hne HW0]].
      * cbn in Hel. injection Hel as <-.
        apply (stage_at_insert_eq _ e (set_stage (InWork w) E)).
      * apply stage_at_insert_other; [|exact (inv_work d HI w0 W0 e0 HW0 Hel)].
        intros E0 HE0. congruence.
Qed.

Lemma encrypt_element_shape mtu (K : Keypair) wn E :
  exists buf pkt, (encrypt_element mtu K wn E).2 = Unlock (set_data buf pkt E).
Proof.
  unfold encrypt_element. destruct (pad_packet _ _ _) as [b4 p4].
  destruct (seal_append _ _) as [b5 p5]. cbn. eauto.
Qed.

Lemma worker_seal_Inv w d d' : Inv d -> worker_seal w d = Some d' -> Inv d'.
Proof.
  intros HI Hs. unfold worker_seal in Hs.
  destruct (workers d !! w) as [W|] eqn:HW; [|discriminate]. cbn in Hs.
  destruct (w_elem W) as [e|] eqn:Hhold; [|discriminate]. cbn in Hs.
  destruct (inv_work d HI w W e HW Hhold) as (E & HE & HstE).
  rewrite HE in Hs. cbn in Hs.
  destruct (keyPair E) as [k|]; [|discriminate]. cbn in Hs.
  destruct (keypairs d !! k) as [K|]; [|discriminate]. cbn in Hs.
  destruct (mutex E); [|discriminate].
  destruct (encrypt_element_shape (tun_mtu d) K (w_nonce W) E) as (buf & pkt & Hshape).
  destruct (encrypt_element (tun_mtu d) K (w_nonce W) E) as [wn E'].
  cbn in Hshape. subst E'. injection Hs as <-.
  pose proof (inv_elems d HI e E HE) as (H1 & H2 & H3 & H4 & H5 & H6).
  apply Inv_set_sealed.
  refine (Inv_late _ e E _ (queue_encryption d) _ HI HE _ _ _ _ _ _); try reflexivity.
  - now rewrite HstE.
  - unfold elem_ok. cbn. rewrite H3 by congruence.
    repeat split; auto; try discriminate; try contradiction.
    intros [Hc|[p0 Hc]]; discriminate.
  - apply enc_ok_insert_other; [|exact (inv_enc d HI)]. intros E0 HE0. congruence.
  - intros w0 W0 e0 HW0 Hel.
    apply lookup_insert_Some in HW0 as [[<- <-]|[Hne HW0]]; [discriminate Hel|].
    pose proof (inv_work d HI w0 W0 e0 HW0 Hel) as Hat.
    apply stage_at_insert_ne; [|exact Hat].
    intros ->. assert (InWork w0 = InWork w) as [= ->]
      by (eapply stage_at_fun; [exact Hat | exists E; auto]).
    congruence.
Qed.

(** The sender of [p] changes [p] and an element of [p], whose stage it
    leaves alone. *)
Lemma Inv_own_same d p P P' x X X' :
  Inv d -> peers d !! p = Some P -> elems d !! x = Some X ->
  owner X = Some p -> stage X' = stage X ->
  peer_ok (<[x := X']> (elems d)) p P' -> elem_ok X' ->
  Inv (put_elem x X' (put_peer p P' d)).
Proof.
  intros [Hps He Ht Hk Hq Hw] HP HX Ho Hst HP' HX'.
  constructor; cbn.
  - eapply peers_update; [| exact Hps | exact HP'].
    intros q Q Hne HQ. apply peer_ok_insert_other. intros E0 HE0. congruence.
  - now apply elems_update.
  - eapply tun_ok_insert_same; eauto.
  - eapply ka_ok_insert_same; eauto.
  - eapply enc_ok_insert_same; eauto.
  - eapply work_ok_insert_same; eauto.
Qed.

Lemma snd_step_Inv p ch res now env d d' :
  Inv d -> snd_step p ch res now env d = Some d' -> Inv d'.
Proof.
  intros HI Hs. unfold snd_step in Hs.
  destruct (peers d !! p) as [P|] eqn:HP; [|discriminate]. cbn in Hs.
  pose proof (inv_peers d HI p P HP) as HPok.
  destruct (snd_pc P) as [|e|] eqn:Hpc; [| |discriminate].
  - destruct ch; try discriminate.
    + destruct (routines_stop P); [|discriminate]. injection Hs as <-.
      apply (Inv_peer_move d p P); auto.
      * unfold_lists. reflexivity.
      * intros e0. unfold_lists. auto.
    + destruct (queue_outbound P) as [|e q] eqn:Hq; [discriminate|]. injection Hs as <-.
      apply (Inv_peer_move d p P); auto.
      * unfold_lists. reflexivity.
      * intros e0. unfold_lists. repeat split; auto.
  - destruct (peer_elem d p P e HI HP) as (E & HE & Ho & HEok & Hel).
    { unfold chain, snd_held. rewrite Hpc. set_solver. }
    rewrite HE in Hs. cbn in Hs.
    destruct (mutex E) eqn:Hmx; [discriminate|].
    destruct Hel as (E0 & HE0 & _ & _ & _ & _ & Hret).
    assert (E0 = E) by congruence. subst E0.
    assert (Hret0 : returned E = O).
    { apply Hret. unfold unsent, snd_held. rewrite Hpc. set_solver. }
    pose proof (peer_ok_NoDup_chain _ _ _ HPok) as Hnd.
    unfold chain, snd_held in Hnd. rewrite Hpc in Hnd.
    nodup_at Hnd ((sendLog P).*1) e (queue_outbound P ++ seq_held P ++ queue_nonce P).
    assert (Hse : seq_early P ⊆ seq_held P /\ seq_assigned P ⊆ seq_held P).
    { unfold seq_early, seq_assigned, seq_held. destruct (seq_pc P); set_solver. }
    destruct Hse as [Hse1 Hse2].
    assert (Hdone : forall b X', owner X' = Some p -> stage X' = stage E -> elem_ok X' ->
              forall P', queue_nonce P' = queue_nonce P ->
                queue_outbound P' = queue_outbound P -> seq_pc P' = seq_pc P ->
                snd_pc P' = SndNext -> nonceLog P' = nonceLog P ->
                sendLog P' = sendLog P ++ [(e, b)] ->
                Inv (put_elem e X' (put_peer p P' d))).
    { intros b X' HoX HsX HokX P' G1 G2 G3 G4 G5 G6.
      apply (Inv_own_same d p P P' e E X' HI HP HE Ho HsX); [|exact HokX].
      apply (peer_ok_change _ p P _ e _ HPok); auto.
      - unfold chain, seq_held, snd_held. rewrite G1, G2, G3, G4, G6, Hpc.
        solve_sublist.
      - intros e0 Hne. unfold lists_within, unsent, seq_early, seq_assigned,
          seq_held, snd_held. rewrite G1, G2, G3, G4, Hpc.
        repeat split; auto. set_solver.
      - rewrite G1. intros Hc. set_solver.
      - unfold seq_early. rewrite G3. fold (seq_early P). intros Hc. set_solver.
      - unfold seq_assigned. rewrite G3. fold (seq_assigned P). intros Hc. set_solver.
      - unfold unsent, seq_held, snd_held. rewrite G1, G2, G3, G4.
        fold (seq_held P). intros Hc. set_solver. }
    assert (Hput : elem_ok (PutMessageBuffer (Lock E))).
    { destruct HEok as (H1 & H2 & H3 & H4 & H5 & H6). unfold elem_ok. cbn.
      rewrite Hret0. repeat split; auto. congruence. }
    destruct (dropped E).
    + injection Hs as <-.
      assert (HI1 : Inv (put_peer p (set_snd_pc SndNext P) d)).
      { apply (Inv_peer_move d p P); auto.
        - unfold_lists. solve_sublist.
        - intros e0. unfold_lists. repeat split; auto; set_solver. }
      apply (Inv_touch _ e E _ HI1 HE); try reflexivity.
      destruct HEok as (H1 & H2 & H3 & H4 & H5 & H6). unfold elem_ok. cbn.
      repeat split; auto.
    + destruct res; injection Hs as <-.
      * apply (Hdone false); auto.
      * apply (Hdone true); auto.
Qed.

(** Every step keeps the invariant, and so every reachable state has it. *)
Lemma step_Inv l d d' : Inv d -> step l d = Some d' -> Inv d'.
Proof.
  intros HI Hs. destruct l; cbn in Hs.
  - eapply env_new_peer_Inv; eauto.
  - eapply env_spawn_worker_Inv; eauto.
  - eapply env_new_keypair_Inv; eauto.
  - eapply env_clear_keypair_Inv; eauto.
  - eapply FlushNonceQueue_Inv; eauto.
  - eapply env_stop_Inv; eauto.
  - injection Hs as <-. now apply Inv_set_tun_mtu.
  - eapply tun_begin_Inv; eauto.
  - eapply tun_read_Inv; eauto.
  - eapply tun_read_error_Inv; eauto.
  - eapply tun_add_Inv; eauto.
  - eapply keepalive_make_Inv; eauto.
  - eapply keepalive_send_Inv; eauto.
  - eapply seq_step_Inv; eauto.
  - eapply worker_pop_Inv; eauto.
  - eapply worker_seal_Inv; eauto.
  - eapply snd_step_Inv; eauto.
Qed.

Lemma initial_Inv mtu : Inv (initial_device mtu).
Proof.
  constructor; cbn.
  - apply map_Forall_empty.
  - apply map_Forall_empty.
  - exact I.
  - intros p e Hin. set_solver.
  - split; [constructor | intros e Hin; inversion Hin].
  - intros w W e HW. rewrite lookup_empty in HW. discriminate.
Qed.

Lemma reachable_Inv d : reachable d -> Inv d.
Proof.
  induction 1 as [mtu | l d d' _ IH Hs].
  - apply initial_Inv.
  - eapply step_Inv; eauto.
Qed.

End Steps.
End PipelineSteps2.

(** ** Nonces: the invariant of the key pairs *)

Module NonceFacts.
Import Wire Send PipelineFacts PipelineSteps PipelineSteps2.

Section Nonces.
Context `{Constants}.

(** A new element, or a change of an element that leaves it out of the live
    stages or keeps it there with its key pair and nonce. *)
Lemma NonceInv_new h ks sl x X' :
  NonceInv' h ks sl -> h !! x = None -> stage_live (stage X') = false ->
  NonceInv' (<[x := X']> h) ks sl.
Proof.
  intros [He Hu Hn Hs Hr] Hnew Hdead. constructor; auto.
  - apply map_Forall_insert_2; [|exact He]. intros Hl. congruence.
  - intros e1 e2 E1 E2 H1 H2 L1 L2.
    apply lookup_insert_Some in H1 as [[<- <-]|[N1 H1]]; [congruence|].
    apply lookup_insert_Some in H2 as [[<- <-]|[N2 H2]]; [congruence|].
    eauto.
Qed.

Lemma NonceInv_update h ks sl x X X' :
  NonceInv' h ks sl -> h !! x = Some X ->
  (stage_live (stage X') = true ->
   stage_live (stage X) = true /\ keyPair X' = keyPair X /\ nonce X' = nonce X) ->
  NonceInv' (<[x := X']> h) ks sl.
Proof.
  intros [He Hu Hn Hs Hr] HX Hkeep. constructor; auto.
  - apply map_Forall_insert_2; [|exact He]. intros Hl.
    destruct (Hkeep Hl) as (HlX & Hk & Hno). rewrite Hk, Hno. exact (He x X HX HlX).
  - intros e1 e2 E1 E2 H1 H2 L1 L2 Hk Hno.
    apply lookup_insert_Some in H1 as [[<- <-]|[N1 H1]];
      apply lookup_insert_Some in H2 as [[<- <-]|[N2 H2]]; auto.
    + destruct (Hkeep L1) as (HlX & Hk1 & Hn1).
      apply (Hu x e2 X E2); auto; congruence.
    + destruct (Hkeep L2) as (HlX & Hk2 & Hn2).
      apply (Hu e1 x E1 X); auto; congruence.
    + eauto.
Qed.

Lemma key_ok_mono (ks : gmap nat Keypair) k K K' k0 n0 :
  ks !! k = Some K -> sendNonce K <= sendNonce K' ->
  key_ok ks k0 n0 -> key_ok (<[k := K']> ks) k0 n0.
Proof.
  intros HK Hle (K0 & HK0 & Hn & Hrej). destruct (decide (k0 = k)) as [->|Hne].
  - exists K'. rewrite lookup_insert_eq. split; [reflexivity|].
    assert (K0 = K) by congruence. subst K0. split; [lia | exact Hrej].
  - exists K0. rewrite lookup_insert_ne by congruence. auto.
Qed.

Lemma key_ok_fresh (ks : gmap nat Keypair) k K' k0 n0 :
  ks !! k = None -> key_ok ks k0 n0 -> key_ok (<[k := K']> ks) k0 n0.
Proof.
  intros Hnew (K0 & HK0 & Hn). exists K0. split; [|exact Hn].
  rewrite lookup_insert_ne; [exact HK0 | congruence].
Qed.

Lemma NonceInv_keys h (ks ks' : gmap nat Keypair) sl :
  NonceInv' h ks sl ->
  (forall k0 n0, key_ok ks k0 n0 -> key_ok ks' k0 n0) ->
  map_Forall (fun _ K => 0 <= sendNonce K < 2 ^ 64) ks' ->
  NonceInv' h ks' sl.
Proof.
  intros [He Hu Hn Hs Hr] Hmono Hr'. constructor; auto.
  intros e E HE Hl. destruct (He e E HE Hl) as (k & Hk & Hok & Hns). eauto.
Qed.

End Nonces.
End NonceFacts.

(** ** Every step keeps the invariant of the key pairs *)

Module NonceSteps.
Import Wire Send PipelineFacts PipelineSteps PipelineSteps2 NonceFacts.

Section Steps.
Context `{Constants}.

(** Take a step function apart into its cases. *)
Ltac step_cases Hs :=
  repeat first
    [ discriminate Hs
    | progress (cbn [mbind option_bind] in Hs)
    | case_decide
    | match type of Hs with
      | context [mbind _ ?mx] =>
          lazymatch mx with
          | context [mbind _ _] => fail
          | _ => destruct mx eqn:?
          end
      end
    | match type of Hs with
      | context [match ?x with _ => _ end] =>
          lazymatch x with
          | context [match _ with _ => _ end] => fail
          | _ => destruct x eqn:?
          end
      end ].

(** Close a case in which the elements only change outside the live stages,
    or keep their key pair and nonce. *)
Ltac nonce_frame :=
  repeat match goal with Hc : _ /\ _ |- _ => destruct Hc end;
  unfold NonceInv in *;
  cbn [elems keypairs sealed put_elem put_peer set_peers set_elems set_keypairs
       set_workers set_queue_encryption set_tun set_tun_mtu set_keepalives set_sealed];
  repeat first
    [ assumption
    | eapply NonceInv_new;
        [ | first [ eassumption
                  | rewrite lookup_insert_ne by congruence; eassumption
                  | tauto ]
          | reflexivity ]
    | eapply NonceInv_update;
        [ | first [ eassumption | apply lookup_insert_eq ]
          | cbn; intros;
            repeat match goal with
                   | Hst : stage _ = _ |- _ => rewrite Hst in *; clear Hst
                   end;
            first [ discriminate | auto ] ] ].

Lemma tun_NonceInv l d d' :
  match l with
  | LTunBegin _ _ | LTunRead _ _ | LTunReadError | LTunAdd _ _
  | LKeepaliveMake _ _ _ | LKeepaliveSend _ _ => True
  | _ => False
  end ->
  NonceInv d -> step l d = Some d' -> NonceInv d'.
Proof.
  intros Hl HN Hs. destruct l; try contradiction; cbn in Hs.
  - unfold tun_begin in Hs. step_cases Hs; injection Hs as <-; nonce_frame.
  - unfold tun_read in Hs. step_cases Hs; injection Hs as <-; nonce_frame.
  - unfold tun_read_error in Hs. step_cases Hs; injection Hs as <-; nonce_frame.
  - unfold tun_add in Hs. step_cases Hs; injection Hs as <-; nonce_frame.
  - unfold keepalive_make in Hs. step_cases Hs; injection Hs as <-; nonce_frame.
  - unfold keepalive_send in Hs. step_cases Hs; injection Hs as <-; nonce_frame.
Qed.

Lemma env_NonceInv l d d' :
  match l with
  | LNewPeer _ | LSpawnWorker _ | LNewKeypair _ _ _ | LClearKeypair _
  | LFlush _ | LStop _ | LSetMTU _ => True
  | _ => False
  end ->
  NonceInv d -> step l d = Some d' -> NonceInv d'.
Proof.
  intros Hl HN Hs. destruct l; try contradiction; cbn in Hs.
  - unfold env_new_peer in Hs. step_cases Hs; injection Hs as <-; nonce_frame.
  - unfold env_spawn_worker in Hs. step_cases Hs; injection Hs as <-; nonce_frame.
  - unfold env_new_keypair in Hs. step_cases Hs; injection Hs as <-.
    match goal with Hc : _ /\ _ |- _ => destruct Hc as [Hnew Hrange] end.
    unfold NonceInv in *. cbn. eapply NonceInv_keys; [exact HN | |].
    + intros k0 n0. now apply key_ok_fresh.
    + apply map_Forall_insert_2; [exact Hrange | exact (ninv_range _ _ _ HN)].
  - unfold env_clear_keypair in Hs. step_cases Hs; injection Hs as <-; nonce_frame.
  - unfold FlushNonceQueue in Hs. step_cases Hs; injection Hs as <-; nonce_frame.
  - unfold env_stop in Hs. step_cases Hs; injection Hs as <-; nonce_frame.
  - injection Hs as <-. nonce_frame.
Qed.

(** The fetch is a fetch-and-increment as long as the counter does not
    wrap. *)
Lemma fetch_nonce_spec (K : Keypair) :
  0 <= sendNonce K -> sendNonce K + 1 < 2 ^ 64 ->
  fetch_nonce K = (set_sendNonce (sendNonce K + 1) K, sendNonce K).
Proof.
  intros H0 H1. unfold fetch_nonce, AddUint64.
  rewrite (Z.mod_small (sendNonce K + 1)) by lia.
  replace (sendNonce K + 1 - 1) with (sendNonce K) by lia.
  now rewrite Z.mod_small by lia.
Qed.

Section Bounded.
Hypothesis Hreject : RejectAfterMessages < 2 ^ 64.

Lemma seq_Key_NonceInv p ch now env d d' P e :
  Inv d -> NonceInv d -> peers d !! p = Some P -> seq_pc P = SeqKey e ->
  seq_step p ch now env d = Some d' -> NonceInv d'.
Proof.
  intros HI HN HP Hpc Hs. unfold seq_step in Hs. rewrite HP in Hs. cbn [mbind option_bind] in Hs.
  rewrite Hpc in Hs.
  destruct (seq_early_elem d p P e HI HP) as (E & HE & Ho & HEok & HstE & Hret & Hnq).
  { unfold seq_early. now rewrite Hpc. }
  rewrite HE in Hs. cbn [mbind option_bind] in Hs.
  destruct (keyPairs_current P) as [k0|] eqn:Hcur; cbn [mbind option_bind] in Hs;
    [|injection Hs as <-; nonce_frame].
  destruct (keypairs d !! k0) as [K|] eqn:HK; cbn [mbind option_bind] in Hs;
    [|injection Hs as <-; nonce_frame].
  destruct (usable K now) eqn:Hus; [|injection Hs as <-; nonce_frame].
  unfold usable in Hus. apply andb_true_iff in Hus as [Hus _].
  apply bool_decide_eq_true in Hus.
  pose proof (ninv_range _ _ _ HN k0 K HK) as Hrange. cbn in Hrange.
  rewrite (fetch_nonce_spec K) in Hs by lia.
  unfold seq_submit in Hs. cbn in Hs.
  case_decide as Hrej; [lia|].
  destruct (mutex E); [discriminate|]. injection Hs as <-.
  destruct HN as [He Hu Hn Hsl Hr]. unfold NonceInv. cbn.
  assert (Hmono : forall k1 n1, key_ok (keypairs d) k1 n1 ->
            key_ok (<[k0 := set_sendNonce (sendNonce K + 1) K]> (keypairs d)) k1 n1).
  { intros k1 n1. apply (key_ok_mono _ k0 K); [exact HK | cbn; lia]. }
  assert (Hnew : forall n1, key_ok (keypairs d) k0 n1 -> n1 <> sendNonce K).
  { intros n1 (K1 & HK1 & Hn1 & _) ->. assert (K1 = K) by congruence. subst K1. lia. }
  constructor.
  - apply map_Forall_insert_2.
    + intros _. exists k0. cbn. split; [reflexivity|]. split.
      * exists (set_sendNonce (sendNonce K + 1) K). rewrite lookup_insert_eq. cbn.
        split; [reflexivity | lia].
      * intros Hin. exact (Hnew _ (Hsl _ _ Hin) eq_refl).
    + intros e0 E0 HE0 Hl. destruct (He e0 E0 HE0 Hl) as (k1 & Hk1 & Hok & Hns). eauto.
  - intros e1 e2 E1 E2 H1 H2 L1 L2 Hk Hno.
    apply lookup_insert_Some in H1 as [[<- <-]|[N1 H1]];
      apply lookup_insert_Some in H2 as [[<- <-]|[N2 H2]]; auto.
    + exfalso. cbn in Hk, Hno. destruct (He e2 E2 H2 L2) as (k1 & Hk1 & Hok & _).
      assert (k1 = k0) by congruence. subst k1. apply (Hnew _ Hok). congruence.
    + exfalso. cbn in Hk, Hno. destruct (He e1 E1 H1 L1) as (k1 & Hk1 & Hok & _).
      assert (k1 = k0) by congruence. subst k1. apply (Hnew _ Hok). congruence.
    + eauto.
  - exact Hn.
  - intros k1 n1 Hin. apply Hmono. now apply Hsl.
  - apply map_Forall_insert_2; [cbn; lia | exact Hr].
Qed.

Lemma seq_NonceInv p ch now env d d' :
  Inv d -> NonceInv d -> seq_step p ch now env d = Some d' -> NonceInv d'.
Proof.
  intros HI HN Hs.
  destruct (peers d !! p) as [P|] eqn:HP;
    [|unfold seq_step in Hs; rewrite HP in Hs; discriminate].
  destruct (seq_pc P) eqn:Hpc.
  - unfold seq_step in Hs. rewrite HP in Hs. cbn [mbind option_bind] in Hs.
    rewrite Hpc in Hs. step_cases Hs; injection Hs as <-; nonce_frame.
  - eapply seq_Key_NonceInv; eauto.
  - unfold seq_step in Hs. rewrite HP in Hs. cbn [mbind option_bind] in Hs.
    rewrite Hpc in Hs. step_cases Hs; injection Hs as <-; nonce_frame.
  - unfold seq_step in Hs. rewrite HP in Hs. cbn [mbind option_bind] in Hs.
    rewrite Hpc in Hs. step_cases Hs; injection Hs as <-; nonce_frame.
  - destruct (seq_assigned_elem d p P e HI HP) as (E & HE & _ & _ & HstE & _).
    { unfold seq_assigned. now rewrite Hpc. }
    unfold seq_step in Hs. rewrite HP in Hs. cbn [mbind option_bind] in Hs.
    rewrite Hpc in Hs. destruct pc; rewrite ?HE in Hs;
      step_cases Hs; injection Hs as <-; nonce_frame.
  - unfold seq_step in Hs. rewrite HP in Hs. cbn [mbind option_bind] in Hs.
    rewrite Hpc in Hs. step_cases Hs; injection Hs as <-; nonce_frame.
  - unfold seq_step in Hs. rewrite HP in Hs. cbn [mbind option_bind] in Hs.
    rewrite Hpc in Hs. discriminate.
Qed.

Lemma worker_pop_NonceInv w d d' :
  Inv d -> NonceInv d -> worker_pop w d = Some d' -> NonceInv d'.
Proof.
  intros HI HN Hs. unfold worker_pop in Hs.
  destruct (workers d !! w) as [W|] eqn:HW; [|discriminate].
  cbn [mbind option_bind] in Hs.
  destruct (w_elem W) eqn:Hhold; [discriminate|].
  destruct (queue_encryption d) as [|e q] eqn:Hq; [discriminate|].
  pose proof (inv_enc d HI) as Henc. rewrite Hq in Henc.
  destruct (proj2 Henc e ltac:(left)) as (E & HE & HstE).
  rewrite HE in Hs. cbn [mbind option_bind] in Hs.
  destruct (IsDropped E); injection Hs as <-; nonce_frame.
Qed.

Lemma worker_seal_NonceInv w d d' :
  Inv d -> NonceInv d -> worker_seal w d = Some d' -> NonceInv d'.
Proof.
  intros HI HN Hs. unfold worker_seal in Hs.
  destruct (workers d !! w) as [W|] eqn:HW; [|discriminate]. cbn in Hs.
  destruct (w_elem W) as [e|] eqn:Hhold; [|discriminate]. cbn in Hs.
  destruct (inv_work d HI w W e HW Hhold) as (E & HE & HstE).
  rewrite HE in Hs. cbn in Hs.
  destruct (keyPair E) as [k|] eqn:HkE; [|discriminate]. cbn in Hs.
  destruct (keypairs d !! k) as [K|] eqn:HK; [|discriminate]. cbn in Hs.
  destruct (mutex E); [|discriminate].
  destruct (encrypt_element_shape (tun_mtu d) K (w_nonce W) E) as (buf & pkt & Hshape).
  destruct (encrypt_element (tun_mtu d) K (w_nonce W) E) as [wn E'].
  cbn in Hshape. subst E'. injection Hs as <-.
  destruct HN as [He Hu Hn Hsl Hr]. unfold NonceInv. cbn.
  assert (HlE : stage_live (stage E) = true) by now rewrite HstE.
  destruct (He e E HE HlE) as (k1 & Hk1 & Hok & Hns).
  assert (k1 = k) by congruence. subst k1.
  constructor.
  - intros e0 E0 HE0 Hl.
    apply lookup_insert_Some in HE0 as [[<- <-]|[Hne HE0]]; [discriminate Hl|].
    destruct (He e0 E0 HE0 Hl) as (k1 & Hk1' & Hok1 & Hns1).
    exists k1. split; [exact Hk1'|]. split; [exact Hok1|].
    intros Hin. apply elem_of_cons in Hin as [Heq|Hin]; [|contradiction].
    injection Heq as -> Hno.
    apply Hne. symmetry. apply (Hu e0 e E0 E); auto; congruence.
  - intros e1 e2 E1 E2 H1 H2 L1 L2.
    apply lookup_insert_Some in H1 as [[<- <-]|[N1 H1]]; [discriminate L1|].
    apply lookup_insert_Some in H2 as [[<- <-]|[N2 H2]]; [discriminate L2|].
    eauto.
  - apply NoDup_cons. split; assumption.
  - intros k1 n1 Hin. apply elem_of_cons in Hin as [[= -> ->]|Hin]; auto.
  - exact Hr.
Qed.

Lemma snd_NonceInv p ch res now env d d' :
  NonceInv d -> snd_step p ch res now env d = Some d' -> NonceInv d'.
Proof.
  intros HN Hs. unfold snd_step in Hs.
  step_cases Hs; injection Hs as <-; nonce_frame.
Qed.

Lemma step_NonceInv l d d' :
  Inv d -> NonceInv d -> step l d = Some d' -> NonceInv d'.
Proof.
  intros HI HN Hs. destruct l;
    try (eapply env_NonceInv; [| exact HN | exact Hs]; exact I);
    try (eapply tun_NonceInv; [| exact HN | exact Hs]; exact I);
    cbn in Hs.
  - eapply seq_NonceInv; eauto.
  - eapply worker_pop_NonceInv; eauto.
  - eapply worker_seal_NonceInv; eauto.
  - eapply snd_NonceInv; eauto.
Qed.

Lemma reachable_NonceInv d : reachable d -> NonceInv d.
Proof.
  induction 1 as [mtu | l d d' Hr IH Hs].
  - constructor; cbn.
    + apply map_Forall_empty.
    + intros e1 e2 E1 E2 H1. rewrite lookup_empty in H1. discriminate.
    + constructor.
    + intros k n Hin. inversion Hin.
    + apply map_Forall_empty.
  - eapply step_NonceInv; eauto. now apply reachable_Inv.
Qed.

End Bounded.

End Steps.
End NonceSteps.

(** ** The order of the datagrams of a peer *)

Module OrderFacts.
Import Wire Send PipelineFacts PipelineSteps PipelineSteps2.

Lemma before_sublist {A} (x y : A) l l' :
  l `sublist_of` l' -> before x y l -> before x y l'.
Proof.
  intros Hsub (l1 & l2 & l3 & ->).
  apply sublist_app_l in Hsub as (k1 & k2 & -> & H1 & H2).
  apply sublist_cons_l in H2 as (k21 & k22 & -> & H2).
  apply sublist_app_l in H2 as (a & b & -> & H3 & H4).
  apply sublist_cons_l in H4 as (b1 & b2 & -> & H4).
  exists (k1 ++ k21), (a ++ b1), b2. now rewrite <- !app_assoc.
Qed.

Lemma before_lookup {A} (x y : A) l :
  before x y l -> exists i j, (i < j)%nat /\ l !! i = Some x /\ l !! j = Some y.
Proof.
  intros (l1 & l2 & l3 & ->).
  exists (length l1), (length l1 + S (length l2))%nat. split; [lia|]. split.
  - now apply list_lookup_middle.
  - rewrite lookup_app_r by lia.
    replace (length l1 + S (length l2) - length l1)%nat with (S (length l2)) by lia.
    cbn. now apply list_lookup_middle.
Qed.

Lemma before_NoDup {A} (x y : A) l :
  NoDup l -> before x y l -> x <> y /\ ~ before y x l.
Proof.
  intros Hnd Hb. destruct (before_lookup _ _ _ Hb) as (i & j & Hij & Hi & Hj). split.
  - intros ->. pose proof (NoDup_lookup _ _ _ _ Hnd Hi Hj). lia.
  - intros Hb'. destruct (before_lookup _ _ _ Hb') as (i' & j' & Hij' & Hi' & Hj').
    pose proof (NoDup_lookup _ _ _ _ Hnd Hi Hj').
    pose proof (NoDup_lookup _ _ _ _ Hnd Hj Hi'). lia.
Qed.

Lemma before_total {A} (x y : A) l :
  x ∈ l -> y ∈ l -> x <> y -> before x y l \/ before y x l.
Proof.
  intros Hx Hy Hne. apply list_elem_of_split in Hx as (l1 & l2 & ->).
  apply elem_of_app in Hy as [Hy|Hy].
  - right. apply list_elem_of_split in Hy as (a & b & ->).
    exists a, b, l2. now rewrite <- app_assoc.
  - apply elem_of_cons in Hy as [Hy|Hy]; [congruence|].
    left. apply list_elem_of_split in Hy as (a & b & ->).
    exists l1, a, b. reflexivity.
Qed.

Section Order.
Context `{Constants}.

Lemma run_reachable ls : forall d d', reachable d -> run ls d = Some d' -> reachable d'.
Proof.
  induction ls as [|l ls IH]; intros d d' Hr Hrun; cbn in Hrun.
  - now injection Hrun as <-.
  - destruct (step l d) as [d1|] eqn:Hs; [|discriminate]. cbn in Hrun.
    eapply IH; [|exact Hrun]. eapply reachable_step; eauto.
Qed.

Lemma sent_sublist_chain P : sent_packets P `sublist_of` chain P.
Proof.
  unfold sent_packets, chain. apply sublist_inserts_r.
  apply fmap_sublist. apply sublist_filter.
Qed.

(** C1.  In every state the device reaches, the elements whose datagrams a
    peer has sent, in the order of the sends, are a subsequence of the
    elements put on its nonce queue, in the order in which they were put
    there, and none was put there twice; so for two packets [A] before [B]
    read from TUN for the peer that were both sent, [A] was sent before [B]
    and not [B] before [A]. *)
Theorem sender_keeps_order d p P :
  reachable d -> peers d !! p = Some P ->
  sent_packets P `sublist_of` (nonceLog P).*1
  /\ NoDup (nonceLog P).*1
  /\ tun_packets P `sublist_of` (nonceLog P).*1
  /\ forall A B, before A B (tun_packets P) ->
       A ∈ sent_packets P -> B ∈ sent_packets P ->
       before A B (sent_packets P) /\ ~ before B A (sent_packets P).
Proof.
  intros Hr HP. destruct (inv_peers d (reachable_Inv d Hr) p P HP) as (Hnd & Hsub & _).
  assert (Hsent : sent_packets P `sublist_of` (nonceLog P).*1).
  { etrans; [apply sent_sublist_chain | exact Hsub]. }
  assert (Htun : tun_packets P `sublist_of` (nonceLog P).*1).
  { unfold tun_packets. apply fmap_sublist. apply sublist_filter. }
  split; [exact Hsent|]. split; [exact Hnd|]. split; [exact Htun|].
  intros A B Hab HA HB.
  pose proof (before_sublist _ _ _ _ Htun Hab) as Hlog.
  destruct (before_NoDup _ _ _ Hnd Hlog) as [Hne Hasym].
  assert (Hnot : ~ before B A (sent_packets P)).
  { intros Hba. apply Hasym. exact (before_sublist _ _ _ _ Hsent Hba). }
  split; [|exact Hnot].
  destruct (before_total A B _ HA HB Hne) as [Hb|Hb]; [exact Hb | contradiction].
Qed.

End Order.

Lemma sender_keeps_order_witness :
  exists d P,
    @run sample_constants schedule_two_sent (@initial_device sample_constants 64) = Some d
    /\ peers d !! 0%nat = Some P
    /\ tun_packets P = [0; 1]%nat
    /\ sent_packets P = [0; 1]%nat
    /\ before 0%nat 1%nat (sent_packets P).
Proof.
  destruct (@run sample_constants schedule_two_sent (@initial_device sample_constants 64))
    as [d|] eqn:Hrun; [|vm_compute in Hrun; discriminate].
  assert (Hr : @reachable sample_constants d).
  { eapply run_reachable; [apply reachable_init | exact Hrun]. }
  destruct (peers d !! 0%nat) as [P|] eqn:HP.
  - destruct (@sender_keeps_order sample_constants d 0%nat P Hr HP)
      as (_ & _ & _ & Hord).
    vm_compute in Hrun. injection Hrun as <-.
    vm_compute in HP. injection HP as <-.
    eexists _, _. split; [reflexivity|]. split; [reflexivity|].
    split; [reflexivity|]. split; [reflexivity|].
    apply Hord.
    + exists [], [], []. reflexivity.
    + vm_compute. left.
    + vm_compute. right. left.
  - exfalso. vm_compute in Hrun. injection Hrun as <-. vm_compute in HP. discriminate.
Defined.

End OrderFacts.

(** ** Nonces of a key pair *)

Module NonceClaims.
Import Wire Send PipelineFacts PipelineSteps PipelineSteps2 NonceFacts NonceSteps OrderFacts.

Section Nonces.
Context `{Constants}.

(** C2.  With [RejectAfterMessages] a [uint64], in every state the device
    reaches no two calls of [Seal] had the same key pair and nonce, and
    every sealed nonce is below [RejectAfterMessages].  The sequencer gets
    the nonce by a fetch-and-increment of the counter of the key pair, and
    an element whose nonce is at or past [RejectAfterMessages] goes neither
    on the encryption queue nor on the outbound queue: the sequencer turns
    to the next packet. *)
Theorem sealed_nonces_distinct d :
  RejectAfterMessages < 2 ^ 64 -> reachable d ->
  NoDup (sealed d)
  /\ (forall k n, (k, n) ∈ sealed d -> 0 <= n < RejectAfterMessages)
  /\ (forall K : Keypair, 0 <= sendNonce K -> sendNonce K + 1 < 2 ^ 64 ->
        fetch_nonce K = (set_sendNonce (sendNonce K + 1) K, sendNonce K))
  /\ (forall p e E k n P P0,
        n >= RejectAfterMessages -> peers d !! p = Some P0 ->
        exists d' P',
          seq_submit p e E k n P d = Some d'
          /\ queue_encryption d' = queue_encryption d
          /\ sealed d' = sealed d
          /\ peers d' !! p = Some P'
          /\ seq_pc P' = SeqNext
          /\ queue_outbound P' = queue_outbound P
          /\ sendLog P' = sendLog P).
Proof.
  intros Hrej Hr. pose proof (reachable_NonceInv Hrej d Hr) as [He Hu Hn Hs Hrange].
  split; [exact Hn|]. split; [|split].
  - intros k n Hin. destruct (Hs k n Hin) as (K & _ & Hlt & Hb). lia.
  - intros K. apply fetch_nonce_spec.
  - intros p e E k n P P0 Hge HP0. unfold seq_submit.
    destruct (decide (n >= RejectAfterMessages)) as [_|Hc]; [|contradiction].
    eexists _, _. split; [reflexivity|]. cbn.
    rewrite lookup_insert_eq. repeat split; reflexivity.
Qed.

End Nonces.

Lemma sealed_nonces_distinct_witness :
  exists d,
    @run sample_constants schedule_two_sent (@initial_device sample_constants 64) = Some d
    /\ sealed d = [(0%nat, 1); (0%nat, 0)]
    /\ NoDup (sealed d).
Proof.
  destruct (@run sample_constants schedule_two_sent (@initial_device sample_constants 64))
    as [d|] eqn:Hrun; [|vm_compute in Hrun; discriminate].
  assert (Hr : @reachable sample_constants d).
  { eapply run_reachable; [apply reachable_init | exact Hrun]. }
  assert (Hrej : @RejectAfterMessages sample_constants < 2 ^ 64) by (vm_compute; reflexivity).
  destruct (@sealed_nonces_distinct sample_constants d Hrej Hr) as (Hnd & _).
  exists d. split; [reflexivity|]. split; [|exact Hnd].
  vm_compute in Hrun. injection Hrun as <-. reflexivity.
Defined.

End NonceClaims.

(** ** The latch and the buffer of an element *)

Module ElementClaims.
Import Wire Send PipelineFacts PipelineSteps PipelineSteps2 OrderFacts.

Section Elements.
Context `{Constants}.

(** C7 (as amended).  In every state the device reaches the mutex of an
    element was unlocked at most once.  A worker that seals an element
    unlocks it, for the first time; a sequencer that takes an element out of
    the full encryption queue drops it and unlocks it, for the first time; a
    worker that receives an element whose dropped flag is set goes on to the
    next without unlocking it. *)
Theorem latch_unlocked_at_most_once d :
  reachable d ->
  (forall e E, elems d !! e = Some E -> (unlocks E <= 1)%nat)
  /\ (forall w d',
        worker_seal w d = Some d' ->
        exists W e E E',
          workers d !! w = Some W /\ w_elem W = Some e
          /\ elems d !! e = Some E /\ elems d' !! e = Some E'
          /\ unlocks E = 0%nat /\ unlocks E' = 1%nat /\ mutex E' = false)
  /\ (forall p P e old q ch now env d',
        peers d !! p = Some P -> seq_pc P = SeqEnc e AtEvict ->
        queue_encryption d = old :: q ->
        seq_step p ch now env d = Some d' ->
        exists X X',
          elems d !! old = Some X /\ elems d' !! old = Some X'
          /\ queue_encryption d' = q /\ dropped X' = true
          /\ unlocks X = 0%nat /\ unlocks X' = 1%nat /\ mutex X' = false)
  /\ (forall w W e q E,
        workers d !! w = Some W -> w_elem W = None ->
        queue_encryption d = e :: q -> elems d !! e = Some E ->
        dropped E = true ->
        exists d' E',
          worker_pop w d = Some d' /\ elems d' !! e = Some E'
          /\ queue_encryption d' = q /\ workers d' = workers d
          /\ unlocks E' = 0%nat /\ mutex E' = true).
Proof.
  intros Hr. pose proof (reachable_Inv d Hr) as HI.
  split; [|split; [|split]].
  - intros e E HE. exact (proj1 (inv_elems d HI e E HE)).
  - intros w d' Hs. unfold worker_seal in Hs.
    destruct (workers d !! w) as [W|] eqn:HW; [|discriminate]. cbn in Hs.
    destruct (w_elem W) as [e|] eqn:Hhold; [|discriminate]. cbn in Hs.
    destruct (inv_work d HI w W e HW Hhold) as (E & HE & HstE).
    rewrite HE in Hs. cbn in Hs.
    destruct (keyPair E) as [k|]; [|discriminate]. cbn in Hs.
    destruct (keypairs d !! k) as [K|]; [|discriminate]. cbn in Hs.
    destruct (mutex E); [|discriminate].
    destruct (encrypt_element_shape (tun_mtu d) K (w_nonce W) E) as (buf & pkt & Hshape).
    destruct (encrypt_element (tun_mtu d) K (w_nonce W) E) as [wn E'].
    cbn in Hshape. subst E'. injection Hs as <-.
    pose proof (inv_elems d HI e E HE) as (_ & _ & H3 & _).
    assert (Hu : unlocks E = 0%nat) by (apply H3; congruence).
    exists W, e, E. eexists. split; [reflexivity|]. split; [exact Hhold|].
    split; [exact HE|]. split; [cbn; apply lookup_insert_eq|].
    split; [exact Hu|]. cbn. rewrite Hu. split; reflexivity.
  - intros p P e old q ch now env d' HP Hpc Hq Hs.
    unfold seq_step in Hs. rewrite HP in Hs. cbn in Hs. rewrite Hpc, Hq in Hs.
    pose proof (inv_enc d HI) as Henc. rewrite Hq in Henc.
    destruct (proj2 Henc old ltac:(left)) as (X & HO & HstO).
    rewrite HO in Hs. cbn in Hs. destruct (mutex X); [|discriminate]. injection Hs as <-.
    pose proof (inv_elems d HI old X HO) as (_ & _ & H3 & _).
    assert (Hu : unlocks X = 0%nat) by (apply H3; congruence).
    exists X. eexists. split; [exact HO|]. split; [cbn; apply lookup_insert_eq|].
    cbn. rewrite Hu. repeat split; reflexivity.
  - intros w W e q E HW Hhold Hq HE Hdrop.
    unfold worker_pop. rewrite HW. cbn. rewrite Hhold, Hq, HE. cbn.
    unfold IsDropped. rewrite Hdrop.
    pose proof (inv_enc d HI) as Henc. rewrite Hq in Henc.
    destruct (proj2 Henc e ltac:(left)) as (E0 & HE0 & HstE).
    assert (E0 = E) by congruence. subst E0.
    pose proof (inv_elems d HI e E HE) as (_ & _ & H3 & H4 & _).
    eexists _, _. split; [reflexivity|]. split; [cbn; apply lookup_insert_eq|].
    cbn. repeat split.
    + apply H3. congruence.
    + apply H4. now rewrite HstE.
Qed.

(** C6 (as amended).  In every state the device reaches the buffer of an
    element was returned to the pool at most once, and not at all while the
    element is on a queue of its peer or in the hands of its sequencer or
    sender.  The sender returns the buffer when it has given the packet to
    [SendBuffer], whatever the result; it does not return it when the
    dropped flag is set; and the sequencer that drains the nonce queue after
    [flushNonceQueue] takes the elements out without returning their
    buffers. *)
Theorem buffer_returned_at_most_once d :
  reachable d ->
  (forall e E, elems d !! e = Some E -> (returned E <= 1)%nat)
  /\ (forall p P e, peers d !! p = Some P -> e ∈ unsent P ->
        exists E, elems d !! e = Some E /\ returned E = 0%nat)
  /\ (forall p P e E res now env,
        peers d !! p = Some P -> snd_pc P = SndLatch e ->
        elems d !! e = Some E -> mutex E = false ->
        exists d' E' P',
          snd_step p ChRecv res now env d = Some d'
          /\ elems d' !! e = Some E' /\ peers d' !! p = Some P'
          /\ snd_pc P' = SndNext
          /\ returned E' = (if dropped E then 0%nat else 1%nat)
          /\ sendLog P' = (if dropped E then sendLog P
                           else sendLog P ++ [(e, bool_decide (res = None))]))
  /\ (forall p P old q X ch now env,
        peers d !! p = Some P -> seq_pc P = SeqFlush ->
        queue_nonce P = old :: q -> elems d !! old = Some X ->
        exists d' X' P',
          seq_step p ch now env d = Some d'
          /\ elems d' !! old = Some X' /\ peers d' !! p = Some P'
          /\ queue_nonce P' = q /\ seq_held P' = [] /\ returned X' = 0%nat).
Proof.
  intros Hr. pose proof (reachable_Inv d Hr) as HI.
  assert (Hunsent : forall p P e, peers d !! p = Some P -> e ∈ unsent P ->
            exists E, elems d !! e = Some E /\ returned E = 0%nat).
  { intros p P e HP Hin.
    destruct (peer_elem d p P e HI HP) as (E & HE & _ & _ & Hel).
    { unfold chain. unfold unsent in Hin. set_solver. }
    destruct Hel as (E0 & HE0 & _ & _ & _ & _ & Hret).
    exists E0. split; [exact HE0 | exact (Hret Hin)]. }
  split; [|split; [exact Hunsent|split]].
  - intros e E HE. exact (proj1 (proj2 (inv_elems d HI e E HE))).
  - intros p P e E res now env HP Hpc HE Hmx.
    destruct (Hunsent p P e HP) as (E0 & HE0 & Hret).
    { unfold unsent, snd_held. rewrite Hpc. set_solver. }
    assert (E0 = E) by congruence. subst E0.
    unfold snd_step. rewrite HP. cbn. rewrite Hpc, HE. cbn. rewrite Hmx.
    destruct (dropped E).
    + eexists _, _, _. split; [reflexivity|]. cbn.
      rewrite !lookup_insert_eq. repeat split; try reflexivity. exact Hret.
    + destruct res; cbn.
      * eexists _, _, _. split; [reflexivity|]. cbn.
        rewrite !lookup_insert_eq. repeat split; try reflexivity. cbn. now rewrite Hret.
      * eexists _, _, _. split; [reflexivity|]. cbn.
        rewrite !lookup_insert_eq. repeat split; try reflexivity. cbn. now rewrite Hret.
  - intros p P old q X ch now env HP Hpc Hq HO.
    destruct (Hunsent p P old HP) as (X0 & HO0 & Hret).
    { unfold unsent. rewrite Hq. set_solver. }
    assert (X0 = X) by congruence. subst X0.
    unfold seq_step. rewrite HP. cbn. rewrite Hpc, Hq, HO. cbn.
    eexists _, _, _. split; [reflexivity|]. cbn.
    rewrite !lookup_insert_eq. repeat split; try reflexivity.
    + unfold seq_held. cbn. now rewrite Hpc.
    + exact Hret.
Qed.

End Elements.

(** C7, the claim as stated fails.  After [schedule_outbound_eviction]
    element 0 is the oldest of the encryption queue, with its dropped flag
    set and its mutex locked and never unlocked; worker 0 then receives it
    and goes on: the element has left the queue, no worker holds it, and its
    mutex is still locked and was unlocked zero times, not once. *)
Lemma worker_skips_dropped_locked :
  exists d E d' E',
    after schedule_outbound_eviction 0 = Some (d, E)
    /\ queue_encryption d = [0; 1]%nat
    /\ dropped E = true /\ mutex E = true /\ unlocks E = 0%nat
    /\ @worker_pop sample_constants 0 d = Some d'
    /\ elems d' !! 0%nat = Some E'
    /\ queue_encryption d' = [1]%nat
    /\ workers d' !! 0%nat = Some (mkWorker (replicate 12 0) None)
    /\ mutex E' = true /\ unlocks E' <> 1%nat.
Proof.
  destruct (after schedule_outbound_eviction 0) as [[d E]|] eqn:Ha;
    [|vm_compute in Ha; discriminate].
  vm_compute in Ha. injection Ha as <- <-.
  eexists _, _, _, _. split; [reflexivity|].
  split; [reflexivity|]. split; [reflexivity|]. split; [reflexivity|].
  split; [reflexivity|]. split; [vm_compute; reflexivity|].
  split; [vm_compute; reflexivity|]. split; [reflexivity|].
  split; [vm_compute; reflexivity|]. split; [reflexivity|].
  cbn. discriminate.
Qed.

Lemma latch_unlocked_at_most_once_witness :
  exists d E,
    after schedule_two_sent 0 = Some (d, E)
    /\ unlocks E = 1%nat /\ (unlocks E <= 1)%nat.
Proof.
  destruct (after schedule_two_sent 0) as [[d E]|] eqn:Ha;
    [|vm_compute in Ha; discriminate].
  unfold after in Ha.
  destruct (@run sample_constants schedule_two_sent (@initial_device sample_constants 64))
    as [d0|] eqn:Hrun; [|discriminate]. cbn in Ha.
  destruct (elems d0 !! 0%nat) as [E0|] eqn:HE; [|discriminate].
  injection Ha as <- <-.
  assert (Hr : @reachable sample_constants d0).
  { eapply run_reachable; [apply reachable_init | exact Hrun]. }
  destruct (@latch_unlocked_at_most_once sample_constants d0 Hr) as (Hle & _).
  exists d0, E0. split; [reflexivity|]. split; [|exact (Hle _ _ HE)].
  vm_compute in Hrun. injection Hrun as <-. vm_compute in HE. injection HE as <-.
  reflexivity.
Defined.

(** C6, the claim as stated fails.  After [schedule_encryption_eviction]
    the sender holds element 0, whose dropped flag is set and whose buffer
    was not returned; the sender then locks the mutex, sees the flag and goes
    on to the next element, and the buffer is still not returned.  After
    [schedule_flush] the sequencer drains element 1 from the nonce queue
    without returning its buffer. *)
Lemma dropped_buffers_not_returned :
  (exists d E d' E' P',
     after schedule_encryption_eviction 0 = Some (d, E)
     /\ dropped E = true /\ mutex E = false /\ returned E = 0%nat
     /\ @snd_step sample_constants 0 ChRecv None 1 sample_env d = Some d'
     /\ elems d' !! 0%nat = Some E' /\ peers d' !! 0%nat = Some P'
     /\ snd_pc P' = SndNext /\ queue_outbound P' = [2]%nat /\ sendLog P' = []
     /\ returned E' <> 1%nat)
  /\ (exists d E d' E' P',
        after schedule_flush 1 = Some (d, E)
        /\ returned E = 0%nat
        /\ @seq_step sample_constants 0 ChRecv 1 sample_env d = Some d'
        /\ elems d' !! 1%nat = Some E' /\ peers d' !! 0%nat = Some P'
        /\ queue_nonce P' = [] /\ seq_pc P' = SeqFlush
        /\ returned E' <> 1%nat).
Proof.
  split.
  - destruct (after schedule_encryption_eviction 0) as [[d E]|] eqn:Ha;
      [|vm_compute in Ha; discriminate].
    vm_compute in Ha. injection Ha as <- <-.
    eexists _, _, _, _, _. split; [reflexivity|].
    split; [reflexivity|]. split; [reflexivity|]. split; [reflexivity|].
    split; [vm_compute; reflexivity|]. split; [vm_compute; reflexivity|].
    split; [vm_compute; reflexivity|]. split; [reflexivity|].
    split; [reflexivity|]. split; [reflexivity|]. cbn. discriminate.
  - destruct (after schedule_flush 1) as [[d E]|] eqn:Ha;
      [|vm_compute in Ha; discriminate].
    vm_compute in Ha. injection Ha as <- <-.
    eexists _, _, _, _, _. split; [reflexivity|]. split; [reflexivity|].
    split; [vm_compute; reflexivity|]. split; [vm_compute; reflexivity|].
    split; [vm_compute; reflexivity|]. split; [reflexivity|].
    split; [reflexivity|]. cbn. discriminate.
Qed.

Lemma buffer_returned_at_most_once_witness :
  exists d E,
    after schedule_two_sent 1 = Some (d, E)
    /\ returned E = 1%nat /\ (returned E <= 1)%nat.
Proof.
  destruct (after schedule_two_sent 1) as [[d E]|] eqn:Ha;
    [|vm_compute in Ha; discriminate].
  unfold after in Ha.
  destruct (@run sample_constants schedule_two_sent (@initial_device sample_constants 64))
    as [d0|] eqn:Hrun; [|discriminate]. cbn in Ha.
  destruct (elems d0 !! 1%nat) as [E0|] eqn:HE; [|discriminate].
  injection Ha as <- <-.
  assert (Hr : @reachable sample_constants d0).
  { eapply run_reachable; [apply reachable_init | exact Hrun]. }
  destruct (@buffer_returned_at_most_once sample_constants d0 Hr) as (Hle & _).
  exists d0, E0. split; [reflexivity|]. split; [|exact (Hle _ _ HE)].
  vm_compute in Hrun. injection Hrun as <-. vm_compute in HE. injection HE as <-.
  reflexivity.
Defined.

End ElementClaims.

(** ** The TUN reader: packets shorter than their IP header *)

Module TunFacts.
Import Wire Send.

Section Tun.
Context `{Constants}.

Lemma lookup_peer_short pkt : short_header pkt -> lookup_peer pkt = None.
Proof.
  intros (b0 & rest & -> & Hcase). unfold lookup_peer.
  unfold ipv4_Version, ipv6_Version, ipv4_HeaderLen, ipv6_HeaderLen.
  destruct Hcase as [[Hv Hlen]|[Hv Hlen]]; rewrite Hv.
  - rewrite decide_True by reflexivity. now rewrite decide_True by exact Hlen.
  - rewrite decide_False by discriminate. rewrite decide_True by reflexivity.
    now rewrite decide_True by exact Hlen.
Qed.

(** C10.  When the TUN reader reads a packet whose version nibble is 4 and
    whose length is below 20, or whose version nibble is 6 and whose length
    is below 40, the iteration ends with the same element in hand: only the
    buffer of that element (and its packet view) has changed; no peer, queue
    or timer has, and no routing lookup decides anything. *)
Theorem tun_read_short_header pkt env d e E :
  tun d = TunRead e -> elems d !! e = Some E ->
  (MessageTransportHeaderSize + length pkt <= length (buffer E))%nat ->
  short_header pkt ->
  lookup_peer pkt = None
  /\ exists E',
       tun_read pkt env d = Some (put_elem e E' d)
       /\ buffer E' = write_at MessageTransportHeaderSize pkt (buffer E)
       /\ stage E' = stage E.
Proof.
  intros Ht HE Hfit Hshort. split; [now apply lookup_peer_short|].
  unfold tun_read. rewrite Ht, HE. cbn [mbind option_bind].
  case_decide as Hsz.
  - eexists. split; [reflexivity|]. split; reflexivity.
  - rewrite decide_True by (rewrite WireFacts.write_at_length; exact Hfit).
    cbn [slice_bytes packet set_data].
    rewrite WireFacts.subslice_write_at by exact Hfit.
    rewrite (lookup_peer_short pkt Hshort).
    eexists. split; [reflexivity|]. split; reflexivity.
Qed.

End Tun.

Lemma tun_read_short_header_witness :
  let d := @put_elem sample_constants 0 (NewOutboundElement sample_buffer)
             (@set_tun sample_constants (TunRead 0) (@initial_device sample_constants 64)) in
  @lookup_peer sample_constants (take 19 sample_packet) = None
  /\ @LookupIPv4 sample_constants (subslice 16 4 sample_packet) = Some 0%nat
  /\ tun <$> @tun_read sample_constants (take 19 sample_packet) sample_env d
     = Some (TunRead 0).
Proof.
  intros d.
  assert (Hshort : short_header (take 19 sample_packet)).
  { exists 69, (take 18 (tail sample_packet)). split; [reflexivity|].
    left. split; [reflexivity | vm_compute; lia]. }
  destruct (@tun_read_short_header sample_constants (take 19 sample_packet) sample_env d 0%nat
              (NewOutboundElement sample_buffer) eq_refl eq_refl
              ltac:(vm_compute; lia) Hshort) as (Hnone & E' & Hrun & _).
  split; [exact Hnone|]. split; [reflexivity|]. rewrite Hrun. reflexivity.
Defined.

End TunFacts.

(** ** The bind: the retry after [EINVAL] *)

Module BindFacts.
Import Wire Bind.

Section Send.
Variable kernel : Kernel.

Lemma ClearSrc_cleared e :
  Forall (fun b => b = 0) (src (ClearSrc e)) /\ length (src (ClearSrc e)) = length (src e)
  /\ dst_Port (ClearSrc e) = dst_Port e /\ dst_Addr (ClearSrc e) = dst_Addr e
  /\ dst_ZoneId (ClearSrc e) = dst_ZoneId e /\ isV6 (ClearSrc e) = isV6 e.
Proof.
  cbn. split; [|split; [apply length_map | repeat split]].
  induction (src e) as [|b l IH]; cbn; constructor; auto.
Qed.

(** C9.  [Send] makes one call of [sendmsg] with the cached source in the
    control message.  When the kernel answers without error, that is all
    and the endpoint is as before.  When it answers [EINVAL], the source of
    the endpoint is cleared and exactly one more call is made, the same
    but for an empty packet info, and its answer is the result.  On any
    other error there is no second call, the error is the result and the
    endpoint is as before. *)
Theorem Send_retries_once sock4 sock6 buff e tr :
  let c1 := first_call sock4 sock6 buff e in
  let c2 := retry_call sock4 sock6 buff e in
  pktinfo_Addr (call_cmsg c1) = (if isV6 e then src6_src e else src4_src e)
  /\ empty_pktinfo (call_cmsg c2)
  /\ Forall (fun b => b = 0) (src (ClearSrc e))
  /\ Send kernel sock4 sock6 buff e tr
     = match kernel tr c1 with
       | None => (tr ++ [c1], (e, None))
       | Some errno =>
           if decide (errno = EINVAL)
           then (tr ++ [c1; c2], (ClearSrc e, kernel (tr ++ [c1]) c2))
           else (tr ++ [c1], (e, Some errno))
       end.
Proof.
  intros c1 c2. subst c1 c2. unfold retry_call, first_call, Send.
  split; [destruct (isV6 e); reflexivity|].
  split; [destruct (isV6 e); split; try reflexivity; apply Forall_replicate;
          reflexivity|].
  split; [apply ClearSrc_cleared|].
  destruct (isV6 e); cbn [negb].
  - unfold send6, bind, SendmsgN, ret. cbn.
    destruct (kernel tr _) as [errno|]; [|reflexivity].
    case_decide as Herr; [|reflexivity]. now rewrite <- app_assoc.
  - unfold send4, bind, SendmsgN, ret. cbn.
    destruct (kernel tr _) as [errno|]; [|reflexivity].
    case_decide as Herr; [|reflexivity]. now rewrite <- app_assoc.
Qed.

End Send.

(** On the sample kernel, which refuses a cached source, [Send] makes two
    calls, clears the source and succeeds. *)
Example Send_sample :
  let r := Send sample_kernel 4 6 [1; 2; 3] sample_endpoint [] in
  length r.1 = 2%nat /\ src r.2.1 = replicate 16 0 /\ r.2.2 = None.
Proof. vm_compute. repeat split. Qed.

End BindFacts.

(** ** More on the padding of [RoutineEncryption] *)

Module PaddingFacts.
Import Wire WireFacts Send EncryptFacts.

Section Padding.
Context `{Constants}.

(** At or past the MTU the padding loop ends at its first test. *)
Lemma pad_loop_stop todo mtu buf s :
  mtu <= Z.of_nat (slice_len s) -> pad_loop todo mtu buf s = (buf, s).
Proof.
  intros Hge. destruct todo as [|todo]; [reflexivity|]. cbn.
  now rewrite decide_False by lia.
Qed.

(** The padding appends fewer than [PaddingMultiple] bytes, and a packet
    that went through it is left alone by a second pass: when the length is
    a multiple of 16 there is nothing to do, and when it is not the MTU has
    stopped the loop and stops it again. *)
Theorem pad_packet_idempotent mtu buf s :
  slice_ok buf s ->
  let r := pad_packet mtu buf s in
  pad_packet mtu r.1 r.2 = r
  /\ (slice_len s <= slice_len r.2 < slice_len s + 16)%nat.
Proof.
  intros Hok r.
  destruct (pad_packet_spec mtu buf s Hok)
    as (k & _ & Hlen & _ & _ & _ & Hzero & Hpad).
  fold r in Hlen.
  assert (Hmod : 0 <= Z.of_nat (slice_len s) mod 16 < 16) by (apply Z.mod_pos_bound; lia).
  assert (Hk : (k < 16)%nat).
  { destruct (decide (Z.of_nat (slice_len s) mod 16 = 0)) as [Hz|Hnz].
    - rewrite (Hzero Hz). lia.
    - specialize (Hpad Hnz). lia. }
  split; [|lia].
  unfold pad_packet at 1. unfold PaddingMultiple.
  case_decide as Hrem; [|now destruct r].
  destruct (decide (Z.of_nat (slice_len s) mod 16 = 0)) as [Hz|Hnz].
  - exfalso. rewrite Hlen, (Hzero Hz), Nat.add_0_r in Hrem. lia.
  - specialize (Hpad Hnz).
    assert (Hstop : mtu <= Z.of_nat (slice_len r.2)).
    { destruct (Z.le_gt_cases mtu (Z.of_nat (slice_len r.2))) as [Hle|Hgt]; [exact Hle|].
      exfalso. rewrite Hlen in Hrem, Hgt.
      assert (Hfull : Z.of_nat k = 16 - Z.of_nat (slice_len s) mod 16) by lia.
      rewrite Nat2Z.inj_add, Hfull in Hrem.
      replace (Z.of_nat (slice_len s) + (16 - Z.of_nat (slice_len s) mod 16))
        with (Z.of_nat (slice_len s) - Z.of_nat (slice_len s) mod 16 + 1 * 16) in Hrem by lia.
      rewrite Z.mod_add in Hrem by lia.
      rewrite Zminus_mod_idemp_r, Z.sub_diag, Z.mod_0_l in Hrem; lia. }
    rewrite (pad_loop_stop _ mtu r.1 r.2 Hstop). now destruct r.
Qed.

End Padding.

Lemma pad_packet_idempotent_witness :
  let buf := replicate 16 7 ++ replicate 20 1 ++ replicate 28 9 in
  let r := pad_packet 64 buf (SliceBuf 16 20) in
  r.2 = SliceBuf 16 32
  /\ pad_packet 64 r.1 r.2 = r.
Proof.
  intros buf r.
  assert (Hok : slice_ok buf (SliceBuf 16 20)) by (vm_compute; lia).
  destruct (pad_packet_idempotent 64 buf (SliceBuf 16 20) Hok) as [Hidem _].
  split; [reflexivity | exact Hidem].
Defined.

End PaddingFacts.

(** ** Elements are ready for the workers, and the queues stay in bounds *)

Module ReadyFacts.
Import Wire WireFacts Send EncryptFacts PipelineFacts PipelineSteps PipelineSteps2.

(** Take a step function apart into its cases. *)
Ltac step_cases Hs :=
  repeat first
    [ discriminate Hs
    | progress (cbn [mbind option_bind] in Hs)
    | case_decide
    | match type of Hs with
      | context [mbind _ ?mx] =>
          lazymatch mx with
          | context [mbind _ _] => fail
          | _ => destruct mx eqn:?
          end
      end
    | match type of Hs with
      | context [match ?x with _ => _ end] =>
          lazymatch x with
          | context [match _ with _ => _ end] => fail
          | _ => destruct x eqn:?
          end
      end ].

Section Ready.
Context `{Constants}.

Lemma encrypt_element_nonce mtu (K : Keypair) wn E :
  (encrypt_element mtu K wn E).1 = write_at 4 (PutUint64 (nonce E)) wn.
Proof.
  unfold encrypt_element. destruct (pad_packet _ _ _) as [b4 p4].
  now destruct (seal_append _ _) as [b5 p5].
Qed.

Lemma worker_nonce_ok_write n wn :
  worker_nonce_ok wn -> worker_nonce_ok (write_at 4 (PutUint64 n) wn).
Proof.
  intros [Hlen Hzero]. unfold worker_nonce_ok, NonceSize in *.
  split; [now rewrite write_at_length|].
  rewrite write_at_spec by (cbn; lia).
  rewrite take_app_le by (rewrite length_take; lia).
  rewrite take_take. exact Hzero.
Qed.

Lemma elem_ready_new buf :
  (MessageTransportHeaderSize <= length buf)%nat -> elem_ready (NewOutboundElement buf).
Proof. intros Hb. split; [intros _; split; [exact Hb | exact I] | reflexivity]. Qed.

(** A change of an element that keeps its buffer length and its packet
    view, unless it counts an unlock, and that leaves the mutex alone
    before the nonce assignment. *)
Lemma elem_ready_keep X X' :
  length (buffer X') = length (buffer X) -> packet X' = packet X ->
  (unlocks X' = O -> unlocks X = O) ->
  (unassigned (stage X') = true ->
   unassigned (stage X) = true /\ mutex X' = mutex X) ->
  elem_ready X -> elem_ready X'.
Proof.
  intros Hb Hp Hu Hm [H1 H2]. split.
  - intros Hz. specialize (H1 (Hu Hz)). unfold packet_ok in *.
    rewrite Hb, Hp. exact H1.
  - intros Hs. destruct (Hm Hs) as [Hs' ->]. exact (H2 Hs').
Qed.

Lemma encrypt_element_unlocks mtu (K : Keypair) wn E :
  unlocks (encrypt_element mtu K wn E).2 = S (unlocks E).
Proof.
  destruct (encrypt_element_shape mtu K wn E) as (buf & pkt & ->). reflexivity.
Qed.

End Ready.

End ReadyFacts.

(** ** Only sealed elements are sent *)

Module LateFacts.
Import Wire WireFacts Send EncryptFacts PipelineFacts PipelineSteps PipelineSteps2 ReadyFacts.

Section Late.
Context `{Constants}.

Lemma was_sealed_mono sl sl' E :
  (forall x, x ∈ sl -> x ∈ sl') -> was_sealed sl E -> was_sealed sl' E.
Proof. intros Hsub (k & Hk & Hin). exists k. split; [exact Hk | now apply Hsub]. Qed.

Lemma late_ok_mono sl sl' E :
  (forall x, x ∈ sl -> x ∈ sl') -> late_ok sl E -> late_ok sl' E.
Proof.
  intros Hsub [He Hf]. split; [exact He|]. intros Hst.
  destruct (Hf Hst) as [Hd|[Hs Hu]]; [now left|right].
  split; [eapply was_sealed_mono; eauto | exact Hu].
Qed.

Lemma sent_ok_mono sl sl' E :
  (forall x, x ∈ sl -> x ∈ sl') -> sent_ok sl E -> sent_ok sl' E.
Proof.
  intros Hsub (Hst & Hs & Hrest). split; [exact Hst|].
  split; [eapply was_sealed_mono; eauto | exact Hrest].
Qed.

(** The fields the two predicates read. *)
Lemma sent_ok_fields sl X X' :
  keyPair X' = keyPair X -> nonce X' = nonce X -> unlocks X' = unlocks X ->
  returned X' = returned X -> mutex X' = mutex X ->
  (stage X = Finished -> stage X' = Finished) ->
  sent_ok sl X -> sent_ok sl X'.
Proof.
  intros Hk Hn Hu Hr Hm Hst (H1 & (k & H2 & H2') & H3 & H4 & H5).
  split; [auto|]. split; [exists k; split; congruence|].
  repeat split; congruence.
Qed.

Lemma late_ok_fields sl X X' :
  keyPair X' = keyPair X -> nonce X' = nonce X -> unlocks X' = unlocks X ->
  stage X' = stage X -> (dropped X = true -> dropped X' = true) ->
  late_ok sl X -> late_ok sl X'.
Proof.
  intros Hk Hn Hu Hst Hd [H1 H2]. split; [congruence|].
  intros HF. rewrite Hst in HF. destruct (H2 HF) as [Hdr|[(k & Hs & Hin) Hun]].
  - left. auto.
  - right. split; [exists k; split; congruence | congruence].
Qed.

(** A change of one element that keeps what the sender relies on, with
    the peers as they are and the record of [Seal] growing. *)
Lemma Late_update d d' x X X' :
  Late d -> elems d !! x = Some X ->
  peers d' = peers d -> elems d' = <[x := X']> (elems d) ->
  (forall y, y ∈ sealed d -> y ∈ sealed d') ->
  (late_ok (sealed d) X -> late_ok (sealed d') X') ->
  (sent_ok (sealed d) X -> sent_ok (sealed d') X') ->
  Late d'.
Proof.
  intros [Hl Hs] HX Hp He Hsl Hlate Hsent. constructor.
  - intros p P e HP Hin. rewrite Hp in HP. rewrite He.
    destruct (Hl p P e HP Hin) as (E & HE & Hok).
    destruct (decide (e = x)) as [->|Hne].
    + exists X'. rewrite lookup_insert_eq. split; [reflexivity|].
      apply Hlate. congruence.
    + exists E. rewrite lookup_insert_ne by congruence.
      split; [exact HE | eapply late_ok_mono; eauto].
  - intros p P e HP Hin. rewrite Hp in HP. rewrite He.
    destruct (Hs p P e HP Hin) as (E & HE & Hok).
    destruct (decide (e = x)) as [->|Hne].
    + exists X'. rewrite lookup_insert_eq. split; [reflexivity|].
      apply Hsent. congruence.
    + exists E. rewrite lookup_insert_ne by congruence.
      split; [exact HE | eapply sent_ok_mono; eauto].
Qed.

(** A new element. *)
Lemma Late_alloc d d' x X' :
  Late d -> elems d !! x = None ->
  peers d' = peers d -> elems d' = <[x := X']> (elems d) -> sealed d' = sealed d ->
  Late d'.
Proof.
  intros [Hl Hs] HX Hp He Hsl. constructor.
  - intros p P e HP Hin. rewrite Hp in HP. rewrite He, Hsl.
    destruct (Hl p P e HP Hin) as (E & HE & Hok).
    exists E. rewrite lookup_insert_ne by congruence. split; assumption.
  - intros p P e HP Hin. rewrite Hp in HP. rewrite He, Hsl.
    destruct (Hs p P e HP Hin) as (E & HE & Hok).
    exists E. rewrite lookup_insert_ne by congruence. split; assumption.
Qed.

(** A change of one peer: what its sender holds, will receive or has sent
    was there before, or is an element in the state the invariant asks
    for. *)
Lemma Late_peer d d' p P' :
  Late d ->
  peers d' = <[p := P']> (peers d) -> elems d' = elems d -> sealed d' = sealed d ->
  (forall e, e ∈ late_part P' ->
     (exists P, peers d !! p = Some P /\ e ∈ late_part P)
     \/ (exists E, elems d !! e = Some E /\ late_ok (sealed d) E)) ->
  (forall e, e ∈ (sendLog P').*1 ->
     (exists P, peers d !! p = Some P /\ e ∈ (sendLog P).*1)
     \/ (exists E, elems d !! e = Some E /\ sent_ok (sealed d) E)) ->
  Late d'.
Proof.
  intros [Hl Hs] Hp He Hsl Hlate Hsent. constructor.
  - intros q Q e HQ Hin. rewrite Hp in HQ. rewrite He, Hsl.
    destruct (decide (q = p)) as [->|Hne].
    + rewrite lookup_insert_eq in HQ. injection HQ as <-.
      destruct (Hlate e Hin) as [(P & HP & HinP)|Hnew]; [|exact Hnew].
      exact (Hl p P e HP HinP).
    + rewrite lookup_insert_ne in HQ by congruence. exact (Hl q Q e HQ Hin).
  - intros q Q e HQ Hin. rewrite Hp in HQ. rewrite He, Hsl.
    destruct (decide (q = p)) as [->|Hne].
    + rewrite lookup_insert_eq in HQ. injection HQ as <-.
      destruct (Hsent e Hin) as [(P & HP & HinP)|Hnew]; [|exact Hnew].
      exact (Hs p P e HP HinP).
    + rewrite lookup_insert_ne in HQ by congruence. exact (Hs q Q e HQ Hin).
Qed.

(** A change of one peer that leaves the two lists as they are. *)
Lemma Late_peer_same d d' p P P' :
  Late d -> peers d !! p = Some P ->
  peers d' = <[p := P']> (peers d) -> elems d' = elems d -> sealed d' = sealed d ->
  snd_pc P' = snd_pc P -> queue_outbound P' = queue_outbound P ->
  seq_out P' = seq_out P -> sendLog P' = sendLog P ->
  Late d'.
Proof.
  intros HL HP Hp He Hsl H1 H2 H3 H4.
  eapply Late_peer; eauto.
  - intros e Hin. left. exists P. split; [exact HP|].
    unfold late_part, snd_held in *. now rewrite H1, H2, H3 in Hin.
  - intros e Hin. left. exists P. split; [exact HP|]. now rewrite H4 in Hin.
Qed.

(** Nothing but fields the invariant does not read. *)
Lemma Late_same d d' :
  Late d -> peers d' = peers d -> elems d' = elems d -> sealed d' = sealed d -> Late d'.
Proof.
  intros [Hl Hs] Hp He Hsl. constructor.
  - intros p P e HP Hin. rewrite Hp in HP. rewrite He, Hsl. eauto.
  - intros p P e HP Hin. rewrite Hp in HP. rewrite He, Hsl. eauto.
Qed.

Lemma Late_set_tun d v : Late d -> Late (set_tun v d).
Proof. intros HL. eapply Late_same; [exact HL | reflexivity..]. Qed.
Lemma Late_set_keepalives d v : Late d -> Late (set_keepalives v d).
Proof. intros HL. eapply Late_same; [exact HL | reflexivity..]. Qed.
Lemma Late_set_queue_encryption d v : Late d -> Late (set_queue_encryption v d).
Proof. intros HL. eapply Late_same; [exact HL | reflexivity..]. Qed.
Lemma Late_set_workers d v : Late d -> Late (set_workers v d).
Proof. intros HL. eapply Late_same; [exact HL | reflexivity..]. Qed.
Lemma Late_set_keypairs d v : Late d -> Late (set_keypairs v d).
Proof. intros HL. eapply Late_same; [exact HL | reflexivity..]. Qed.

Lemma Late_put_elem d x X X' :
  Late d -> elems d !! x = Some X ->
  (late_ok (sealed d) X -> late_ok (sealed d) X') ->
  (sent_ok (sealed d) X -> sent_ok (sealed d) X') ->
  Late (put_elem x X' d).
Proof.
  intros HL HX H1 H2. eapply Late_update; [exact HL | exact HX | reflexivity..| | |]; auto.
Qed.

(** A change of an element that the sequencer has not yet handed on. *)
Lemma Late_put_elem_early d x X X' :
  Late d -> elems d !! x = Some X -> early (stage X) = true ->
  Late (put_elem x X' d).
Proof.
  intros HL HX He. eapply Late_put_elem; [exact HL | exact HX | |].
  - intros [Hf _]. congruence.
  - intros [Hf _]. rewrite Hf in He. discriminate.
Qed.

Lemma Late_put_elem_new d x X' :
  Late d -> elems d !! x = None -> Late (put_elem x X' d).
Proof. intros HL HX. eapply Late_alloc; [exact HL | exact HX | reflexivity..]. Qed.

Lemma Late_put_peer_same d p P P' :
  Late d -> peers d !! p = Some P ->
  snd_pc P' = snd_pc P -> queue_outbound P' = queue_outbound P ->
  seq_out P' = seq_out P -> sendLog P' = sendLog P ->
  Late (put_peer p P' d).
Proof.
  intros HL HP H1 H2 H3 H4.
  eapply Late_peer_same; [exact HL | exact HP | reflexivity..| | | |]; assumption.
Qed.

(** The stages of the elements the TUN reader and [SendKeepalive] hold. *)
Lemma tun_elem_fresh d e :
  Inv d -> (tun d = TunRead e \/ exists p pc, tun d = TunAdd p e pc) ->
  exists E, elems d !! e = Some E /\ stage E = Fresh.
Proof.
  intros HI Ht. pose proof (inv_tun d HI) as Hok.
  destruct Ht as [Ht|(p & pc & Ht)]; rewrite Ht in Hok; exact Hok.
Qed.

Lemma tun_Late l d d' :
  match l with
  | LTunBegin _ _ | LTunRead _ _ | LTunReadError | LTunAdd _ _
  | LKeepaliveMake _ _ _ | LKeepaliveSend _ _ => True
  | _ => False
  end ->
  Inv d -> Late d -> step l d = Some d' -> Late d'.
Proof.
  intros Hl HI HL Hs. destruct l; try contradiction; cbn in Hs.
  - unfold tun_begin in Hs. step_cases Hs; injection Hs as <-.
    apply Late_set_tun. apply Late_put_elem_new; [exact HL | tauto].
  - unfold tun_read in Hs. destruct (tun d) as [|e| |] eqn:Ht; try discriminate.
    destruct (tun_elem_fresh d e HI (or_introl Ht)) as (E & HE & Hst).
    rewrite HE in Hs. cbn [mbind option_bind] in Hs.
    assert (Hearly : early (stage E) = true) by now rewrite Hst.
    step_cases Hs; injection Hs as <-;
      first [ solve [eapply Late_put_elem_early; eauto]
            | apply Late_set_tun; eapply Late_put_peer_same;
              [ eapply Late_put_elem_early; eauto | cbn; eassumption | reflexivity.. ] ].
  - unfold tun_read_error in Hs. step_cases Hs; injection Hs as <-.
    now apply Late_set_tun.
  - unfold tun_add in Hs. destruct (tun d) as [| |p x pc|] eqn:Ht; try discriminate.
    destruct (tun_elem_fresh d x HI (or_intror (ex_intro _ p (ex_intro _ pc Ht))))
      as (E & HE & Hst).
    assert (Hearly : early (stage E) = true) by now rewrite Hst.
    destruct pc.
    + destruct (peers d !! p) as [P|] eqn:HP; [|discriminate].
      cbn [mbind option_bind] in Hs. rewrite HE in Hs. cbn [mbind option_bind] in Hs.
      step_cases Hs; injection Hs as <-.
      * apply Late_set_tun. apply Late_put_elem_new.
        -- eapply Late_put_elem_early; [|cbn; exact HE | exact Hearly].
           eapply Late_put_peer_same; [exact HL | exact HP | reflexivity..].
        -- cbn. rewrite lookup_insert_ne; [tauto|]. intros ->. intuition congruence.
      * now apply Late_set_tun.
    + destruct (peers d !! p) as [P|] eqn:HP; [|discriminate].
      cbn [mbind option_bind] in Hs.
      destruct (queue_nonce P) as [|old q] eqn:Hq.
      * injection Hs as <-. now apply Late_set_tun.
      * destruct (elems d !! old) as [X|] eqn:HX; [|discriminate].
        cbn [mbind option_bind] in Hs. injection Hs as <-.
        apply Late_set_tun. eapply Late_put_elem; [|cbn; exact HX | |].
        -- eapply Late_put_peer_same; [exact HL | exact HP | reflexivity..].
        -- intros [_ _]. split; [reflexivity | intros _; now left].
        -- apply sent_ok_fields; try reflexivity; intros Hf; exact Hf.
  - unfold keepalive_make in Hs. step_cases Hs; injection Hs as <-;
      first [ exact HL
            | apply Late_set_keepalives; apply Late_put_elem_new; [exact HL | tauto] ].
  - unfold keepalive_send in Hs. case_decide as Hin; [|discriminate].
    destruct (inv_ka d HI _ _ Hin) as (E & HE & Hst).
    assert (Hearly : early (stage E) = true) by now rewrite Hst.
    destruct (peers d !! p) as [P|] eqn:HP; [|discriminate].
    cbn [mbind option_bind] in Hs. rewrite HE in Hs. cbn [mbind option_bind] in Hs.
    step_cases Hs; injection Hs as <-.
    + eapply Late_put_elem_early; [|cbn; exact HE | exact Hearly].
      eapply Late_put_peer_same; [|cbn; exact HP | reflexivity..].
      now apply Late_set_keepalives.
    + eapply Late_put_elem_early; [|cbn; exact HE | exact Hearly].
      now apply Late_set_keepalives.
Qed.

(** The stages of the elements of a peer before the encryption queue. *)
Lemma nonce_queue_elem d p P e :
  Inv d -> peers d !! p = Some P -> e ∈ queue_nonce P ->
  exists E, elems d !! e = Some E /\ early (stage E) = true.
Proof.
  intros HI HP Hin.
  destruct (peer_elem d p P e HI HP) as (E & HE & _ & _ & Hel).
  { unfold chain. set_solver. }
  destruct Hel as (E0 & HE0 & _ & Hq & _). exists E0. split; [exact HE0|].
  now rewrite (Hq Hin).
Qed.

Lemma seq_held_early d p P e :
  Inv d -> peers d !! p = Some P ->
  (seq_pc P = SeqKey e \/ seq_pc P = SeqAwait e \/ exists pc, seq_pc P = SeqEnc e pc) ->
  exists E, elems d !! e = Some E /\ early (stage E) = true.
Proof.
  intros HI HP Hpc. destruct Hpc as [Hpc|[Hpc|[pc Hpc]]].
  - destruct (seq_early_elem d p P e HI HP) as (E & HE & _ & _ & Hst & _).
    { unfold seq_early. now rewrite Hpc. }
    exists E. split; [exact HE | now rewrite Hst].
  - destruct (seq_early_elem d p P e HI HP) as (E & HE & _ & _ & Hst & _).
    { unfold seq_early. now rewrite Hpc. }
    exists E. split; [exact HE | now rewrite Hst].
  - destruct (seq_assigned_elem d p P e HI HP) as (E & HE & _ & _ & Hst & _).
    { unfold seq_assigned. now rewrite Hpc. }
    exists E. split; [exact HE | now rewrite Hst].
Qed.

Lemma seq_Late p ch now env d d' :
  Inv d -> Late d -> seq_step p ch now env d = Some d' -> Late d'.
Proof.
  intros HI HL Hs. unfold seq_step in Hs.
  destruct (peers d !! p) as [P|] eqn:HP; [|discriminate].
  cbn [mbind option_bind] in Hs.
  destruct (seq_pc P) as [|e|e| |e pc|e pc|] eqn:Hpc; [| | | | | |discriminate].
  - (* NextPacket *)
    destruct ch; try discriminate.
    + step_cases Hs; injection Hs as <-.
      eapply Late_put_peer_same; [exact HL | exact HP | try reflexivity..].
      unfold seq_out. cbn. now rewrite Hpc.
    + destruct (queue_nonce P) as [|e q] eqn:Hq; [discriminate|].
      destruct (nonce_queue_elem d p P e HI HP) as (E & HE & Hearly).
      { rewrite Hq. left. }
      rewrite HE in Hs. cbn [mbind option_bind] in Hs. injection Hs as <-.
      eapply Late_put_elem_early; [|cbn; exact HE | exact Hearly].
      eapply Late_put_peer_same; [exact HL | exact HP | try reflexivity..].
      unfold seq_out. cbn. now rewrite Hpc.
  - (* the key loop *)
    destruct (seq_held_early d p P e HI HP (or_introl Hpc)) as (E & HE & Hearly).
    rewrite HE in Hs. cbn [mbind option_bind] in Hs.
    assert (Hawait : Late (put_peer p
              (set_seq_pc (SeqAwait e)
                 (set_timers (SendHandshakeInitiation false env (timers P)).1
                    (set_newKeypairArrived false (set_awaitingKey true P)))) d)).
    { eapply Late_put_peer_same; [exact HL | exact HP | try reflexivity..].
      unfold seq_out. cbn. now rewrite Hpc. }
    destruct (keyPairs_current P) as [k|]; cbn [mbind option_bind] in Hs;
      [|injection Hs as <-; exact Hawait].
    destruct (keypairs d !! k) as [K|]; cbn [mbind option_bind] in Hs;
      [|injection Hs as <-; exact Hawait].
    destruct (usable K now); [|injection Hs as <-; exact Hawait].
    destruct (fetch_nonce K) as [K' n]. unfold seq_submit in Hs.
    step_cases Hs; injection Hs as <-.
    + eapply Late_put_elem_early; [|cbn; exact HE | exact Hearly].
      eapply Late_put_peer_same; [|cbn; exact HP | try reflexivity..].
      * now apply Late_set_keypairs.
      * unfold seq_out. cbn. now rewrite Hpc.
    + eapply Late_put_elem_early; [|cbn; exact HE | exact Hearly].
      eapply Late_put_peer_same; [|cbn; exact HP | try reflexivity..].
      * now apply Late_set_keypairs.
      * unfold seq_out. cbn. now rewrite Hpc.
  - (* waiting for a key *)
    destruct (seq_held_early d p P e HI HP (or_intror (or_introl Hpc))) as (E & HE & Hearly).
    destruct ch; try discriminate.
    + step_cases Hs; injection Hs as <-.
      eapply Late_put_peer_same; [exact HL | exact HP | try reflexivity..].
      unfold seq_out. cbn. now rewrite Hpc.
    + step_cases Hs; injection Hs as <-.
      eapply Late_put_peer_same; [exact HL | exact HP | try reflexivity..].
      unfold seq_out. cbn. now rewrite Hpc.
    + rewrite HE in Hs. cbn [mbind option_bind] in Hs.
      step_cases Hs; injection Hs as <-.
      eapply Late_put_elem_early; [|cbn; exact HE | exact Hearly].
      eapply Late_put_peer_same; [exact HL | exact HP | try reflexivity..].
      unfold seq_out. cbn. now rewrite Hpc.
  - (* the drain *)
    destruct (queue_nonce P) as [|old q] eqn:Hq.
    + injection Hs as <-.
      eapply Late_put_peer_same; [exact HL | exact HP | try reflexivity..].
      unfold seq_out. cbn. now rewrite Hpc.
    + destruct (nonce_queue_elem d p P old HI HP) as (X & HX & Hearly).
      { rewrite Hq. left. }
      rewrite HX in Hs. cbn [mbind option_bind] in Hs. injection Hs as <-.
      eapply Late_put_elem_early; [|cbn; exact HX | exact Hearly].
      eapply Late_put_peer_same; [exact HL | exact HP | try reflexivity..].
  - (* addToEncryptionQueue *)
    destruct pc.
    + destruct (seq_held_early d p P e HI HP
                  (or_intror (or_intror (ex_intro _ AtPush Hpc)))) as (E & HE & Hearly).
      rewrite HE in Hs. cbn [mbind option_bind] in Hs.
      case_decide as Hroom; injection Hs as <-.
      * apply Late_set_queue_encryption.
        eapply (Late_peer (put_elem e (set_stage InEnc E) d));
          [eapply Late_put_elem_early; eauto | reflexivity.. | |].
        -- intros x Hin. unfold late_part, seq_out, snd_held in Hin. cbn in Hin.
           apply elem_of_app in Hin as [Hin|Hin];
             [|apply elem_of_app in Hin as [Hin|Hin]].
           ++ left. exists P. split; [exact HP|]. unfold late_part, snd_held. set_solver.
           ++ left. exists P. split; [exact HP|]. unfold late_part. set_solver.
           ++ right. apply list_elem_of_singleton in Hin as ->.
              exists (set_stage InEnc E). cbn. rewrite lookup_insert_eq.
              split; [reflexivity|]. split; [reflexivity | discriminate].
        -- intros x Hin. left. exists P. split; [exact HP | exact Hin].
      * eapply Late_put_peer_same; [exact HL | exact HP | try reflexivity..].
        unfold seq_out. cbn. now rewrite Hpc.
    + destruct (queue_encryption d) as [|old q] eqn:Hq.
      * injection Hs as <-.
        eapply Late_put_peer_same; [exact HL | exact HP | try reflexivity..].
        unfold seq_out. cbn. now rewrite Hpc.
      * pose proof (inv_enc d HI) as Henc. rewrite Hq in Henc.
        destruct (proj2 Henc old ltac:(left)) as (X & HX & HstX).
        rewrite HX in Hs. cbn [mbind option_bind] in Hs.
        destruct (mutex X); [|discriminate]. injection Hs as <-.
        apply Late_set_queue_encryption.
        eapply Late_put_elem; [|cbn; exact HX | |].
        -- eapply Late_put_peer_same; [exact HL | exact HP | try reflexivity..].
           unfold seq_out. cbn. now rewrite Hpc.
        -- intros _. split; [reflexivity | intros _; now left].
        -- intros [Hf _]. congruence.
  - (* addToOutboundQueue *)
    destruct pc.
    + case_decide as Hroom; injection Hs as <-.
      * eapply Late_peer; [exact HL | reflexivity.. | |].
        -- intros x Hin. left. exists P. split; [exact HP|].
           unfold late_part, seq_out, snd_held in *. cbn in Hin. rewrite Hpc. set_solver.
        -- intros x Hin. left. exists P. split; [exact HP | exact Hin].
      * eapply Late_put_peer_same; [exact HL | exact HP | try reflexivity..].
        unfold seq_out. cbn. now rewrite Hpc.
    + destruct (queue_outbound P) as [|old q] eqn:Hq.
      * injection Hs as <-.
        eapply Late_put_peer_same; [exact HL | exact HP | try reflexivity..].
        unfold seq_out. cbn. now rewrite Hpc.
      * destruct (elems d !! old) as [X|] eqn:HX; [|discriminate].
        cbn [mbind option_bind] in Hs. injection Hs as <-.
        eapply Late_put_elem; [|cbn; exact HX | |].
        -- eapply Late_peer; [exact HL | reflexivity.. | |].
           ++ intros x Hin. left. exists P. split; [exact HP|].
              unfold late_part, seq_out, snd_held in *. cbn in Hin.
              rewrite Hpc, Hq. set_solver.
           ++ intros x Hin. left. exists P. split; [exact HP | exact Hin].
        -- apply late_ok_fields; reflexivity.
        -- apply sent_ok_fields; try reflexivity; intros Hf; exact Hf.
Qed.

Lemma worker_pop_Late w d d' :
  Inv d -> Late d -> worker_pop w d = Some d' -> Late d'.
Proof.
  intros HI HL Hs. unfold worker_pop in Hs.
  destruct (workers d !! w) as [W|]; [|discriminate]. cbn [mbind option_bind] in Hs.
  destruct (w_elem W); [discriminate|].
  destruct (queue_encryption d) as [|e q] eqn:Hq; [discriminate|].
  pose proof (inv_enc d HI) as Henc. rewrite Hq in Henc.
  destruct (proj2 Henc e ltac:(left)) as (E & HE & HstE).
  rewrite HE in Hs. cbn [mbind option_bind] in Hs. unfold IsDropped in Hs.
  destruct (dropped E) eqn:Hdrop; injection Hs as <-.
  - apply Late_set_queue_encryption. eapply Late_put_elem; [exact HL | exact HE | |].
    + intros _. split; [reflexivity | intros _; now left].
    + intros [Hf _]. congruence.
  - apply Late_set_workers. apply Late_set_queue_encryption.
    eapply Late_put_elem; [exact HL | exact HE | |].
    + intros _. split; [reflexivity | discriminate].
    + intros [Hf _]. congruence.
Qed.

Lemma worker_seal_Late w d d' :
  Inv d -> Late d -> worker_seal w d = Some d' -> Late d'.
Proof.
  intros HI HL Hs. unfold worker_seal in Hs.
  destruct (workers d !! w) as [W|] eqn:HW; [|discriminate]. cbn [mbind option_bind] in Hs.
  destruct (w_elem W) as [e|] eqn:Hhold; [|discriminate]. cbn [mbind option_bind] in Hs.
  destruct (inv_work d HI w W e HW Hhold) as (E & HE & HstE).
  rewrite HE in Hs. cbn [mbind option_bind] in Hs.
  destruct (keyPair E) as [k|] eqn:Hk; [|discriminate]. cbn [mbind option_bind] in Hs.
  destruct (keypairs d !! k) as [K|]; [|discriminate]. cbn [mbind option_bind] in Hs.
  destruct (mutex E); [|discriminate].
  destruct (encrypt_element_shape (tun_mtu d) K (w_nonce W) E) as (buf & pkt & Hshape).
  destruct (encrypt_element (tun_mtu d) K (w_nonce W) E) as [wn E'].
  cbn in Hshape. subst E'. injection Hs as <-.
  pose proof (inv_elems d HI e E HE) as (_ & _ & Hun & _).
  assert (Hu : unlocks E = 0%nat) by (apply Hun; congruence).
  eapply Late_update; [exact HL | exact HE | reflexivity | reflexivity | | |].
  - intros y Hy. cbn. now right.
  - intros _. split; [reflexivity|]. intros _. right. split.
    + exists k. split; [exact Hk | cbn; left].
    + cbn. now rewrite Hu.
  - intros [Hf _]. congruence.
Qed.

Lemma snd_Late p ch res now env d d' :
  Inv d -> Late d -> snd_step p ch res now env d = Some d' -> Late d'.
Proof.
  intros HI HL Hs. unfold snd_step in Hs.
  destruct (peers d !! p) as [P|] eqn:HP; [|discriminate].
  cbn [mbind option_bind] in Hs.
  destruct (snd_pc P) as [|e|] eqn:Hpc; [| |discriminate].
  - destruct ch; try discriminate.
    + step_cases Hs; injection Hs as <-.
      eapply Late_peer; [exact HL | reflexivity.. | |].
      * intros x Hin. left. exists P. split; [exact HP|].
        unfold late_part, snd_held in *. cbn in Hin. rewrite Hpc. exact Hin.
      * intros x Hin. left. exists P. split; [exact HP | exact Hin].
    + destruct (queue_outbound P) as [|e q] eqn:Hq; [discriminate|]. injection Hs as <-.
      eapply Late_peer; [exact HL | reflexivity.. | |].
      * intros x Hin. left. exists P. split; [exact HP|].
        unfold late_part, snd_held in *. cbn in Hin. rewrite Hpc, Hq. cbn. exact Hin.
      * intros x Hin. left. exists P. split; [exact HP | exact Hin].
  - destruct (late_elems d HL p P e HP) as (E & HE & Hlate).
    { unfold late_part, snd_held. rewrite Hpc. left. }
    rewrite HE in Hs. cbn [mbind option_bind] in Hs.
    destruct (mutex E) eqn:Hmx; [discriminate|].
    assert (Hret : returned E = 0%nat).
    { destruct (peer_elem d p P e HI HP) as (E0 & HE0 & _ & _ & Hel).
      { unfold chain, snd_held. rewrite Hpc. set_solver. }
      destruct Hel as (E1 & HE1 & _ & _ & _ & _ & Hr).
      assert (E1 = E) by congruence. subst E1. apply Hr.
      unfold unsent, snd_held. rewrite Hpc. left. }
    assert (Hdrop_part : forall P',
              snd_pc P' = SndNext -> queue_outbound P' = queue_outbound P ->
              seq_out P' = seq_out P ->
              forall x, x ∈ late_part P' ->
                (exists P0, peers d !! p = Some P0 /\ x ∈ late_part P0)).
    { intros P' H1 H2 H3 x Hin. exists P. split; [exact HP|].
      unfold late_part, snd_held in *. rewrite H1, H2, H3 in Hin. rewrite Hpc.
      cbn in Hin. right. exact Hin. }
    unfold IsDropped in Hs. cbn [dropped Lock] in Hs.
    destruct (dropped E) eqn:Hdrop.
    + injection Hs as <-.
      eapply Late_put_elem; [|cbn; exact HE | |].
      * eapply Late_peer; [exact HL | reflexivity.. | |].
        -- intros x Hin. left. eapply Hdrop_part; [ .. | exact Hin]; reflexivity.
        -- intros x Hin. left. exists P. split; [exact HP | exact Hin].
      * apply late_ok_fields; try reflexivity. intros Hd; exact Hd.
      * intros (_ & _ & _ & _ & Hm). congruence.
    + (* the element is sent: it was sealed *)
      destruct Hlate as [Hearly Hfin].
      pose proof (inv_elems d HI e E HE) as (_ & _ & _ & Hlive & _).
      assert (HstE : stage E = Finished).
      { destruct (stage E) eqn:Hst; try discriminate; try reflexivity;
          specialize (Hlive eq_refl); congruence. }
      destruct (Hfin HstE) as [Hd|[Hsealed Hun]]; [congruence|].
      assert (Hsent : sent_ok (sealed d) (PutMessageBuffer (Lock E))).
      { split; [exact HstE|]. split; [exact Hsealed|].
        split; [exact Hun|]. split; [cbn; now rewrite Hret | reflexivity]. }
      assert (Hd1 : Late (put_elem e (PutMessageBuffer (Lock E)) d)).
      { eapply Late_put_elem; [exact HL | exact HE | |].
        - intros _. split; [exact Hearly|]. intros _. right. split; assumption.
        - intros (_ & _ & _ & Hr & _). congruence. }
      assert (Hlog : forall P' ok,
                sendLog P' = sendLog P ++ [(e, ok)] ->
                forall x, x ∈ (sendLog P').*1 ->
                  (exists P0, peers (put_elem e (PutMessageBuffer (Lock E)) d) !! p = Some P0
                              /\ x ∈ (sendLog P0).*1)
                  \/ (exists E0, elems (put_elem e (PutMessageBuffer (Lock E)) d) !! x = Some E0
                                 /\ sent_ok (sealed (put_elem e (PutMessageBuffer (Lock E)) d)) E0)).
      { intros P' ok Hl x Hin. rewrite Hl, fmap_app in Hin.
        apply elem_of_app in Hin as [Hin|Hin].
        - left. exists P. split; [exact HP | exact Hin].
        - right. cbn in Hin. apply list_elem_of_singleton in Hin as ->.
          exists (PutMessageBuffer (Lock E)). cbn. rewrite lookup_insert_eq.
          split; [reflexivity | exact Hsent]. }
      destruct res as [err|]; injection Hs as <-.
      * eapply (Late_peer (put_elem e (PutMessageBuffer (Lock E)) d));
          [exact Hd1 | reflexivity.. | |].
        -- intros x Hin. left. eapply Hdrop_part; [ .. | exact Hin]; reflexivity.
        -- eapply Hlog. reflexivity.
      * eapply (Late_peer (put_elem e (PutMessageBuffer (Lock E)) d));
          [exact Hd1 | reflexivity.. | |].
        -- intros x Hin. left. eapply Hdrop_part; [ .. | exact Hin]; reflexivity.
        -- eapply Hlog. reflexivity.
Qed.

Lemma env_Late l d d' :
  match l with
  | LNewPeer _ | LSpawnWorker _ | LNewKeypair _ _ _ | LClearKeypair _
  | LFlush _ | LStop _ | LSetMTU _ => True
  | _ => False
  end ->
  Late d -> step l d = Some d' -> Late d'.
Proof.
  intros Hl HL Hs. destruct l; try contradiction; cbn in Hs.
  - unfold env_new_peer in Hs. step_cases Hs; injection Hs as <-.
    eapply Late_peer; [exact HL | reflexivity..| |]; cbn; intros e Hin; set_solver.
  - unfold env_spawn_worker in Hs. step_cases Hs; injection Hs as <-.
    eapply Late_same; [exact HL | reflexivity..].
  - unfold env_new_keypair in Hs. step_cases Hs; injection Hs as <-.
    eapply Late_peer_same; [exact HL | eassumption | reflexivity..].
  - unfold env_clear_keypair in Hs. step_cases Hs; injection Hs as <-.
    eapply Late_peer_same; [exact HL | eassumption | reflexivity..].
  - unfold FlushNonceQueue in Hs. step_cases Hs; injection Hs as <-.
    eapply Late_peer_same; [exact HL | eassumption | reflexivity..].
  - unfold env_stop in Hs. step_cases Hs; injection Hs as <-.
    eapply Late_peer_same; [exact HL | eassumption | reflexivity..].
  - injection Hs as <-. eapply Late_same; [exact HL | reflexivity..].
Qed.

Lemma step_Late l d d' : Inv d -> Late d -> step l d = Some d' -> Late d'.
Proof.
  intros HI HL Hs. destruct l;
    try (eapply env_Late; [|exact HL|exact Hs]; exact I);
    try (eapply tun_Late; [|exact HI|exact HL|exact Hs]; exact I); cbn in Hs.
  - eapply seq_Late; eauto.
  - eapply worker_pop_Late; eauto.
  - eapply worker_seal_Late; eauto.
  - eapply snd_Late; eauto.
Qed.

Lemma initial_Late mtu : Late (initial_device mtu).
Proof.
  constructor; intros p P e HP; cbn in HP; rewrite lookup_empty in HP; discriminate.
Qed.

Lemma reachable_Late d : reachable d -> Late d.
Proof.
  induction 1 as [mtu|l d d' Hr IH Hs]; [apply initial_Late|].
  eapply step_Late; [apply reachable_Inv; exact Hr | exact IH | exact Hs].
Qed.

(** Every element the sender gave to [SendBuffer] had been sealed by a
    worker: [Seal] was called under its key pair with its nonce, its mutex
    was unlocked once, by that worker, and its buffer went back to the pool
    once.  No element reaches the endpoint without encryption. *)
Theorem sender_sends_sealed d p P e ok :
  reachable d -> peers d !! p = Some P -> (e, ok) ∈ sendLog P ->
  exists E k,
    elems d !! e = Some E /\ keyPair E = Some k /\ (k, nonce E) ∈ sealed d
    /\ unlocks E = 1%nat /\ returned E = 1%nat.
Proof.
  intros Hr HP Hin.
  destruct (late_sent d (reachable_Late d Hr) p P e HP) as (E & HE & Hsent).
  { apply list_elem_of_fmap. exists (e, ok). split; [reflexivity | exact Hin]. }
  destruct Hsent as (_ & (k & Hk & Hs) & Hu & Hret & _).
  exists E, k. repeat split; assumption.
Qed.

End Late.

Lemma sender_sends_sealed_witness :
  exists d P E,
    @run sample_constants schedule_two_sent (@initial_device sample_constants 64) = Some d
    /\ peers d !! 0%nat = Some P
    /\ sendLog P = [(0%nat, true); (1%nat, true)]
    /\ elems d !! 1%nat = Some E
    /\ (0%nat, nonce E) ∈ sealed d.
Proof.
  destruct (@run sample_constants schedule_two_sent (@initial_device sample_constants 64))
    as [d|] eqn:Hrun; [|vm_compute in Hrun; discriminate].
  assert (Hr : @reachable sample_constants d).
  { eapply OrderFacts.run_reachable; [apply reachable_init | exact Hrun]. }
  destruct (peers d !! 0%nat) as [P|] eqn:HP.
  - assert (Hin : (1%nat, true) ∈ sendLog P).
    { vm_compute in Hrun. injection Hrun as <-. vm_compute in HP. injection HP as <-.
      right. left. }
    destruct (@sender_sends_sealed sample_constants d 0%nat P 1%nat true Hr HP Hin)
      as (E & k & HE & Hk & Hs & _).
    exists d, P, E. split; [reflexivity|]. split; [exact HP|].
    assert (k = 0%nat) as ->.
    { vm_compute in Hrun. injection Hrun as <-. vm_compute in HE. injection HE as <-.
      vm_compute in Hk. now injection Hk as <-. }
    split; [|split; [exact HE | exact Hs]].
    vm_compute in Hrun. injection Hrun as <-. vm_compute in HP. now injection HP as <-.
  - exfalso. vm_compute in Hrun. injection Hrun as <-. vm_compute in HP. discriminate.
Defined.

End LateFacts.

(** ** Every step keeps the elements ready and the queues in bounds *)

Module ReadySteps.
Import Wire WireFacts Send EncryptFacts PipelineFacts PipelineSteps PipelineSteps2.
Import ReadyFacts LateFacts.

Section Steps.
Context `{Constants}.

Lemma Ready_put_elem d x X' : Ready d -> elem_ready X' -> Ready (put_elem x X' d).
Proof.
  intros [He Hw Hp Hq] HX. constructor; try assumption.
  cbn. apply map_Forall_insert_2; assumption.
Qed.

Lemma Ready_put_peer d p P' : Ready d -> peer_bounded P' -> Ready (put_peer p P' d).
Proof.
  intros [He Hw Hp Hq] HP. constructor; try assumption.
  cbn. apply map_Forall_insert_2; assumption.
Qed.

Lemma Ready_set_tun d v : Ready d -> Ready (set_tun v d).
Proof. intros [He Hw Hp Hq]. constructor; assumption. Qed.
Lemma Ready_set_tun_mtu d v : Ready d -> Ready (set_tun_mtu v d).
Proof. intros [He Hw Hp Hq]. constructor; assumption. Qed.
Lemma Ready_set_keepalives d v : Ready d -> Ready (set_keepalives v d).
Proof. intros [He Hw Hp Hq]. constructor; assumption. Qed.
Lemma Ready_set_keypairs d v : Ready d -> Ready (set_keypairs v d).
Proof. intros [He Hw Hp Hq]. constructor; assumption. Qed.
Lemma Ready_set_sealed d v : Ready d -> Ready (set_sealed v d).
Proof. intros [He Hw Hp Hq]. constructor; assumption. Qed.

Lemma Ready_set_queue_encryption d q :
  Ready d -> (length q <= QueueEncryptionSize)%nat -> Ready (set_queue_encryption q d).
Proof. intros [He Hw Hp Hq] Hlen. constructor; assumption. Qed.

Lemma Ready_set_workers d0 d w W' :
  Ready d0 -> workers d0 = workers d -> Ready d -> worker_nonce_ok (w_nonce W') ->
  Ready (set_workers (<[w := W']> (workers d)) d0).
Proof.
  intros [He Hw Hp Hq] Heq HR HW. constructor; try assumption.
  cbn. apply map_Forall_insert_2; [exact HW | exact (ready_workers d HR)].
Qed.

(** A peer whose queues did not grow. *)
Lemma peer_bounded_le P P' :
  (length (queue_nonce P') <= length (queue_nonce P))%nat ->
  (length (queue_outbound P') <= length (queue_outbound P))%nat ->
  peer_bounded P -> peer_bounded P'.
Proof. intros H1 H2 [H3 H4]. split; lia. Qed.

Lemma nonce_queue_stage d p P e :
  Inv d -> peers d !! p = Some P -> e ∈ queue_nonce P ->
  exists E, elems d !! e = Some E /\ stage E = InNonce.
Proof.
  intros HI HP Hin.
  destruct (peer_elem d p P e HI HP) as (E & HE & _ & _ & Hel).
  { unfold chain. set_solver. }
  destruct Hel as (E0 & HE0 & _ & Hq & _). exists E0. split; [exact HE0 | exact (Hq Hin)].
Qed.

Section Sized.
Hypothesis Hsize : (MessageTransportHeaderSize <= MaxMessageSize)%nat.

Lemma env_Ready l d d' :
  match l with
  | LNewPeer _ | LSpawnWorker _ | LNewKeypair _ _ _ | LClearKeypair _
  | LFlush _ | LStop _ | LSetMTU _ => True
  | _ => False
  end ->
  Ready d -> step l d = Some d' -> Ready d'.
Proof.
  intros Hl HR Hs. destruct l; try contradiction; cbn in Hs.
  - unfold env_new_peer in Hs. step_cases Hs; injection Hs as <-.
    apply Ready_put_peer; [exact HR|]. split; cbn; lia.
  - unfold env_spawn_worker in Hs. step_cases Hs; injection Hs as <-.
    apply Ready_set_workers; [exact HR | reflexivity | exact HR |]. split; reflexivity.
  - unfold env_new_keypair in Hs. step_cases Hs; injection Hs as <-.
    apply Ready_set_keypairs. apply Ready_put_peer; [exact HR|].
    eapply peer_bounded_le; [| |eapply (ready_peers d HR); eassumption]; reflexivity.
  - unfold env_clear_keypair in Hs. step_cases Hs; injection Hs as <-.
    apply Ready_put_peer; [exact HR|].
    eapply peer_bounded_le; [| |eapply (ready_peers d HR); eassumption]; reflexivity.
  - unfold FlushNonceQueue in Hs. step_cases Hs; injection Hs as <-.
    apply Ready_put_peer; [exact HR|].
    eapply peer_bounded_le; [| |eapply (ready_peers d HR); eassumption]; reflexivity.
  - unfold env_stop in Hs. step_cases Hs; injection Hs as <-.
    apply Ready_put_peer; [exact HR|].
    eapply peer_bounded_le; [| |eapply (ready_peers d HR); eassumption]; reflexivity.
  - injection Hs as <-. now apply Ready_set_tun_mtu.
Qed.

Lemma tun_Ready l d d' :
  match l with
  | LTunBegin _ _ | LTunRead _ _ | LTunReadError | LTunAdd _ _
  | LKeepaliveMake _ _ _ | LKeepaliveSend _ _ => True
  | _ => False
  end ->
  Inv d -> Ready d -> step l d = Some d' -> Ready d'.
Proof.
  intros Hl HI HR Hs. destruct l; try contradiction; cbn in Hs.
  - unfold tun_begin in Hs. step_cases Hs; injection Hs as <-.
    apply Ready_set_tun. apply Ready_put_elem; [exact HR|].
    apply elem_ready_new. match goal with Hc : _ /\ _ |- _ => destruct Hc as [_ ->] end.
    exact Hsize.
  - unfold tun_read in Hs. destruct (tun d) as [|e| |] eqn:Ht; try discriminate.
    destruct (tun_elem_fresh d e HI (or_introl Ht)) as (E & HE & Hst).
    rewrite HE in Hs. cbn [mbind option_bind] in Hs.
    pose proof (ready_elems d HR e E HE) as HrE.
    assert (Hdiscard : elem_ready (set_data (write_at MessageTransportHeaderSize pkt (buffer E))
                                     (packet E) E)).
    { eapply elem_ready_keep; [| | | |exact HrE]; cbn; auto using write_at_length. }
    case_decide as Hsz; [injection Hs as <-; now apply Ready_put_elem|].
    case_decide as Hfit; [|discriminate].
    assert (Haccept : elem_ready (set_data (write_at MessageTransportHeaderSize pkt (buffer E))
                                    (SliceBuf MessageTransportHeaderSize (length pkt)) E)).
    { split.
      - intros _. split; cbn; [lia | split; [reflexivity | exact Hfit]].
      - cbn. exact (proj2 HrE). }
    step_cases Hs; injection Hs as <-;
      first [ now apply Ready_put_elem
            | apply Ready_set_tun; apply Ready_put_peer;
              [ now apply Ready_put_elem
              | eapply peer_bounded_le; [| |eapply (ready_peers d HR); eassumption];
                reflexivity ] ].
  - unfold tun_read_error in Hs. step_cases Hs; injection Hs as <-.
    now apply Ready_set_tun.
  - unfold tun_add in Hs. destruct (tun d) as [| |p x pc|] eqn:Ht; try discriminate.
    destruct (tun_elem_fresh d x HI (or_intror (ex_intro _ p (ex_intro _ pc Ht))))
      as (E & HE & Hst).
    pose proof (ready_elems d HR x E HE) as HrE.
    destruct (peers d !! p) as [P|] eqn:HP; [|destruct pc; discriminate].
    pose proof (ready_peers d HR p P HP) as [HbN HbO].
    destruct pc; cbn [mbind option_bind] in Hs.
    + rewrite HE in Hs. cbn [mbind option_bind] in Hs.
      case_decide as Hroom; [|injection Hs as <-; now apply Ready_set_tun].
      case_decide as Hnew; [|discriminate]. injection Hs as <-.
      apply Ready_set_tun. apply Ready_put_elem; [apply Ready_put_elem; [apply Ready_put_peer|]|].
      * exact HR.
      * split; cbn; [rewrite length_app; cbn; lia | exact HbO].
      * eapply elem_ready_keep; [| | | |exact HrE]; cbn; auto.
        intros _. now rewrite Hst.
      * apply elem_ready_new. destruct Hnew as [_ ->]. exact Hsize.
    + destruct (queue_nonce P) as [|old q] eqn:Hq.
      * injection Hs as <-. now apply Ready_set_tun.
      * destruct (elems d !! old) as [X|] eqn:HX; [|discriminate].
        cbn [mbind option_bind] in Hs. injection Hs as <-.
        apply Ready_set_tun. apply Ready_put_elem; [apply Ready_put_peer|].
        -- exact HR.
        -- split; cbn; [cbn in HbN; lia | exact HbO].
        -- eapply elem_ready_keep; [| | | |exact (ready_elems d HR old X HX)];
             cbn; auto. discriminate.
  - unfold keepalive_make in Hs. step_cases Hs; injection Hs as <-;
      first [ exact HR | apply Ready_set_keepalives; apply Ready_put_elem; [exact HR|] ].
    split; [|reflexivity]. intros _. split; [|exact I]. cbn.
    match goal with Hc : _ /\ _ |- _ => destruct Hc as [_ ->] end. exact Hsize.
  - unfold keepalive_send in Hs. case_decide as Hin; [|discriminate].
    destruct (inv_ka d HI _ _ Hin) as (E & HE & Hst).
    pose proof (ready_elems d HR e E HE) as HrE.
    destruct (peers d !! p) as [P|] eqn:HP; [|discriminate].
    pose proof (ready_peers d HR p P HP) as [HbN HbO].
    cbn [mbind option_bind] in Hs. rewrite HE in Hs. cbn [mbind option_bind] in Hs.
    case_decide as Hroom; injection Hs as <-.
    + apply Ready_put_elem; [apply Ready_put_peer; [now apply Ready_set_keepalives|]|].
      * split; cbn; [rewrite length_app; cbn; lia | exact HbO].
      * eapply elem_ready_keep; [| | | |exact HrE]; cbn; auto.
        intros _. now rewrite Hst.
    + apply Ready_put_elem; [now apply Ready_set_keepalives|].
      eapply elem_ready_keep; [| | | |exact HrE]; cbn; auto. discriminate.
Qed.

Lemma seq_Ready p ch now env d d' :
  Inv d -> Ready d -> seq_step p ch now env d = Some d' -> Ready d'.
Proof.
  intros HI HR Hs. unfold seq_step in Hs.
  destruct (peers d !! p) as [P|] eqn:HP; [|discriminate].
  cbn [mbind option_bind] in Hs.
  pose proof (ready_peers d HR p P HP) as HbP.
  assert (Hsame : forall P',
            queue_nonce P' = queue_nonce P -> queue_outbound P' = queue_outbound P ->
            forall d0, Ready d0 -> Ready (put_peer p P' d0)).
  { intros P' H1 H2 d0 Hd0. apply Ready_put_peer; [exact Hd0|].
    eapply peer_bounded_le; [| |exact HbP]; [rewrite H1|rewrite H2]; lia. }
  destruct (seq_pc P) as [|e|e| |e pc|e pc|] eqn:Hpc; [| | | | | |discriminate].
  - destruct ch; try discriminate.
    + step_cases Hs; injection Hs as <-. now apply Hsame.
    + destruct (queue_nonce P) as [|e q] eqn:Hq; [discriminate|].
      destruct (nonce_queue_stage d p P e HI HP) as (E & HE & Hst).
      { rewrite Hq. left. }
      rewrite HE in Hs. cbn [mbind option_bind] in Hs. injection Hs as <-.
      apply Ready_put_elem; [apply Ready_put_peer; [exact HR|]|].
      * destruct HbP as [HbN HbO]. rewrite Hq in HbN. split; cbn in *; lia.
      * eapply elem_ready_keep; [| | | |exact (ready_elems d HR e E HE)]; cbn; auto.
        intros _. now rewrite Hst.
  - destruct (seq_early_elem d p P e HI HP) as (E & HE & _ & _ & Hst & _).
    { unfold seq_early. now rewrite Hpc. }
    rewrite HE in Hs. cbn [mbind option_bind] in Hs.
    pose proof (ready_elems d HR e E HE) as HrE.
    assert (Hawait : Ready (put_peer p
              (set_seq_pc (SeqAwait e)
                 (set_timers (SendHandshakeInitiation false env (timers P)).1
                    (set_newKeypairArrived false (set_awaitingKey true P)))) d)).
    { now apply Hsame. }
    destruct (keyPairs_current P) as [k|]; cbn [mbind option_bind] in Hs;
      [|injection Hs as <-; exact Hawait].
    destruct (keypairs d !! k) as [K|]; cbn [mbind option_bind] in Hs;
      [|injection Hs as <-; exact Hawait].
    destruct (usable K now); [|injection Hs as <-; exact Hawait].
    destruct (fetch_nonce K) as [K' n]. unfold seq_submit in Hs.
    step_cases Hs; injection Hs as <-.
    + apply Ready_put_elem; [apply Hsame; [reflexivity..|now apply Ready_set_keypairs]|].
      eapply elem_ready_keep; [| | | |exact HrE]; cbn; auto. discriminate.
    + apply Ready_put_elem; [apply Hsame; [reflexivity..|now apply Ready_set_keypairs]|].
      eapply elem_ready_keep; [| | | |exact HrE]; cbn; auto. discriminate.
  - destruct (seq_early_elem d p P e HI HP) as (E & HE & _ & _ & Hst & _).
    { unfold seq_early. now rewrite Hpc. }
    destruct ch; try discriminate.
    + step_cases Hs; injection Hs as <-. now apply Hsame.
    + step_cases Hs; injection Hs as <-. now apply Hsame.
    + rewrite HE in Hs. cbn [mbind option_bind] in Hs.
      step_cases Hs; injection Hs as <-.
      apply Ready_put_elem; [now apply Hsame|].
      eapply elem_ready_keep; [| | | |exact (ready_elems d HR e E HE)]; cbn; auto.
      discriminate.
  - destruct (queue_nonce P) as [|old q] eqn:Hq.
    + injection Hs as <-. apply Hsame; [cbn; now rewrite Hq | reflexivity | exact HR].
    + destruct (elems d !! old) as [X|] eqn:HX; [|discriminate].
      cbn [mbind option_bind] in Hs. injection Hs as <-.
      apply Ready_put_elem; [apply Ready_put_peer; [exact HR|]|].
      * destruct HbP as [HbN HbO]. rewrite Hq in HbN. split; cbn in *; lia.
      * eapply elem_ready_keep; [| | | |exact (ready_elems d HR old X HX)]; cbn; auto.
        discriminate.
  - destruct pc.
    + destruct (elems d !! e) as [E|] eqn:HE; [|discriminate].
      cbn [mbind option_bind] in Hs.
      case_decide as Hroom; injection Hs as <-.
      * apply Ready_set_queue_encryption; [|rewrite length_app; cbn; lia].
        apply Ready_put_elem; [now apply Hsame|].
        eapply elem_ready_keep; [| | | |exact (ready_elems d HR e E HE)]; cbn; auto.
        discriminate.
      * now apply Hsame.
    + pose proof (ready_encryption d HR) as Hbq.
      destruct (queue_encryption d) as [|old q] eqn:Hq.
      * injection Hs as <-. now apply Hsame.
      * destruct (elems d !! old) as [X|] eqn:HX; [|discriminate].
        cbn [mbind option_bind] in Hs.
        destruct (mutex X); [|discriminate]. injection Hs as <-.
        apply Ready_set_queue_encryption; [|cbn in Hbq; lia].
        apply Ready_put_elem; [now apply Hsame|].
        eapply elem_ready_keep; [| | | |exact (ready_elems d HR old X HX)]; cbn; auto;
          discriminate.
  - destruct pc.
    + case_decide as Hroom; injection Hs as <-.
      * apply Ready_put_peer; [exact HR|]. destruct HbP as [HbN HbO].
        split; cbn; [exact HbN | rewrite length_app; cbn; lia].
      * now apply Hsame.
    + destruct (queue_outbound P) as [|old q] eqn:Hq.
      * injection Hs as <-. apply Hsame; [reflexivity | cbn; now rewrite Hq | exact HR].
      * destruct (elems d !! old) as [X|] eqn:HX; [|discriminate].
        cbn [mbind option_bind] in Hs. injection Hs as <-.
        apply Ready_put_elem; [apply Ready_put_peer; [exact HR|]|].
        -- destruct HbP as [HbN HbO]. rewrite Hq in HbO. split; cbn in *; lia.
        -- eapply elem_ready_keep; [| | | |exact (ready_elems d HR old X HX)]; cbn; auto.
Qed.

Lemma worker_pop_Ready w d d' : Ready d -> worker_pop w d = Some d' -> Ready d'.
Proof.
  intros HR Hs. unfold worker_pop in Hs.
  destruct (workers d !! w) as [W|] eqn:HW; [|discriminate]. cbn [mbind option_bind] in Hs.
  destruct (w_elem W); [discriminate|].
  pose proof (ready_encryption d HR) as Hbq.
  destruct (queue_encryption d) as [|e q] eqn:Hq; [discriminate|].
  destruct (elems d !! e) as [E|] eqn:HE; [|discriminate].
  cbn [mbind option_bind] in Hs.
  destruct (IsDropped E); injection Hs as <-.
  - apply Ready_set_queue_encryption; [|cbn in Hbq; lia].
    apply Ready_put_elem; [exact HR|].
    eapply elem_ready_keep; [| | | |exact (ready_elems d HR e E HE)]; cbn; auto.
    discriminate.
  - apply Ready_set_workers;
      [|reflexivity | exact HR | exact (ready_workers d HR w W HW)].
    apply Ready_set_queue_encryption; [|cbn in Hbq; lia].
    apply Ready_put_elem; [exact HR|].
    eapply elem_ready_keep; [| | | |exact (ready_elems d HR e E HE)]; cbn; auto.
    discriminate.
Qed.

Lemma worker_seal_Ready w d d' : Ready d -> worker_seal w d = Some d' -> Ready d'.
Proof.
  intros HR Hs. unfold worker_seal in Hs.
  destruct (workers d !! w) as [W|] eqn:HW; [|discriminate]. cbn [mbind option_bind] in Hs.
  destruct (w_elem W) as [e|]; [|discriminate]. cbn [mbind option_bind] in Hs.
  destruct (elems d !! e) as [E|] eqn:HE; [|discriminate]. cbn [mbind option_bind] in Hs.
  destruct (keyPair E) as [k|]; [|discriminate]. cbn [mbind option_bind] in Hs.
  destruct (keypairs d !! k) as [K|]; [|discriminate]. cbn [mbind option_bind] in Hs.
  destruct (mutex E); [|discriminate].
  pose proof (encrypt_element_nonce (tun_mtu d) K (w_nonce W) E) as Hwn.
  pose proof (encrypt_element_unlocks (tun_mtu d) K (w_nonce W) E) as Hun.
  destruct (encrypt_element (tun_mtu d) K (w_nonce W) E) as [wn E'].
  cbn in Hwn, Hun. injection Hs as <-.
  apply Ready_set_sealed. apply Ready_set_workers; [|reflexivity | exact HR |].
  - apply Ready_put_elem; [exact HR|]. split; cbn.
    + rewrite Hun. discriminate.
    + discriminate.
  - cbn. rewrite Hwn. apply worker_nonce_ok_write. exact (ready_workers d HR w W HW).
Qed.

Lemma snd_Ready p ch res now env d d' :
  Late d -> Ready d -> snd_step p ch res now env d = Some d' -> Ready d'.
Proof.
  intros HL HR Hs. unfold snd_step in Hs.
  destruct (peers d !! p) as [P|] eqn:HP; [|discriminate].
  cbn [mbind option_bind] in Hs.
  pose proof (ready_peers d HR p P HP) as HbP.
  assert (Hsame : forall P',
            queue_nonce P' = queue_nonce P -> queue_outbound P' = queue_outbound P ->
            forall d0, Ready d0 -> Ready (put_peer p P' d0)).
  { intros P' H1 H2 d0 Hd0. apply Ready_put_peer; [exact Hd0|].
    eapply peer_bounded_le; [| |exact HbP]; [rewrite H1|rewrite H2]; lia. }
  destruct (snd_pc P) as [|e|] eqn:Hpc; [| |discriminate].
  - destruct ch; try discriminate.
    + step_cases Hs; injection Hs as <-. now apply Hsame.
    + destruct (queue_outbound P) as [|e q] eqn:Hq; [discriminate|]. injection Hs as <-.
      apply Ready_put_peer; [exact HR|].
      destruct HbP as [HbN HbO]. rewrite Hq in HbO. split; cbn in *; lia.
  - destruct (late_elems d HL p P e HP) as (E & HE & [Hearly _]).
    { unfold late_part, snd_held. rewrite Hpc. left. }
    rewrite HE in Hs. cbn [mbind option_bind] in Hs.
    destruct (mutex E) eqn:Hmx; [discriminate|].
    assert (Hun : unassigned (stage E) = false).
    { destruct (stage E); try reflexivity; discriminate. }
    assert (Hlock : forall X', stage X' = stage E -> length (buffer X') = length (buffer E) ->
                      packet X' = packet E -> unlocks X' = unlocks E -> elem_ready X').
    { intros X' H1 H2 H3 H4.
      eapply elem_ready_keep; [exact H2 | exact H3 | | |exact (ready_elems d HR e E HE)].
      - now rewrite H4.
      - rewrite H1, Hun. discriminate. }
    unfold IsDropped in Hs. cbn [dropped Lock] in Hs.
    destruct (dropped E).
    + injection Hs as <-. apply Ready_put_elem; [now apply Hsame|]. now apply Hlock.
    + destruct res; injection Hs as <-.
      * apply Ready_put_elem; [now apply Hsame|]. now apply Hlock.
      * apply Ready_put_elem; [now apply Hsame|]. now apply Hlock.
Qed.

Lemma step_Ready l d d' : Inv d -> Late d -> Ready d -> step l d = Some d' -> Ready d'.
Proof.
  intros HI HL HR Hs. destruct l;
    try (eapply env_Ready; [|exact HR|exact Hs]; exact I);
    try (eapply tun_Ready; [|exact HI|exact HR|exact Hs]; exact I); cbn in Hs.
  - eapply seq_Ready; eauto.
  - eapply worker_pop_Ready; eauto.
  - eapply worker_seal_Ready; eauto.
  - eapply snd_Ready; eauto.
Qed.

Lemma initial_Ready mtu : Ready (initial_device mtu).
Proof.
  constructor; cbn; first [apply Nat.le_0_l | apply map_Forall_empty].
Qed.

Lemma reachable_Ready d : reachable d -> Ready d.
Proof.
  induction 1 as [mtu|l d d' Hr IH Hs]; [apply initial_Ready|].
  eapply step_Ready;
    [apply reachable_Inv; exact Hr | apply reachable_Late; exact Hr | exact IH | exact Hs].
Qed.

End Sized.

End Steps.

End ReadySteps.

(** ** The sequencer and the workers always get through *)

Module ProgressFacts.
Import Wire WireFacts Send EncryptFacts PipelineFacts PipelineSteps PipelineSteps2.
Import NonceFacts NonceSteps ReadyFacts LateFacts ReadySteps.

Section Progress.
Context `{Constants}.
Hypothesis Hreject : RejectAfterMessages < 2 ^ 64.
Hypothesis Hsize : (MessageTransportHeaderSize <= MaxMessageSize)%nat.

(** A worker that has received an element goes through to [Seal] and
    [Unlock]: the element carries a key pair, its mutex is locked, its
    packet is [nil] or the view behind the header that the TUN reader made,
    and the nonce array of the worker has its first four bytes zero. *)
Theorem worker_finds_element_ready d w W e :
  reachable d -> workers d !! w = Some W -> w_elem W = Some e ->
  exists E k K,
    elems d !! e = Some E /\ keyPair E = Some k /\ keypairs d !! k = Some K
    /\ mutex E = true /\ unlocks E = 0%nat
    /\ packet_ok E /\ worker_nonce_ok (w_nonce W)
    /\ is_Some (worker_seal w d).
Proof.
  intros Hr HW Hhold.
  pose proof (reachable_Inv d Hr) as HI.
  pose proof (reachable_NonceInv Hreject d Hr) as HN.
  pose proof (reachable_Ready Hsize d Hr) as HR.
  destruct (inv_work d HI w W e HW Hhold) as (E & HE & Hst).
  pose proof (inv_elems d HI e E HE) as (_ & _ & Hun & Hlive & _).
  assert (Hmx : mutex E = true) by (apply Hlive; now rewrite Hst).
  assert (Hu : unlocks E = 0%nat) by (apply Hun; congruence).
  destruct (ninv_elems _ _ _ HN e E HE) as (k & Hk & (K & HK & _) & _);
    [now rewrite Hst|].
  exists E, k, K. split; [exact HE|]. split; [exact Hk|]. split; [exact HK|].
  split; [exact Hmx|]. split; [exact Hu|].
  split; [exact (proj1 (ready_elems d HR e E HE) Hu)|].
  split; [exact (ready_workers d HR w W HW)|].
  unfold worker_seal. rewrite HW. cbn. rewrite Hhold. cbn. rewrite HE. cbn.
  rewrite Hk. cbn. rewrite HK. cbn. rewrite Hmx.
  destruct (encrypt_element _ _ _ _). eauto.
Qed.

(** With a usable key pair the sequencer assigns the nonce: the element
    gets the value of the counter, which goes up by one, the key pair and
    the peer; its dropped flag is cleared and its mutex, which nobody holds,
    is locked; the sequencer turns to the encryption queue.  The test on
    [RejectAfterMessages] after the fetch never sends it back to
    [NextPacket], and no handshake is started. *)
Theorem sequencer_assigns_nonce d p P e k K ch now env :
  reachable d -> peers d !! p = Some P -> seq_pc P = SeqKey e ->
  keyPairs_current P = Some k -> keypairs d !! k = Some K -> usable K now = true ->
  exists E d' E' K' P',
    elems d !! e = Some E
    /\ seq_step p ch now env d = Some d'
    /\ elems d' !! e = Some E' /\ keypairs d' !! k = Some K' /\ peers d' !! p = Some P'
    /\ nonce E' = sendNonce K /\ sendNonce K' = sendNonce K + 1
    /\ nonce E' < RejectAfterMessages
    /\ keyPair E' = Some k /\ peer E' = Some p
    /\ dropped E' = false /\ mutex E' = true
    /\ packet E' = packet E /\ buffer E' = buffer E
    /\ seq_pc P' = SeqEnc e AtPush
    /\ packetInNonceQueueIsAwaitingKey P' = false
    /\ timers P' = timers P.
Proof.
  intros Hr HP Hpc Hcur HK Hus.
  pose proof (reachable_Inv d Hr) as HI.
  pose proof (reachable_NonceInv Hreject d Hr) as HN.
  pose proof (reachable_Ready Hsize d Hr) as HR.
  destruct (seq_early_elem d p P e HI HP) as (E & HE & _ & _ & Hst & _).
  { unfold seq_early. now rewrite Hpc. }
  pose proof (ninv_range _ _ _ HN k K HK) as Hrange. cbn in Hrange.
  unfold usable in Hus. apply andb_true_iff in Hus as [Hcount Hage].
  apply bool_decide_eq_true in Hcount.
  assert (Hmx : mutex E = false).
  { apply (proj2 (ready_elems d HR e E HE)). now rewrite Hst. }
  unfold seq_step. rewrite HP. cbn [mbind option_bind]. rewrite Hpc, HE.
  cbn [mbind option_bind]. rewrite Hcur. cbn [mbind option_bind]. rewrite HK.
  cbn [mbind option_bind].
  unfold usable. rewrite (bool_decide_eq_true_2 _ Hcount), Hage. cbn [andb].
  rewrite fetch_nonce_spec by lia.
  unfold seq_submit. rewrite decide_False by lia. cbn [mutex set_nonce set_peer].
  rewrite Hmx.
  eexists E, _, _, _, _. split; [reflexivity|]. split; [reflexivity|].
  cbn. rewrite !lookup_insert_eq.
  split; [reflexivity|]. split; [reflexivity|]. split; [reflexivity|].
  cbn. repeat split; try reflexivity. exact Hcount.
Qed.

End Progress.

Lemma worker_finds_element_ready_witness :
  exists d W E,
    @run sample_constants schedule_at_work (@initial_device sample_constants 64) = Some d
    /\ workers d !! 0%nat = Some W /\ w_elem W = Some 0%nat
    /\ elems d !! 0%nat = Some E /\ packet E = SliceBuf 16 20
    /\ is_Some (@worker_seal sample_constants 0 d).
Proof.
  destruct (@run sample_constants schedule_at_work (@initial_device sample_constants 64))
    as [d|] eqn:Hrun; [|vm_compute in Hrun; discriminate].
  assert (Hr : @reachable sample_constants d).
  { eapply OrderFacts.run_reachable; [apply reachable_init | exact Hrun]. }
  destruct (workers d !! 0%nat) as [W|] eqn:HW;
    [|exfalso; vm_compute in Hrun; injection Hrun as <-; vm_compute in HW; discriminate].
  assert (Hhold : w_elem W = Some 0%nat).
  { vm_compute in Hrun. injection Hrun as <-. vm_compute in HW. now injection HW as <-. }
  destruct (@worker_finds_element_ready sample_constants
              ltac:(vm_compute; reflexivity) ltac:(vm_compute; lia) d 0%nat W 0%nat Hr HW Hhold)
    as (E & k & K & HE & _ & _ & _ & _ & _ & _ & Hseal).
  exists d, W, E. split; [reflexivity|]. split; [exact HW|]. split; [exact Hhold|].
  split; [exact HE|]. split; [|exact Hseal].
  vm_compute in Hrun. injection Hrun as <-. vm_compute in HE. now injection HE as <-.
Defined.

Lemma sequencer_assigns_nonce_witness :
  exists d d' E',
    @run sample_constants schedule_at_key (@initial_device sample_constants 64) = Some d
    /\ @seq_step sample_constants 0 ChRecv 1 sample_env d = Some d'
    /\ elems d' !! 0%nat = Some E' /\ nonce E' = 0 /\ mutex E' = true.
Proof.
  destruct (@run sample_constants schedule_at_key (@initial_device sample_constants 64))
    as [d|] eqn:Hrun; [|vm_compute in Hrun; discriminate].
  assert (Hr : @reachable sample_constants d).
  { eapply OrderFacts.run_reachable; [apply reachable_init | exact Hrun]. }
  destruct (peers d !! 0%nat) as [P|] eqn:HP;
    [|exfalso; vm_compute in Hrun; injection Hrun as <-; vm_compute in HP; discriminate].
  assert (HPeq : seq_pc P = SeqKey 0 /\ keyPairs_current P = Some 0%nat).
  { vm_compute in Hrun. injection Hrun as <-. vm_compute in HP. injection HP as <-.
    split; reflexivity. }
  assert (HK : keypairs d !! 0%nat = Some sample_keypair).
  { vm_compute in Hrun. injection Hrun as <-. reflexivity. }
  destruct (@sequencer_assigns_nonce sample_constants
              ltac:(vm_compute; reflexivity) ltac:(vm_compute; lia)
              d 0%nat P 0%nat 0%nat sample_keypair ChRecv 1 sample_env
              Hr HP (proj1 HPeq) (proj2 HPeq) HK eq_refl)
    as (E & d' & E' & K' & P' & _ & Hstep & HE' & _ & _ & Hn & _ & _ & _ & _ & _ & Hm & _).
  exists d, d', E'. split; [reflexivity|]. split; [exact Hstep|].
  split; [exact HE'|]. split; [exact Hn | exact Hm].
Defined.

End ProgressFacts.

(** ** The drop-oldest insertion *)

Module QueueFacts.
Import Wire WireFacts Send EncryptFacts PipelineFacts PipelineSteps PipelineSteps2.
Import NonceFacts NonceSteps ReadyFacts LateFacts ReadySteps.

Section Queues.
Context `{Constants}.
Hypothesis Hsize : (MessageTransportHeaderSize <= MaxMessageSize)%nat.

(** No channel holds more than its capacity. *)
Lemma queues_bounded d p P :
  reachable d -> peers d !! p = Some P ->
  (length (queue_nonce P) <= QueueNonceSize)%nat
  /\ (length (queue_outbound P) <= QueueOutboundSize)%nat
  /\ (length (queue_encryption d) <= QueueEncryptionSize)%nat.
Proof.
  intros Hr HP. pose proof (reachable_Ready Hsize d Hr) as HR.
  destruct (ready_peers d HR p P HP) as [H1 H2].
  split; [exact H1|]. split; [exact H2 | exact (ready_encryption d HR)].
Qed.

(** The steps of the two insertions. *)
Lemma seq_out_push d p P e ch now env :
  peers d !! p = Some P -> seq_pc P = SeqOut e AtPush ->
  (length (queue_outbound P) < QueueOutboundSize)%nat ->
  seq_step p ch now env d
  = Some (put_peer p (to_NextPacket (set_queue_outbound (queue_outbound P ++ [e]) P)) d).
Proof.
  intros HP Hpc Hroom. unfold seq_step. rewrite HP. cbn [mbind option_bind].
  rewrite Hpc. now rewrite decide_True by exact Hroom.
Qed.

Lemma seq_out_full d p P e ch now env :
  peers d !! p = Some P -> seq_pc P = SeqOut e AtPush ->
  ~ (length (queue_outbound P) < QueueOutboundSize)%nat ->
  seq_step p ch now env d = Some (put_peer p (set_seq_pc (SeqOut e AtEvict) P) d).
Proof.
  intros HP Hpc Hfull. unfold seq_step. rewrite HP. cbn [mbind option_bind].
  rewrite Hpc. now rewrite decide_False by exact Hfull.
Qed.

Lemma seq_out_evict d p P e old q X ch now env :
  peers d !! p = Some P -> seq_pc P = SeqOut e AtEvict ->
  queue_outbound P = old :: q -> elems d !! old = Some X ->
  seq_step p ch now env d
  = Some (put_elem old (Drop X)
            (put_peer p (set_seq_pc (SeqOut e AtPush) (set_queue_outbound q P)) d)).
Proof.
  intros HP Hpc Hq HX. unfold seq_step. rewrite HP. cbn [mbind option_bind].
  rewrite Hpc, Hq, HX. reflexivity.
Qed.

Lemma seq_enc_push d p P e E ch now env :
  peers d !! p = Some P -> seq_pc P = SeqEnc e AtPush -> elems d !! e = Some E ->
  (length (queue_encryption d) < QueueEncryptionSize)%nat ->
  seq_step p ch now env d
  = Some (set_queue_encryption (queue_encryption d ++ [e])
            (put_elem e (set_stage InEnc E)
               (put_peer p (set_seq_pc (SeqOut e AtPush) P) d))).
Proof.
  intros HP Hpc HE Hroom. unfold seq_step. rewrite HP. cbn [mbind option_bind].
  rewrite Hpc, HE. cbn [mbind option_bind]. now rewrite decide_True by exact Hroom.
Qed.

Lemma seq_enc_full d p P e E ch now env :
  peers d !! p = Some P -> seq_pc P = SeqEnc e AtPush -> elems d !! e = Some E ->
  ~ (length (queue_encryption d) < QueueEncryptionSize)%nat ->
  seq_step p ch now env d = Some (put_peer p (set_seq_pc (SeqEnc e AtEvict) P) d).
Proof.
  intros HP Hpc HE Hfull. unfold seq_step. rewrite HP. cbn [mbind option_bind].
  rewrite Hpc, HE. cbn [mbind option_bind]. now rewrite decide_False by exact Hfull.
Qed.

Lemma seq_enc_evict d p P e old q X ch now env :
  peers d !! p = Some P -> seq_pc P = SeqEnc e AtEvict ->
  queue_encryption d = old :: q -> elems d !! old = Some X -> mutex X = true ->
  seq_step p ch now env d
  = Some (set_queue_encryption q
            (put_elem old (set_stage Finished (Unlock (Drop X)))
               (put_peer p (set_seq_pc (SeqEnc e AtPush) P) d))).
Proof.
  intros HP Hpc Hq HX Hmx. unfold seq_step. rewrite HP. cbn [mbind option_bind].
  rewrite Hpc, Hq, HX. cbn [mbind option_bind]. now rewrite Hmx.
Qed.

(** [addToOutboundQueue(peer.queue.outbound, elem)] in the sequencer, with
    no other goroutine at the queue meanwhile.  With room in the queue the
    element goes to its end at once.  With the queue full, the sequencer
    takes the oldest element out, sets its dropped flag, and then puts the
    element at the end: three steps in all.  No other element is touched
    and none is lost but the oldest. *)
Theorem addToOutboundQueue_drops_oldest d p P e ch now env :
  (0 < QueueOutboundSize)%nat ->
  reachable d -> peers d !! p = Some P -> seq_pc P = SeqOut e AtPush ->
  let s := LSeq p ch now env in
  (length (queue_outbound P) < QueueOutboundSize)%nat
  /\ (exists d' P',
        run [s] d = Some d' /\ peers d' !! p = Some P'
        /\ queue_outbound P' = queue_outbound P ++ [e]
        /\ seq_pc P' = SeqNext /\ elems d' = elems d)
  \/ length (queue_outbound P) = QueueOutboundSize
  /\ (exists old q X d' P',
        queue_outbound P = old :: q /\ elems d !! old = Some X
        /\ run [s; s; s] d = Some d' /\ peers d' !! p = Some P'
        /\ queue_outbound P' = q ++ [e]
        /\ seq_pc P' = SeqNext /\ elems d' = <[old := Drop X]> (elems d)).
Proof.
  intros Hcap Hr HP Hpc s. subst s.
  destruct (queues_bounded d p P Hr HP) as (_ & Hb & _).
  destruct (decide (length (queue_outbound P) < QueueOutboundSize)%nat) as [Hroom|Hfull].
  - left. split; [exact Hroom|].
    eexists _, _. split.
    { cbn [run step]. rewrite (seq_out_push d p P e) by assumption. reflexivity. }
    cbn. rewrite lookup_insert_eq. repeat split; reflexivity.
  - right. split; [lia|].
    destruct (queue_outbound P) as [|old q] eqn:Hq; [cbn in Hfull; lia|].
    destruct (peer_elem d p P old (reachable_Inv d Hr) HP) as (X & HX & _).
    { unfold chain. rewrite Hq. set_solver. }
    exists old, q, X. eexists _, _. split; [reflexivity|]. split; [exact HX|].
    split.
    { cbn [run step].
      rewrite (seq_out_full d p P e) by (try rewrite Hq; assumption).
      cbn [mbind option_bind].
      erewrite (seq_out_evict _ p _ e old q X);
        [|cbn; apply lookup_insert_eq | reflexivity | cbn; exact Hq | cbn; exact HX].
      cbn [mbind option_bind].
      erewrite (seq_out_push _ p _ e);
        [|cbn; apply lookup_insert_eq | reflexivity | cbn; cbn in Hb; lia].
      reflexivity. }
    cbn. rewrite lookup_insert_eq. split; [reflexivity|]. cbn.
    split; [reflexivity|]. split; reflexivity.
Qed.

(** [addToEncryptionQueue(device.queue.encryption, elem)], with no other
    goroutine at the queue meanwhile.  With room the element goes to the end
    of the queue.  With the queue full, the sequencer takes the oldest
    element out, sets its dropped flag and unlocks its mutex, and then puts
    the element at the end.  Either way the sequencer goes on to
    [addToOutboundQueue] with the same element. *)
Theorem addToEncryptionQueue_drops_oldest d p P e ch now env :
  (0 < QueueEncryptionSize)%nat ->
  reachable d -> peers d !! p = Some P -> seq_pc P = SeqEnc e AtPush ->
  let s := LSeq p ch now env in
  exists E,
    elems d !! e = Some E /\
    ((length (queue_encryption d) < QueueEncryptionSize)%nat
     /\ (exists d' P',
           run [s] d = Some d' /\ peers d' !! p = Some P'
           /\ queue_encryption d' = queue_encryption d ++ [e]
           /\ seq_pc P' = SeqOut e AtPush
           /\ elems d' = <[e := set_stage InEnc E]> (elems d))
     \/ length (queue_encryption d) = QueueEncryptionSize
     /\ (exists old q X d' P',
           queue_encryption d = old :: q /\ elems d !! old = Some X
           /\ old <> e /\ mutex X = true
           /\ run [s; s; s] d = Some d' /\ peers d' !! p = Some P'
           /\ queue_encryption d' = q ++ [e]
           /\ seq_pc P' = SeqOut e AtPush
           /\ elems d' = <[e := set_stage InEnc E]>
                           (<[old := set_stage Finished (Unlock (Drop X))]> (elems d)))).
Proof.
  intros Hcap Hr HP Hpc s. subst s. pose proof (reachable_Inv d Hr) as HI.
  destruct (queues_bounded d p P Hr HP) as (_ & _ & Hb).
  destruct (seq_assigned_elem d p P e HI HP) as (E & HE & _ & _ & HstE & _).
  { unfold seq_assigned. now rewrite Hpc. }
  exists E. split; [exact HE|].
  destruct (decide (length (queue_encryption d) < QueueEncryptionSize)%nat) as [Hroom|Hfull].
  - left. split; [exact Hroom|].
    eexists _, _. split.
    { cbn [run step]. rewrite (seq_enc_push d p P e E) by assumption. reflexivity. }
    cbn. rewrite lookup_insert_eq. repeat split; reflexivity.
  - right. split; [lia|].
    destruct (queue_encryption d) as [|old q] eqn:Hq; [cbn in Hfull; lia|].
    pose proof (inv_enc d HI) as Henc. rewrite Hq in Henc.
    destruct (proj2 Henc old ltac:(left)) as (X & HX & HstX).
    assert (Hne : old <> e) by (intros ->; congruence).
    pose proof (inv_elems d HI old X HX) as (_ & _ & _ & Hlive & _).
    assert (Hmx : mutex X = true) by (apply Hlive; now rewrite HstX).
    exists old, q, X. eexists _, _. split; [reflexivity|]. split; [exact HX|].
    split; [exact Hne|]. split; [exact Hmx|]. split.
    { cbn [run step].
      rewrite (seq_enc_full d p P e E) by (try rewrite Hq; assumption).
      cbn [mbind option_bind].
      erewrite (seq_enc_evict _ p _ e old q X);
        [|cbn; apply lookup_insert_eq | reflexivity | cbn; exact Hq | cbn; exact HX
         | exact Hmx].
      cbn [mbind option_bind].
      erewrite (seq_enc_push _ p _ e E);
        [|cbn; apply lookup_insert_eq | reflexivity
         | cbn; rewrite lookup_insert_ne by exact Hne; exact HE
         | cbn; cbn in Hb; lia].
      reflexivity. }
    cbn. rewrite lookup_insert_eq. split; [reflexivity|]. cbn.
    split; [reflexivity|]. split; reflexivity.
Qed.

End Queues.

Lemma addToOutboundQueue_drops_oldest_witness :
  let s := @LSeq sample_constants 0 ChRecv 1 sample_env in
  exists d P d' P' X',
    @run sample_constants schedule_outbound_full (@initial_device sample_constants 64) = Some d
    /\ peers d !! 0%nat = Some P /\ queue_outbound P = [0%nat]
    /\ @run sample_constants [s; s; s] d = Some d'
    /\ peers d' !! 0%nat = Some P' /\ queue_outbound P' = [1%nat]
    /\ elems d' !! 0%nat = Some X' /\ dropped X' = true.
Proof.
  intros s.
  destruct (@run sample_constants schedule_outbound_full (@initial_device sample_constants 64))
    as [d|] eqn:Hrun; [|vm_compute in Hrun; discriminate].
  assert (Hr : @reachable sample_constants d).
  { eapply OrderFacts.run_reachable; [apply reachable_init | exact Hrun]. }
  destruct (peers d !! 0%nat) as [P|] eqn:HP;
    [|exfalso; vm_compute in Hrun; injection Hrun as <-; vm_compute in HP; discriminate].
  assert (HPeq : seq_pc P = SeqOut 1 AtPush /\ queue_outbound P = [0%nat]).
  { vm_compute in Hrun. injection Hrun as <-. vm_compute in HP. injection HP as <-.
    split; reflexivity. }
  destruct HPeq as [Hpc Hq].
  destruct (@addToOutboundQueue_drops_oldest sample_constants
              ltac:(vm_compute; lia) d 0%nat P 1%nat ChRecv 1 sample_env
              ltac:(vm_compute; lia) Hr HP Hpc)
    as [[Hroom _]|[_ (old & q & X & d' & P' & Hq' & HX & Hrun3 & HP' & Hq3 & _ & He)]].
  - exfalso. rewrite Hq in Hroom. vm_compute in Hroom. lia.
  - rewrite Hq in Hq'. injection Hq' as <- <-.
    exists d, P, d', P', (Drop X). split; [reflexivity|]. split; [exact HP|].
    split; [exact Hq|]. split; [exact Hrun3|]. split; [exact HP'|].
    split; [exact Hq3|]. rewrite He, lookup_insert_eq. split; reflexivity.
Defined.

Lemma addToEncryptionQueue_drops_oldest_witness :
  let s := @LSeq sample_constants 0 ChRecv 1 sample_env in
  exists d d' X',
    @run sample_constants schedule_encryption_full (@initial_device sample_constants 64) = Some d
    /\ queue_encryption d = [0%nat; 1%nat]
    /\ @run sample_constants [s; s; s] d = Some d'
    /\ queue_encryption d' = [1%nat; 2%nat]
    /\ elems d' !! 0%nat = Some X' /\ dropped X' = true /\ mutex X' = false.
Proof.
  intros s.
  destruct (@run sample_constants schedule_encryption_full (@initial_device sample_constants 64))
    as [d|] eqn:Hrun; [|vm_compute in Hrun; discriminate].
  assert (Hr : @reachable sample_constants d).
  { eapply OrderFacts.run_reachable; [apply reachable_init | exact Hrun]. }
  destruct (peers d !! 0%nat) as [P|] eqn:HP;
    [|exfalso; vm_compute in Hrun; injection Hrun as <-; vm_compute in HP; discriminate].
  assert (HPeq : seq_pc P = SeqEnc 2 AtPush /\ queue_encryption d = [0%nat; 1%nat]).
  { vm_compute in Hrun. injection Hrun as <-. vm_compute in HP. injection HP as <-.
    split; reflexivity. }
  destruct HPeq as [Hpc Hq].
  destruct (@addToEncryptionQueue_drops_oldest sample_constants
              ltac:(vm_compute; lia) d 0%nat P 2%nat ChRecv 1 sample_env
              ltac:(vm_compute; lia) Hr HP Hpc)
    as (E & HE & [[Hroom _]|[_ (old & q & X & d' & P' & Hq' & HX & Hne & Hmx & Hrun3 & HP'
                                & Hq3 & _ & He)]]).
  - exfalso. rewrite Hq in Hroom. vm_compute in Hroom. lia.
  - rewrite Hq in Hq'. injection Hq' as <- <-.
    exists d, d', (set_stage Finished (Unlock (Drop X))).
    split; [reflexivity|]. split; [exact Hq|]. split; [exact Hrun3|].
    split; [exact Hq3|]. rewrite He, lookup_insert_ne by discriminate.
    rewrite lookup_insert_eq. repeat split; reflexivity.
Defined.

End QueueFacts.

(** ** Flushing the nonce queue *)

Module FlushFacts.
Import Wire WireFacts Send EncryptFacts PipelineFacts PipelineSteps PipelineSteps2.

Section Flush.
Context `{Constants}.

(** The drain, from the first receive to the [default] that ends it. *)
Lemma drain_steps p ch now env q : forall d P,
  peers d !! p = Some P -> seq_pc P = SeqFlush -> queue_nonce P = q ->
  (forall x, x ∈ q -> is_Some (elems d !! x)) ->
  exists d',
    run (replicate (S (length q)) (LSeq p ch now env)) d = Some d'
    /\ peers d' = <[p := to_NextPacket (set_queue_nonce [] P)]> (peers d)
    /\ keypairs d' = keypairs d /\ sealed d' = sealed d
    /\ queue_encryption d' = queue_encryption d
    /\ (forall x X, elems d !! x = Some X ->
          exists X', elems d' !! x = Some X' /\ (X' = X \/ X' = set_stage Finished X)).
Proof.
  induction q as [|old q IH]; intros d P HP Hpc Hq Hall.
  - eexists. split.
    { cbn [replicate length run step]. unfold seq_step. rewrite HP.
      cbn [mbind option_bind]. rewrite Hpc, Hq. reflexivity. }
    cbn. split; [|repeat split; try reflexivity].
    + f_equal. unfold to_NextPacket, set_seq_pc, set_awaitingKey, set_queue_nonce. cbn.
      now rewrite Hq.
    + intros x X HX. exists X. split; [exact HX | now left].
  - destruct (Hall old ltac:(left)) as [X0 HX0].
    set (d1 := put_elem old (set_stage Finished X0) (put_peer p (set_queue_nonce q P) d)).
    destruct (IH d1 (set_queue_nonce q P)) as (d' & Hrun & Hp & Hk & Hs & He & Hel).
    + cbn. apply lookup_insert_eq.
    + exact Hpc.
    + reflexivity.
    + intros x Hx. cbn. destruct (decide (x = old)) as [->|Hne].
      * rewrite lookup_insert_eq. eauto.
      * rewrite lookup_insert_ne by congruence. apply Hall. now right.
    + exists d'. split.
      { change (replicate (S (length (old :: q))) (LSeq p ch now env))
          with (LSeq p ch now env :: replicate (S (length q)) (LSeq p ch now env)).
        cbn [run step]. unfold seq_step at 1. rewrite HP. cbn [mbind option_bind].
        rewrite Hpc, Hq, HX0. cbn [mbind option_bind]. exact Hrun. }
      split; [|split; [exact Hk | split; [exact Hs | split; [exact He|]]]].
      * rewrite Hp. cbn. now rewrite insert_insert_eq.
      * intros x X HX. destruct (decide (x = old)) as [->|Hne].
        -- assert (X = X0) by congruence. subst X.
           destruct (Hel old (set_stage Finished X0)) as (X' & HX' & Hcase).
           { cbn. apply lookup_insert_eq. }
           exists X'. split; [exact HX'|]. right. destruct Hcase as [->| ->]; reflexivity.
        -- apply Hel. cbn. now rewrite lookup_insert_ne by congruence.
Qed.

(** A sequencer that waits for a key pair and takes the flush signal
    discards the element it holds and then everything on the nonce queue:
    after as many receives as the queue is long it is back at [NextPacket]
    with the queue empty and the awaiting flag cleared.  None of the
    discarded elements got a key pair or a nonce, the counters of the key
    pairs are as before, and nothing went on the encryption queue or the
    outbound queue. *)
Theorem flush_drains_nonce_queue d p P e ch now env :
  reachable d -> peers d !! p = Some P ->
  seq_pc P = SeqAwait e -> signals_flushNonceQueue P = true ->
  exists d' P',
    run (LSeq p ChFlush now env
           :: replicate (S (length (queue_nonce P))) (LSeq p ch now env)) d = Some d'
    /\ peers d' !! p = Some P'
    /\ queue_nonce P' = [] /\ seq_pc P' = SeqNext
    /\ signals_flushNonceQueue P' = false
    /\ packetInNonceQueueIsAwaitingKey P' = false
    /\ queue_outbound P' = queue_outbound P /\ sendLog P' = sendLog P
    /\ timers P' = timers P
    /\ keypairs d' = keypairs d /\ sealed d' = sealed d
    /\ queue_encryption d' = queue_encryption d
    /\ (forall x X, elems d !! x = Some X ->
          exists X', elems d' !! x = Some X' /\ (X' = X \/ X' = set_stage Finished X)).
Proof.
  intros Hr HP Hpc Hsig. pose proof (reachable_Inv d Hr) as HI.
  destruct (seq_early_elem d p P e HI HP) as (E & HE & _).
  { unfold seq_early. now rewrite Hpc. }
  set (P1 := set_seq_pc SeqFlush (set_flushNonceQueue false P)).
  set (d1 := put_elem e (set_stage Finished E) (put_peer p P1 d)).
  destruct (drain_steps p ch now env (queue_nonce P) d1 P1)
    as (d' & Hrun & Hp & Hk & Hs & Hq & Hel).
  { cbn. apply lookup_insert_eq. }
  { reflexivity. }
  { reflexivity. }
  { intros x Hx. cbn.
    destruct (peer_elem d p P x HI HP) as (X & HX & _).
    { unfold chain. set_solver. }
    destruct (decide (x = e)) as [->|Hne].
    - rewrite lookup_insert_eq. eauto.
    - rewrite lookup_insert_ne by congruence. eauto. }
  exists d', (to_NextPacket (set_queue_nonce [] P1)). split.
  { cbn [run step]. unfold seq_step at 1. rewrite HP. cbn [mbind option_bind].
    rewrite Hpc, HE. cbn [mbind option_bind]. rewrite Hsig. exact Hrun. }
  split; [rewrite Hp; apply lookup_insert_eq|].
  repeat (split; [first [reflexivity | assumption]|]).
  intros x X HX. destruct (decide (x = e)) as [->|Hne].
  - assert (X = E) by congruence. subst X.
    destruct (Hel e (set_stage Finished E)) as (X' & HX' & Hcase).
    { cbn. apply lookup_insert_eq. }
    exists X'. split; [exact HX'|]. right. destruct Hcase as [->| ->]; reflexivity.
  - apply Hel. cbn. now rewrite lookup_insert_ne by congruence.
Qed.

End Flush.

Lemma flush_drains_nonce_queue_witness :
  exists d P d' P',
    @run sample_constants schedule_flush_pending (@initial_device sample_constants 64) = Some d
    /\ peers d !! 0%nat = Some P /\ seq_pc P = SeqAwait 0 /\ queue_nonce P = [1%nat]
    /\ @run sample_constants
         (LSeq 0 ChFlush 1 sample_env :: replicate 2 (LSeq 0 ChRecv 1 sample_env)) d = Some d'
    /\ peers d' !! 0%nat = Some P' /\ queue_nonce P' = [] /\ seq_pc P' = SeqNext.
Proof.
  destruct (@run sample_constants schedule_flush_pending (@initial_device sample_constants 64))
    as [d|] eqn:Hrun; [|vm_compute in Hrun; discriminate].
  assert (Hr : @reachable sample_constants d).
  { eapply OrderFacts.run_reachable; [apply reachable_init | exact Hrun]. }
  destruct (peers d !! 0%nat) as [P|] eqn:HP;
    [|exfalso; vm_compute in Hrun; injection Hrun as <-; vm_compute in HP; discriminate].
  assert (HPeq : seq_pc P = SeqAwait 0 /\ signals_flushNonceQueue P = true
                 /\ queue_nonce P = [1%nat]).
  { vm_compute in Hrun. injection Hrun as <-. vm_compute in HP. injection HP as <-.
    repeat split; reflexivity. }
  destruct HPeq as (Hpc & Hsig & Hq).
  destruct (@flush_drains_nonce_queue sample_constants d 0%nat P 0%nat ChRecv 1 sample_env
              Hr HP Hpc Hsig)
    as (d' & P' & Hrun' & HP' & Hq' & Hpc' & _).
  rewrite Hq in Hrun'.
  exists d, P, d', P'. repeat split; assumption.
Defined.

End FlushFacts.

(** ** The TUN reader: what it discards and what it enqueues *)

Module TunReaderFacts.
Import Wire WireFacts Send EncryptFacts PipelineFacts PipelineSteps PipelineSteps2.
Import ReadyFacts LateFacts ReadySteps QueueFacts.

Section Reader.
Context `{Constants}.

(** A packet whose version nibble is neither 4 nor 6 has no peer. *)
Lemma lookup_peer_unknown_version b0 rest :
  Z.shiftr b0 4 <> 4 -> Z.shiftr b0 4 <> 6 -> lookup_peer (b0 :: rest) = None.
Proof.
  intros H4 H6. unfold lookup_peer, ipv4_Version, ipv6_Version.
  rewrite decide_False by exact H4. now rewrite decide_False by exact H6.
Qed.

(** The reader discards a packet and goes on with the same element, no
    peer, queue or timer touched and no handshake started, when [Read]
    returns a size of zero or above [MaxContentSize], when the version
    nibble is neither 4 nor 6, when the routing table has no peer for the
    destination, and when the peer is not running.  Only the buffer of the
    element has the bytes that [Read] put there. *)
Theorem tun_reader_discards pkt env d e E :
  tun d = TunRead e -> elems d !! e = Some E ->
  (MessageTransportHeaderSize + length pkt <= length (buffer E))%nat ->
  (length pkt = 0%nat
   \/ Z.of_nat (length pkt) > MaxContentSize
   \/ (exists b0 rest, pkt = b0 :: rest /\ Z.shiftr b0 4 <> 4 /\ Z.shiftr b0 4 <> 6)
   \/ lookup_peer pkt = None
   \/ (exists p P, lookup_peer pkt = Some p /\ peers d !! p = Some P
                   /\ isRunning P = false)) ->
  exists E',
    tun_read pkt env d = Some (put_elem e E' d)
    /\ buffer E' = write_at MessageTransportHeaderSize pkt (buffer E)
    /\ dropped E' = dropped E /\ mutex E' = mutex E /\ stage E' = stage E
    /\ peer E' = peer E /\ keyPair E' = keyPair E.
Proof.
  intros Ht HE Hfit Hcase. unfold tun_read. rewrite Ht, HE. cbn [mbind option_bind].
  case_decide as Hsz; [eexists; split; [reflexivity | repeat split]|].
  rewrite decide_True by (rewrite write_at_length; exact Hfit).
  cbn [slice_bytes packet set_data]. rewrite subslice_write_at by exact Hfit.
  destruct Hcase as [H0|[Hbig|[(b0 & rest & -> & H4 & H6)|[Hnone|(p & P & Hp & HP & Hrun)]]]].
  - exfalso. apply Hsz. left. lia.
  - exfalso. apply Hsz. now right.
  - rewrite lookup_peer_unknown_version by assumption.
    eexists; split; [reflexivity | repeat split].
  - rewrite Hnone. eexists; split; [reflexivity | repeat split].
  - rewrite Hp, HP. cbn [mbind option_bind]. rewrite Hrun.
    eexists; split; [reflexivity | repeat split].
Qed.

(** The steps of [addToOutboundQueue(peer.queue.nonce, elem)]. *)
Lemma tun_add_push d p e P E e' buf' :
  tun d = TunAdd p e AtPush -> peers d !! p = Some P -> elems d !! e = Some E ->
  (length (queue_nonce P) < QueueNonceSize)%nat ->
  elems d !! e' = None -> length buf' = MaxMessageSize ->
  tun_add e' buf' d
  = Some (set_tun (TunRead e')
            (put_elem e' (NewOutboundElement buf')
               (put_elem e (set_owner p (set_stage InNonce E))
                  (put_peer p (set_nonceLog (nonceLog P ++ [(e, true)])
                                 (set_queue_nonce (queue_nonce P ++ [e]) P)) d)))).
Proof.
  intros Ht HP HE Hroom He' Hb. unfold tun_add. rewrite Ht, HP. cbn [mbind option_bind].
  rewrite HE. cbn [mbind option_bind]. rewrite decide_True by exact Hroom.
  now rewrite decide_True by (split; assumption).
Qed.

Lemma tun_add_full d p e P E e' buf' :
  tun d = TunAdd p e AtPush -> peers d !! p = Some P -> elems d !! e = Some E ->
  ~ (length (queue_nonce P) < QueueNonceSize)%nat ->
  tun_add e' buf' d = Some (set_tun (TunAdd p e AtEvict) d).
Proof.
  intros Ht HP HE Hfull. unfold tun_add. rewrite Ht, HP. cbn [mbind option_bind].
  rewrite HE. cbn [mbind option_bind]. now rewrite decide_False by exact Hfull.
Qed.

Lemma tun_add_evict d p e P old q X e' buf' :
  tun d = TunAdd p e AtEvict -> peers d !! p = Some P ->
  queue_nonce P = old :: q -> elems d !! old = Some X ->
  tun_add e' buf' d
  = Some (set_tun (TunAdd p e AtPush)
            (put_elem old (set_stage Finished (Drop X))
               (put_peer p (set_queue_nonce q P) d))).
Proof.
  intros Ht HP Hq HX. unfold tun_add. rewrite Ht, HP. cbn [mbind option_bind].
  rewrite Hq, HX. reflexivity.
Qed.

(** The reader hands a routed packet to the nonce queue of its peer, at
    the end of the queue, and goes on with a new element.  The element
    carries the bytes of the packet behind the space for the header.  When
    the peer waits for a key pair a handshake initiation is attempted
    first.  When the queue is full the oldest element is taken out and
    marked dropped, and nothing else is lost. *)
Theorem tun_reader_enqueues pkt env d e E p P e' buf' :
  (0 < QueueNonceSize)%nat -> (MessageTransportHeaderSize <= MaxMessageSize)%nat ->
  reachable d ->
  tun d = TunRead e -> elems d !! e = Some E ->
  (0 < length pkt)%nat -> Z.of_nat (length pkt) <= MaxContentSize ->
  (MessageTransportHeaderSize + length pkt <= length (buffer E))%nat ->
  lookup_peer pkt = Some p -> peers d !! p = Some P -> isRunning P = true ->
  elems d !! e' = None -> length buf' = MaxMessageSize ->
  let T' := if packetInNonceQueueIsAwaitingKey P
            then (SendHandshakeInitiation false env (timers P)).1 else timers P in
  let E' := set_owner p (set_stage InNonce
              (set_data (write_at MessageTransportHeaderSize pkt (buffer E))
                 (SliceBuf MessageTransportHeaderSize (length pkt)) E)) in
  let add := LTunAdd e' buf' in
  slice_bytes (buffer E') (packet E') = pkt
  /\ exists d' P',
       peers d' !! p = Some P' /\ timers P' = T'
       /\ tun d' = TunRead e'
       /\ elems d' !! e = Some E' /\ elems d' !! e' = Some (NewOutboundElement buf')
       /\ ((length (queue_nonce P) < QueueNonceSize)%nat
           /\ run [LTunRead pkt env; add] d = Some d'
           /\ queue_nonce P' = queue_nonce P ++ [e]
           \/ exists old q X,
                queue_nonce P = old :: q /\ length (queue_nonce P) = QueueNonceSize
                /\ elems d !! old = Some X
                /\ run [LTunRead pkt env; add; add; add] d = Some d'
                /\ queue_nonce P' = q ++ [e]
                /\ elems d' !! old = Some (set_stage Finished (Drop X))).
Proof.
  intros Hcap Hsize Hr Ht HE Hpos Hmax Hfit Hp HP Hrun He' Hbuf' T' E' add. subst add.
  assert (Hne : e' <> e) by (intros ->; congruence).
  split.
  { cbn. apply subslice_write_at. exact Hfit. }
  set (E1 := set_data (write_at MessageTransportHeaderSize pkt (buffer E))
               (SliceBuf MessageTransportHeaderSize (length pkt)) E).
  set (P1 := if packetInNonceQueueIsAwaitingKey P
             then set_timers (SendHandshakeInitiation false env (timers P)).1 P else P).
  assert (HP1 : timers P1 = T' /\ queue_nonce P1 = queue_nonce P
                /\ nonceLog P1 = nonceLog P).
  { unfold P1, T'. destruct (packetInNonceQueueIsAwaitingKey P); repeat split. }
  destruct HP1 as (HT1 & Hq1 & Hlog1).
  set (d1 := set_tun (TunAdd p e AtPush) (put_peer p P1 (put_elem e E1 d))).
  assert (Hread : tun_read pkt env d = Some d1).
  { unfold tun_read. rewrite Ht, HE. cbn [mbind option_bind].
    rewrite decide_False by lia.
    rewrite decide_True by (rewrite write_at_length; exact Hfit).
    cbn [slice_bytes packet set_data]. rewrite subslice_write_at by exact Hfit.
    rewrite Hp, HP. cbn [mbind option_bind]. rewrite Hrun. reflexivity. }
  assert (Ht1 : tun d1 = TunAdd p e AtPush) by reflexivity.
  assert (HP1' : peers d1 !! p = Some P1) by (cbn; apply lookup_insert_eq).
  assert (HE1 : elems d1 !! e = Some E1) by (cbn; apply lookup_insert_eq).
  assert (He1' : elems d1 !! e' = None) by (cbn; now rewrite lookup_insert_ne by congruence).
  destruct (queues_bounded Hsize d p P Hr HP) as (Hb & _ & _).
  destruct (decide (length (queue_nonce P) < QueueNonceSize)%nat) as [Hroom|Hfull].
  - eexists _, _. split; [|split; [|split; [|split; [|split; [|left; split;
      [exact Hroom | split]]]]]].
    6:{ cbn [run step]. rewrite Hread. cbn [mbind option_bind].
        rewrite (tun_add_push d1 p e P1 E1 e' buf' Ht1 HP1' HE1) by
          (first [rewrite Hq1; exact Hroom | assumption]).
        reflexivity. }
    + cbn. apply lookup_insert_eq.
    + cbn. exact HT1.
    + reflexivity.
    + cbn. rewrite lookup_insert_ne by congruence. rewrite lookup_insert_eq. reflexivity.
    + cbn. apply lookup_insert_eq.
    + cbn. now rewrite Hq1.
  - destruct (queue_nonce P) as [|old q] eqn:Hq; [cbn in Hfull; lia|].
    destruct (peer_elem d p P old (reachable_Inv d Hr) HP) as (X & HX & _ & Hok & Hel).
    { unfold chain. rewrite Hq. set_solver. }
    assert (Hoe : old <> e).
    { intros ->. destruct Hel as (X1 & HX1 & _ & Hn & _).
      assert (Hst : stage X1 = InNonce) by (apply Hn; rewrite Hq; left).
      destruct (tun_elem_fresh d e (reachable_Inv d Hr) (or_introl Ht)) as (E0 & HE0 & Hf).
      congruence. }
    assert (Hoe' : e' <> old) by (intros ->; congruence).
    set (d2 := set_tun (TunAdd p e AtEvict) d1).
    set (d3 := set_tun (TunAdd p e AtPush)
                 (put_elem old (set_stage Finished (Drop X))
                    (put_peer p (set_queue_nonce q P1) d2))).
    assert (H2 : tun_add e' buf' d1 = Some d2).
    { apply (tun_add_full d1 p e P1 E1); try assumption. rewrite Hq1. exact Hfull. }
    assert (H3 : tun_add e' buf' d2 = Some d3).
    { apply (tun_add_evict d2 p e P1 old q X); try reflexivity; try assumption.
      cbn. now rewrite lookup_insert_ne by congruence. }
    eexists _, _. split; [|split; [|split; [|split; [|split; [|right;
      exists old, q, X; split; [reflexivity | split; [cbn in *; lia | split;
        [exact HX | split; [|split]]]]]]]]].
    6:{ cbn [run step]. rewrite Hread. cbn [mbind option_bind].
        rewrite H2. cbn [mbind option_bind]. rewrite H3. cbn [mbind option_bind].
        rewrite (tun_add_push d3 p e (set_queue_nonce q P1) E1 e' buf');
          [reflexivity | reflexivity | cbn; apply lookup_insert_eq
          | cbn; rewrite lookup_insert_ne by congruence; apply lookup_insert_eq
          | cbn; cbn in Hb; lia
          | cbn; rewrite !lookup_insert_ne by congruence; exact He'
          | exact Hbuf']. }
    + cbn. apply lookup_insert_eq.
    + cbn. exact HT1.
    + reflexivity.
    + cbn. rewrite lookup_insert_ne by congruence. rewrite lookup_insert_eq. reflexivity.
    + cbn. apply lookup_insert_eq.
    + reflexivity.
    + cbn. rewrite !lookup_insert_ne by congruence. apply lookup_insert_eq.
Qed.

End Reader.

Lemma tun_reader_discards_witness :
  let d := @put_elem sample_constants 0 (NewOutboundElement sample_buffer)
             (@set_tun sample_constants (TunRead 0) (@initial_device sample_constants 64)) in
  exists E',
    @tun_read sample_constants [80; 0; 0; 20] sample_env d = Some (put_elem 0 E' d)
    /\ take 20 (buffer E') = replicate 16 0 ++ [80; 0; 0; 20].
Proof.
  intros d.
  destruct (@tun_reader_discards sample_constants [80; 0; 0; 20] sample_env d 0%nat
              (NewOutboundElement sample_buffer) eq_refl eq_refl ltac:(vm_compute; lia))
    as (E' & Hrun & Hbuf & _).
  { right. right. left. exists 80, [0; 0; 20]. split; [reflexivity|].
    split; vm_compute; discriminate. }
  exists E'. split; [exact Hrun|]. rewrite Hbuf. reflexivity.
Defined.

Lemma tun_reader_enqueues_witness :
  exists d d' P' E',
    @run sample_constants schedule_tun_ready (@initial_device sample_constants 64) = Some d
    /\ @run sample_constants [LTunRead sample_packet sample_env; LTunAdd 1 sample_buffer] d
       = Some d'
    /\ peers d' !! 0%nat = Some P' /\ queue_nonce P' = [0%nat]
    /\ elems d' !! 0%nat = Some E'
    /\ slice_bytes (buffer E') (packet E') = sample_packet.
Proof.
  destruct (@run sample_constants schedule_tun_ready (@initial_device sample_constants 64))
    as [d|] eqn:Hrun; [|vm_compute in Hrun; discriminate].
  assert (Hr : @reachable sample_constants d).
  { eapply OrderFacts.run_reachable; [apply reachable_init | exact Hrun]. }
  assert (Hd : tun d = TunRead 0
               /\ elems d !! 0%nat = Some (NewOutboundElement sample_buffer)
               /\ peers d !! 0%nat = Some new_peer /\ elems d !! 1%nat = None).
  { vm_compute in Hrun. injection Hrun as <-. repeat split. }
  destruct Hd as (Ht & HE & HP & He').
  destruct (@tun_reader_enqueues sample_constants sample_packet sample_env d 0%nat
              (NewOutboundElement sample_buffer) 0%nat new_peer 1%nat sample_buffer
              ltac:(vm_compute; lia) ltac:(vm_compute; lia) Hr Ht HE
              ltac:(vm_compute; lia) ltac:(vm_compute; discriminate) ltac:(vm_compute; lia)
              eq_refl HP eq_refl He' eq_refl)
    as (Hbytes & d' & P' & HP' & _ & _ & HE' & _ & [(_ & Hrun' & Hq)|Hfull]).
  - exists d, d', P'. eexists. split; [reflexivity|]. split; [exact Hrun'|].
    split; [exact HP'|]. split; [exact Hq|]. split; [exact HE' | exact Hbytes].
  - exfalso. destruct Hfull as (old & q & X & Hq & _). discriminate.
Defined.

End TunReaderFacts.

(** ** After a failed read the TUN reader is gone *)

Module TunClosedFacts.
Import Wire WireFacts Send EncryptFacts PipelineFacts PipelineSteps PipelineSteps2.
Import ReadyFacts.

Section Closed.
Context `{Constants}.

(** No peer disappears, and the packets the TUN reader has enqueued for
    each are the same in both states. *)
Lemma same_tun_packets_trans (ps1 ps2 ps3 : gmap nat Peer) :
  (forall q, match ps2 !! q with
             | Some Q => tun_packets Q = from_option tun_packets [] (ps1 !! q)
             | None => ps1 !! q = None
             end) ->
  (forall q, match ps3 !! q with
             | Some Q => tun_packets Q = from_option tun_packets [] (ps2 !! q)
             | None => ps2 !! q = None
             end) ->
  forall q, match ps3 !! q with
            | Some Q => tun_packets Q = from_option tun_packets [] (ps1 !! q)
            | None => ps1 !! q = None
            end.
Proof.
  intros H12 H23 q. specialize (H12 q). specialize (H23 q).
  destruct (ps3 !! q) as [Q3|]; destruct (ps2 !! q) as [Q2|]; cbn in *;
    try congruence.
  rewrite H23. destruct (ps1 !! q); cbn in *; [discriminate | reflexivity].
Qed.

(** A step of anything but the TUN reader leaves the reader where it is
    and adds no TUN packet to the record of a nonce queue. *)
Lemma step_tun_closed l d d' :
  tun d = TunClosed -> step l d = Some d' ->
  tun d' = TunClosed
  /\ forall q, match peers d' !! q with
               | Some Q => tun_packets Q = from_option tun_packets [] (peers d !! q)
               | None => peers d !! q = None
               end.
Proof.
  intros Ht Hs.
  assert (Hsame : forall p P P' d0,
            peers d0 = <[p := P']> (peers d) ->
            peers d !! p = Some P -> nonceLog P' = nonceLog P \/
              (exists e, nonceLog P' = nonceLog P ++ [(e, false)]) ->
            forall q, match peers d0 !! q with
                      | Some Q => tun_packets Q = from_option tun_packets [] (peers d !! q)
                      | None => peers d !! q = None
                      end).
  { intros p P P' d0 Hp HP Hlog q. rewrite Hp.
    destruct (decide (q = p)) as [->|Hne].
    - rewrite lookup_insert_eq, HP. cbn.
      unfold tun_packets. destruct Hlog as [->|[e ->]]; [reflexivity|].
      rewrite filter_app, fmap_app. cbn. now rewrite app_nil_r.
    - rewrite lookup_insert_ne by congruence. now destruct (peers d !! q). }
  assert (Hid : forall d0, peers d0 = peers d ->
            forall q, match peers d0 !! q with
                      | Some Q => tun_packets Q = from_option tun_packets [] (peers d !! q)
                      | None => peers d !! q = None
                      end).
  { intros d0 Hp q. rewrite Hp. now destruct (peers d !! q). }
  destruct l; cbn in Hs.
  - unfold env_new_peer in Hs. step_cases Hs; injection Hs as <-. split; [exact Ht|].
    intros q. cbn. destruct (decide (q = p)) as [->|Hne].
    + rewrite lookup_insert_eq.
      match goal with Hn : peers d !! p = None |- _ => now rewrite Hn end.
    + rewrite lookup_insert_ne by congruence. now destruct (peers d !! q).
  - unfold env_spawn_worker in Hs. step_cases Hs; injection Hs as <-.
    split; [exact Ht | now apply Hid].
  - unfold env_new_keypair in Hs. step_cases Hs; injection Hs as <-.
    split; [exact Ht | eapply Hsame; [reflexivity | eassumption | left; reflexivity]].
  - unfold env_clear_keypair in Hs. step_cases Hs; injection Hs as <-.
    split; [exact Ht | eapply Hsame; [reflexivity | eassumption | left; reflexivity]].
  - unfold FlushNonceQueue in Hs. step_cases Hs; injection Hs as <-.
    split; [exact Ht | eapply Hsame; [reflexivity | eassumption | left; reflexivity]].
  - unfold env_stop in Hs. step_cases Hs; injection Hs as <-.
    split; [exact Ht | eapply Hsame; [reflexivity | eassumption | left; reflexivity]].
  - injection Hs as <-. split; [exact Ht | now apply Hid].
  - unfold tun_begin in Hs. rewrite Ht in Hs. discriminate.
  - unfold tun_read in Hs. rewrite Ht in Hs. discriminate.
  - unfold tun_read_error in Hs. rewrite Ht in Hs. discriminate.
  - unfold tun_add in Hs. rewrite Ht in Hs. discriminate.
  - unfold keepalive_make in Hs. step_cases Hs; injection Hs as <-;
      (split; [exact Ht | now apply Hid]).
  - unfold keepalive_send in Hs. step_cases Hs; injection Hs as <-;
      (split; [exact Ht|]);
      first [ now apply Hid
            | eapply Hsame; [reflexivity | eassumption | right; eexists; reflexivity] ].
  - unfold seq_step in Hs.
    destruct (peers d !! p) as [P|] eqn:HP; [|discriminate].
    cbn [mbind option_bind] in Hs.
    destruct (seq_pc P) as [|e|e| |e pc|e pc|]; [| | | | | |discriminate].
    + step_cases Hs; injection Hs as <-;
        (split; [exact Ht | eapply Hsame; [reflexivity | exact HP | left; reflexivity]]).
    + destruct (elems d !! e) as [E|]; [|discriminate]. cbn [mbind option_bind] in Hs.
      assert (Hawait : forall P', nonceLog P' = nonceLog P ->
                Some (put_peer p P' d) = Some d' ->
                tun d' = TunClosed
                /\ forall q, match peers d' !! q with
                             | Some Q =>
                                 tun_packets Q = from_option tun_packets [] (peers d !! q)
                             | None => peers d !! q = None
                             end).
      { intros P' Hlog Heq. injection Heq as <-. split; [exact Ht|].
        eapply Hsame; [reflexivity | exact HP | left; exact Hlog]. }
      destruct (keyPairs_current P) as [k|]; cbn [mbind option_bind] in Hs;
        [|eapply Hawait; [|exact Hs]; reflexivity].
      destruct (keypairs d !! k) as [K|]; cbn [mbind option_bind] in Hs;
        [|eapply Hawait; [|exact Hs]; reflexivity].
      destruct (usable K now); [|eapply Hawait; [|exact Hs]; reflexivity].
      destruct (fetch_nonce K) as [K' n]. unfold seq_submit in Hs.
      step_cases Hs; injection Hs as <-;
        (split; [exact Ht | eapply Hsame; [reflexivity | exact HP | left; reflexivity]]).
    + step_cases Hs; injection Hs as <-;
        (split; [exact Ht | eapply Hsame; [reflexivity | exact HP | left; reflexivity]]).
    + step_cases Hs; injection Hs as <-;
        (split; [exact Ht | eapply Hsame; [reflexivity | exact HP | left; reflexivity]]).
    + destruct pc; step_cases Hs; injection Hs as <-;
        (split; [exact Ht | eapply Hsame; [reflexivity | exact HP | left; reflexivity]]).
    + destruct pc; step_cases Hs; injection Hs as <-;
        (split; [exact Ht | eapply Hsame; [reflexivity | exact HP | left; reflexivity]]).
  - unfold worker_pop in Hs. step_cases Hs; injection Hs as <-;
      (split; [exact Ht | now apply Hid]).
  - unfold worker_seal in Hs.
    destruct (workers d !! w) as [W|]; [|discriminate]. cbn [mbind option_bind] in Hs.
    destruct (w_elem W) as [e|]; [|discriminate]. cbn [mbind option_bind] in Hs.
    destruct (elems d !! e) as [E|]; [|discriminate]. cbn [mbind option_bind] in Hs.
    destruct (keyPair E) as [k|]; [|discriminate]. cbn [mbind option_bind] in Hs.
    destruct (keypairs d !! k) as [K|]; [|discriminate]. cbn [mbind option_bind] in Hs.
    destruct (mutex E); [|discriminate].
    destruct (encrypt_element _ _ _ _) as [wn E']. injection Hs as <-.
    split; [exact Ht | now apply Hid].
  - unfold snd_step in Hs.
    destruct (peers d !! p) as [P|] eqn:HP; [|discriminate].
    cbn [mbind option_bind] in Hs.
    step_cases Hs; injection Hs as <-;
      (split; [exact Ht | eapply Hsame; [reflexivity | exact HP | left; reflexivity]]).
Qed.

(** Once [Read] has failed the reader has returned: whatever the other
    goroutines do afterwards, no packet from the TUN device is put on a
    nonce queue any more, and the reader takes no step. *)
Theorem tun_closed_forever ls : forall d d',
  tun d = TunClosed -> run ls d = Some d' ->
  tun d' = TunClosed
  /\ (forall p P', peers d' !! p = Some P' ->
        tun_packets P' = from_option tun_packets [] (peers d !! p))
  /\ Forall (fun l => match l with
                      | LTunBegin _ _ | LTunRead _ _ | LTunReadError | LTunAdd _ _ => False
                      | _ => True
                      end) ls.
Proof.
  assert (Hgen : forall ls d d',
            tun d = TunClosed -> run ls d = Some d' ->
            tun d' = TunClosed
            /\ (forall q, match peers d' !! q with
                          | Some Q =>
                              tun_packets Q = from_option tun_packets [] (peers d !! q)
                          | None => peers d !! q = None
                          end)
            /\ Forall (fun l => match l with
                                | LTunBegin _ _ | LTunRead _ _ | LTunReadError
                                | LTunAdd _ _ => False
                                | _ => True
                                end) ls).
  { clear ls. induction ls as [|l ls IH]; intros d d' Ht Hrun; cbn in Hrun.
    - injection Hrun as <-. split; [exact Ht|]. split; [|constructor].
      intros q. now destruct (peers d !! q).
    - destruct (step l d) as [d1|] eqn:Hs; [|discriminate]. cbn in Hrun.
      destruct (step_tun_closed l d d1 Ht Hs) as [Ht1 Hp1].
      destruct (IH d1 d' Ht1 Hrun) as (Ht' & Hp' & Hls). split; [exact Ht'|]. split.
      + exact (same_tun_packets_trans _ _ _ Hp1 Hp').
      + constructor; [|exact Hls].
        destruct l; try exact I; cbn in Hs;
          [ unfold tun_begin in Hs | unfold tun_read in Hs
          | unfold tun_read_error in Hs | unfold tun_add in Hs ];
          rewrite Ht in Hs; discriminate. }
  intros d d' Ht Hrun. destruct (Hgen ls d d' Ht Hrun) as (H1 & H2 & H3).
  split; [exact H1|]. split; [|exact H3].
  intros p P' HP'. specialize (H2 p). now rewrite HP' in H2.
Qed.

End Closed.

Lemma tun_closed_forever_witness :
  exists d d' P',
    @run sample_constants schedule_tun_closed (@initial_device sample_constants 64) = Some d
    /\ tun d = TunClosed
    /\ @run sample_constants [LKeepaliveMake 0 1 sample_buffer; LKeepaliveSend 0 1] d = Some d'
    /\ peers d' !! 0%nat = Some P' /\ nonceLog P' = [(1%nat, false)]
    /\ tun_packets P' = [].
Proof.
  destruct (@run sample_constants schedule_tun_closed (@initial_device sample_constants 64))
    as [d|] eqn:Hrun; [|vm_compute in Hrun; discriminate].
  assert (Ht : tun d = TunClosed /\ peers d !! 0%nat = Some new_peer).
  { vm_compute in Hrun. injection Hrun as <-. split; reflexivity. }
  destruct Ht as [Ht HP].
  destruct (@run sample_constants [LKeepaliveMake 0 1 sample_buffer; LKeepaliveSend 0 1] d)
    as [d'|] eqn:Hrun';
    [|exfalso; vm_compute in Hrun; injection Hrun as <-; vm_compute in Hrun'; discriminate].
  destruct (@tun_closed_forever sample_constants _ d d' Ht Hrun') as (_ & Hp & _).
  destruct (peers d' !! 0%nat) as [P'|] eqn:HP';
    [|exfalso; vm_compute in Hrun; injection Hrun as <-;
      vm_compute in Hrun'; injection Hrun' as <-; vm_compute in HP'; discriminate].
  exists d, d', P'. split; [reflexivity|]. split; [exact Ht|]. split; [exact Hrun'|].
  split; [exact HP'|]. split.
  - vm_compute in Hrun. injection Hrun as <-.
    vm_compute in Hrun'. injection Hrun' as <-. vm_compute in HP'. now injection HP' as <-.
  - rewrite (Hp 0%nat P' HP'), HP. reflexivity.
Defined.

End TunClosedFacts.

(** ** More on the rate limit of the handshake initiation *)

Module HandshakeWindowFacts.
Import Send.

Section Window.
Context `{Constants}.

Lemma window_quiet calls T :
  Forall (fun c => time_Sub (now_check c.2) (lastSentHandshake T) < RekeyTimeout) calls ->
  let T' := handshake_calls calls T in
  initiationsSent T' = initiationsSent T
  /\ timerEvents T' = timerEvents T
  /\ lastSentHandshake T' = lastSentHandshake T
  /\ hsCalls T' = rev (map fst calls) ++ hsCalls T
  /\ handshakeAttempts T' = (if forallb fst calls then handshakeAttempts T else 0).
Proof.
  revert T. induction calls as [|[r env] calls IH]; intros T Hall T'.
  - repeat split.
  - apply Forall_cons in Hall as [Hc Hall]. cbn in Hc.
    set (T1 := (SendHandshakeInitiation r env T).1).
    assert (HT1 : T1 = mkTimers (if r then handshakeAttempts T else 0) (lastSentHandshake T)
                         (r :: hsCalls T) (initiationsSent T) (timerEvents T)).
    { unfold T1, SendHandshakeInitiation. now rewrite decide_True by exact Hc. }
    assert (Hstamp : lastSentHandshake T1 = lastSentHandshake T) by now rewrite HT1.
    destruct (IH T1) as (H1 & H2 & H3 & H4 & H5).
    { now rewrite Hstamp. }
    unfold T', handshake_calls. cbn [fold_left fst snd]. fold T1.
    fold (handshake_calls calls T1).
    rewrite H1, H2, H3, H4, H5, HT1. cbn. rewrite <- app_assoc. cbn.
    repeat split. destruct r; cbn; [reflexivity|]. now destruct (forallb fst calls).
Qed.

(** Any number of calls within [RekeyTimeout] of the last stamp send
    nothing, call no timer and leave the stamp where it is, whoever makes
    them and whatever [CreateMessageInitiation] would have returned;
    [handshakeAttempts] is reset by the first call that is not a retry. *)
Theorem handshake_window_is_quiet calls T :
  Forall (fun c => time_Sub (now_check c.2) (lastSentHandshake T) < RekeyTimeout) calls ->
  let T' := handshake_calls calls T in
  initiationsSent T' = initiationsSent T
  /\ timerEvents T' = timerEvents T
  /\ lastSentHandshake T' = lastSentHandshake T
  /\ hsCalls T' = rev (map fst calls) ++ hsCalls T
  /\ handshakeAttempts T' = (if forallb fst calls then handshakeAttempts T else 0).
Proof. apply window_quiet. Qed.

(** A call outside the window whose [CreateMessageInitiation] fails
    returns the error, sends nothing and calls no timer, but it has stamped
    [lastSentHandshake]: the calls of the next [RekeyTimeout] send nothing
    either. *)
Theorem failed_creation_starts_window r1 env1 err calls T :
  ~ time_Sub (now_check env1) (lastSentHandshake T) < RekeyTimeout ->
  create env1 = inr err ->
  Forall (fun c => time_Sub (now_check c.2) (now_stamp env1) < RekeyTimeout) calls ->
  let T1 := (SendHandshakeInitiation r1 env1 T).1 in
  (SendHandshakeInitiation r1 env1 T).2 = Some err
  /\ lastSentHandshake T1 = now_stamp env1
  /\ initiationsSent (handshake_calls calls T1) = initiationsSent T
  /\ timerEvents (handshake_calls calls T1) = timerEvents T.
Proof.
  intros Hout Hcreate Hall T1.
  assert (HT1 : SendHandshakeInitiation r1 env1 T
                = (mkTimers (if r1 then handshakeAttempts T else 0) (now_stamp env1)
                     (r1 :: hsCalls T) (initiationsSent T) (timerEvents T), Some err)).
  { unfold SendHandshakeInitiation. rewrite decide_False by exact Hout.
    now rewrite Hcreate. }
  unfold T1. rewrite HT1. cbn [fst snd]. split; [reflexivity|]. split; [reflexivity|].
  match goal with |- context [handshake_calls calls ?T0] =>
    destruct (window_quiet calls T0 Hall) as (H1 & H2 & _)
  end.
  split; assumption.
Qed.

End Window.

Lemma handshake_window_is_quiet_witness :
  let T := mkTimers 3 10 [] [] [] in
  let calls := [(true, sample_env); (false, mkHsEnv 12 12 (inl [1]) (fun m => m) None)] in
  initiationsSent (@handshake_calls sample_constants calls T) = []
  /\ handshakeAttempts (@handshake_calls sample_constants calls T) = 0.
Proof.
  intros T calls.
  destruct (@handshake_window_is_quiet sample_constants calls T) as (H1 & _ & _ & _ & H5).
  { repeat constructor; vm_compute; reflexivity. }
  split; [exact H1 | exact H5].
Defined.

Lemma failed_creation_starts_window_witness :
  let T := mkTimers 0 0 [] [] [] in
  let env1 := mkHsEnv 100 100 (inr 7%nat) (fun m => m) None in
  let calls := [(false, mkHsEnv 102 102 (inl [1]) (fun m => m) None)] in
  (@SendHandshakeInitiation sample_constants false env1 T).2 = Some 7%nat
  /\ initiationsSent
       (@handshake_calls sample_constants calls
          (@SendHandshakeInitiation sample_constants false env1 T).1) = [].
Proof.
  intros T env1 calls.
  destruct (@failed_creation_starts_window sample_constants false env1 7%nat calls T)
    as (H1 & _ & H3 & _).
  - vm_compute. discriminate.
  - reflexivity.
  - repeat constructor; vm_compute; reflexivity.
  - split; [exact H1 | exact H3].
Defined.

End HandshakeWindowFacts.

(** ** The byte counter of a peer *)

Module CountFacts.
Import Wire WireFacts Send EncryptFacts PipelineFacts PipelineSteps PipelineSteps2.
Import ReadyFacts LateFacts.

Section Count.
Context `{Constants}.

Lemma sent_total_cons h (x : nat * bool) log :
  sent_total h (x :: log) = (if x.2 then packet_len h x.1 else 0) + sent_total h log.
Proof. reflexivity. Qed.

Lemma sent_total_app h l1 l2 :
  sent_total h (l1 ++ l2) = sent_total h l1 + sent_total h l2.
Proof.
  induction l1 as [|x l1 IH]; [reflexivity|].
  rewrite <- app_comm_cons, !sent_total_cons, IH. lia.
Qed.

Lemma sent_total_ext h h' log :
  (forall e, e ∈ log.*1 -> packet_len h' e = packet_len h e) ->
  sent_total h' log = sent_total h log.
Proof.
  induction log as [|x log IH]; intros Hext; [reflexivity|].
  rewrite !sent_total_cons.
  rewrite IH by (intros e He; apply Hext; cbn; now right).
  rewrite (Hext x.1) by (cbn; left). reflexivity.
Qed.

(** A change of one element that keeps its packet view. *)
Lemma Counted_put_elem d x X X' :
  Counted d -> elems d !! x = Some X -> slice_len (packet X') = slice_len (packet X) ->
  Counted (put_elem x X' d).
Proof.
  intros [Hb Hh] HX Hp. constructor.
  - intros p P HP. cbn in HP. rewrite (Hb p P HP). f_equal. symmetry.
    apply sent_total_ext. intros e _. unfold packet_len. cbn.
    destruct (decide (e = x)) as [->|Hne].
    + rewrite lookup_insert_eq, HX. cbn. now rewrite Hp.
    + now rewrite lookup_insert_ne by congruence.
  - intros p P e HP Hin. cbn in HP. cbn.
    destruct (decide (e = x)) as [->|Hne].
    + rewrite lookup_insert_eq. eauto.
    + rewrite lookup_insert_ne by congruence. exact (Hh p P e HP Hin).
Qed.

(** A change of an element that was not sent. *)
Lemma Counted_put_elem_unsent d x X' :
  Late d -> Counted d ->
  (forall X, elems d !! x = Some X -> stage X <> Finished) ->
  Counted (put_elem x X' d).
Proof.
  intros HL [Hb Hh] Hst.
  assert (Hnot : forall p P, peers d !! p = Some P -> x ∉ (sendLog P).*1).
  { intros p P HP Hin. destruct (late_sent d HL p P x HP Hin) as (X & HX & Hs & _).
    exact (Hst X HX Hs). }
  constructor.
  - intros p P HP. cbn in HP. rewrite (Hb p P HP). f_equal. symmetry.
    apply sent_total_ext. intros e He. unfold packet_len. cbn.
    rewrite lookup_insert_ne; [reflexivity|]. intros ->. exact (Hnot p P HP He).
  - intros p P e HP Hin. cbn in HP. cbn.
    rewrite lookup_insert_ne; [exact (Hh p P e HP Hin)|].
    intros ->. exact (Hnot p P HP Hin).
Qed.

Lemma Counted_put_elem_new d x X' :
  Counted d -> elems d !! x = None -> Counted (put_elem x X' d).
Proof.
  intros [Hb Hh] HX.
  assert (Hnot : forall p P, peers d !! p = Some P -> x ∉ (sendLog P).*1).
  { intros p P HP Hin. destruct (Hh p P x HP Hin) as [X HX']. congruence. }
  constructor.
  - intros p P HP. cbn in HP. rewrite (Hb p P HP). f_equal. symmetry.
    apply sent_total_ext. intros e He. unfold packet_len. cbn.
    rewrite lookup_insert_ne; [reflexivity|]. intros ->. exact (Hnot p P HP He).
  - intros p P e HP Hin. cbn in HP. cbn.
    rewrite lookup_insert_ne; [exact (Hh p P e HP Hin)|].
    intros ->. exact (Hnot p P HP Hin).
Qed.

Lemma Counted_put_peer d p P P' :
  Counted d -> peers d !! p = Some P ->
  stats_txBytes P' = stats_txBytes P -> sendLog P' = sendLog P ->
  Counted (put_peer p P' d).
Proof.
  intros [Hb Hh] HP Ht Hl. constructor.
  - intros q Q HQ. cbn in HQ. cbn. destruct (decide (q = p)) as [->|Hne].
    + rewrite lookup_insert_eq in HQ. injection HQ as <-. rewrite Ht, Hl. exact (Hb p P HP).
    + rewrite lookup_insert_ne in HQ by congruence. exact (Hb q Q HQ).
  - intros q Q e HQ Hin. cbn in HQ. cbn. destruct (decide (q = p)) as [->|Hne].
    + rewrite lookup_insert_eq in HQ. injection HQ as <-. rewrite Hl in Hin.
      exact (Hh p P e HP Hin).
    + rewrite lookup_insert_ne in HQ by congruence. exact (Hh q Q e HQ Hin).
Qed.

(** The sender has given the element [e] to [SendBuffer]. *)
Lemma Counted_log d p P P' e E (ok : bool) :
  Counted d -> peers d !! p = Some P -> elems d !! e = Some E ->
  sendLog P' = sendLog P ++ [(e, ok)] ->
  stats_txBytes P' = (if ok
                      then AddUint64 (stats_txBytes P) (Z.of_nat (slice_len (packet E)))
                      else stats_txBytes P) ->
  Counted (put_peer p P' d).
Proof.
  intros [Hb Hh] HP HE Hl Ht. constructor.
  - intros q Q HQ. cbn in HQ. cbn. destruct (decide (q = p)) as [->|Hne].
    + rewrite lookup_insert_eq in HQ. injection HQ as <-.
      rewrite Ht, Hl, sent_total_app, sent_total_cons. cbn [fst snd].
      unfold packet_len at 1. rewrite HE. cbn [from_option].
      rewrite (Hb p P HP). destruct ok.
      * unfold AddUint64. rewrite Zplus_mod_idemp_l. f_equal. cbn. lia.
      * f_equal. cbn. lia.
    + rewrite lookup_insert_ne in HQ by congruence. exact (Hb q Q HQ).
  - intros q Q x HQ Hin. cbn in HQ. cbn. destruct (decide (q = p)) as [->|Hne].
    + rewrite lookup_insert_eq in HQ. injection HQ as <-.
      rewrite Hl, fmap_app in Hin. apply elem_of_app in Hin as [Hin|Hin].
      * exact (Hh p P x HP Hin).
      * cbn in Hin. apply list_elem_of_singleton in Hin as ->. eauto.
    + rewrite lookup_insert_ne in HQ by congruence. exact (Hh q Q x HQ Hin).
Qed.

Lemma Counted_same d d' :
  Counted d -> peers d' = peers d -> elems d' = elems d -> Counted d'.
Proof.
  intros [Hb Hh] Hp He. constructor.
  - intros p P HP. rewrite Hp in HP. rewrite He. exact (Hb p P HP).
  - intros p P e HP Hin. rewrite Hp in HP. rewrite He. exact (Hh p P e HP Hin).
Qed.

Lemma Counted_set_tun d v : Counted d -> Counted (set_tun v d).
Proof. intros HC. eapply Counted_same; [exact HC | reflexivity..]. Qed.
Lemma Counted_set_keepalives d v : Counted d -> Counted (set_keepalives v d).
Proof. intros HC. eapply Counted_same; [exact HC | reflexivity..]. Qed.
Lemma Counted_set_queue_encryption d v : Counted d -> Counted (set_queue_encryption v d).
Proof. intros HC. eapply Counted_same; [exact HC | reflexivity..]. Qed.
Lemma Counted_set_workers d v : Counted d -> Counted (set_workers v d).
Proof. intros HC. eapply Counted_same; [exact HC | reflexivity..]. Qed.
Lemma Counted_set_keypairs d v : Counted d -> Counted (set_keypairs v d).
Proof. intros HC. eapply Counted_same; [exact HC | reflexivity..]. Qed.
Lemma Counted_set_sealed d v : Counted d -> Counted (set_sealed v d).
Proof. intros HC. eapply Counted_same; [exact HC | reflexivity..]. Qed.
Lemma Counted_set_tun_mtu d v : Counted d -> Counted (set_tun_mtu v d).
Proof. intros HC. eapply Counted_same; [exact HC | reflexivity..]. Qed.

(** Break a state down to the changes it is made of. *)
Ltac counted_frame :=
  repeat first
    [ assumption
    | apply Counted_set_tun | apply Counted_set_keepalives
    | apply Counted_set_queue_encryption | apply Counted_set_workers
    | apply Counted_set_keypairs | apply Counted_set_sealed | apply Counted_set_tun_mtu
    | eapply Counted_put_peer; [ | cbn; eassumption | reflexivity | reflexivity ]
    | eapply Counted_put_elem;
        [ | cbn; first [ eassumption
                       | rewrite lookup_insert_ne by congruence; eassumption ]
          | reflexivity ] ].

Lemma step_Counted l d d' :
  Inv d -> Late d -> Counted d -> step l d = Some d' -> Counted d'.
Proof.
  intros HI HL HC Hs. destruct l; cbn in Hs.
  - unfold env_new_peer in Hs. step_cases Hs; injection Hs as <-.
    destruct HC as [Hb Hh]. constructor.
    + intros q Q HQ. cbn in HQ. destruct (decide (q = p)) as [->|Hne].
      * rewrite lookup_insert_eq in HQ. injection HQ as <-. reflexivity.
      * rewrite lookup_insert_ne in HQ by congruence. exact (Hb q Q HQ).
    + intros q Q e HQ Hin. cbn in HQ. destruct (decide (q = p)) as [->|Hne].
      * rewrite lookup_insert_eq in HQ. injection HQ as <-. cbn in Hin. set_solver.
      * rewrite lookup_insert_ne in HQ by congruence. exact (Hh q Q e HQ Hin).
  - unfold env_spawn_worker in Hs. step_cases Hs; injection Hs as <-. counted_frame.
  - unfold env_new_keypair in Hs. step_cases Hs; injection Hs as <-. counted_frame.
  - unfold env_clear_keypair in Hs. step_cases Hs; injection Hs as <-. counted_frame.
  - unfold FlushNonceQueue in Hs. step_cases Hs; injection Hs as <-. counted_frame.
  - unfold env_stop in Hs. step_cases Hs; injection Hs as <-. counted_frame.
  - injection Hs as <-. counted_frame.
  - unfold tun_begin in Hs. step_cases Hs; injection Hs as <-.
    apply Counted_set_tun. apply Counted_put_elem_new; [exact HC | tauto].
  - unfold tun_read in Hs. destruct (tun d) as [|e| |] eqn:Ht; try discriminate.
    destruct (tun_elem_fresh d e HI (or_introl Ht)) as (E & HE & Hst).
    rewrite HE in Hs. cbn [mbind option_bind] in Hs.
    assert (Hun : forall X', Counted (put_elem e X' d)).
    { intros X'. apply Counted_put_elem_unsent; [exact HL | exact HC|].
      intros X HX. assert (X = E) by congruence. subst X. congruence. }
    step_cases Hs; injection Hs as <-;
      first [ apply Hun
            | apply Counted_set_tun; eapply Counted_put_peer;
              [ apply Hun | cbn; eassumption | reflexivity | reflexivity ] ].
  - unfold tun_read_error in Hs. step_cases Hs; injection Hs as <-. counted_frame.
  - unfold tun_add in Hs. step_cases Hs; injection Hs as <-; try solve [counted_frame].
    apply Counted_set_tun. apply Counted_put_elem_new.
    + counted_frame.
    + cbn. match goal with Hc : _ /\ _ |- _ => destruct Hc as [Hnone _] end.
      rewrite lookup_insert_ne; [exact Hnone|]. intros ->. congruence.
  - unfold keepalive_make in Hs. step_cases Hs; injection Hs as <-;
      first [ exact HC
            | apply Counted_set_keepalives; apply Counted_put_elem_new; [exact HC | tauto] ].
  - unfold keepalive_send in Hs. step_cases Hs; injection Hs as <-; counted_frame.
  - unfold seq_step in Hs.
    destruct (peers d !! p) as [P|] eqn:HP; [|discriminate].
    cbn [mbind option_bind] in Hs.
    destruct (seq_pc P) as [|e|e| |e pc|e pc|]; [| | | | | |discriminate].
    + step_cases Hs; injection Hs as <-; counted_frame.
    + destruct (elems d !! e) as [E|] eqn:HE; [|discriminate].
      cbn [mbind option_bind] in Hs.
      assert (Hawait : forall P', stats_txBytes P' = stats_txBytes P ->
                sendLog P' = sendLog P -> Counted (put_peer p P' d)).
      { intros P' H1 H2. eapply Counted_put_peer; eauto. }
      destruct (keyPairs_current P) as [k|]; cbn [mbind option_bind] in Hs;
        [|injection Hs as <-; now apply Hawait].
      destruct (keypairs d !! k) as [K|]; cbn [mbind option_bind] in Hs;
        [|injection Hs as <-; now apply Hawait].
      destruct (usable K now); [|injection Hs as <-; now apply Hawait].
      destruct (fetch_nonce K) as [K' n]. unfold seq_submit in Hs.
      step_cases Hs; injection Hs as <-; counted_frame.
    + step_cases Hs; injection Hs as <-; counted_frame.
    + step_cases Hs; injection Hs as <-; counted_frame.
    + destruct pc; step_cases Hs; injection Hs as <-; counted_frame.
    + destruct pc; step_cases Hs; injection Hs as <-; counted_frame.
  - unfold worker_pop in Hs. step_cases Hs; injection Hs as <-; counted_frame.
  - unfold worker_seal in Hs.
    destruct (workers d !! w) as [W|] eqn:HW; [|discriminate]. cbn [mbind option_bind] in Hs.
    destruct (w_elem W) as [e|] eqn:Hhold; [|discriminate]. cbn [mbind option_bind] in Hs.
    destruct (inv_work d HI w W e HW Hhold) as (E & HE & HstE).
    rewrite HE in Hs. cbn [mbind option_bind] in Hs.
    destruct (keyPair E) as [k|]; [|discriminate]. cbn [mbind option_bind] in Hs.
    destruct (keypairs d !! k) as [K|]; [|discriminate]. cbn [mbind option_bind] in Hs.
    destruct (mutex E); [|discriminate].
    destruct (encrypt_element _ _ _ _) as [wn E']. injection Hs as <-.
    apply Counted_set_sealed. apply Counted_set_workers.
    apply Counted_put_elem_unsent; [exact HL | exact HC|].
    intros X HX. assert (X = E) by congruence. subst X. congruence.
  - unfold snd_step in Hs.
    destruct (peers d !! p) as [P|] eqn:HP; [|discriminate].
    cbn [mbind option_bind] in Hs.
    destruct (snd_pc P) as [|e|] eqn:Hpc; [| |discriminate].
    + step_cases Hs; injection Hs as <-; counted_frame.
    + destruct (elems d !! e) as [E|] eqn:HE; [|discriminate].
      cbn [mbind option_bind] in Hs.
      destruct (mutex E); [discriminate|].
      unfold IsDropped in Hs. cbn [dropped Lock] in Hs.
      destruct (dropped E); [injection Hs as <-; counted_frame|].
      destruct res; injection Hs as <-.
      * eapply Counted_put_elem; [|cbn; exact HE | reflexivity].
        eapply (Counted_log d p P _ e E false); [exact HC | exact HP | exact HE | |];
          reflexivity.
      * eapply Counted_put_elem; [|cbn; exact HE | reflexivity].
        eapply (Counted_log d p P _ e E true); [exact HC | exact HP | exact HE | |];
          reflexivity.
Qed.

Lemma initial_Counted mtu : Counted (initial_device mtu).
Proof.
  constructor; intros p P; cbn; rewrite lookup_empty; discriminate.
Qed.

Lemma reachable_Counted d : reachable d -> Counted d.
Proof.
  induction 1 as [mtu|l d d' Hr IH Hs]; [apply initial_Counted|].
  eapply step_Counted;
    [apply reachable_Inv; exact Hr | apply reachable_Late; exact Hr | exact IH | exact Hs].
Qed.

(** [stats.txBytes] of a peer is, as a [uint64], the sum of the lengths of
    the datagrams its sender gave to [SendBuffer] with success; a send
    that failed and an element that was dropped count for nothing. *)
Theorem txBytes_counts_sent_datagrams d p P :
  reachable d -> peers d !! p = Some P ->
  stats_txBytes P = sent_total (elems d) (sendLog P) mod 2 ^ 64
  /\ forall e ok, (e, ok) ∈ sendLog P -> is_Some (elems d !! e).
Proof.
  intros Hr HP. pose proof (reachable_Counted d Hr) as HC. split.
  - exact (counted_bytes d HC p P HP).
  - intros e ok Hin. apply (counted_heap d HC p P e HP).
    apply list_elem_of_fmap. exists (e, ok). split; [reflexivity | exact Hin].
Qed.

End Count.

Lemma txBytes_counts_sent_datagrams_witness :
  exists d P,
    @run sample_constants schedule_two_sent (@initial_device sample_constants 64) = Some d
    /\ peers d !! 0%nat = Some P
    /\ stats_txBytes P = 128
    /\ sent_total (elems d) (sendLog P) = 128.
Proof.
  destruct (@run sample_constants schedule_two_sent (@initial_device sample_constants 64))
    as [d|] eqn:Hrun; [|vm_compute in Hrun; discriminate].
  assert (Hr : @reachable sample_constants d).
  { eapply OrderFacts.run_reachable; [apply reachable_init | exact Hrun]. }
  destruct (peers d !! 0%nat) as [P|] eqn:HP;
    [|exfalso; vm_compute in Hrun; injection Hrun as <-; vm_compute in HP; discriminate].
  destruct (@txBytes_counts_sent_datagrams sample_constants d 0%nat P Hr HP) as [Hb _].
  assert (Hsum : sent_total (elems d) (sendLog P) = 128).
  { vm_compute in Hrun. injection Hrun as <-. vm_compute in HP. injection HP as <-.
    vm_compute. reflexivity. }
  exists d, P. split; [reflexivity|]. split; [exact HP|]. split; [|exact Hsum].
  rewrite Hb, Hsum. reflexivity.
Defined.

End CountFacts.

(** ** The datagrams of a run *)

Module DatagramFacts.
Import Wire WireFacts Send EncryptFacts PipelineFacts PipelineSteps PipelineSteps2.
Import NonceFacts NonceSteps ReadyFacts LateFacts ReadySteps.

Section Datagrams.
Context `{Constants}.

(** The bytes a worker leaves in the packet of an element. *)
Lemma encrypt_element_bytes mtu (K : Keypair) wn E :
  packet_ok E -> worker_nonce_ok wn ->
  let wn' := [0; 0; 0; 0] ++ le_digits 8 (nonce E) in
  let E' := (encrypt_element mtu K wn E).2 in
  slice_bytes (buffer E') (packet E')
  = [4; 0; 0; 0] ++ le_digits 4 (remoteIndex K) ++ le_digits 8 (nonce E)
    ++ Seal (send K) wn'
         (slice_bytes (buffer E) (packet E)
            ++ replicate (pad_count mtu (slice_len (packet E))) 0) [].
Proof.
  intros Hpk [Hwl Hwz] wn' E'.
  pose proof (packet_ok_slice_ok E Hpk) as Hok. destruct Hpk as [Hhdr _].
  assert (Hwn : write_at 4 (PutUint64 (nonce E)) wn = wn').
  { rewrite write_at_spec by (cbn; unfold NonceSize in Hwl; lia).
    rewrite Hwz, PutUint64_le. cbn [length le_digits].
    rewrite drop_ge by (unfold NonceSize in Hwl; lia). now rewrite app_nil_r. }
  set (buf3 := write_at 8 (PutUint64 (nonce E))
                 (write_at 4 (PutUint32 (remoteIndex K))
                    (write_at 0 (PutUint32 MessageTransportType) (buffer E)))).
  assert (Hl3 : length buf3 = length (buffer E)).
  { subst buf3. now rewrite !write_at_length. }
  assert (Hok3 : slice_ok buf3 (packet E)).
  { unfold slice_ok in *. destruct (packet E); try exact I. now rewrite Hl3. }
  assert (Hb3 : slice_bytes buf3 (packet E) = slice_bytes (buffer E) (packet E)).
  { destruct (packet E) as [|o n|d]; cbn [slice_bytes]; try reflexivity.
    destruct Hok as [Ho _]. unfold MessageTransportHeaderSize in Ho.
    unfold buf3. do 3 (rewrite subslice_write_before by (cbn; lia)). reflexivity. }
  assert (Hh3 : take MessageTransportHeaderSize buf3
                = [4; 0; 0; 0] ++ le_digits 4 (remoteIndex K) ++ le_digits 8 (nonce E)).
  { subst buf3. unfold MessageTransportHeaderSize in *.
    rewrite header_written; [|reflexivity..|exact Hhdr].
    now rewrite !PutUint32_le, PutUint64_le. }
  destruct (pad_packet_spec mtu buf3 (packet E) Hok3)
    as (k & Hpb & _ & _ & Hpt & Hpl & Hz & Hnz).
  assert (Hk : k = pad_count mtu (slice_len (packet E))).
  { unfold pad_count. case_decide as Hm; [now apply Hz | ].
    rewrite <- (Hnz Hm). now rewrite Nat2Z.id. }
  subst E'. unfold encrypt_element. fold buf3. rewrite Hwn.
  destruct (pad_packet mtu buf3 (packet E)) as [b4 p4]. cbn [fst snd] in *.
  pose proof (seal_append_bytes b4 (Seal (send K) wn' (slice_bytes b4 p4) [])
    ltac:(lia)) as Hsa.
  destruct (seal_append b4 _) as [b5 p5]. cbn [fst snd] in *.
  cbn. rewrite Hsa, Hpt, Hh3, Hpb, Hb3, Hk. now rewrite <- !app_assoc.
Qed.

(** A keepalive, whose packet is [nil], is sealed as the empty plaintext
    whatever the MTU: its datagram is the header followed by what [Seal]
    makes of no bytes at all. *)
Theorem keepalive_datagram mtu (K : Keypair) wn E :
  packet E = SliceNil -> (MessageTransportHeaderSize <= length (buffer E))%nat ->
  worker_nonce_ok wn ->
  let E' := (encrypt_element mtu K wn E).2 in
  slice_bytes (buffer E') (packet E')
  = [4; 0; 0; 0] ++ le_digits 4 (remoteIndex K) ++ le_digits 8 (nonce E)
    ++ Seal (send K) ([0; 0; 0; 0] ++ le_digits 8 (nonce E)) [] [].
Proof.
  intros Hnil Hbuf Hwn E'.
  assert (Hpk : packet_ok E) by (split; [exact Hbuf | now rewrite Hnil]).
  unfold E'. rewrite (encrypt_element_bytes mtu K wn E Hpk Hwn).
  rewrite Hnil. cbn [slice_bytes slice_len]. unfold pad_count.
  rewrite decide_True by reflexivity. reflexivity.
Qed.

Section Bounded.
Hypothesis Hreject : RejectAfterMessages < 2 ^ 64.
Hypothesis Hsize : (MessageTransportHeaderSize <= MaxMessageSize)%nat.

(** Whenever a worker seals an element, in any run of the device, the
    element leaves with the transport message in its packet: type 4, the
    remote index of its key pair and its nonce, which is below
    [RejectAfterMessages], then the output of [Seal] for that nonce and
    the zero-padded bytes the TUN reader put there. *)
Theorem every_sealed_datagram d w d' :
  reachable d -> worker_seal w d = Some d' ->
  exists W e E k K E',
    workers d !! w = Some W /\ w_elem W = Some e /\ elems d !! e = Some E
    /\ keyPair E = Some k /\ keypairs d !! k = Some K
    /\ elems d' !! e = Some E'
    /\ 0 <= nonce E < RejectAfterMessages
    /\ sealed d' = (k, nonce E) :: sealed d
    /\ slice_bytes (buffer E') (packet E')
       = [4; 0; 0; 0] ++ le_digits 4 (remoteIndex K) ++ le_digits 8 (nonce E)
         ++ Seal (send K) ([0; 0; 0; 0] ++ le_digits 8 (nonce E))
              (slice_bytes (buffer E) (packet E)
                 ++ replicate (pad_count (tun_mtu d) (slice_len (packet E))) 0) [].
Proof.
  intros Hr Hs.
  pose proof (reachable_Inv d Hr) as HI.
  pose proof (reachable_NonceInv Hreject d Hr) as HN.
  pose proof (reachable_Ready Hsize d Hr) as HR.
  unfold worker_seal in Hs.
  destruct (workers d !! w) as [W|] eqn:HW; [|discriminate]. cbn [mbind option_bind] in Hs.
  destruct (w_elem W) as [e|] eqn:Hhold; [|discriminate]. cbn [mbind option_bind] in Hs.
  destruct (inv_work d HI w W e HW Hhold) as (E & HE & Hst).
  rewrite HE in Hs. cbn [mbind option_bind] in Hs.
  destruct (keyPair E) as [k|] eqn:Hk; [|discriminate]. cbn [mbind option_bind] in Hs.
  destruct (keypairs d !! k) as [K|] eqn:HK; [|discriminate].
  cbn [mbind option_bind] in Hs.
  destruct (mutex E); [|discriminate].
  pose proof (inv_elems d HI e E HE) as (_ & _ & Hun & _).
  assert (Hu : unlocks E = 0%nat) by (apply Hun; congruence).
  pose proof (proj1 (ready_elems d HR e E HE) Hu) as Hpk.
  pose proof (ready_workers d HR w W HW) as Hwn.
  pose proof (encrypt_element_bytes (tun_mtu d) K (w_nonce W) E Hpk Hwn) as Hbytes.
  cbn zeta in Hbytes.
  destruct (encrypt_element (tun_mtu d) K (w_nonce W) E) as [wn E'].
  cbn [snd] in Hbytes. injection Hs as <-.
  destruct (ninv_elems _ _ _ HN e E HE) as (k0 & Hk0 & (K0 & HK0 & Hn0 & Hn1) & _);
    [now rewrite Hst|].
  exists W, e, E, k, K, (set_stage Finished E').
  split; [reflexivity|]. split; [exact Hhold|]. split; [exact HE|].
  split; [exact Hk|]. split; [exact HK|].
  split; [cbn; apply lookup_insert_eq|]. split; [lia|].
  split; [reflexivity | exact Hbytes].
Qed.

End Bounded.

End Datagrams.

Lemma keepalive_datagram_witness :
  let E := set_data sample_buffer SliceNil (NewOutboundElement sample_buffer) in
  let E' := (@encrypt_element sample_constants 64 sample_keypair (replicate 12 0) E).2 in
  slice_bytes (buffer E') (packet E')
  = [4; 0; 0; 0; 7; 0; 0; 0; 0; 0; 0; 0; 0; 0; 0; 0] ++ replicate 16 0.
Proof.
  intros E E'.
  pose proof (@keepalive_datagram sample_constants 64 sample_keypair (replicate 12 0) E
                eq_refl ltac:(vm_compute; lia) ltac:(split; reflexivity)) as Hk.
  cbn zeta in Hk. fold E' in Hk. rewrite Hk. reflexivity.
Defined.

Lemma every_sealed_datagram_witness :
  exists d d' E',
    @run sample_constants schedule_at_work (@initial_device sample_constants 64) = Some d
    /\ @worker_seal sample_constants 0 d = Some d'
    /\ elems d' !! 0%nat = Some E'
    /\ take 16 (slice_bytes (buffer E') (packet E'))
       = [4; 0; 0; 0; 7; 0; 0; 0; 0; 0; 0; 0; 0; 0; 0; 0]
    /\ length (slice_bytes (buffer E') (packet E')) = 64%nat.
Proof.
  destruct (@run sample_constants schedule_at_work (@initial_device sample_constants 64))
    as [d|] eqn:Hrun; [|vm_compute in Hrun; discriminate].
  assert (Hr : @reachable sample_constants d).
  { eapply OrderFacts.run_reachable; [apply reachable_init | exact Hrun]. }
  destruct (@worker_seal sample_constants 0 d) as [d'|] eqn:Hs;
    [|exfalso; vm_compute in Hrun; injection Hrun as <-; vm_compute in Hs; discriminate].
  destruct (@every_sealed_datagram sample_constants
              ltac:(vm_compute; reflexivity) ltac:(vm_compute; lia) d 0%nat d' Hr Hs)
    as (W & e & E & k & K & E' & HW & Hhold & HE & Hk & HK & HE' & _ & _ & Hbytes).
  assert (He : e = 0%nat).
  { vm_compute in Hrun. injection Hrun as <-. vm_compute in HW. injection HW as <-.
    vm_compute in Hhold. now injection Hhold as <-. }
  subst e.
  exists d, d', E'. split; [reflexivity|]. split; [exact Hs|]. split; [exact HE'|].
  rewrite Hbytes. clear Hbytes Hs HE' Hr.
  vm_compute in Hrun. injection Hrun as <-.
  vm_compute in HE. injection HE as <-. vm_compute in Hk. injection Hk as <-.
  vm_compute in HK. injection HK as <-.
  split; vm_compute; reflexivity.
Defined.

End DatagramFacts.

(** ** The TUN device of the tests *)

Module DummyFacts.
Import Wire WireFacts Dummy.

Lemma write_all_packets ws : forall tun,
  Forall (fun w => offset_ok w.1 w.2) ws ->
  (length (packets tun) + length ws <= packets_capacity)%nat ->
  write_all ws tun
  = Returns (mkDummy (name tun) (mtu tun)
               (packets tun ++ map (fun w => drop (Z.to_nat w.2) w.1) ws)).
Proof.
  induction ws as [|[d off] ws IH]; intros tun Hok Hcap.
  - cbn. rewrite app_nil_r. now destruct tun.
  - apply Forall_cons in Hok as [Hd Hok]. cbn in Hd, Hcap. cbn [write_all].
    unfold Write. rewrite decide_True by exact Hd.
    rewrite decide_True by lia.
    rewrite IH; [|exact Hok | cbn; rewrite length_app; cbn; lia].
    cbn. now rewrite <- app_assoc.
Qed.

Lemma read_all_packets rs : forall tun ps,
  packets tun = ps -> length rs = length ps ->
  Forall (fun r => offset_ok r.1 r.2) rs ->
  read_all rs tun
  = Returns (zip_with (fun p r => (Z.of_nat (length p), write_at (Z.to_nat r.2) p r.1)) ps rs,
             mkDummy (name tun) (mtu tun) []).
Proof.
  induction rs as [|[d off] rs IH]; intros tun ps Hp Hlen Hok.
  - destruct ps; [|discriminate]. cbn. destruct tun. cbn in Hp. now subst.
  - destruct ps as [|p ps]; [discriminate|].
    apply Forall_cons in Hok as [Hd Hok]. cbn in Hd. cbn [read_all].
    unfold Read. rewrite Hp. rewrite decide_True by exact Hd.
    rewrite (IH _ ps); [reflexivity | reflexivity | cbn in Hlen; lia | exact Hok].
Qed.

(** Packets come out of the dummy TUN in the order they went in.  Up to
    100 writes to a new device return without blocking, and as many reads
    then return, each the length of the payload [d[offset:]] of the write
    of the same rank and, in its buffer from its own offset on, the bytes
    of that payload; the channel is empty again afterwards. *)
Theorem DummyTUN_first_in_first_out nm ws rs :
  (length ws <= 100)%nat -> length rs = length ws ->
  Forall (fun w => offset_ok w.1 w.2) ws ->
  Forall (fun r => offset_ok r.1 r.2) rs ->
  exists tun,
    write_all ws (CreateDummyTUN nm) = Returns tun
    /\ read_all rs tun
       = Returns (zip_with (fun w r =>
                    let payload := drop (Z.to_nat w.2) w.1 in
                    (Z.of_nat (length payload), write_at (Z.to_nat r.2) payload r.1))
                    ws rs,
                  CreateDummyTUN nm).
Proof.
  intros Hn Hlen Hws Hrs. eexists. split.
  - apply write_all_packets; [exact Hws | cbn; unfold packets_capacity; lia].
  - rewrite (read_all_packets rs _ (map (fun w => drop (Z.to_nat w.2) w.1) ws));
      [|reflexivity | now rewrite length_map | exact Hrs].
    cbn. f_equal. f_equal.
    clear. revert rs. induction ws as [|w ws IH]; intros [|r rs]; cbn; try reflexivity.
    now rewrite IH.
Qed.

(** A write past the end of the buffer changes nothing, and a write that
    runs over the end stops there, as [copy] does. *)
Lemma write_at_out bs : forall off buf,
  (length buf <= off)%nat -> write_at off bs buf = buf.
Proof.
  induction bs as [|b bs IH]; intros off buf Hge; cbn; [reflexivity|].
  rewrite list_insert_ge by lia. apply IH. lia.
Qed.

Lemma write_at_copy off bs buf :
  (off <= length buf)%nat ->
  write_at off bs buf
  = take off buf ++ take (length buf - off) bs ++ drop (off + length bs) buf.
Proof.
  intros Hoff. destruct (decide (off + length bs <= length buf)%nat) as [Hfit|Hover].
  - rewrite write_at_spec by exact Hfit. now rewrite (take_ge bs) by lia.
  - rewrite <- (take_drop (length buf - off) bs) at 1.
    rewrite EncryptFacts.write_at_app.
    rewrite write_at_out by (rewrite write_at_length; rewrite length_take; lia).
    rewrite write_at_spec by (rewrite length_take; lia).
    rewrite length_take. rewrite (drop_ge buf (off + length bs)) by lia.
    rewrite drop_ge by lia. reflexivity.
Qed.

(** [Read] takes the oldest packet off the channel and returns its length
    whatever the room in the buffer: the buffer gets the packet from the
    offset on, cut at the end of the buffer, so with too little room the
    caller is told of more bytes than it was given. *)
Theorem DummyTUN_Read_copies tun t q buf offset :
  packets tun = t :: q -> offset_ok buf offset ->
  exists buf',
    Read buf offset tun
    = Returns (Z.of_nat (length t), buf', mkDummy (name tun) (mtu tun) q)
    /\ length buf' = length buf
    /\ buf' = take (Z.to_nat offset) buf
              ++ take (length buf - Z.to_nat offset) t
              ++ drop (Z.to_nat offset + length t) buf.
Proof.
  intros Hp Hok. unfold Read. rewrite Hp. rewrite decide_True by exact Hok.
  eexists. split; [reflexivity|]. split; [apply write_at_length|].
  apply write_at_copy. unfold offset_ok in Hok. lia.
Qed.

(** With the dummy TUN of the tests, whose MTU is zero, the encryption
    worker pads nothing. *)
Theorem DummyTUN_no_padding nm buf s :
  Send.pad_packet (MTU (CreateDummyTUN nm)) buf s = (buf, s).
Proof.
  unfold Send.pad_packet. case_decide as Hrem; [|reflexivity].
  apply PaddingFacts.pad_loop_stop. cbn. lia.
Qed.

Lemma DummyTUN_first_in_first_out_witness :
  exists tun,
    write_all [([9; 1; 2], 1); ([3; 4], 0)] (CreateDummyTUN [100]) = Returns tun
    /\ read_all [([0; 0; 0; 0], 2); ([7; 7; 7], 0)] tun
       = Returns ([(2, [0; 0; 1; 2]); (2, [3; 4; 7])], CreateDummyTUN [100]).
Proof.
  destruct (DummyTUN_first_in_first_out [100] [([9; 1; 2], 1); ([3; 4], 0)]
              [([0; 0; 0; 0], 2); ([7; 7; 7], 0)])
    as (tun & Hw & Hr).
  - cbn. lia.
  - reflexivity.
  - repeat constructor; cbn; lia.
  - repeat constructor; cbn; lia.
  - exists tun. split; [exact Hw | exact Hr].
Defined.

Lemma DummyTUN_Read_copies_witness :
  exists buf',
    Read [0; 0; 0] 1 (mkDummy [] 0 [[5; 6; 7; 8]]) = Returns (4, buf', mkDummy [] 0 [])
    /\ buf' = [0; 5; 6].
Proof.
  destruct (DummyTUN_Read_copies (mkDummy [] 0 [[5; 6; 7; 8]]) [5; 6; 7; 8] [] [0; 0; 0] 1
              eq_refl ltac:(unfold offset_ok; cbn; lia))
    as (buf' & Hr & _ & Hb).
  exists buf'. split; [exact Hr | exact Hb].
Defined.

End DummyFacts.

(** ** The sockets of the bind *)

Module SocketFacts.
Import Wire Sockets.

Section Calls.
Variable kernel : Kernel.

(** Take apart the answers of the kernel on which the code branches. *)
Ltac answer :=
  match goal with
  | |- context [err (kernel ?t ?c)] => destruct (kernel t c) as [? [?|]]
  end.

(** [CreateBind] leaves no descriptor behind when it fails: every socket
    it got from [unix.Socket], in itself or in [create6], [create4] and
    [createNetlinkRouteSocket], has been closed, once, by the time it
    returns an error, and the port it returns is 0.  When it succeeds it
    has closed nothing, the bind holds the three descriptors and the port
    is the one asked for. *)
Theorem CreateBind_leaves_no_descriptor port tr0 :
  0 <= port < 2 ^ 16 ->
  exists evs,
    (CreateBind kernel port tr0).1 = tr0 ++ evs
    /\ match (CreateBind kernel port tr0).2 with
       | (Some b, p, None) =>
           p = port /\ closed evs = []
           /\ opened evs = [netlinkSock b; sock6 b; sock4 b]
           /\ lastEndpoint b = None /\ lastMark b = 0
       | (None, _, None) => False
       | (_, p, Some _) => p = 0 /\ closed evs ≡ₚ opened evs
       end.
Proof.
  intros Hport.
  unfold CreateBind, createNetlinkRouteSocket, create6, create4, bind, sys, ret.
  repeat (answer; cbn);
    try (eexists; split; [rewrite <- ?app_assoc; reflexivity|]; cbn;
     first [ split; [reflexivity | solve_Permutation]
           | repeat split; unfold uint16; rewrite ?Z.mod_small by lia;
             rewrite ?Z.mod_small by lia; reflexivity ]).
  eexists. split; [rewrite <- ?app_assoc; reflexivity|].
  unfold uint16. rewrite !(Z.mod_small port) by lia. repeat split.
Qed.

(** [Close] shuts down and closes all three sockets, [sock6], [sock4] and
    the netlink socket in that order, whatever the kernel answers; the
    errors of the shutdowns are ignored and the result is the error of the
    first close that failed. *)
Theorem Close_closes_every_socket b tr0 :
  exists r1 r2 r3 r4 r5 r6,
    (Close kernel b tr0).1
    = tr0 ++ [ (SysShutdown (sock6 b) SHUT_RD, r1); (SysClose (sock6 b), r2);
               (SysShutdown (sock4 b) SHUT_RD, r3); (SysClose (sock4 b), r4);
               (SysShutdown (netlinkSock b) SHUT_RD, r5);
               (SysClose (netlinkSock b), r6) ]
    /\ (Close kernel b tr0).2
       = match err r2, err r4 with
         | Some e, _ => Some e
         | None, Some e => Some e
         | None, None => err r6
         end.
Proof.
  unfold Close, closeUnblock, bind, sys, ret. cbn.
  repeat (answer; cbn);
    eexists _, _, _, _, _, _;
    (split; [rewrite <- !app_assoc; reflexivity | reflexivity]).
Qed.

(** [SetMark] marks [sock6], then [sock4], and records the mark in
    [lastMark] only when both calls succeeded.  When the first fails the
    second is not made; when the second fails [sock6] keeps the new mark
    while [lastMark] keeps the old one.  The descriptors of the bind are
    never changed. *)
Theorem SetMark_records_after_both value b tr0 :
  let r := SetMark kernel value b tr0 in
  let m6 := SysSetsockoptInt (sock6 b) SOL_SOCKET SO_MARK value in
  let m4 := SysSetsockoptInt (sock4 b) SOL_SOCKET SO_MARK value in
  sock4 r.2.1 = sock4 b /\ sock6 r.2.1 = sock6 b /\ netlinkSock r.2.1 = netlinkSock b
  /\ lastEndpoint r.2.1 = lastEndpoint b
  /\ match r.2.2 with
     | None =>
         lastMark r.2.1 = value
         /\ exists v6 v4, r.1 = tr0 ++ [(m6, mkRes v6 None); (m4, mkRes v4 None)]
     | Some e =>
         lastMark r.2.1 = lastMark b
         /\ ((exists v6, r.1 = tr0 ++ [(m6, mkRes v6 (Some e))])
             \/ (exists v6 v4, r.1 = tr0 ++ [(m6, mkRes v6 None); (m4, mkRes v4 (Some e))]))
     end.
Proof.
  unfold SetMark, bind, sys, ret. cbn.
  repeat (answer; cbn); repeat split; rewrite <- ?app_assoc; cbn; eauto.
Qed.

End Calls.

Lemma CreateBind_leaves_no_descriptor_witness :
  let r := CreateBind sample_kernel 51820 [] in
  r.2 = (Some (mkBind (-1) 4 3 None 0), 0, Some 98)
  /\ opened r.1 = [3; 4; 5]
  /\ closed r.1 ≡ₚ opened r.1.
Proof.
  intros r.
  destruct (CreateBind_leaves_no_descriptor sample_kernel 51820 [] ltac:(lia))
    as (evs & Htr & Hres).
  fold r in Htr, Hres. cbn [app] in Htr.
  assert (Hr2 : r.2 = (Some (mkBind (-1) 4 3 None 0), 0, Some 98)) by reflexivity.
  rewrite Hr2 in Hres. destruct Hres as [_ Hperm].
  split; [exact Hr2|]. rewrite Htr. split; [|exact Hperm].
  rewrite <- Htr. reflexivity.
Defined.

End SocketFacts.

(** ** Receiving, then sending: the sticky source *)

Module ReceiveFacts.
Import Wire Bind Receive WireFacts.

Lemma int32_of_bytes v :
  - 2 ^ 31 <= v < 2 ^ 31 -> int32_of (int32_bytes v) = v.
Proof.
  intros Hv. unfold int32_of, int32_bytes. rewrite le_value_digits.
  change (256 ^ Z.of_nat 4) with (2 ^ 32).
  destruct (decide (0 <= v)) as [Hpos|Hneg].
  - rewrite Z.mod_small by lia. case_decide; lia.
  - replace (v mod 2 ^ 32) with (v + 2 ^ 32).
    + case_decide; lia.
    + apply Z.mod_unique with (q := -1); lia.
Qed.

Section Send.
Variable kernel : Kernel.

(** The first call of [Send] is the first thing it adds to the trace. *)
Lemma Send_first sock4 sock6 buff e tr :
  exists rest,
    (Send kernel sock4 sock6 buff e tr).1 = tr ++ first_call sock4 sock6 buff e :: rest.
Proof.
  unfold Send, first_call. destruct (isV6 e); cbn [negb].
  - unfold send6, bind, SendmsgN, ret. cbn.
    destruct (kernel tr _) as [errno|]; [|eexists; reflexivity].
    case_decide; [|eexists; reflexivity].
    eexists. cbn. rewrite <- app_assoc. reflexivity.
  - unfold send4, bind, SendmsgN, ret. cbn.
    destruct (kernel tr _) as [errno|]; [|eexists; reflexivity].
    case_decide; [|eexists; reflexivity].
    eexists. cbn. rewrite <- app_assoc. reflexivity.
Qed.

(** The reply to a datagram received on the IPv4 socket leaves from where
    the datagram came in.  When [unix.Recvmsg] gave the sender and a packet
    info with the local address [spec_dst] and the interface [ifindex], the
    endpoint [ReceiveIPv4] returns makes [Send] call [sendmsg] first on the
    IPv4 socket, to the sender, with exactly that address and interface as
    the packet info: the interface survives being kept as four bytes of
    [src]. *)
Theorem ReceiveIPv4_then_Send_is_sticky r port addr sock4 sock6 buff tr :
  recv_err r = None ->
  recv_from r = SockaddrInet4 port addr ->
  Level (recv_cmsg r) = IPPROTO_IP ->
  Type_ (recv_cmsg r) = IP_PKTINFO ->
  Len (recv_cmsg r) >= SizeofInet4Pktinfo ->
  length (pktinfo_Addr (recv_cmsg r)) = 4%nat ->
  - 2 ^ 31 <= pktinfo_Ifindex (recv_cmsg r) < 2 ^ 31 ->
  exists e rest,
    ReceiveIPv4 r = (recv_size r, e, None)
    /\ (Send kernel sock4 sock6 buff e tr).1
       = tr ++ mkCall sock4 buff
                 (mkCmsg IPPROTO_IP IP_PKTINFO (SizeofInet4Pktinfo + SizeofCmsghdr)
                    (pktinfo_Addr (recv_cmsg r)) (pktinfo_Ifindex (recv_cmsg r)))
                 (port, addr, 0) :: rest.
Proof.
  intros Herr Hfrom Hlevel Htype Hlen Haddr Hidx.
  unfold ReceiveIPv4, receive4. rewrite Herr, Hfrom.
  rewrite !bool_decide_eq_true_2 by assumption. cbn [andb].
  set (e := mkEndpoint _ _ _ _ _).
  destruct (Send_first sock4 sock6 buff e tr) as [rest Hsend].
  exists e, rest. split; [reflexivity|]. rewrite Hsend.
  unfold first_call. cbn [isV6 e dst_Port dst_Addr].
  assert (Hs : src4_src e = pktinfo_Addr (recv_cmsg r)).
  { unfold src4_src, e. cbn [src zero_endpoint4].
    unfold subslice. rewrite !write_at_spec
      by (rewrite ?write_at_length, ?length_replicate, ?le_digits_length, ?Haddr;
          unfold int32_bytes; rewrite ?le_digits_length; cbn; lia).
    cbn [take drop app]. rewrite Haddr. cbn [Nat.add].
    destruct (pktinfo_Addr (recv_cmsg r)) as [|a [|b [|c [|d [|]]]]]; try discriminate.
    reflexivity. }
  assert (Hi : src4_ifindex e = pktinfo_Ifindex (recv_cmsg r)).
  { unfold src4_ifindex, e. cbn [src zero_endpoint4].
    rewrite <- (int32_of_bytes (pktinfo_Ifindex (recv_cmsg r))) at 2 by exact Hidx.
    f_equal.
    change 4%nat with (length (int32_bytes (pktinfo_Ifindex (recv_cmsg r)))) at 2.
    apply subslice_write_at.
    rewrite write_at_length, length_replicate. cbn. lia. }
  rewrite Hs, Hi. reflexivity.
Qed.

(** The same for the IPv6 socket: the local address goes out as the
    address of the packet info, and the interface both as its interface
    and as the zone of the destination, whatever zone the sender's address
    came with.  Only when the local address is all zero is the interface of
    the packet info 0. *)
Theorem ReceiveIPv6_then_Send_is_sticky r port zone addr sock4 sock6 buff tr :
  recv_err r = None ->
  recv_from r = SockaddrInet6 port zone addr ->
  Level (recv_cmsg r) = IPPROTO_IPV6 ->
  Type_ (recv_cmsg r) = IPV6_PKTINFO ->
  Len (recv_cmsg r) >= SizeofInet6Pktinfo ->
  length (pktinfo_Addr (recv_cmsg r)) = 16%nat ->
  exists e rest,
    ReceiveIPv6 r = (recv_size r, e, None)
    /\ (Send kernel sock4 sock6 buff e tr).1
       = tr ++ mkCall sock6 buff
                 (mkCmsg IPPROTO_IPV6 IPV6_PKTINFO (SizeofInet6Pktinfo + SizeofCmsghdr)
                    (pktinfo_Addr (recv_cmsg r))
                    (if decide (pktinfo_Addr (recv_cmsg r) = replicate 16 0)
                     then 0 else pktinfo_Ifindex (recv_cmsg r)))
                 (port, addr, pktinfo_Ifindex (recv_cmsg r)) :: rest.
Proof.
  intros Herr Hfrom Hlevel Htype Hlen Haddr.
  unfold ReceiveIPv6, receive6. rewrite Herr, Hfrom.
  rewrite !bool_decide_eq_true_2 by assumption. cbn [andb].
  set (e := mkEndpoint _ _ _ _ _).
  destruct (Send_first sock4 sock6 buff e tr) as [rest Hsend].
  exists e, rest. split; [reflexivity|]. rewrite Hsend.
  unfold first_call. cbn [isV6 e dst_Port dst_Addr dst_ZoneId].
  assert (Hs : src6_src e = pktinfo_Addr (recv_cmsg r)).
  { unfold src6_src, e. cbn [src zero_endpoint6].
    rewrite <- Haddr at 1. apply subslice_write_at.
    rewrite length_replicate, Haddr. lia. }
  rewrite Hs. reflexivity.
Qed.

End Send.

Lemma ReceiveIPv4_then_Send_is_sticky_witness :
  exists e rest,
    ReceiveIPv4 sample_recv4 = (148, e, None)
    /\ (Send sample_kernel 4 6 [1; 2; 3] e []).1
       = mkCall 4 [1; 2; 3] (mkCmsg 0 8 28 [10; 0; 0; 9] 3) (51820, [192; 0; 2; 1], 0) :: rest.
Proof.
  exact (ReceiveIPv4_then_Send_is_sticky sample_kernel sample_recv4 51820 [192; 0; 2; 1]
           4 6 [1; 2; 3] [] eq_refl eq_refl eq_refl eq_refl
           ltac:(vm_compute; intros H; discriminate H) eq_refl
           ltac:(split; [vm_compute; intros H; discriminate H | reflexivity])).
Defined.

Lemma ReceiveIPv6_then_Send_is_sticky_witness :
  exists e rest,
    ReceiveIPv6 sample_recv6 = (148, e, None)
    /\ (Send sample_kernel 4 6 [1; 2; 3] e []).1
       = mkCall 6 [1; 2; 3] (mkCmsg 41 50 36 sample_local6 2) (51820, sample_addr6, 2) :: rest.
Proof.
  exact (ReceiveIPv6_then_Send_is_sticky sample_kernel sample_recv6 51820 0 sample_addr6
           4 6 [1; 2; 3] [] eq_refl eq_refl eq_refl eq_refl
           ltac:(vm_compute; intros H; discriminate H) eq_refl).
Defined.

End ReceiveFacts.

(** ** The listener for route changes *)

Module RouteFacts.
Import Wire Bind Route WireFacts.

Lemma le_value_zeros l : Forall (fun b => b = 0) l -> le_value l = 0.
Proof. induction 1 as [|b l Hb _ IH]; cbn; [reflexivity|]. lia. Qed.

Lemma ClearSrc_ifindex e : src4_ifindex (ClearSrc e) = 0.
Proof.
  unfold src4_ifindex, int32_of, ClearSrc, subslice. cbn [src].
  rewrite le_value_zeros; [reflexivity|].
  apply Forall_take, Forall_drop, Forall_forall.
  intros b Hb. apply list_elem_of_fmap in Hb as (? & -> & _). reflexivity.
Qed.

Lemma ClearSrc_idem e : ClearSrc (ClearSrc e) = ClearSrc e.
Proof.
  unfold ClearSrc. cbn. f_equal.
  rewrite <- list_fmap_compose. reflexivity.
Qed.

Lemma kept_refl e : kept e e.
Proof. now left. Qed.

Lemma kept_trans e1 e2 e3 : kept e1 e2 -> kept e2 e3 -> kept e1 e3.
Proof.
  intros [->| ->] [->| ->]; unfold kept; auto.
  rewrite ClearSrc_idem. auto.
Qed.

Lemma attr_loop_kept fuel : forall attr e e',
  attr_loop fuel attr e = Some e' -> kept e e'.
Proof.
  induction fuel as [|fuel IH]; intros attr e e'; cbn [attr_loop]; [discriminate|].
  repeat case_decide; intros Hrun; try (injection Hrun as <-; apply kept_refl);
    apply IH in Hrun; try exact Hrun.
  eapply kept_trans; [|exact Hrun]. now right.
Qed.

(** The loop over the attributes ends: every turn drops four bytes or
    more. *)
Lemma attr_loop_total fuel : forall attr e,
  (length attr < fuel)%nat -> is_Some (attr_loop fuel attr e).
Proof.
  induction fuel as [|fuel IH]; intros attr e Hlen; [lia|].
  cbn [attr_loop]. unfold SizeofRtAttr in *.
  repeat case_decide; try (eexists; reflexivity);
    apply IH; rewrite length_drop; lia.
Qed.

Lemma attr_walk_kept attr e : kept e (attr_walk attr e).
Proof.
  unfold attr_walk.
  destruct (attr_loop_total (S (length attr)) attr e) as [e' He']; [lia|].
  rewrite He'. cbn. eapply attr_loop_kept; exact He'.
Qed.

Lemma follows_refl st : follows st st.
Proof.
  split; [reflexivity|]. destruct (last st) as [e|] eqn:He; [|reflexivity].
  split; [reflexivity|]. split; [apply kept_refl|]. split; [eexists; reflexivity|].
  exists 0%nat. cbn. now rewrite app_nil_r.
Qed.

Lemma follows_trans st1 st2 st3 : follows st1 st2 -> follows st2 st3 -> follows st1 st3.
Proof.
  intros [Hm1 H1] [Hm2 H2]. split; [congruence|].
  destruct (last st1) as [e|] eqn:He1.
  - destruct H1 as (Hidle1 & Hk1 & [e2 He2] & n1 & Hw1).
    rewrite He2 in H2, Hk1. cbn in Hk1.
    destruct H2 as (Hidle2 & Hk2 & [e3 He3] & n2 & Hw2).
    rewrite He3 in Hk2 |- *. cbn in Hk2 |- *.
    destruct Hk1 as [-> | ->].
    + split; [intros Hc; rewrite (Hidle2 Hc); auto|].
      split; [exact Hk2|]. split; [eexists; reflexivity|].
      exists (n1 + n2)%nat. rewrite Hw2, Hw1, Hm1, replicate_add, app_assoc. reflexivity.
    + assert (Heq : st3 = st2) by (apply Hidle2; right; apply ClearSrc_ifindex).
      subst st3. rewrite He2 in He3. injection He3 as <-.
      split; [intros Hc; auto|]. split; [now right|]. split; [eexists; reflexivity|].
      exists n1. exact Hw1.
  - subst st2. rewrite He1 in H2. exact H2.
Qed.

Lemma handle_follows remain st : follows st (handle remain st).
Proof.
  unfold handle.
  case_decide as Htype; [|apply follows_refl].
  destruct (last st) as [e|] eqn:He; [|apply follows_refl].
  destruct (isV6 e || bool_decide (src4_ifindex e = 0)) eqn:Hidle; [apply follows_refl|].
  apply orb_false_iff in Hidle as [Hv6 Hidx]. apply bool_decide_eq_false in Hidx.
  repeat case_decide; try apply follows_refl.
  - split; [reflexivity|]. rewrite He. cbn.
    split; [intros [Hc|Hc]; congruence|].
    split; [apply attr_walk_kept|]. split; [eexists; reflexivity|].
    exists 0%nat. cbn. now rewrite app_nil_r.
  - split; [reflexivity|]. rewrite He. cbn. rewrite ?He. cbn.
    split; [intros [Hc|Hc]; congruence|].
    split; [apply kept_refl|]. split; [eexists; reflexivity|].
    exists 1%nat. reflexivity.
Qed.

Lemma msg_loop_follows fuel : forall remain st,
  follows st (state_of (msg_loop fuel remain st)).
Proof.
  induction fuel as [|fuel IH]; intros remain st; cbn [msg_loop];
    [apply follows_refl|].
  repeat case_decide; try apply follows_refl.
  eapply follows_trans; [apply handle_follows | apply IH].
Qed.

(** The listener does nothing but clear the source of the last endpoint
    and ask for routes.  However far it has got with whatever the netlink
    socket gave it, it has not touched [lastMark]; without an endpoint,
    with one of IPv6, or with one that has no interface cached, it has done
    nothing at all; otherwise the endpoint has its destination and family
    as before and its source either as before or cleared, and everything
    written to the socket is the request for the route to that endpoint. *)
Theorem route_listener_only_clears_source fuel msgs st :
  follows st (state_of (routineRouteListener fuel msgs st)).
Proof.
  revert st. induction msgs as [|msg msgs IH]; intros st; cbn [routineRouteListener];
    [apply follows_refl|].
  pose proof (msg_loop_follows fuel msg st) as Hm.
  destruct (msg_loop fuel msg st) as [st'|st']; cbn in Hm.
  - eapply follows_trans; [exact Hm | apply IH].
  - exact Hm.
Qed.

Lemma NlMsghdr_fields len typ flags seq pid rest :
  let remain := NlMsghdr len typ flags seq pid ++ rest in
  le_value (subslice 0 4 remain) = len mod 2 ^ 32
  /\ le_value (subslice 4 2 remain) = typ mod 2 ^ 16
  /\ le_value (subslice 8 4 remain) = seq mod 2 ^ 32
  /\ length remain = (16 + length rest)%nat.
Proof.
  intros remain.
  replace (subslice 0 4 remain) with (le_digits 4 len) by reflexivity.
  replace (subslice 4 2 remain) with (le_digits 2 typ) by reflexivity.
  replace (subslice 8 4 remain) with (le_digits 4 seq) by reflexivity.
  rewrite !le_value_digits. repeat split.
Qed.

(** A header of length 0 keeps the listener in the loop over the messages
    for ever: the slice [remain] never gets shorter.  When the header is a
    change of route and the last endpoint has an interface cached, every
    turn writes one more request to the netlink socket. *)
Theorem zero_length_header_never_ends remain :
  Z.of_nat (length remain) >= SizeofNlMsghdr ->
  le_value (subslice 0 4 remain) = 0 ->
  forall fuel st,
    exists st',
      msg_loop fuel remain st = Turning st'
      /\ forall e,
           last st = Some e -> isV6 e = false -> src4_ifindex e <> 0 ->
           le_value (subslice 4 2 remain) = RTM_NEWROUTE
           \/ le_value (subslice 4 2 remain) = RTM_DELROUTE ->
           le_value (subslice 8 4 remain) <> 255 ->
           st' = mkListener (Some e) (lastMark st)
                   (written st ++ replicate fuel (nlmsg e (lastMark st))).
Proof.
  intros Hlen Hzero fuel.
  induction fuel as [|fuel IH]; intros st.
  - exists st. split; [reflexivity|]. intros e He _ _ _ _.
    cbn. rewrite app_nil_r. destruct st; cbn in *; congruence.
  - cbn [msg_loop]. rewrite Hzero.
    rewrite decide_True by exact Hlen. rewrite decide_False by lia.
    change (drop (Z.to_nat 0) remain) with remain.
    destruct (IH (handle remain st)) as (st' & Hrun & Hreq).
    exists st'. split; [exact Hrun|].
    intros e He Hv6 Hidx Htype Hseq.
    assert (Hh : handle remain st
                 = mkListener (Some e) (lastMark st)
                     (written st ++ [nlmsg e (lastMark st)])).
    { unfold handle. rewrite decide_True by exact Htype. rewrite He, Hv6.
      rewrite bool_decide_eq_false_2 by exact Hidx. cbn [orb].
      rewrite decide_False by exact Hseq. reflexivity. }
    rewrite (Hreq e); rewrite ?Hh; cbn; try reflexivity; try assumption.
    rewrite <- app_assoc. reflexivity.
Qed.

Lemma attributes_length attrs : (length attrs <= length (attributes attrs))%nat.
Proof.
  unfold attributes. induction attrs as [|a attrs IH]; cbn; [lia|].
  rewrite !length_app. cbn. lia.
Qed.

Lemma attr_loop_attributes attrs : forall fuel e,
  (length attrs < fuel)%nat ->
  Forall (fun a => 0 <= a.1 < 2 ^ 16 /\ 4 + Z.of_nat (length a.2) < 2 ^ 16) attrs ->
  attr_loop fuel (attributes attrs) e
  = Some (if existsb (other_interface (src4_ifindex e)) attrs then ClearSrc e else e).
Proof.
  induction attrs as [|[typ payload] attrs IH]; intros fuel e Hfuel Hok.
  - destruct fuel as [|fuel]; [cbn in Hfuel; lia|]. reflexivity.
  - destruct fuel as [|fuel]; [cbn in Hfuel; lia|].
    apply Forall_cons in Hok as [[Htyp Hpay] Hok]. cbn [fst snd] in Htyp, Hpay.
    cbn [attr_loop].
    change (attributes ((typ, payload) :: attrs))
      with (RtAttr (SizeofRtAttr + Z.of_nat (length payload)) typ
              ++ (payload ++ attributes attrs)).
    set (len := SizeofRtAttr + Z.of_nat (length payload)).
    set (attr := RtAttr len typ ++ payload ++ attributes attrs).
    assert (Hlen : length attr = (4 + length payload + length (attributes attrs))%nat).
    { unfold attr. rewrite !length_app. cbn. lia. }
    replace (subslice 0 2 attr) with (le_digits 2 len) by reflexivity.
    replace (subslice 2 2 attr) with (le_digits 2 typ) by reflexivity.
    rewrite !le_value_digits. change (256 ^ Z.of_nat 2) with (2 ^ 16).
    unfold SizeofRtAttr in *.
    rewrite (Z.mod_small len), (Z.mod_small typ) by (unfold len; lia).
    rewrite decide_False by lia. rewrite decide_False by (unfold len; lia).
    replace (drop (Z.to_nat len) attr) with (attributes attrs).
    2:{ unfold attr. rewrite app_assoc. symmetry. apply drop_app_length'.
        rewrite length_app. cbn. unfold len. lia. }
    rewrite IH by (cbn in Hfuel; first [lia | exact Hok]).
    f_equal. cbn [existsb].
    destruct (decide (typ = RTA_OIF /\ len = 4 + 4)) as [[Ht Hl]|Hno].
    + assert (Hp : length payload = 4%nat) by (unfold len in Hl; lia).
      replace (subslice 4 4 attr)
        with (take (length payload) (payload ++ attributes attrs))
        by (rewrite Hp; reflexivity).
      rewrite take_app_length.
      destruct (decide (uint32 (src4_ifindex e) <> le_value payload)) as [Hne|Heq].
      * assert (Ho : other_interface (src4_ifindex e) (typ, payload) = true).
        { unfold other_interface. cbn [fst snd].
          rewrite !bool_decide_eq_true_2 by assumption.
          rewrite bool_decide_eq_false_2 by congruence. reflexivity. }
        rewrite Ho. cbn [orb].
        rewrite ClearSrc_idem. destruct (existsb _ attrs); reflexivity.
      * assert (Ho : other_interface (src4_ifindex e) (typ, payload) = false).
        { unfold other_interface. cbn [fst snd].
          rewrite (bool_decide_eq_true_2 (le_value payload = uint32 (src4_ifindex e))).
          - now rewrite andb_false_r.
          - destruct (decide (le_value payload = uint32 (src4_ifindex e)));
              [assumption | exfalso; apply Heq; congruence]. }
        rewrite Ho. reflexivity.
    + assert (Ho : other_interface (src4_ifindex e) (typ, payload) = false).
      { unfold other_interface. cbn [fst snd].
        destruct (decide (typ = RTA_OIF)) as [Ht|Ht];
          [|now rewrite (bool_decide_eq_false_2 _ Ht)].
        rewrite (bool_decide_eq_false_2 (length payload = 4%nat));
          [now rewrite andb_false_r|].
        intros Hp. apply Hno. split; [exact Ht|]. unfold len. lia. }
      rewrite Ho. reflexivity.
Qed.

Lemma reply_handled fuel st e typ pid rtmsg attrs :
  last st = Some e -> isV6 e = false -> src4_ifindex e <> 0 ->
  typ = RTM_NEWROUTE \/ typ = RTM_DELROUTE ->
  length rtmsg = 12%nat ->
  Forall (fun a => 0 <= a.1 < 2 ^ 16 /\ 4 + Z.of_nat (length a.2) < 2 ^ 16) attrs ->
  28 + Z.of_nat (length (attributes attrs)) < 2 ^ 32 ->
  (2 <= fuel)%nat ->
  msg_loop fuel (reply typ pid rtmsg attrs) st
  = Done (mkListener
            (Some (if existsb (other_interface (src4_ifindex e)) attrs
                   then ClearSrc e else e))
            (lastMark st) (written st)).
Proof.
  intros He Hv6 Hidx Htyp Hrt Hok Hsize Hfuel.
  destruct fuel as [|[|fuel]]; try lia.
  unfold reply. set (L := Z.of_nat (length (attributes attrs))) in *.
  set (remain := NlMsghdr _ _ _ _ _ ++ _).
  destruct (NlMsghdr_fields (SizeofNlMsghdr + SizeofRtMsg + L) typ 0 255 pid
              (rtmsg ++ attributes attrs)) as (Hl & Ht & Hs & Hn).
  fold remain in Hl, Ht, Hs, Hn.
  unfold SizeofNlMsghdr, SizeofRtMsg in *.
  rewrite Z.mod_small in Hl by lia.
  assert (Ht' : le_value (subslice 4 2 remain) = typ)
    by (rewrite Ht; destruct Htyp as [-> | ->]; reflexivity).
  change (255 mod 2 ^ 32) with 255 in Hs.
  rewrite length_app, Hrt in Hn.
  assert (Hdrop : drop (Z.to_nat (16 + 12 + L)) remain = []).
  { apply drop_ge. rewrite Hn. unfold L. lia. }
  assert (Hh : handle remain st
               = mkListener
                   (Some (if existsb (other_interface (src4_ifindex e)) attrs
                          then ClearSrc e else e))
                   (lastMark st) (written st)).
  { unfold handle. rewrite Hl, Ht', Hs. rewrite decide_True by exact Htyp.
    rewrite He, Hv6. rewrite bool_decide_eq_false_2 by exact Hidx. cbn [orb].
    rewrite decide_True by reflexivity.
    rewrite decide_False by (rewrite Hn; unfold L; lia).
    unfold SizeofNlMsghdr, SizeofRtMsg.
    case_decide as Hmore.
    - replace (drop (Z.to_nat (16 + 12)) remain) with (attributes attrs).
      2:{ unfold remain. rewrite app_assoc. symmetry. apply drop_app_length'.
          rewrite length_app, Hrt. reflexivity. }
      unfold attr_walk.
      rewrite attr_loop_attributes
        by (first [exact Hok | pose proof (attributes_length attrs); lia]).
      reflexivity.
    - assert (Hnil : attrs = []).
      { destruct attrs as [|a attrs]; [reflexivity|]. exfalso.
        unfold L, attributes in Hmore. cbn in Hmore.
        rewrite !length_app in Hmore. cbn in Hmore. lia. }
      subst attrs. cbn. destruct st; cbn in *; congruence. }
  cbn [msg_loop]. rewrite Hl. unfold SizeofNlMsghdr.
  rewrite decide_True by (rewrite Hn; lia).
  rewrite decide_False by (rewrite Hn; unfold L; lia).
  rewrite Hdrop, Hh. reflexivity.
Qed.

Lemma notice_handled fuel st e typ flags seq pid body :
  last st = Some e -> isV6 e = false -> src4_ifindex e <> 0 ->
  typ = RTM_NEWROUTE \/ typ = RTM_DELROUTE ->
  seq mod 2 ^ 32 <> 255 ->
  16 + Z.of_nat (length body) < 2 ^ 32 ->
  (2 <= fuel)%nat ->
  msg_loop fuel (notice typ flags seq pid body) st
  = Done (mkListener (Some e) (lastMark st) (written st ++ [nlmsg e (lastMark st)])).
Proof.
  intros He Hv6 Hidx Htyp Hseq Hsize Hfuel.
  destruct fuel as [|[|fuel]]; try lia.
  unfold notice. set (remain := NlMsghdr _ _ _ _ _ ++ _).
  destruct (NlMsghdr_fields (SizeofNlMsghdr + Z.of_nat (length body)) typ flags seq pid
              body) as (Hl & Ht & Hs & Hn).
  fold remain in Hl, Ht, Hs, Hn. unfold SizeofNlMsghdr in *.
  rewrite Z.mod_small in Hl by lia.
  assert (Ht' : le_value (subslice 4 2 remain) = typ)
    by (rewrite Ht; destruct Htyp as [-> | ->]; reflexivity).
  assert (Hdrop : drop (Z.to_nat (16 + Z.of_nat (length body))) remain = []).
  { apply drop_ge. rewrite Hn. lia. }
  assert (Hh : handle remain st
               = mkListener (Some e) (lastMark st)
                   (written st ++ [nlmsg e (lastMark st)])).
  { unfold handle. rewrite Ht', Hs. rewrite decide_True by exact Htyp.
    rewrite He, Hv6. rewrite bool_decide_eq_false_2 by exact Hidx. cbn [orb].
    rewrite decide_False by exact Hseq. reflexivity. }
  cbn [msg_loop]. rewrite Hl. unfold SizeofNlMsghdr.
  rewrite decide_True by (rewrite Hn; lia).
  rewrite decide_False by (rewrite Hn; lia).
  rewrite Hdrop, Hh. reflexivity.
Qed.

(** The listener reads the reply to its request right: with an IPv4
    endpoint that has an interface cached, a reply (sequence number 0xff)
    laid out as netlink does, alone in its buffer, clears the source of
    the endpoint exactly when one of its attributes is an [RTA_OIF] of four
    bytes that names another interface than the cached one.  Nothing is
    written, and the loop over the buffer ends. *)
Theorem route_reply_clears_on_other_interface fuel st e typ pid rtmsg attrs :
  last st = Some e -> isV6 e = false -> src4_ifindex e <> 0 ->
  typ = RTM_NEWROUTE \/ typ = RTM_DELROUTE ->
  length rtmsg = 12%nat ->
  Forall (fun a => 0 <= a.1 < 2 ^ 16 /\ 4 + Z.of_nat (length a.2) < 2 ^ 16) attrs ->
  28 + Z.of_nat (length (attributes attrs)) < 2 ^ 32 ->
  (2 <= fuel)%nat ->
  msg_loop fuel (reply typ pid rtmsg attrs) st
  = Done (mkListener
            (Some (if existsb (other_interface (src4_ifindex e)) attrs
                   then ClearSrc e else e))
            (lastMark st) (written st)).
Proof. apply reply_handled. Qed.

(** A change of route and the answer to the question it raises.  With an
    IPv4 endpoint that has an interface cached, a message of the kernel
    about a new or a deleted route (any sequence number but 0xff) makes
    the listener write one request, of 52 bytes and with the sequence
    number 0xff, for the route to the endpoint; the reply then clears the
    source of the endpoint when it names another interface, and leaves it
    when it names the cached one.  The listener writes nothing more and
    returns when the socket fails. *)
Theorem route_change_then_reply fuel st e typ flags seq pid body typ' pid' rtmsg attrs :
  last st = Some e -> isV6 e = false -> src4_ifindex e <> 0 ->
  length (dst_Addr e) = 4%nat -> (4 <= length (src e))%nat ->
  typ = RTM_NEWROUTE \/ typ = RTM_DELROUTE ->
  seq mod 2 ^ 32 <> 255 ->
  16 + Z.of_nat (length body) < 2 ^ 32 ->
  typ' = RTM_NEWROUTE \/ typ' = RTM_DELROUTE ->
  length rtmsg = 12%nat ->
  Forall (fun a => 0 <= a.1 < 2 ^ 16 /\ 4 + Z.of_nat (length a.2) < 2 ^ 16) attrs ->
  28 + Z.of_nat (length (attributes attrs)) < 2 ^ 32 ->
  (2 <= fuel)%nat ->
  routineRouteListener fuel [notice typ flags seq pid body; reply typ' pid' rtmsg attrs] st
  = Done (mkListener
            (Some (if existsb (other_interface (src4_ifindex e)) attrs
                   then ClearSrc e else e))
            (lastMark st) (written st ++ [nlmsg e (lastMark st)]))
  /\ length (nlmsg e (lastMark st)) = 52%nat
  /\ le_value (subslice 0 4 (nlmsg e (lastMark st))) = 52
  /\ le_value (subslice 8 4 (nlmsg e (lastMark st))) = 255.
Proof.
  intros He Hv6 Hidx Hdst Hsrc Htyp Hseq Hsize Htyp' Hrt Hok Hsize' Hfuel.
  split; [|split; [|split; reflexivity]].
  - cbn [routineRouteListener].
    rewrite (notice_handled fuel st e) by assumption.
    rewrite (reply_handled fuel _ e) by first [assumption | reflexivity].
    reflexivity.
  - unfold nlmsg, NlMsghdr, RtMsg, RtAttr, src4_src, subslice.
    rewrite !length_app, !le_digits_length, Hdst, length_take, length_drop.
    cbn [length]. lia.
Qed.

End RouteFacts.

Module RouteWitness.
Import Wire Bind Route RouteFacts.

Lemma zero_length_header_never_ends_witness :
  msg_loop 3 (NlMsghdr 0 RTM_NEWROUTE 0 0 0) sample_listener
  = Turning (mkListener (Some sample_endpoint) 0 (replicate 3 (nlmsg sample_endpoint 0))).
Proof.
  destruct (zero_length_header_never_ends (NlMsghdr 0 RTM_NEWROUTE 0 0 0)
              ltac:(vm_compute; intros H; discriminate H) eq_refl 3%nat sample_listener)
    as (st' & Hrun & Hreq).
  rewrite Hrun. f_equal.
  apply (Hreq sample_endpoint); [reflexivity | reflexivity | | left; reflexivity | ];
    vm_compute; intros H; discriminate H.
Defined.

Lemma route_reply_clears_on_other_interface_witness :
  msg_loop 2 (sample_reply 5) sample_listener
  = Done (mkListener (Some (ClearSrc sample_endpoint)) 0 []).
Proof.
  apply (route_reply_clears_on_other_interface 2 sample_listener sample_endpoint
           RTM_NEWROUTE 0 sample_rtmsg
           [(RTA_DST, [192; 0; 2; 1]); (RTA_OIF, le_digits 4 5); (RTA_SRC, [10; 0; 0; 9])]);
    try reflexivity; try (left; reflexivity); try (vm_compute; intros H; discriminate H);
    try (repeat constructor; vm_compute; intros H; discriminate H).
Defined.

Lemma route_change_then_reply_witness :
  routineRouteListener 2 [sample_change; sample_reply 3] sample_listener
  = Done (mkListener (Some sample_endpoint) 0 [nlmsg sample_endpoint 0]).
Proof.
  apply (route_change_then_reply 2 sample_listener sample_endpoint
           RTM_NEWROUTE 0 0 0 sample_rtmsg RTM_NEWROUTE 0 sample_rtmsg
           [(RTA_DST, [192; 0; 2; 1]); (RTA_OIF, le_digits 4 3); (RTA_SRC, [10; 0; 0; 9])]);
    try reflexivity; try (left; reflexivity); try (vm_compute; intros H; discriminate H);
    try (repeat constructor; vm_compute; intros H; discriminate H).
  all: cbn; lia.
Defined.

End RouteWitness.

(** ** The socket of the configuration protocol *)

Module UapiFacts.
Import Uapi.

Section Calls.
Variable system : System.
Variable Join : string -> string -> string.

(** Take apart the answers of the system on which the code branches. *)
Ltac answer :=
  match goal with
  | |- context [err (system ?t ?c)] => destruct (system t c) as [? [?|]]
  end.

(** [UAPIOpen] does not take the socket of a process that is running.
    It removes nothing but the socket of its own name, once at most, and
    only after listening on it has failed and dialling it has failed too.
    When something answers the dial it gives up with the error
    [unix socket in use], having removed nothing and listened once.  It
    returns a file only without an error, and only when the last time it
    listened succeeded. *)
Theorem UAPIOpen_spares_live_socket name tr0 :
  let p := socketPath Join name in
  let r := UAPIOpen system Join name tr0 in
  exists evs,
    r.1 = tr0 ++ evs
    /\ (removed evs = []
        \/ removed evs = [p]
           /\ exists l e1 e2 rest,
                listened evs = (p, l) :: rest /\ err l = Some e1
                /\ dialled evs = [(p, Some e2)])
    /\ ((p, None) ∈ dialled evs ->
        removed evs = [] /\ length (listened evs) = 1%nat
        /\ r.2 = (None, Some (ErrorString "unix socket in use")))
    /\ (forall f, r.2.1 = Some f ->
        r.2.2 = None
        /\ exists l, last (listened evs) = Some (p, l) /\ err l = None).
Proof.
  intros p r. subst r.
  unfold UAPIOpen, listen, bind, sys, ret.
  repeat (first [answer | match goal with |- context [IsExist ?e] => destruct (IsExist e) end];
          cbn);
    (eexists; split; [rewrite <- ?app_assoc; reflexivity|]; cbn;
     split; [first [left; reflexivity | right; split; [reflexivity|]; eauto 10]|];
     split; [intros Hin|intros f Hf; first [discriminate | split; [reflexivity|]; eauto]]);
    first [ repeat split; reflexivity
          | exfalso;
            repeat (apply elem_of_cons in Hin as [Hin|Hin]; [discriminate Hin|]);
            apply elem_of_nil in Hin; exact Hin ].
Qed.

End Calls.

Lemma UAPIOpen_sample_live :
  (UAPIOpen sample_live sample_join "wg0" []).2
  = (None, Some (ErrorString "unix socket in use"))
  /\ removed (UAPIOpen sample_live sample_join "wg0" []).1 = [].
Proof. split; reflexivity. Qed.

Lemma UAPIOpen_sample_stale :
  (UAPIOpen sample_stale sample_join "wg0" []).2 = (Some 8, None)
  /\ removed (UAPIOpen sample_stale sample_join "wg0" []).1
     = ["/var/run/wireguard/wg0.sock"].
Proof. split; reflexivity. Qed.

End UapiFacts.
